(** * tinygrad GPU backend ([tinygrad/ops_gpu.py]): shape algebra, kernels
      and operation layer, with the properties of its specification.

    The host side (Python) is embedded as functions in a state-and-error
    monad over a [World] that holds the device memory, the process-wide
    kernel cache of [clbuild] and a log of compilations and kernel launches.
    The OpenCL kernels are embedded as functions from a work-item id to the
    store the work-item performs; [int] and [uint] arithmetic is 32-bit with
    its wrap-around written out.

    Buffer elements are [float] in the source.  They are represented by
    integers here: the kernels' [+], [*], [>], [max] are the integer ones and
    the inlined scalar expression of an elementwise kernel is a parameter.
    A [float] holds every integer of magnitude up to 2^24 and adds,
    subtracts and multiplies such integers without rounding as long as the
    result is one of them; the properties that state the value of a sum or of
    a product are stated for such data ([f32_sum_exact], [f32_dot_exact]).
    Rounding, NaN and infinities are outside this model. *)

From Stdlib Require Import ZArith Lia Ascii String.
From stdpp Require Import base decidable option strings numbers list.

Local Open Scope string_scope.
Local Open Scope list_scope.
Local Open Scope Z_scope.

(* ===================================================================== *)
(** * Machine integers *)
(* ===================================================================== *)

(** [np.int32(z)] and the value of a C [int] expression: two's complement
    wrap-around to 32 bits. *)
Definition wrap32 (z : Z) : Z := (z + 2^31) `mod` 2^32 - 2^31.

(** The value of an OpenCL [uint] expression. *)
Definition wrapu32 (z : Z) : Z := z `mod` 2^32.

Definition i32 : Z → Z := wrap32.

Definition int_max : Z := 2^31 - 1.

(** C [int] operators; [/] and [%] truncate towards zero. *)
Definition int_add (a b : Z) : Z := wrap32 (a + b).
Definition int_mul (a b : Z) : Z := wrap32 (a * b).
Definition int_div (a b : Z) : Z := wrap32 (a ÷ b).
Definition int_rem (a b : Z) : Z := Z.rem a b.

(** OpenCL [uint] operators (an [int] operand is converted to [uint]). *)
Definition uint_add (a b : Z) : Z := wrapu32 (wrapu32 a + wrapu32 b).
Definition uint_mul (a b : Z) : Z := wrapu32 (wrapu32 a * wrapu32 b).
Definition uint_div (a b : Z) : Z := wrapu32 a `div` wrapu32 b.
Definition uint_rem (a b : Z) : Z := wrapu32 a `mod` wrapu32 b.
Definition uint_ltb (a b : Z) : bool := bool_decide (wrapu32 a < wrapu32 b).

(* ===================================================================== *)
(** * Shapes and numpy helpers *)
(* ===================================================================== *)

(** The product of the dimensions of a shape. *)
Definition np_prod (sh : list Z) : Z := foldr Z.mul 1 sh.

(** [np.prod(shape)] where its value decides a test: numpy multiplies 64-bit
    integers, which wrap around silently. *)
Definition wrap64 (z : Z) : Z := (z + 2^63) `mod` 2^64 - 2^63.
Definition np_prod_i64 (sh : list Z) : Z := wrap64 (np_prod sh).

(** [np.ones(n, dtype=np.int32)]. *)
Definition np_ones (n : nat) : list Z := replicate n 1.

(** [dst[:len(src)] = src], for [len(src) <= len(dst)]. *)
Definition assign_prefix (dst src : list Z) : list Z :=
  src ++ drop (length src) dst.

(** [np.array(shape, dtype=np.int32)]. *)
Definition np_array_i32 (sh : list Z) : list Z := map i32 sh.

(** [a[i]] for a global pointer [a]; an access outside the buffer is
    undefined in OpenCL and reads 0 here. *)
Definition load (a : list Z) (i : Z) : Z :=
  if bool_decide (0 ≤ i) then default 0 (a !! Z.to_nat i) else 0.

(** [a[i] = v]; a store outside the buffer is undefined in OpenCL and is
    dropped here. *)
Definition store (a : list Z) (w : option (Z * Z)) : list Z :=
  match w with
  | Some (i, v) => if bool_decide (0 ≤ i) then <[Z.to_nat i := v]> a else a
  | None => a
  end.

(** Whether a store falls inside the buffer. *)
Definition store_in_bounds (a : list Z) (w : option (Z * Z)) : bool :=
  match w with
  | Some (i, _) => bool_decide (0 ≤ i < Z.of_nat (length a))
  | None => true
  end.

(* ===================================================================== *)
(** * The world: device memory, kernel cache, logs *)
(* ===================================================================== *)

(** The arguments of [clbuild], the key of its [functools.lru_cache]. *)
Record Key := mkKey { key_ctx : nat; key_name : string; key_prg : string }.

Global Instance Key_eq_dec : EqDecision Key.
Proof. solve_decision. Defined.

(** A kernel handle, [cl.Program(cl_ctx, prg).build().__getattr__(name)]:
    [k_program] identifies the backing compiled program, the other fields
    determine what the kernel does. *)
Record Kernel := mkKernel {
  k_program : nat;
  k_ctx : nat;
  k_name : string;
  k_prg : string;
}.

(** The context, the entry point and the source text a kernel was built
    from; the build is deterministic, so they determine what the kernel
    does when launched. *)
Definition behavior (k : Kernel) : Key := mkKey (k_ctx k) (k_name k) (k_prg k).

(** The record of a kernel launch: the name of the kernel, and whether
    every store of the launch fell inside the output buffer. *)
Record Launch := mkLaunch { l_kernel : string; l_in_bounds : bool }.

Record World := mkWorld {
  mem : list (list Z);          (** device buffers, by handle *)
  kcache : list (Key * Kernel); (** [lru_cache] of [clbuild], most recent first *)
  builds : list Key;            (** one entry per program built *)
  launches : list Launch;       (** one entry per kernel launch *)
}.

Definition empty_world : World := mkWorld [] [] [] [].

(** Exceptions raised on the host. *)
Inductive Error :=
  | ShapeMismatch   (** [Exception("binary op unbroadcastable shape mismatch: ...")] *)
  | IndexError      (** numpy: index out of bounds *)
  | AssertionError  (** a failed [assert] *)
  | ValueError      (** a tuple unpacked to the wrong number of names *)
  | ZeroDivisionError
  | TypeError       (** an operation called with the wrong number of tensors *)
  | BuildError.     (** pyopencl: the program does not build, or has no kernel of
                        the requested name *)

Inductive Result (A : Type) :=
  | Ok (a : A)
  | Raise (e : Error).
Arguments Ok {A} a.
Arguments Raise {A} e.

Definition M (A : Type) : Type := World → Result A * World.

Definition ret {A} (a : A) : M A := λ w, (Ok a, w).
Definition raise {A} (e : Error) : M A := λ w, (Raise e, w).
Definition bind {A B} (m : M A) (k : A → M B) : M B :=
  λ w, match m w with
       | (Ok a, w') => k a w'
       | (Raise e, w') => (Raise e, w')
       end.

Notation "'let*' x ':=' m 'in' k" := (bind m (λ x, k))
  (at level 10, x pattern, m at level 100, k at level 200).

(** [assert c]. *)
Definition assert (c : bool) : M unit :=
  if c then ret tt else raise AssertionError.

(* ===================================================================== *)
(** * Kernel cache *)
(* ===================================================================== *)

(** [functools.lru_cache()] is called without arguments: [maxsize] has its
    default. *)
Definition lru_maxsize : nat := 128.

Fixpoint cache_find (k : Key) (c : list (Key * Kernel)) : option Kernel :=
  match c with
  | [] => None
  | (k', h) :: c' => if decide (k' = k) then Some h else cache_find k c'
  end.

Definition cache_remove (k : Key) (c : list (Key * Kernel)) : list (Key * Kernel) :=
  filter (λ e, e.1 ≠ k) c.

(** The OpenCL compiler is not part of this file: whether
    [cl.Program(cl_ctx, prg).build().__getattr__(name)] returns a kernel is a
    parameter. *)
Definition Compiler : Type := Key → bool.

(** [clbuild(cl_ctx, name, prg)] under [@functools.lru_cache()]: a hit
    returns the cached handle and makes the entry the most recent one; a miss
    builds the program, caches the handle and, when the cache is full, drops
    the least recently used entry.  When the build raises, so does the call,
    and [lru_cache] stores nothing. *)
Definition clbuild (cc : Compiler) (cl_ctx : nat) (name prg : string) : M Kernel := λ w,
  let k := mkKey cl_ctx name prg in
  match cache_find k (kcache w) with
  | Some h =>
      (Ok h, mkWorld (mem w) ((k, h) :: cache_remove k (kcache w)) (builds w) (launches w))
  | None =>
      if cc k then
        let h := mkKernel (length (builds w)) cl_ctx name prg in
        (Ok h, mkWorld (mem w) (take lru_maxsize ((k, h) :: kcache w))
                       (builds w ++ [k]) (launches w))
      else (Raise BuildError, w)
  end.

(** The operations of this file request the fixed program texts below,
    completed by scalar expressions that are given together with the
    functions they denote ([Code1], [Code2], [SubCode], [SupCode]): programs
    that build. *)
Definition kernels_build : Compiler := λ _, true.

(* ===================================================================== *)
(** * Device buffers *)
(* ===================================================================== *)

(** The per-call context of an operation: the OpenCL context and the
    keyword parameters the autograd layer binds to it. *)
Record Ctx := mkCtx {
  cl_ctx : nat;
  kernel_size : Z * Z;
  stride : Z * Z;
  groups : Z;
}.

(** A [GPUBuffer]: a shape and the handle [cl] of its device memory. *)
Record GPUBuffer := mkBuf { shape : list Z; cl : nat }.

Global Instance GPUBuffer_eq_dec : EqDecision GPUBuffer.
Proof. solve_decision. Defined.

(** Modelled from the spec: the device allocation behind [cl.Buffer] and the
    constructor [GPUBuffer] of [tinygrad/tensor.py], which are not part of
    this file.  A device buffer owns a fixed-size block of product(shape)
    elements, created from host data, full of zeros, or uninitialized; an
    uninitialized block is represented by zeros. *)
Definition cl_alloc (contents : list Z) : M nat := λ w,
  (Ok (length (mem w)),
   mkWorld (mem w ++ [contents]) (kcache w) (builds w) (launches w)).

(** Modelled from the spec: [GPUBuffer(shape)], a fresh uninitialized
    buffer of product(shape) elements. *)
Definition GPUBuffer_new (sh : list Z) : M GPUBuffer :=
  let* h := cl_alloc (replicate (Z.to_nat (np_prod sh)) 0) in
  ret (mkBuf sh h).

(** Modelled from the spec: [GPUBuffer(shape, hostbuf=array)] for a host
    array, a fresh buffer holding the array's elements. *)
Definition GPUBuffer_host (sh : list Z) (hostbuf : list Z) : M GPUBuffer :=
  let* h := cl_alloc hostbuf in
  ret (mkBuf sh h).

(** Modelled from the spec: [GPUBuffer(shape, hostbuf=x)] for a [GPUBuffer]
    [x], which reinterprets the shape without copying the underlying
    storage. *)
Definition GPUBuffer_alias (sh : list Z) (x : GPUBuffer) : GPUBuffer :=
  mkBuf sh (cl x).

Definition buffer_new (ctx : Ctx) (sh : list Z) : M GPUBuffer :=
  GPUBuffer_new sh.

Definition buffer_zeros (ctx : Ctx) (sh : list Z) : M GPUBuffer :=
  GPUBuffer_host sh (replicate (Z.to_nat (np_prod sh)) 0).

Definition buffer_like (ctx : Ctx) (x : GPUBuffer) : M GPUBuffer :=
  buffer_new ctx (shape x).

Definition buffer_np (ctx : Ctx) (np_array : list Z) : M nat :=
  cl_alloc np_array.

(** The contents of the device memory behind a handle. *)
Definition contents (w : World) (h : nat) : list Z := default [] (mem w !! h).

(* ===================================================================== *)
(** * Kernel launches *)
(* ===================================================================== *)

(** A launch of kernel [k] over the work-items [items].  The body of the
    kernel gives, from the memory at launch and the work-item id, the store
    the work-item performs into the buffer [out]; all other pointer
    arguments of the kernels of this file are [const].  No kernel launched
    through this function reads a location that it writes, so the stores are
    applied one work-item after the other. *)
Definition launch_in_bounds {G} (items : list G) (a : list Z)
    (body : G → option (Z * Z)) : bool :=
  forallb (λ g, store_in_bounds a (body g)) items.

Definition launch {G} (k : Kernel) (items : list G) (out : nat)
    (body : list (list Z) → G → option (Z * Z)) : M unit := λ w,
  let m := mem w in
  let o := foldl (λ b g, store b (body m g)) (default [] (m !! out)) items in
  let ok := launch_in_bounds items (default [] (m !! out)) (body m) in
  (Ok tt, mkWorld (<[out := o]> m) (kcache w) (builds w)
                  (launches w ++ [mkLaunch (k_name k) ok])).

(** The work-items of a one-dimensional range [[n]]. *)
Definition range1 (n : Z) : list Z := seqZ 0 n.

(** The work-items [(get_global_id(0), get_global_id(1), get_global_id(2))]
    of a three-dimensional range. *)
Definition range3 (n0 n1 n2 : Z) : list (Z * Z * Z) :=
  g0 ← seqZ 0 n0; g1 ← seqZ 0 n1; g2 ← seqZ 0 n2; [(g0, g1, g2)].

(** The memory behind a pointer argument. *)
Definition deref (m : list (list Z)) (h : nat) : list Z := default [] (m !! h).

(* ===================================================================== *)
(** * Elementwise binary kernels with broadcasting *)
(* ===================================================================== *)

(** The scalar expression inlined into a kernel: its text, which is part of
    the program source, and the function of [a] and [b] it denotes. *)
Record Code2 := mkCode2 { c2_text : string; c2_fn : Z → Z → Z }.

(** The same for an expression of one variable. *)
Record Code1 := mkCode1 { c1_text : string; c1_fn : Z → Z }.

Definition binop_prg (code : string) (x_shape_ne_y_shape : bool) : string :=
  "
  __kernel void binop(__global const float *a_g, __global const float *b_g, __global float *res_g, int n_dims, int prod,
          __global const int *shape_x, __global const int *shape_y, __global const int *shape_ret) {
    // invariant: prod should contain the product of all dimensions (of the returned tensor) that we haven't handled yet
    int gid = get_global_id(0);
    " +:+
  (if x_shape_ne_y_shape then "
    int idx_a = 0, idx_b = 0;
    for (int dim = 0; dim < n_dims; dim++) {
      prod /= shape_ret[dim];                       // mark current dimension as handled
      int idx_ret = (gid / prod) % shape_ret[dim];  // the index into the current dimension (for the returned tensor)
      idx_a = (idx_a * shape_x[dim]) + (idx_ret % shape_x[dim]); // does nothing if shape_x[dim] is 1
      idx_b = (idx_b * shape_y[dim]) + (idx_ret % shape_y[dim]); // does nothing if shape_y[dim] is 1
    }
    " else "int idx_a = gid, idx_b = gid;") +:+
  "
    float a = a_g[idx_a];
    float b = b_g[idx_b];
    res_g[gid] = " +:+
  code +:+
  ";
  }".

(** One iteration of the loop over [dim] of the [binop] kernel, on the
    variables [prod], [idx_a], [idx_b]. *)
Definition binop_step (gid : Z) (shape_x shape_y shape_ret : list Z)
    (st : Z * Z * Z) (dim : Z) : Z * Z * Z :=
  let '(prod, idx_a, idx_b) := st in
  let prod := int_div prod (load shape_ret dim) in
  let idx_ret := int_rem (int_div gid prod) (load shape_ret dim) in
  let idx_a := int_add (int_mul idx_a (load shape_x dim)) (int_rem idx_ret (load shape_x dim)) in
  let idx_b := int_add (int_mul idx_b (load shape_y dim)) (int_rem idx_ret (load shape_y dim)) in
  (prod, idx_a, idx_b).

(** The general index mapping of [binop]: the values of [idx_a] and [idx_b]
    after the loop. *)
Definition binop_index (gid n_dims prod : Z) (shape_x shape_y shape_ret : list Z) : Z * Z :=
  let '(_, idx_a, idx_b) :=
    foldl (binop_step gid shape_x shape_y shape_ret) (prod, 0, 0) (seqZ 0 n_dims) in
  (idx_a, idx_b).

(** The specialized index mapping, [int idx_a = gid, idx_b = gid;]. *)
Definition binop_index_fast (gid : Z) : Z * Z := (gid, gid).

(** The work-item [gid] of the [binop] kernel. *)
Definition binop_kernel (code : Z → Z → Z) (x_shape_ne_y_shape : bool)
    (a_g b_g : list Z) (n_dims prod : Z) (shape_x shape_y shape_ret : list Z)
    (gid : Z) : option (Z * Z) :=
  let '(idx_a, idx_b) :=
    if x_shape_ne_y_shape
    then binop_index gid n_dims prod shape_x shape_y shape_ret
    else binop_index_fast gid in
  let a := load a_g idx_a in
  let b := load b_g idx_b in
  Some (gid, code a b).

(** The test [np.all((shape_x == 1) | (shape_y == 1) | (shape_x == shape_y))]. *)
Definition broadcastable (shape_x shape_y : list Z) : bool :=
  forallb (λ b : bool, b)
    (zip_with (λ sx sy, bool_decide (sx = 1) || bool_decide (sy = 1) || bool_decide (sx = sy))
       shape_x shape_y).

(** The two operand shapes as [binary_op] brings them to a common rank. *)
Definition padded_shape (n_dims : nat) (sh : list Z) : list Z :=
  assign_prefix (np_ones n_dims) (np_array_i32 sh).

Definition binary_op (ctx : Ctx) (code : Code2) (x y : GPUBuffer) : M GPUBuffer :=
  let n_dims := (length (shape x) `max` length (shape y))%nat in
  let shape_x := padded_shape n_dims (shape x) in
  let shape_y := padded_shape n_dims (shape y) in
  if negb (broadcastable shape_x shape_y) then raise ShapeMismatch else
  let shape_ret := zip_with Z.max shape_x shape_y in
  let* ret_ := buffer_new ctx shape_ret in
  let general := bool_decide (shape x ≠ shape y) in
  let* binop := clbuild kernels_build (cl_ctx ctx) "binop" (binop_prg (c2_text code) general) in
  let prod := i32 (np_prod shape_ret) in
  let* sx := buffer_np ctx shape_x in
  let* sy := buffer_np ctx shape_y in
  let* sr := buffer_np ctx shape_ret in
  let* _ := launch binop (range1 prod) (cl ret_)
              (λ m, binop_kernel (c2_fn code) general (deref m (cl x)) (deref m (cl y))
                      (i32 (Z.of_nat n_dims)) prod (deref m sx) (deref m sy) (deref m sr)) in
  ret ret_.

(* ===================================================================== *)
(** * Elementwise unary kernels *)
(* ===================================================================== *)

Definition unop_prg (code : string) : string :=
  "
  __kernel void unop(__global const float *a_g, __global float *res_g) {
    int gid = get_global_id(0);
    float a = a_g[gid];
    res_g[gid] = " +:+
  code +:+
  ";
  }".

Definition unop_kernel (code : Z → Z) (a_g : list Z) (g : Z) : option (Z * Z) :=
  let gid := wrap32 g in
  let a := load a_g gid in
  Some (gid, code a).

Definition unary_op (ctx : Ctx) (code : Code1) (x : GPUBuffer) : M GPUBuffer :=
  let* ret_ := buffer_like ctx x in
  let* unop := clbuild kernels_build (cl_ctx ctx) "unop" (unop_prg (c1_text code)) in
  let* _ := launch unop (range1 (np_prod (shape ret_))) (cl ret_)
              (λ m, unop_kernel (c1_fn code) (deref m (cl x))) in
  ret ret_.

(* ===================================================================== *)
(** * Reductions *)
(* ===================================================================== *)

Definition reduce_prg (code code2 : string) : string :=
  "
  __kernel void reduce(__global const float *a_g, int sz, __global float *res_g, int prod, int n_dims,
                       __global const int *shape_x, __global const int *shape_ret) {
    int gid = get_global_id(0);

    float out = 0.0;
    for (int x = 0; x < sz; x++) {
      int idx = 0;  // compute index into a_g
      int tprod = prod;
      int tsz = sz;
      for (int dim = 0; dim < n_dims; dim++) {
        idx *= shape_x[dim];
        if (shape_x[dim] == shape_ret[dim]) {   // dim from gid, don't reduce
          tprod /= shape_x[dim];
          idx += (gid / tprod) % shape_x[dim];
        } else {  // dim from x
          tsz /= shape_x[dim];
          idx += (x / tsz) % shape_x[dim];
        }
      }
      float a = a_g[idx];
      " +:+
  code +:+
  ";
    }
    res_g[gid] = " +:+
  code2 +:+
  ";
  }".

(** numpy's integer indexing of an array of length [n]: an index in
    [[-n, n)] is taken from the end when negative, any other index is an
    [IndexError]. *)
Definition np_index (n : nat) (i : Z) : option nat :=
  if bool_decide (0 ≤ i < Z.of_nat n) then Some (Z.to_nat i)
  else if bool_decide (- Z.of_nat n ≤ i < 0) then Some (Z.to_nat (i + Z.of_nat n))
  else None.

(** [a[list(idx)] = v] on a numpy array: every index is checked, then the
    elements are assigned. *)
Definition np_set_indices (a : list Z) (idx : list Z) (v : Z) : option (list Z) :=
  js ← mapM (np_index (length a)) idx;
  Some (foldl (λ a j, <[j := v]> a) a js).

(** One iteration of the loop over [dim] of the [reduce] kernel, on the
    variables [idx], [tprod], [tsz]. *)
Definition reduce_step (gid x : Z) (shape_x shape_ret : list Z)
    (st : Z * Z * Z) (dim : Z) : Z * Z * Z :=
  let '(idx, tprod, tsz) := st in
  let idx := int_mul idx (load shape_x dim) in
  if bool_decide (load shape_x dim = load shape_ret dim) then
    let tprod := int_div tprod (load shape_x dim) in
    let idx := int_add idx (int_rem (int_div gid tprod) (load shape_x dim)) in
    (idx, tprod, tsz)
  else
    let tsz := int_div tsz (load shape_x dim) in
    let idx := int_add idx (int_rem (int_div x tsz) (load shape_x dim)) in
    (idx, tprod, tsz).

(** The index into [a_g] that the work-item [gid] reads at iteration [x]. *)
Definition reduce_index (gid x sz prod n_dims : Z) (shape_x shape_ret : list Z) : Z :=
  let '(idx, _, _) :=
    foldl (reduce_step gid x shape_x shape_ret) (0, prod, sz) (seqZ 0 n_dims) in
  idx.

(** The work-item [gid] of the [reduce] kernel; [code] updates [out] from
    [a], [code2] is the value stored. *)
Definition reduce_kernel (code : Z → Z → Z) (code2 : Z → Z)
    (a_g : list Z) (sz prod n_dims : Z) (shape_x shape_ret : list Z)
    (g : Z) : option (Z * Z) :=
  let gid := wrap32 g in
  let out :=
    foldl (λ out x, code out (load a_g (reduce_index gid x sz prod n_dims shape_x shape_ret)))
      0 (seqZ 0 sz) in
  Some (gid, code2 out).

(** The shape [osize] that [reduce_op] computes for its output. *)
Definition reduce_osize (inp_shape : list Z) (axis : option (list Z)) : M (list Z) :=
  match axis with
  | None => ret (replicate (length inp_shape) 1)
  | Some axis =>
      match np_set_indices inp_shape axis 1 with
      | Some osize => ret osize
      | None => raise IndexError
      end
  end.

Definition reduce_op (ctx : Ctx) (code : Code2) (code2 : Code1) (inp : GPUBuffer)
    (axis : option (list Z)) : M GPUBuffer :=
  let* osize := reduce_osize (shape inp) axis in
  let* ret_ := buffer_new ctx osize in
  let ret_ := match axis with None => mkBuf [1] (cl ret_) | Some _ => ret_ end in
  let* reduce := clbuild kernels_build (cl_ctx ctx) "reduce" (reduce_prg (c2_text code) (c1_text code2)) in
  let sz := i32 (np_prod (shape inp) `div` np_prod osize) in
  let prod := i32 (np_prod osize) in
  let n_dims := i32 (Z.of_nat (length osize)) in
  let* sx := buffer_np ctx (np_array_i32 (shape inp)) in
  let* sr := buffer_np ctx (np_array_i32 osize) in
  let* _ := launch reduce (range1 (np_prod osize)) (cl ret_)
              (λ m, reduce_kernel (c2_fn code) (c1_fn code2) (deref m (cl inp))
                      sz prod n_dims (deref m sx) (deref m sr)) in
  ret ret_.

(** The list [[i for i in range(len(in_sh)) if in_sh[i]==1 and out.shape[i]>1]],
    for [i] running over [ixs]; [out.shape[i]] past the end of the tuple is
    an [IndexError]. *)
Fixpoint sum_axis_of (out_shape in_sh : list Z) (ixs : list nat) : option (list Z) :=
  match ixs with
  | [] => Some []
  | i :: ixs' =>
      if bool_decide (in_sh !! i = Some 1) then
        match out_shape !! i with
        | None => None
        | Some d =>
            rest ← sum_axis_of out_shape in_sh ixs';
            Some (if bool_decide (1 < d) then Z.of_nat i :: rest else rest)
        end
      else sum_axis_of out_shape in_sh ixs'
  end.

Definition code_sum : Code2 := mkCode2 "out += a" (λ out a, out + a).
Definition code_out : Code1 := mkCode1 "out" (λ out, out).

Definition unbroadcast (ctx : Ctx) (out : GPUBuffer) (in_sh : list Z) : M GPUBuffer :=
  let* sum_axis :=
    if bool_decide (in_sh ≠ [1]) then
      match sum_axis_of (shape out) in_sh (seq 0 (length in_sh)) with
      | Some axes => ret (Some axes)
      | None => raise IndexError
      end
    else ret None in
  reduce_op ctx code_sum code_out out sum_axis.

(* ===================================================================== *)
(** * Subsampling and supersampling (pooling) *)
(* ===================================================================== *)

(** An OpenCL [uint2]. *)
Record uint2 := mk_uint2 { u_x : Z; u_y : Z }.

(** [uint2(x, y)], an array of dtype [cl.cltypes.uint2]. *)
Definition make_uint2 (x y : Z) : uint2 := mk_uint2 (wrapu32 x) (wrapu32 y).

Definition subsample_prg (iter_op result_op decls : string) : string :=
  "
  __kernel void subsample(__global float *output, __global const float *input, uint2 osize, uint2 isize,
                          uint2 ksz, uint2 stride) {
    int3 gid = (int3)(get_global_id(2), get_global_id(1), get_global_id(0));
    int oid = gid.x + osize.x*(gid.y + osize.y*gid.z);
    " +:+
  decls +:+
  ";
    for (uint j=0; j<ksz.y; ++j) {
      for (uint i=0; i<ksz.x; ++i) {
        int iid = (gid.x*stride.x+i) + isize.x*((gid.y*stride.y+j) + isize.y*gid.z);
        if (gid.x*stride.x+i < isize.x && gid.y*stride.y+j < isize.y) {
          " +:+
  iter_op +:+
  ";
        }
      }
    }
    output[oid] = " +:+
  result_op +:+
  ";
  }".

Definition cl_subsample_krnl_build (cl_ctx : nat) (iter_op result_op decls : string) : M Kernel :=
  clbuild kernels_build cl_ctx "subsample" (subsample_prg iter_op result_op decls).

(** The three code fragments of a [subsample] kernel: the declarations
    give the initial value of the local variables (of type [S]), [iter_op]
    updates them from [input], [iid], [j], [i] and [ksz], [result_op] is the
    value stored. *)
Record SubCode (S : Type) := mkSubCode {
  sub_decls_text : string; sub_iter_text : string; sub_result_text : string;
  sub_decls : S;
  sub_iter : S → list Z → Z → Z → Z → uint2 → S;
  sub_result : S → uint2 → Z;
}.
Arguments mkSubCode {S}.
Arguments sub_decls_text {S}.
Arguments sub_iter_text {S}.
Arguments sub_result_text {S}.
Arguments sub_decls {S}.
Arguments sub_iter {S}.
Arguments sub_result {S}.

(** The output index [oid] of the work-item [(gid.x, gid.y, gid.z)]. *)
Definition pool_oid (osize : uint2) (gx gy gz : Z) : Z :=
  wrap32 (uint_add gx (uint_mul (u_x osize) (uint_add gy (uint_mul (u_y osize) gz)))).

(** The work-item of the [subsample] kernel;
    [gid = (get_global_id(2), get_global_id(1), get_global_id(0))]. *)
Definition subsample_kernel {S} (c : SubCode S) (input : list Z)
    (osize isize ksz stride : uint2) (g : Z * Z * Z) : option (Z * Z) :=
  let '(g0, g1, g2) := g in
  let gx := wrap32 g2 in
  let gy := wrap32 g1 in
  let gz := wrap32 g0 in
  let oid := pool_oid osize gx gy gz in
  let st :=
    foldl (λ st j,
      foldl (λ st i,
        let ix := uint_add (uint_mul gx (u_x stride)) i in
        let iy := uint_add (uint_mul gy (u_y stride)) j in
        let iid := wrap32 (uint_add ix (uint_mul (u_x isize) (uint_add iy (uint_mul (u_y isize) gz)))) in
        if uint_ltb ix (u_x isize) && uint_ltb iy (u_y isize)
        then sub_iter c st input iid j i ksz
        else st)
      st (seqZ 0 (u_x ksz)))
    (sub_decls c) (seqZ 0 (u_y ksz)) in
  Some (oid, sub_result c st ksz).

Definition subsample_op {S} (ctx : Ctx) (input : GPUBuffer) (kernel_size stride : Z * Z)
    (c : SubCode S) : M GPUBuffer :=
  let '(py, px) := stride in
  match shape input with
  | [N; C; Yin; Xin] =>
      if bool_decide (py = 0) || bool_decide (px = 0) then raise ZeroDivisionError else
      let Yout := (Yin - kernel_size.1) `div` py + 1 in
      let Xout := (Xin - kernel_size.2) `div` px + 1 in
      let* ret_ := buffer_zeros ctx [N; C; Yout; Xout] in
      let* subsample := cl_subsample_krnl_build (cl_ctx ctx)
                          (sub_iter_text c) (sub_result_text c) (sub_decls_text c) in
      let* _ := launch subsample (range3 (N * C) Yout Xout) (cl ret_)
                  (λ m, subsample_kernel c (deref m (cl input))
                          (make_uint2 Xout Yout) (make_uint2 Xin Yin)
                          (make_uint2 kernel_size.2 kernel_size.1) (make_uint2 px py)) in
      ret ret_
  | _ => raise ValueError
  end.

Definition supsample_prg (result_op decls : string) : string :=
  "
  __kernel void supsample(__global float *output, __global const float *input, __global const void *input2,
                          uint2 osize, uint2 isize, uint2 ksz) {
    int3 gid = (int3)(get_global_id(2), get_global_id(1), get_global_id(0));
    int oid = gid.x + osize.x*(gid.y + osize.y*gid.z);
    int iid = (gid.x/ksz.x) + isize.x*((gid.y/ksz.y) + isize.y*gid.z);
    " +:+
  decls +:+
  ";
    if (gid.x/ksz.x < isize.x && gid.y/ksz.y < isize.y) {
      output[oid] = " +:+
  result_op +:+
  ";
    }
  }".

Definition cl_supsample_krnl_build (cl_ctx : nat) (result_op decls : string) : M Kernel :=
  clbuild kernels_build cl_ctx "supsample" (supsample_prg result_op decls).

(** The code fragments of a [supsample] kernel: the value stored, from
    [input], [input2], [gid.x], [gid.y], [ksz] and [iid]. *)
Record SupCode := mkSupCode {
  sup_decls_text : string; sup_result_text : string;
  sup_result : list Z → list Z → Z → Z → uint2 → Z → Z;
}.

Definition supsample_kernel (c : SupCode) (input input2 : list Z)
    (osize isize ksz : uint2) (g : Z * Z * Z) : option (Z * Z) :=
  let '(g0, g1, g2) := g in
  let gx := wrap32 g2 in
  let gy := wrap32 g1 in
  let gz := wrap32 g0 in
  let oid := pool_oid osize gx gy gz in
  let iid := wrap32 (uint_add (uint_div gx (u_x ksz))
                      (uint_mul (u_x isize) (uint_add (uint_div gy (u_y ksz)) (uint_mul (u_y isize) gz)))) in
  if uint_ltb (uint_div gx (u_x ksz)) (u_x isize) && uint_ltb (uint_div gy (u_y ksz)) (u_y isize)
  then Some (oid, sup_result c input input2 gx gy ksz iid)
  else None.

Definition supersample_op (ctx : Ctx) (input : GPUBuffer) (out_shape : list Z)
    (kernel_size : Z * Z) (c : SupCode) (input2 : option GPUBuffer) : M GPUBuffer :=
  match shape input, drop 2 out_shape with
  | [N; C; Yin; Xin], [Yout; Xout] =>
      let '(py, px) := kernel_size in
      let* ret_ := buffer_zeros ctx out_shape in
      let* supsample := cl_supsample_krnl_build (cl_ctx ctx) (sup_result_text c) (sup_decls_text c) in
      let* _ := launch supsample (range3 (N * C) Yout Xout) (cl ret_)
                  (λ m, supsample_kernel c (deref m (cl input))
                          (match input2 with Some b => deref m (cl b) | None => [] end)
                          (make_uint2 Xout Yout) (make_uint2 Xin Yin) (make_uint2 px py)) in
      ret ret_
  | _, _ => raise ValueError
  end.

(* ===================================================================== *)
(** * The operations *)
(* ===================================================================== *)

(** The floating-point primitives of OpenCL C that have no counterpart on
    integers; the operations that use them are defined for any
    interpretation.  The results of [exp] and [log] are no integers: the
    kernels that add, subtract or multiply such results take these
    operations from the interpretation too. *)
Record FloatPrims := mkFloatPrims {
  f_pow : Z → Z → Z;
  f_exp : Z → Z;
  f_log : Z → Z;
  f_div : Z → Z → Z;
  f_add : Z → Z → Z;
  f_sub : Z → Z → Z;
  f_mul : Z → Z → Z;
}.

Infix "⊕" := int_add (at level 50, left associativity).
Infix "⊗" := int_mul (at level 40, left associativity).

Module Add.
Definition forward (ctx : Ctx) (x y : GPUBuffer) : M GPUBuffer :=
  binary_op ctx (mkCode2 "a+b" (λ a b, a + b)) x y.

(** [shape_x], [shape_y] are the shapes saved by [forward]. *)
Definition backward (ctx : Ctx) (shape_x shape_y : list Z) (grad_output : GPUBuffer)
    : M (GPUBuffer * GPUBuffer) :=
  let* gx := unbroadcast ctx grad_output shape_x in
  let* gy := unbroadcast ctx grad_output shape_y in
  ret (gx, gy).
End Add.

Module Sub.
Definition forward (ctx : Ctx) (x y : GPUBuffer) : M GPUBuffer :=
  binary_op ctx (mkCode2 "a-b" (λ a b, a - b)) x y.

(** [shape_x], [shape_y] are the shapes saved by [forward]. *)
Definition backward (ctx : Ctx) (shape_x shape_y : list Z) (grad_output : GPUBuffer)
    : M (GPUBuffer * GPUBuffer) :=
  let* neg := unary_op ctx (mkCode1 "-a" (λ a, - a)) grad_output in
  let* gx := unbroadcast ctx grad_output shape_x in
  let* gy := unbroadcast ctx neg shape_y in
  ret (gx, gy).
End Sub.

Module Mul.
Definition forward (ctx : Ctx) (x y : GPUBuffer) : M GPUBuffer :=
  binary_op ctx (mkCode2 "a*b" (λ a b, a * b)) x y.

(** [x], [y] are the tensors saved by [forward]. *)
Definition backward (ctx : Ctx) (x y : GPUBuffer) (grad_output : GPUBuffer)
    : M (GPUBuffer * GPUBuffer) :=
  let* grad_x := binary_op ctx (mkCode2 "a*b" (λ a b, a * b)) y grad_output in
  let* grad_y := binary_op ctx (mkCode2 "a*b" (λ a b, a * b)) x grad_output in
  let* gx := unbroadcast ctx grad_x (shape x) in
  let* gy := unbroadcast ctx grad_y (shape y) in
  ret (gx, gy).
End Mul.

Module Pow.
Definition forward (fl : FloatPrims) (ctx : Ctx) (x y : GPUBuffer) : M GPUBuffer :=
  binary_op ctx (mkCode2 "pow(a,b)" (f_pow fl)) x y.

(** [x], [y] are the tensors saved by [forward]. *)
Definition backward (fl : FloatPrims) (ctx : Ctx) (x y : GPUBuffer) (grad_output : GPUBuffer)
    : M (GPUBuffer * GPUBuffer) :=
  let* dx := binary_op ctx (mkCode2 "b * (pow((float)a, (float)(b-1.0)))"
                              (λ a b, f_mul fl b (f_pow fl a (f_sub fl b 1)))) x y in
  let* grad_x := binary_op ctx (mkCode2 "a*b" (f_mul fl)) grad_output dx in
  let* dy := binary_op ctx (mkCode2 "pow(a, (float)b) * log(a);"
                              (λ a b, f_mul fl (f_pow fl a b) (f_log fl a))) x y in
  let* grad_y := binary_op ctx (mkCode2 "a*b" (f_mul fl)) grad_output dy in
  let* gx := unbroadcast ctx grad_x (shape x) in
  let* gy := unbroadcast ctx grad_y (shape y) in
  ret (gx, gy).
End Pow.

Module Sum.
(** [tuple([input.shape[i] for i in range(len(input.shape)) if i not in axis])]. *)
Definition kept_shape (sh : list Z) (axis : list Z) : list Z :=
  omap (λ i, if bool_decide (Z.of_nat i ∈ axis) then None else sh !! i)
    (seq 0 (length sh)).

Definition forward (ctx : Ctx) (input : GPUBuffer) (axis : option (list Z)) : M GPUBuffer :=
  let* ret_ := reduce_op ctx code_sum code_out input axis in
  match axis with
  | Some axis => ret (mkBuf (kept_shape (shape input) axis) (cl ret_))
  | None => ret ret_
  end.

(** [[1 if axis is None or i in axis else input.shape[i] for i in range(len(input.shape))]]. *)
Definition grad_shape (sh : list Z) (axis : option (list Z)) : list Z :=
  imap (λ i s, match axis with
               | None => 1
               | Some axis => if bool_decide (Z.of_nat i ∈ axis) then 1 else s
               end) sh.

(** [input], [axis] are what [forward] saved. *)
Definition backward (ctx : Ctx) (input : GPUBuffer) (axis : option (list Z))
    (grad_output : GPUBuffer) : M GPUBuffer :=
  let output := GPUBuffer_alias (grad_shape (shape input) axis) grad_output in
  let* zeros := buffer_zeros ctx (shape input) in
  binary_op ctx (mkCode2 "a+b" (λ a b, a + b)) output zeros.
End Sum.

Module Dot.
Definition matmul_prg : string :=
  "
    __kernel void matmul(
        __global const float *input,
        __global const float *weight,
        __global float *res,
        int is0, int is1, int msize,
        int ws0, int ws1, int osize
   ) {
      int X = get_global_id(0); // isize
      int Y = get_global_id(1); // osize

      float ret = 0.0;
      for (int x = 0; x < msize; x++) {
        ret += input[X * is0 + x * is1] * weight[Y * ws0 + x * ws1];
      }

      res[X * osize + Y] = ret;
    }".

Definition matmul_kernel (input weight : list Z) (is0 is1 msize ws0 ws1 osize : Z)
    (g : Z * Z) : option (Z * Z) :=
  let X := wrap32 g.1 in
  let Y := wrap32 g.2 in
  let ret_ :=
    foldl (λ acc x, acc + load input (X ⊗ is0 ⊕ x ⊗ is1) * load weight (Y ⊗ ws0 ⊕ x ⊗ ws1))
      0 (seqZ 0 msize) in
  Some (X ⊗ osize ⊕ Y, ret_).

Definition range2 (n0 n1 : Z) : list (Z * Z) :=
  g0 ← seqZ 0 n0; g1 ← seqZ 0 n1; [(g0, g1)].

Definition forward (ctx : Ctx) (input weight : GPUBuffer) : M GPUBuffer :=
  match shape input !! 1%nat, shape weight !! 0%nat with
  | Some i1, Some w0 =>
      let* _ := assert (bool_decide (i1 = w0)) in
      match shape input !! 0%nat, shape weight !! 1%nat with
      | Some i0, Some w1 =>
          let isize := i32 i0 in
          let msize := i32 i1 in
          let osize := i32 w1 in
          let* ret_ := buffer_new ctx [isize; osize] in
          let* matmul := clbuild kernels_build (cl_ctx ctx) "matmul" matmul_prg in
          let* _ := launch matmul (range2 isize osize) (cl ret_)
                      (λ m, matmul_kernel (deref m (cl input)) (deref m (cl weight))
                              msize (i32 1) msize (i32 1) osize osize) in
          ret ret_
      | _, _ => raise IndexError
      end
  | _, _ => raise IndexError
  end.

(** [input], [weight] and the kernel [matmul] are what [forward] saved. *)
Definition backward (ctx : Ctx) (input weight : GPUBuffer) (matmul : Kernel)
    (grad_output : GPUBuffer) : M (GPUBuffer * GPUBuffer) :=
  match shape input !! 0%nat, shape input !! 1%nat, shape weight !! 1%nat with
  | Some i0, Some i1, Some w1 =>
      let isize := i32 i0 in
      let msize := i32 i1 in
      let osize := i32 w1 in
      let* grad_input := buffer_like ctx input in
      let* grad_weight := buffer_like ctx weight in
      let* _ := launch matmul (range2 isize msize) (cl grad_input)
                  (λ m, matmul_kernel (deref m (cl grad_output)) (deref m (cl weight))
                          osize (i32 1) osize osize (i32 1) msize) in
      let* _ := launch matmul (range2 msize osize) (cl grad_weight)
                  (λ m, matmul_kernel (deref m (cl input)) (deref m (cl grad_output))
                          (i32 1) msize isize (i32 1) osize osize) in
      ret (grad_input, grad_weight)
  | _, _, _ => raise IndexError
  end.
End Dot.

Module Pad2D.
Definition pad2d_prg : string :=
  "
    __kernel void pad2d(__global const float *input, __global float *output,
                        int ipx, int ipy, int py, int px, int oy, int ox, int iy, int ix) {
      int BC = get_global_id(0);
      int Y = get_global_id(1);
      int X = get_global_id(2);

      int iptr = BC*iy*ix + (Y+ipy)*ix + ipx + X;
      int optr = BC*oy*ox + (Y+py)*ox + px + X;

      output[optr] = input[iptr];
    }".

Definition pad2d_kernel (input : list Z) (ipx ipy py px oy ox iy ix : Z)
    (g : Z * Z * Z) : option (Z * Z) :=
  let '(g0, g1, g2) := g in
  let BC := wrap32 g0 in
  let Y := wrap32 g1 in
  let X := wrap32 g2 in
  let iptr := BC ⊗ iy ⊗ ix ⊕ (Y ⊕ ipy) ⊗ ix ⊕ ipx ⊕ X in
  let optr := BC ⊗ oy ⊗ ox ⊕ (Y ⊕ py) ⊗ ox ⊕ px ⊕ X in
  Some (optr, load input iptr).

(** [padding] is the tuple [(padding[0], padding[1], padding[2], padding[3])]. *)
Definition forward (ctx : Ctx) (x : GPUBuffer) (padding : Z * Z * Z * Z) : M GPUBuffer :=
  let '(p0, p1, p2, p3) := padding in
  match shape x with
  | [bs; cin; iy; ix] =>
      let oy := iy + p2 + p3 in
      let ox := ix + p0 + p1 in
      let* ret_ := buffer_zeros ctx [bs; cin; oy; ox] in
      let* pad2d := clbuild kernels_build (cl_ctx ctx) "pad2d" pad2d_prg in
      let* _ := launch pad2d (range3 (bs * cin) iy ix) (cl ret_)
                  (λ m, pad2d_kernel (deref m (cl x)) (i32 0) (i32 0) (i32 p2) (i32 p0)
                          (i32 oy) (i32 ox) (i32 iy) (i32 ix)) in
      ret ret_
  | _ => raise ValueError
  end.

(** [saved] is what [forward] saved: the padding and the kernel [pad2d]. *)
Definition backward (ctx : Ctx) (saved : (Z * Z * Z * Z) * Kernel) (grad_output : GPUBuffer)
    : M GPUBuffer :=
  let '((p0, p1, p2, p3), pad2d) := saved in
  match shape grad_output with
  | [bs; cin; iy; ix] =>
      let oy := iy - p2 - p3 in
      let ox := ix - p0 - p1 in
      let* ret_ := buffer_new ctx [bs; cin; oy; ox] in
      let* _ := launch pad2d (range3 (bs * cin) oy ox) (cl ret_)
                  (λ m, pad2d_kernel (deref m (cl grad_output)) (i32 p2) (i32 p0) (i32 0) (i32 0)
                          (i32 oy) (i32 ox) (i32 iy) (i32 ix)) in
      ret ret_
  | _ => raise ValueError
  end.
End Pad2D.

Module Reshape.
(** [tuple(-np.prod(x.shape) // np.prod(shape) if s == -1 else s for s in shape)]. *)
Definition infer_shape (x_shape shape_ : list Z) : list Z :=
  map (λ s, if bool_decide (s = -1)
            then wrap64 (wrap64 (- np_prod_i64 x_shape) `div` np_prod_i64 shape_)
            else s) shape_.

Definition forward (ctx : Ctx) (x : GPUBuffer) (shape_ : list Z) : M GPUBuffer :=
  let shape_ := infer_shape (shape x) shape_ in
  let r := GPUBuffer_alias shape_ x in
  let* _ := assert (bool_decide (np_prod_i64 (shape x) = np_prod_i64 (shape r))) in
  ret r.

(** [in_shape] is the shape saved by [forward]. *)
Definition backward (ctx : Ctx) (in_shape : list Z) (grad_output : GPUBuffer) : M GPUBuffer :=
  ret (GPUBuffer_alias in_shape grad_output).
End Reshape.

Module ReLU.
Definition forward (ctx : Ctx) (input : GPUBuffer) : M GPUBuffer :=
  unary_op ctx (mkCode1 "max(a, (float)0.)" (λ a, a `max` 0)) input.

(** [input] is the tensor saved by [forward]. *)
Definition backward (ctx : Ctx) (input : GPUBuffer) (grad_output : GPUBuffer) : M GPUBuffer :=
  binary_op ctx (mkCode2 "a * (b >= 0)" (λ a b, a * (if bool_decide (b >= 0) then 1 else 0)))
    grad_output input.
End ReLU.

Module Sigmoid.
Definition forward (fl : FloatPrims) (ctx : Ctx) (input : GPUBuffer) : M GPUBuffer :=
  unary_op ctx (mkCode1 "1./(1+exp(-a))" (λ a, f_div fl 1 (f_add fl 1 (f_exp fl (- a))))) input.

(** [ret_] is the result saved by [forward]. *)
Definition backward (fl : FloatPrims) (ctx : Ctx) (ret_ : GPUBuffer) (grad_output : GPUBuffer)
    : M GPUBuffer :=
  binary_op ctx (mkCode2 "a * (b * (1 - b));"
                   (λ a b, f_mul fl a (f_mul fl b (f_sub fl 1 b)))) grad_output ret_.
End Sigmoid.

Module AvgPool2D.
Definition code (fl : FloatPrims) : SubCode Z :=
  mkSubCode "float sumval=0.f" "sumval += input[iid]" "sumval / (ksz.x * ksz.y)"
    0
    (λ sumval input iid j i ksz, sumval + load input iid)
    (λ sumval ksz, f_div fl sumval (uint_mul (u_x ksz) (u_y ksz))).

Definition forward (fl : FloatPrims) (ctx : Ctx) (input : GPUBuffer) (kernel_size : Z * Z)
    : M GPUBuffer :=
  subsample_op ctx input kernel_size kernel_size (code fl).

Definition code_backward (fl : FloatPrims) : SupCode :=
  mkSupCode EmptyString "input[iid] / (ksz.x * ksz.y)"
    (λ input input2 gx gy ksz iid, f_div fl (load input iid) (uint_mul (u_x ksz) (u_y ksz))).

(** [orig_shape] is the shape saved by [forward]; the kernel size is read
    from the context. *)
Definition backward (fl : FloatPrims) (ctx : Ctx) (orig_shape : list Z) (grad_output : GPUBuffer)
    : M GPUBuffer :=
  supersample_op ctx grad_output orig_shape (kernel_size ctx) (code_backward fl) None.
End AvgPool2D.

(** [FLT_MAX], the largest finite [float]. *)
Definition FLT_MAX : Z := (2^24 - 1) * 2^104.

Module MaxPool2D.
(** The kernel that records the offset of the maximum in each window; its
    local variables are [(maxval, maxidx)]. *)
Definition code_idxs : SubCode (Z * Z) :=
  mkSubCode "float maxval=-FLT_MAX; int maxidx=0"
    "if (input[iid]>maxval) { maxval = input[iid]; maxidx = j * ksz.x + i; }"
    "(float)maxidx"
    (- FLT_MAX, 0)
    (λ '(maxval, maxidx) input iid j i ksz,
       if bool_decide (load input iid > maxval)
       then (load input iid, wrap32 (uint_add (uint_mul j (u_x ksz)) i))
       else (maxval, maxidx))
    (λ '(maxval, maxidx) ksz, maxidx).

(** The kernel that computes the maximum of each window. *)
Definition code_max : SubCode Z :=
  mkSubCode "float maxval = -FLT_MAX" "maxval = max(maxval, input[iid])" "maxval"
    (- FLT_MAX)
    (λ maxval input iid j i ksz, maxval `max` load input iid)
    (λ maxval ksz, maxval).

(** [forward] returns its result together with what it saves for
    [backward]: the recorded offsets and the shape of the input. *)
Definition forward (ctx : Ctx) (input : GPUBuffer) (kernel_size : Z * Z)
    : M (GPUBuffer * (GPUBuffer * list Z)) :=
  let* idxs := subsample_op ctx input kernel_size kernel_size code_idxs in
  let* ret_ := subsample_op ctx input kernel_size kernel_size code_max in
  ret (ret_, (idxs, shape input)).

Definition code_backward : SupCode :=
  mkSupCode
    "int maxidx=((__global float*)input2)[iid]; int kernidx=(gid.x%ksz.x) + ksz.x*(gid.y%ksz.y)"
    "(maxidx == kernidx) * input[iid]"
    (λ input input2 gx gy ksz iid,
       let maxidx := wrap32 (load input2 iid) in
       let kernidx := wrap32 (uint_add (uint_rem gx (u_x ksz))
                                (uint_mul (u_x ksz) (uint_rem gy (u_y ksz)))) in
       (if bool_decide (maxidx = kernidx) then 1 else 0) * load input iid).

(** [saved] is what [forward] saved; the kernel size is read from the
    context. *)
Definition backward (ctx : Ctx) (saved : GPUBuffer * list Z) (grad_output : GPUBuffer)
    : M GPUBuffer :=
  let '(idxs, orig_shape) := saved in
  supersample_op ctx grad_output orig_shape (kernel_size ctx) code_backward (Some idxs).
End MaxPool2D.

Module LogSoftmax.
Definition forward (fl : FloatPrims) (ctx : Ctx) (input : GPUBuffer) : M GPUBuffer :=
  let* lsum := reduce_op ctx (mkCode2 "out += exp(a)" (λ out a, f_add fl out (f_exp fl a)))
                 (mkCode1 "log(out)" (f_log fl)) input (Some [1]) in
  binary_op ctx (mkCode2 "a-b" (f_sub fl)) input lsum.

(** [output] is the result saved by [forward]. *)
Definition backward (fl : FloatPrims) (ctx : Ctx) (output : GPUBuffer) (grad_output : GPUBuffer)
    : M GPUBuffer :=
  let* lsum := reduce_op ctx (mkCode2 "out += a" (f_add fl)) code_out grad_output (Some [1]) in
  let* texp := binary_op ctx (mkCode2 "exp(a) * b" (λ a b, f_mul fl (f_exp fl a) b))
                 output lsum in
  binary_op ctx (mkCode2 "a - b" (f_sub fl)) grad_output texp.
End LogSoftmax.

Module Conv2D.
Definition conv_prg : string :=
  "
    __kernel void conv(__global const float *input, __global const float *weight, __global float *output,
      int H, int W, int groups, int rcout, int cin, int oy, int ox, int iy, int ix, int ys, int xs) {

      int B = get_global_id(0)/(groups*rcout);  // range 0-bs
      int g = (get_global_id(0)/rcout)%groups;
      int c = get_global_id(0) % rcout;

      int Y = get_global_id(1);  // range 0-oy
      int X = get_global_id(2);  // range 0-ox
      int IY = Y*ys;
      int IX = X*xs;

      // input  = (bs, groups, cin, iy, ix)
      // weight = (groups, rcout, cin, H, W)
      // output = (bs, groups, rcout, oy, ox)
      float acc = 0.0;
      for (int ci = 0; ci < cin; ci++) {
        for (int y = IY; y < IY+H; y++) {
          for (int x = IX; x < IX+W; x++) {
            acc += input[B*groups*cin*iy*ix + g*cin*iy*ix + ci*iy*ix + y*ix + x] *               weight[g*rcout*cin*H*W + c*cin*H*W + ci*H*W + (y-IY)*W + (x-IX)];
          }
        }
      }
      output[B*groups*rcout*oy*ox + g*rcout*oy*ox + c*oy*ox + Y*ox + X] = acc;
    }".

(** A [size_t] operand of [/] and [%]: [get_global_id(0)] is a [size_t],
    and an [int] operand is converted to it. *)
Definition size_t (z : Z) : Z := z `mod` 2^64.

Definition conv_kernel (input weight : list Z)
    (H W groups rcout cin oy ox iy ix ys xs : Z) (gid : Z * Z * Z) : option (Z * Z) :=
  let '(g0, g1, g2) := gid in
  let B := wrap32 (size_t g0 `div` size_t (groups ⊗ rcout)) in
  let g := wrap32 ((size_t g0 `div` size_t rcout) `mod` size_t groups) in
  let c := wrap32 (size_t g0 `mod` size_t rcout) in
  let Y := wrap32 g1 in
  let X := wrap32 g2 in
  let IY := Y ⊗ ys in
  let IX := X ⊗ xs in
  let acc :=
    foldl (λ acc ci,
      foldl (λ acc y,
        foldl (λ acc x,
          acc + load input (B ⊗ groups ⊗ cin ⊗ iy ⊗ ix ⊕ g ⊗ cin ⊗ iy ⊗ ix ⊕ ci ⊗ iy ⊗ ix ⊕ y ⊗ ix ⊕ x)
                * load weight (g ⊗ rcout ⊗ cin ⊗ H ⊗ W ⊕ c ⊗ cin ⊗ H ⊗ W ⊕ ci ⊗ H ⊗ W
                               ⊕ wrap32 (y - IY) ⊗ W ⊕ wrap32 (x - IX)))
          acc (seqZ IX ((IX ⊕ W) - IX)))
        acc (seqZ IY ((IY ⊕ H) - IY)))
      0 (seqZ 0 cin) in
  Some (B ⊗ groups ⊗ rcout ⊗ oy ⊗ ox ⊕ g ⊗ rcout ⊗ oy ⊗ ox ⊕ c ⊗ oy ⊗ ox ⊕ Y ⊗ ox ⊕ X, acc).

(** [groups_] is the keyword argument of [forward]; the stride and the
    number of groups are also read from the context, where the stride is
    already a pair. *)
Definition forward (ctx : Ctx) (x w : GPUBuffer) (groups_ : Z) : M GPUBuffer :=
  match shape w, shape x with
  | [cout; cin; H; W], [bs; cin_; iy; ix] =>
      let '(ys, xs) := stride ctx in
      if bool_decide (ys = 0) || bool_decide (xs = 0) then raise ZeroDivisionError else
      let oy := (iy - (H - ys)) `div` ys in
      let ox := (ix - (W - xs)) `div` xs in
      let* _ := assert (bool_decide (cin * groups ctx = cin_)) in
      if bool_decide (groups ctx = 0) then raise ZeroDivisionError else
      let* _ := assert (bool_decide (cout `mod` groups ctx = 0)) in
      let rcout := cout `div` groups ctx in
      let* ret_ := buffer_new ctx [bs; cout; oy; ox] in
      let* conv := clbuild kernels_build (cl_ctx ctx) "conv" conv_prg in
      let* _ := launch conv (range3 (bs * groups_ * rcout) oy ox) (cl ret_)
                  (λ m, conv_kernel (deref m (cl x)) (deref m (cl w))
                          (i32 H) (i32 W) (i32 groups_) (i32 rcout) (i32 cin)
                          (i32 oy) (i32 ox) (i32 iy) (i32 ix) (i32 ys) (i32 xs)) in
      ret ret_
  | _, _ => raise ValueError
  end.
End Conv2D.

(** The operations as they are registered ([register(name, cls, gpu=True)]),
    with their keyword parameters. *)
Inductive Op :=
  | OpAdd | OpSub | OpMul | OpPow
  | OpSum (axis : option (list Z))
  | OpDot
  | OpPad2D (padding : Z * Z * Z * Z)
  | OpReshape (shape_ : list Z)
  | OpReLU | OpSigmoid
  | OpAvgPool2D (kernel_size : Z * Z)
  | OpMaxPool2D (kernel_size : Z * Z)
  | OpLogSoftmax
  | OpConv2D (groups_ : Z).

(** The forward dispatch of an operation on its tensor arguments. *)
Definition forward (fl : FloatPrims) (ctx : Ctx) (op : Op) (inputs : list GPUBuffer)
    : M GPUBuffer :=
  match op, inputs with
  | OpAdd, [x; y] => Add.forward ctx x y
  | OpSub, [x; y] => Sub.forward ctx x y
  | OpMul, [x; y] => Mul.forward ctx x y
  | OpPow, [x; y] => Pow.forward fl ctx x y
  | OpSum axis, [x] => Sum.forward ctx x axis
  | OpDot, [x; y] => Dot.forward ctx x y
  | OpPad2D padding, [x] => Pad2D.forward ctx x padding
  | OpReshape shape_, [x] => Reshape.forward ctx x shape_
  | OpReLU, [x] => ReLU.forward ctx x
  | OpSigmoid, [x] => Sigmoid.forward fl ctx x
  | OpAvgPool2D ks, [x] => AvgPool2D.forward fl ctx x ks
  | OpMaxPool2D ks, [x] => let* r := MaxPool2D.forward ctx x ks in ret r.1
  | OpLogSoftmax, [x] => LogSoftmax.forward fl ctx x
  | OpConv2D groups_, [x; w] => Conv2D.forward ctx x w groups_
  | _, _ => raise TypeError
  end.

(* ===================================================================== *)
(** * Notions used to state the properties *)
(* ===================================================================== *)

(** A shape brought to rank [n] by ones in front (right-aligned, as numpy
    broadcasts) and by ones at the end (left-aligned). *)
Definition right_aligned (n : nat) (sh : list Z) : list Z :=
  replicate (n - length sh) 1 ++ sh.
Definition left_aligned (n : nat) (sh : list Z) : list Z :=
  sh ++ replicate (n - length sh) 1.

(** The broadcast rule for one dimension. *)
Definition compatible (a b : Z) : Prop := a = b ∨ a = 1 ∨ b = 1.

(** A 32-bit signed value. *)
Definition int_range (z : Z) : Prop := - 2^31 ≤ z ≤ int_max.

(** Row-major coordinates.  [unravel sh g] are the coordinates of the flat
    index [g] in an array of shape [sh]: the remaining product is divided by
    each dimension in turn, most significant first.  [ravel sh idx]
    accumulates [acc * size + coordinate]. *)
Fixpoint unravel (sh : list Z) (g : Z) : list Z :=
  match sh with
  | [] => []
  | s :: rest => (g `div` np_prod rest) `mod` s :: unravel rest g
  end.

Definition ravel_from (acc : Z) (sh idx : list Z) : Z :=
  foldl (λ acc sc, acc * sc.1 + sc.2) acc (zip sh idx).

Definition ravel (sh idx : list Z) : Z := ravel_from 0 sh idx.

(** All multi-indices of an array of shape [sh], in row-major order. *)
Fixpoint indices (sh : list Z) : list (list Z) :=
  match sh with
  | [] => [[]]
  | s :: rest => i ← seqZ 0 s; (λ idx, i :: idx) <$> indices rest
  end.

Definition Zsum (l : list Z) : Z := foldr Z.add 0 l.

(** The shape with the dimensions in [axes] set to 1, and the shape with
    all other dimensions set to 1. *)
Definition keep_shape (sh : list Z) (axes : list nat) : list Z :=
  imap (λ i s, if bool_decide (i ∈ axes) then 1 else s) sh.
Definition reduced_shape (sh : list Z) (axes : list nat) : list Z :=
  imap (λ i s, if bool_decide (i ∈ axes) then s else 1) sh.

(** Explicit summation of an array [data] of shape [sh] over the
    dimensions in [axes]: one element per multi-index [j] of the kept
    dimensions, the sum over all multi-indices [r] of the reduced dimensions
    of the element at [j + r]. *)
Definition sum_over_axes (sh : list Z) (axes : list nat) (data : list Z) : list Z :=
  (λ j, Zsum ((λ r, load data (ravel sh (zip_with Z.add j r))) <$> indices (reduced_shape sh axes)))
    <$> indices (keep_shape sh axes).

(** With its 24-bit significand a [float] represents every integer of
    magnitude up to 2^24, and the sum, the difference or the product of two
    floats is computed without rounding when its exact value is such an
    integer.

    Data that a [float] accumulator sums without rounding, in any order and
    over any part of it: the magnitudes add up to at most 2^24. *)
Definition f32_sum_exact (data : list Z) : Prop := Zsum (Z.abs <$> data) ≤ 2^24.

(** Data whose inner products of [n] terms a [float] accumulator computes
    without rounding: the magnitudes of the two operands are bounded by [A]
    and [B] with [n * (A * B)] at most 2^24, so every product and every
    partial sum is an integer that a [float] holds. *)
Definition f32_dot_exact (n : Z) (xs ys : list Z) : Prop :=
  ∃ A B, Forall (λ a, Z.abs a ≤ A) xs ∧ Forall (λ b, Z.abs b ≤ B) ys ∧
         n * (A * B) ≤ 2^24.

(** Every store of the launches made from [w] to [w'] fell inside the
    output buffer of its launch. *)
Definition stores_in_bounds (w w' : World) : Prop :=
  Forall (λ l, l_in_bounds l = true) (drop (length (launches w)) (launches w')).

(** The axes that a broadcast from [in_sh] to [out_sh] expanded. *)
Definition expanded_axes (out_sh in_sh : list Z) : list nat :=
  filter (λ i, in_sh !! i = Some 1 ∧ 1 < default 0 (out_sh !! i)) (seq 0 (length in_sh)).

(** A sequence of requests to [clbuild], each one caught on its own: the
    outcomes, in order. *)
Fixpoint clbuild_all (cc : Compiler) (reqs : list Key) (w : World)
    : list (Result Kernel) * World :=
  match reqs with
  | [] => ([], w)
  | k :: reqs' =>
      let '(r, w1) := clbuild cc (key_ctx k) (key_name k) (key_prg k) w in
      let '(rs, w2) := clbuild_all cc reqs' w1 in
      (r :: rs, w2)
  end.

(** The number of times a key was compiled. *)
Definition compilations (k : Key) (w : World) : nat :=
  length (filter (λ k', k' = k) (builds w)).

(** Reasoning about computations.

    [wp m w Q]: run from [w], [m] returns a result and [Q] holds of it and
    of the final world.  [post m w Q]: the same if [m] returns, and nothing
    is claimed when it raises. *)

Definition wp {A} (m : M A) (w : World) (Q : A → World → Prop) : Prop :=
  match m w with
  | (Ok a, w') => Q a w'
  | (Raise _, _) => False
  end.

Definition post {A} (m : M A) (w : World) (Q : A → World → Prop) : Prop :=
  match m w with
  | (Ok a, w') => Q a w'
  | (Raise _, _) => True
  end.

(** Concrete inputs for the examples. *)
Definition example_ctx : Ctx := mkCtx 0 (2, 2) (2, 2) 1.
Definition example_world : World :=
  mkWorld [[1; 2; 3]; [10; 20; 30; 40; 50; 60]] [] [] [].
Definition code_add : Code2 := mkCode2 "a+b" (λ a b, a + b).

Global Arguments np_prod : simpl never.
Global Arguments wrap32 : simpl never.
Global Arguments wrap64 : simpl never.
Global Arguments wrapu32 : simpl never.
Global Arguments i32 : simpl never.
Global Arguments store : simpl never.
Global Arguments launch_in_bounds : simpl never.
Global Arguments load : simpl never.
Global Arguments binop_kernel : simpl never.
Global Arguments unop_kernel : simpl never.
Global Arguments reduce_kernel : simpl never.
Global Arguments subsample_kernel : simpl never.
Global Arguments supsample_kernel : simpl never.
Global Opaque Z.pow.


(** What the [reduce] kernel leaves in the output buffer of [reduce_op],
    from the contents [a_g] of the input. *)
Definition reduce_result (code : Code2) (code2 : Code1) (inp_shape osize : list Z)
    (a_g : list Z) : list Z :=
  foldl (λ b g, store b
           (reduce_kernel (c2_fn code) (c1_fn code2) a_g
              (i32 (np_prod inp_shape `div` np_prod osize)) (i32 (np_prod osize))
              (i32 (Z.of_nat (length osize)))
              (np_array_i32 inp_shape) (np_array_i32 osize) g))
    (replicate (Z.to_nat (np_prod osize)) 0) (range1 (np_prod osize)).

(** Distinct programs for the examples: the kernel [fill] that stores the
    constant 0+1+...+1 with [n] ones, and a compiler that builds exactly
    these programs, when they are asked for their kernel [fill]. *)
Definition fill_head : string :=
  "__kernel void fill(__global float *a) { a[get_global_id(0)] = 0".

Fixpoint fill_tail (n : nat) : string :=
  match n with
  | O => "; }"
  | S n' => "+1" +:+ fill_tail n'
  end.

Definition fill_prg (n : nat) : string := fill_head +:+ fill_tail n.

Definition example_key (n : nat) : Key := mkKey 0 "fill" (fill_prg n).

Fixpoint strip_prefix (p s : string) : option string :=
  match p, s with
  | EmptyString, _ => Some s
  | String c p', String d s' => if Ascii.eqb c d then strip_prefix p' s' else None
  | String _ _, EmptyString => None
  end.

Fixpoint is_fill_tail (s : string) : bool :=
  match s with
  | String "+"%char (String "1"%char s') => is_fill_tail s'
  | _ => String.eqb s "; }"
  end.

Definition example_compiler : Compiler :=
  λ k, String.eqb (key_name k) "fill" &&
       match strip_prefix fill_head (key_prg k) with
       | Some rest => is_fill_tail rest
       | None => false
       end.

(** The cache and the compile log agree: every cached handle does what
    its key says, no key is cached or compiled twice, and the keys compiled
    are the keys cached. *)
Definition cache_inv (keys : list Key) (w : World) : Prop :=
  NoDup (kcache w).*1 ∧
  (∀ k h, (k, h) ∈ kcache w → k ∈ keys) ∧
  NoDup (builds w) ∧
  (∀ k, k ∈ builds w ↔ k ∈ (kcache w).*1).

(** Every cached handle was built from its key, by a build that
    succeeded. *)
Definition cache_sound (cc : Compiler) (w : World) : Prop :=
  ∀ k h, (k, h) ∈ kcache w → behavior h = k ∧ cc k = true.

(** [r] is a fresh output of shape [sh] of a computation from [w] to [w']:
    the buffers of [w] are all in [w'] with their contents, and the storage
    of [r] was allocated after [w] and holds product([sh]) elements. *)
Definition fresh_output (w : World) (r : GPUBuffer) (w' : World) (sh : list Z) : Prop :=
  mem w `prefix_of` mem w' ∧
  (length (mem w) ≤ cl r < length (mem w'))%nat ∧
  length (contents w' (cl r)) = Z.to_nat (np_prod sh).

(** What the [subsample] kernel leaves in the output buffer of
    [subsample_op], for an input of shape [[N; C; Yin; Xin]] with contents
    [input]. *)
Definition subsample_result {S} (c : SubCode S) (kernel_size stride : Z * Z)
    (N C Yin Xin : Z) (input : list Z) : list Z :=
  let Yout := (Yin - kernel_size.1) `div` stride.1 + 1 in
  let Xout := (Xin - kernel_size.2) `div` stride.2 + 1 in
  foldl (λ b g, store b
           (subsample_kernel c input (make_uint2 Xout Yout) (make_uint2 Xin Yin)
              (make_uint2 kernel_size.2 kernel_size.1) (make_uint2 stride.2 stride.1) g))
    (replicate (Z.to_nat (np_prod [N; C; Yout; Xout])) 0) (range3 (N * C) Yout Xout).

(** What the [supsample] kernel leaves in the output buffer of
    [supersample_op], for an input of shape [[N; C; Yin; Xin]]. *)
Definition supersample_result (c : SupCode) (kernel_size : Z * Z)
    (N C Yin Xin : Z) (out_shape : list Z) (Yout Xout : Z) (input input2 : list Z) : list Z :=
  foldl (λ b g, store b
           (supsample_kernel c input input2 (make_uint2 Xout Yout) (make_uint2 Xin Yin)
              (make_uint2 kernel_size.2 kernel_size.1) g))
    (replicate (Z.to_nat (np_prod out_shape)) 0) (range3 (N * C) Yout Xout).

(** The dimensions over which the [reduce] kernel sums: those where the
    input and output sizes differ. *)
Definition reduced_dims (shape_x shape_ret : list Z) : list Z :=
  zip_with (λ a r, if bool_decide (a = r) then 1 else a) shape_x shape_ret.

(** The flat index of the window [(z, oy, ox)] in an array of windows of
    shape [[NC; Yout; Xout]], and of the cell at offset [(j, i)] of that
    window in an input of shape [[NC; Yin; Xin]] (window size [ky] by [kx],
    stride equal to the window size). *)
Definition pool_window (Xout Yout z oy ox : Z) : Z := ox + Xout * (oy + Yout * z).
Definition pool_cell (Xin Yin ky kx z oy ox j i : Z) : Z :=
  (ox * kx + i) + Xin * ((oy * ky + j) + Yin * z).

(** The offsets [(j, i)] of a window in the order the [subsample] kernel
    visits them. *)
Definition window_offsets (ky kx : Z) : list (Z * Z) :=
  j ← seqZ 0 ky; i ← seqZ 0 kx; [(j, i)].

(** The scan for the maximum and its offset, on a list of
    (offset, value) pairs. *)
Definition argmax_step (st : Z * Z) (ov : Z * Z) : Z * Z :=
  if bool_decide (ov.2 > st.1) then (ov.2, ov.1) else st.

(** What the [binop] kernel leaves in the output buffer of [binary_op],
    from the contents [a_g], [b_g] of the operands and the three shape
    arrays. *)
Definition binop_result (code : Code2) (general : bool) (shape_x shape_y shape_ret : list Z)
    (a_g b_g : list Z) : list Z :=
  foldl (λ b g, store b
           (binop_kernel (c2_fn code) general a_g b_g
              (i32 (Z.of_nat (length shape_ret))) (i32 (np_prod shape_ret))
              shape_x shape_y shape_ret g))
    (replicate (Z.to_nat (np_prod shape_ret)) 0) (range1 (i32 (np_prod shape_ret))).

(** The element of an operand of shape [sh] that broadcasting pairs with
    the element [gid] of a result of shape [shape_ret]. *)
Definition broadcast_index (sh shape_ret : list Z) (gid : Z) : Z :=
  ravel sh (zip_with Z.modulo (unravel shape_ret gid) sh).

(** What a launch of [matmul] over [[n0, n1]] leaves in an output buffer
    that held [out]. *)
Definition matmul_result (input weight : list Z) (is0 is1 msize ws0 ws1 osize n0 n1 : Z)
    (out : list Z) : list Z :=
  foldl (λ b g, store b (Dot.matmul_kernel input weight is0 is1 msize ws0 ws1 osize g))
    out (Dot.range2 n0 n1).

(** What a launch of [pad2d] over [[n0, n1, n2]] leaves in an output buffer
    that held [out]. *)
Definition pad2d_result (input : list Z) (ipx ipy py px oy ox iy ix n0 n1 n2 : Z)
    (out : list Z) : list Z :=
  foldl (λ b g, store b (Pad2D.pad2d_kernel input ipx ipy py px oy ox iy ix g))
    out (range3 n0 n1 n2).

(** The position that numpy gives to the index [a] of an array of length
    [n]: a negative index counts from the end. *)
Definition normalize_axis (n : nat) (a : Z) : nat :=
  Z.to_nat (if bool_decide (0 ≤ a) then a else a + Z.of_nat n).

(** The shape without the dimensions in [axes]. *)
Definition drop_axes (sh : list Z) (axes : list nat) : list Z :=
  (filter (λ p, p.1 ∉ axes) (zip (seq 0 (length sh)) sh)).*2.

(** The inner product of [n] elements of [a], from [a0] with stride [sa],
    with [n] elements of [b], from [b0] with stride [sb]. *)
Definition strided_dot (a b : list Z) (a0 sa b0 sb n : Z) : Z :=
  Zsum ((λ x, load a (a0 + x * sa) * load b (b0 + x * sb)) <$> seqZ 0 n).

(** What a launch of [conv] over [[n0, oy, ox]] leaves in an output buffer
    that held [out]. *)
Definition conv_result (input weight : list Z)
    (H W groups rcout cin oy ox iy ix ys xs n0 : Z) (out : list Z) : list Z :=
  foldl (λ b g, store b
           (Conv2D.conv_kernel input weight H W groups rcout cin oy ox iy ix ys xs g))
    out (range3 n0 oy ox).

(** The element of a grouped convolution for batch [B], group [g], output
    channel [c] of the group and position [(Y, X)]: the sum over the input
    channels [ci] of the group and the taps [(dy, dx)] of the filter, with
    the input of shape [[bs; G * cin; iy; ix]] and the weight of shape
    [[G * rcout; cin; H; W]] in row-major order. *)
Definition conv_cell (input weight : list Z) (G rcout cin H W iy ix ys xs : Z)
    (B g c Y X : Z) : Z :=
  Zsum ((λ '(ci, dy, dx),
           load input ((((B * G + g) * cin + ci) * iy + (Y * ys + dy)) * ix + (X * xs + dx))
           * load weight ((((g * rcout + c) * cin + ci) * H + dy) * W + dx))
        <$> range3 cin H W).

(* ===================================================================== *)
(** * Basic facts: machine integers, lists, the monad *)
(* ===================================================================== *)

Lemma wrap32_small z : - 2^31 ≤ z < 2^31 → wrap32 z = z.
Proof.
  intros Hz. unfold wrap32.
  rewrite Z.mod_small by lia. lia.
Qed.

Lemma wrapu32_small z : 0 ≤ z < 2^32 → wrapu32 z = z.
Proof. intros Hz. unfold wrapu32. by rewrite Z.mod_small. Qed.

Lemma i32_small z : int_range z → i32 z = z.
Proof. unfold int_range, int_max, i32. intros Hz. apply wrap32_small. lia. Qed.

Lemma np_array_i32_id sh : Forall int_range sh → np_array_i32 sh = sh.
Proof.
  unfold np_array_i32. induction 1 as [|d sh Hd _ IH]; [done|].
  simpl. by rewrite i32_small, IH.
Qed.

Lemma padded_shape_left_aligned n sh :
  Forall int_range sh → padded_shape n sh = left_aligned n sh.
Proof.
  intros Hsh. unfold padded_shape, assign_prefix, np_ones, left_aligned.
  rewrite np_array_i32_id by done.
  by rewrite drop_replicate.
Qed.

Lemma length_padded_shape n sh :
  (length sh ≤ n)%nat → length (padded_shape n sh) = n.
Proof.
  intros Hn. unfold padded_shape, assign_prefix, np_ones, np_array_i32.
  rewrite length_app, length_drop, length_map, length_replicate. lia.
Qed.

Lemma np_prod_cons d sh : np_prod (d :: sh) = d * np_prod sh.
Proof. done. Qed.

Lemma np_prod_app sh1 sh2 : np_prod (sh1 ++ sh2) = np_prod sh1 * np_prod sh2.
Proof.
  induction sh1 as [|d sh1 IH]; simpl.
  - change (np_prod []) with 1. lia.
  - rewrite !np_prod_cons, IH. lia.
Qed.

Lemma np_prod_pos sh : Forall (λ d, 0 < d) sh → 0 < np_prod sh.
Proof.
  induction 1 as [|d sh Hd _ IH]; [done|].
  rewrite np_prod_cons. lia.
Qed.

Lemma np_prod_replicate_1 n : np_prod (replicate n 1) = 1.
Proof. induction n as [|n IH]; [done|]. simpl. rewrite np_prod_cons, IH. lia. Qed.

(** ** The test for broadcastable shapes *)

Lemma broadcastable_spec sa sb :
  broadcastable sa sb = true ↔
  ∀ i a b, sa !! i = Some a → sb !! i = Some b → compatible a b.
Proof.
  unfold broadcastable. revert sb.
  induction sa as [|a sa IH]; intros [|b sb]; simpl; try (split; [intros _ i ??; by rewrite ?lookup_nil|done]).
  rewrite andb_true_iff, IH. split.
  - intros [Hab Hrest] [|i] a' b'; simpl.
    + intros [= <-] [= <-]. unfold compatible.
      rewrite !orb_true_iff, !bool_decide_eq_true in Hab. tauto.
    + apply Hrest.
  - intros H. split.
    + specialize (H 0%nat a b eq_refl eq_refl). unfold compatible in H.
      rewrite !orb_true_iff, !bool_decide_eq_true. tauto.
    + intros i. apply (H (S i)).
Qed.

Lemma broadcastable_false sa sb i a b :
  sa !! i = Some a → sb !! i = Some b → a ≠ b → a ≠ 1 → b ≠ 1 →
  broadcastable sa sb = false.
Proof.
  intros Ha Hb Hab Ha1 Hb1.
  destruct (broadcastable sa sb) eqn:E; [|done].
  rewrite broadcastable_spec in E.
  destruct (E i a b Ha Hb) as [?|[?|?]]; done.
Qed.

(** ** Reasoning about computations *)

Lemma wp_elim {A} (m : M A) w Q :
  wp m w Q → ∃ a w', m w = (Ok a, w') ∧ Q a w'.
Proof. unfold wp. destruct (m w) as [[a|e] w']; [eauto|done]. Qed.

Lemma wp_intro {A} (m : M A) w Q a w' :
  m w = (Ok a, w') → Q a w' → wp m w Q.
Proof. intros H HQ. unfold wp. by rewrite H. Qed.

Lemma wp_post {A} (m : M A) w Q : wp m w Q → post m w Q.
Proof. unfold wp, post. by destruct (m w) as [[a|e] w']. Qed.

Lemma post_elim {A} (m : M A) w Q a w' :
  post m w Q → m w = (Ok a, w') → Q a w'.
Proof. unfold post. intros H E. by rewrite E in H. Qed.

Lemma wp_ret {A} (a : A) w (Q : A → World → Prop) : Q a w → wp (ret a) w Q.
Proof. done. Qed.

Lemma post_ret {A} (a : A) w (Q : A → World → Prop) : Q a w → post (ret a) w Q.
Proof. done. Qed.

Lemma post_raise {A} e w (Q : A → World → Prop) : post (raise e) w Q.
Proof. done. Qed.

Lemma wp_bind {A B} (m : M A) (k : A → M B) w Q :
  wp m w (λ a w', wp (k a) w' Q) → wp (bind m k) w Q.
Proof. unfold wp, bind. by destruct (m w) as [[a|e] w']. Qed.

Lemma post_bind {A B} (m : M A) (k : A → M B) w Q :
  post m w (λ a w', post (k a) w' Q) → post (bind m k) w Q.
Proof. unfold post, bind. by destruct (m w) as [[a|e] w']. Qed.

Lemma wp_mono {A} (m : M A) w (Q Q' : A → World → Prop) :
  wp m w Q → (∀ a w', Q a w' → Q' a w') → wp m w Q'.
Proof. unfold wp. destruct (m w) as [[a|e] w']; [auto|done]. Qed.

Lemma post_mono {A} (m : M A) w (Q Q' : A → World → Prop) :
  post m w Q → (∀ a w', Q a w' → Q' a w') → post m w Q'.
Proof. unfold post. destruct (m w) as [[a|e] w']; [auto|done]. Qed.

Lemma wp_assert c w (Q : unit → World → Prop) :
  c = true → Q tt w → wp (assert c) w Q.
Proof. by intros ->. Qed.

Lemma post_assert c w (Q : unit → World → Prop) :
  (c = true → Q tt w) → post (assert c) w Q.
Proof. destruct c; [intros H; by apply H|done]. Qed.

Lemma wp_cl_alloc c w (Q : nat → World → Prop) :
  Q (length (mem w)) (mkWorld (mem w ++ [c]) (kcache w) (builds w) (launches w)) →
  wp (cl_alloc c) w Q.
Proof. done. Qed.

(** [clbuild] of a program that builds returns and touches neither the
    memory nor the launch log. *)
Lemma wp_clbuild cl_ctx name prg w (Q : Kernel → World → Prop) :
  (∀ h w', mem w' = mem w → launches w' = launches w → Q h w') →
  wp (clbuild kernels_build cl_ctx name prg) w Q.
Proof.
  intros HQ. unfold wp, clbuild, kernels_build.
  destruct (cache_find _ _) as [h|]; by apply HQ.
Qed.

(** Bounds on the elements of a concrete list. *)
Ltac solve_bounded :=
  repeat first [apply Forall_nil_2 | apply Forall_cons_2; [lia|]].

(** ** Memory effects of the primitives *)

Lemma length_store a s : length (store a s) = length a.
Proof.
  destruct s as [[i v]|]; unfold store; [|done].
  case_bool_decide; [|done]. by rewrite length_insert.
Qed.

Lemma length_foldl_store {G} (body : G → option (Z * Z)) items a :
  length (foldl (λ b g, store b (body g)) a items) = length a.
Proof.
  revert a. induction items as [|g items IH]; intros a; simpl; [done|].
  by rewrite IH, length_store.
Qed.

Lemma wp_launch {G} (k : Kernel) (items : list G) out body w (Q : unit → World → Prop) :
  Q tt (mkWorld
          (<[out := foldl (λ b g, store b (body (mem w) g)) (default [] (mem w !! out)) items]> (mem w))
          (kcache w) (builds w)
          (launches w ++ [mkLaunch (k_name k)
                            (launch_in_bounds items (default [] (mem w !! out)) (body (mem w)))])) →
  wp (launch k items out body) w Q.
Proof. done. Qed.

Lemma wp_GPUBuffer_new sh w (Q : GPUBuffer → World → Prop) :
  Q (mkBuf sh (length (mem w)))
    (mkWorld (mem w ++ [replicate (Z.to_nat (np_prod sh)) 0]) (kcache w) (builds w) (launches w)) →
  wp (GPUBuffer_new sh) w Q.
Proof. done. Qed.

Lemma wp_buffer_new ctx sh w (Q : GPUBuffer → World → Prop) :
  Q (mkBuf sh (length (mem w)))
    (mkWorld (mem w ++ [replicate (Z.to_nat (np_prod sh)) 0]) (kcache w) (builds w) (launches w)) →
  wp (buffer_new ctx sh) w Q.
Proof. done. Qed.

Lemma wp_buffer_zeros ctx sh w (Q : GPUBuffer → World → Prop) :
  Q (mkBuf sh (length (mem w)))
    (mkWorld (mem w ++ [replicate (Z.to_nat (np_prod sh)) 0]) (kcache w) (builds w) (launches w)) →
  wp (buffer_zeros ctx sh) w Q.
Proof. done. Qed.

Lemma wp_buffer_np ctx a w (Q : nat → World → Prop) :
  Q (length (mem w)) (mkWorld (mem w ++ [a]) (kcache w) (builds w) (launches w)) →
  wp (buffer_np ctx a) w Q.
Proof. done. Qed.

Lemma insert_app_fresh {A} (l : list A) o z rest :
  <[length l := o]> (l ++ z :: rest) = l ++ o :: rest.
Proof.
  rewrite insert_app_r_alt by lia.
  by replace (length l - length l)%nat with 0%nat by lia.
Qed.

Lemma lookup_app_fresh {A} (l : list A) z rest :
  (l ++ z :: rest) !! length l = Some z.
Proof. by rewrite list_lookup_middle. Qed.

Lemma lookup_app_plus {A} (l1 l2 : list A) k :
  (l1 ++ l2) !! (length l1 + k)%nat = l2 !! k.
Proof. rewrite lookup_app_r by lia. f_equal. lia. Qed.

(** Lookups in a memory that was extended by fresh buffers. *)
Ltac simpl_mem :=
  repeat first
    [ rewrite lookup_app_fresh
    | rewrite lookup_app_l by (done || lia)
    | rewrite <- Nat.add_assoc
    | rewrite lookup_app_plus ];
  simpl.

(** ** [binary_op] on broadcastable shapes *)

Lemma binary_op_wp ctx code x y w :
  let n_dims := (length (shape x) `max` length (shape y))%nat in
  let shape_x := padded_shape n_dims (shape x) in
  let shape_y := padded_shape n_dims (shape y) in
  let shape_ret := zip_with Z.max shape_x shape_y in
  broadcastable shape_x shape_y = true →
  wp (binary_op ctx code x y) w (λ r w',
    r = mkBuf shape_ret (length (mem w)) ∧
    ∃ o, length o = Z.to_nat (np_prod shape_ret) ∧
         mem w' = mem w ++ [o; shape_x; shape_y; shape_ret] ∧
         length (launches w') = S (length (launches w))).
Proof.
  intros n_dims shape_x shape_y shape_ret Hb.
  unfold binary_op. fold n_dims. fold shape_x shape_y. rewrite Hb. simpl.
  fold shape_ret.
  apply wp_bind, wp_buffer_new.
  apply wp_bind, wp_clbuild. intros h w1 Hm1 Hl1.
  apply wp_bind, wp_buffer_np.
  apply wp_bind, wp_buffer_np.
  apply wp_bind, wp_buffer_np.
  apply wp_bind, wp_launch. apply wp_ret. simpl.
  split; [done|].
  rewrite !Hm1, Hl1. simpl.
  rewrite !length_app. simpl.
  rewrite <- !(assoc_L (++)). simpl.
  rewrite insert_app_fresh.
  eexists. split; [|split; [done|lia]].
  rewrite length_foldl_store. simpl_mem.
  by rewrite length_replicate.
Qed.

Lemma binary_op_raise ctx code x y w :
  let n_dims := (length (shape x) `max` length (shape y))%nat in
  broadcastable (padded_shape n_dims (shape x)) (padded_shape n_dims (shape y)) = false →
  binary_op ctx code x y w = (Raise ShapeMismatch, w).
Proof. intros n_dims Hb. unfold binary_op. fold n_dims. by rewrite Hb. Qed.

Lemma length_padded_pair x y :
  let n := (length (shape x) `max` length (shape y))%nat in
  length (padded_shape n (shape x)) = n ∧ length (padded_shape n (shape y)) = n.
Proof. intros n. split; apply length_padded_shape; lia. Qed.

Lemma lookup_zip_with_max sa sb i a b :
  sa !! i = Some a → sb !! i = Some b → zip_with Z.max sa sb !! i = Some (a `max` b).
Proof. intros Ha Hb. rewrite lookup_zip_with. by rewrite Ha, Hb. Qed.

(* ===================================================================== *)
(** * Broadcast shape resolution in [binary_op] *)
(* ===================================================================== *)

Lemma binary_op_ok ctx code x y w :
  let n := (length (shape x) `max` length (shape y))%nat in
  let sa := padded_shape n (shape x) in
  let sb := padded_shape n (shape y) in
  (∀ i a b, sa !! i = Some a → sb !! i = Some b → compatible a b) →
  ∃ r w', binary_op ctx code x y w = (Ok r, w') ∧ shape r = zip_with Z.max sa sb.
Proof.
  intros n sa sb Hc.
  apply broadcastable_spec in Hc.
  destruct (wp_elim _ _ _ (binary_op_wp ctx code x y w Hc)) as (r & w' & E & -> & _).
  by exists (mkBuf (zip_with Z.max sa sb) (length (mem w))), w'.
Qed.

(** C1, as the code has it.  [binary_op] brings both shapes to the common
    rank n = max(r_a, r_b) by writing each shape into the leading entries of
    an array of n ones: the shapes are left-aligned and the shorter one is
    padded with trailing 1s.  The per-dimension compatibility check is made
    on these padded shapes, and when it passes every output dimension is the
    maximum of the two padded sizes; when it does not, the call raises. *)
Theorem C1_binary_op_pads_trailing_ones ctx code x y w :
  Forall int_range (shape x) → Forall int_range (shape y) →
  let n := (length (shape x) `max` length (shape y))%nat in
  let sa := left_aligned n (shape x) in
  let sb := left_aligned n (shape y) in
  length sa = n ∧ length sb = n ∧
  ((∀ i a b, sa !! i = Some a → sb !! i = Some b → compatible a b) →
   ∃ r w', binary_op ctx code x y w = (Ok r, w') ∧ length (shape r) = n ∧
     ∀ i a b, sa !! i = Some a → sb !! i = Some b → shape r !! i = Some (a `max` b)) ∧
  (¬ (∀ i a b, sa !! i = Some a → sb !! i = Some b → compatible a b) →
   binary_op ctx code x y w = (Raise ShapeMismatch, w)).
Proof.
  intros Hx Hy n sa sb.
  destruct (length_padded_pair x y) as [Hla Hlb]. fold n in Hla, Hlb.
  rewrite (padded_shape_left_aligned n _ Hx) in Hla. fold sa in Hla.
  rewrite (padded_shape_left_aligned n _ Hy) in Hlb. fold sb in Hlb.
  split; [done|]. split; [done|]. split.
  - intros Hc.
    destruct (binary_op_ok ctx code x y w) as (r & w' & E & Hr).
    { fold n. by rewrite !padded_shape_left_aligned. }
    fold n in Hr. rewrite !padded_shape_left_aligned in Hr by done.
    fold sa sb in Hr.
    exists r, w'. split; [done|]. rewrite Hr. split.
    + rewrite length_zip_with. lia.
    + intros i a b. apply lookup_zip_with_max.
  - intros Hc. apply binary_op_raise. fold n.
    rewrite !padded_shape_left_aligned by done. fold sa sb.
    destruct (broadcastable sa sb) eqn:E; [|done].
    destruct Hc. by apply broadcastable_spec.
Qed.

Lemma C1_binary_op_pads_trailing_ones_witness :
  Forall int_range [3] ∧ Forall int_range [3; 2] ∧
  ∃ r w',
    binary_op example_ctx code_add (mkBuf [3] 0) (mkBuf [3; 2] 1) example_world = (Ok r, w') ∧
    shape r !! 1%nat = Some 2.
Proof.
  assert (H1 : Forall int_range [3]).
  { repeat constructor; unfold int_max; lia. }
  assert (H2 : Forall int_range [3; 2]).
  { repeat constructor; unfold int_max; lia. }
  split; [exact H1|]. split; [exact H2|].
  destruct (C1_binary_op_pads_trailing_ones example_ctx code_add
              (mkBuf [3] 0) (mkBuf [3; 2] 1) example_world H1 H2)
    as (_ & _ & Hok & _).
  destruct Hok as (r & w' & E & _ & Hmax).
  { intros [|[|i]] a b; simpl; intros [= <-] [= <-]; unfold compatible; auto. }
  exists r, w'. split; [exact E|].
  exact (Hmax 1%nat 1 2 eq_refl eq_refl).
Defined.

(** The claim C1 as stated fails: for shapes (3,) and (2,3) leading ones
    would give (1,3) against (2,3), a compatible pair with output (2,3);
    [binary_op] compares (3,1) with (2,3) and raises. *)
Lemma C1_counterexample :
  padded_shape 2 [3] ≠ right_aligned 2 [3] ∧
  broadcastable (right_aligned 2 [3]) (right_aligned 2 [2; 3]) = true ∧
  binary_op example_ctx code_add (mkBuf [3] 0) (mkBuf [2; 3] 1) example_world
  = (Raise ShapeMismatch, example_world).
Proof.
  split; [|split].
  - intros H. vm_compute in H. discriminate.
  - vm_compute. reflexivity.
  - vm_compute. reflexivity.
Qed.

(** C3, as the code has it.  [binary_op] brings the two shapes to a common
    rank by trailing ones (left-aligned).  When some dimension of the shapes
    aligned this way has unequal sizes neither of which is 1, [binary_op]
    raises its shape mismatch exception and the world is untouched: no buffer
    was allocated, no kernel built or launched.  For every pair that is
    compatible after this alignment it returns a buffer whose shape is the
    per-dimension maximum. *)
Theorem C3_binary_op_shape_mismatch ctx code x y w :
  Forall int_range (shape x) → Forall int_range (shape y) →
  let n := (length (shape x) `max` length (shape y))%nat in
  let sa := left_aligned n (shape x) in
  let sb := left_aligned n (shape y) in
  ((∃ i a b, sa !! i = Some a ∧ sb !! i = Some b ∧ a ≠ b ∧ a ≠ 1 ∧ b ≠ 1) →
   binary_op ctx code x y w = (Raise ShapeMismatch, w)) ∧
  ((∀ i a b, sa !! i = Some a → sb !! i = Some b → compatible a b) →
   ∃ r w', binary_op ctx code x y w = (Ok r, w') ∧
     shape r = zip_with Z.max sa sb ∧
     (length (mem w) < length (mem w'))%nat ∧
     length (launches w') = S (length (launches w))).
Proof.
  intros Hx Hy n sa sb. unfold sa, sb.
  rewrite <- !padded_shape_left_aligned by done. split.
  - intros (i & a & b & Ha & Hb & Hab & Ha1 & Hb1).
    apply binary_op_raise. fold n. by eapply broadcastable_false.
  - intros Hc. apply broadcastable_spec in Hc.
    pose proof (binary_op_wp ctx code x y w Hc) as H.
    unfold wp in H.
    destruct (binary_op ctx code x y w) as [[r|e] w'] eqn:E; [|done].
    destruct H as [-> (o & _ & Hm & Hl)].
    eexists _, w'. split; [done|]. split; [done|].
    rewrite Hm, Hl, !length_app. simpl. lia.
Qed.

Lemma C3_binary_op_shape_mismatch_witness :
  Forall int_range [2; 3] ∧ Forall int_range [2; 2] ∧
  binary_op example_ctx code_add (mkBuf [2; 3] 0) (mkBuf [2; 2] 1) example_world
  = (Raise ShapeMismatch, example_world).
Proof.
  assert (H1 : Forall int_range [2; 3]).
  { repeat constructor; unfold int_max; lia. }
  assert (H2 : Forall int_range [2; 2]).
  { repeat constructor; unfold int_max; lia. }
  split; [exact H1|]. split; [exact H2|].
  apply (C3_binary_op_shape_mismatch example_ctx code_add
           (mkBuf [2; 3] 0) (mkBuf [2; 2] 1) example_world H1 H2).
  exists 1%nat, 3, 2. repeat split; (reflexivity || lia).
Defined.

(** The claim C3 as stated fails, with the rank alignment of the
    specification (leading ones).  For shapes (3,) and (3,2) leading ones
    give (1,3) against (3,2), where the last dimension has the unequal sizes
    3 and 2: [binary_op] compares (3,1) with (3,2) and returns a buffer of
    shape (3,2).  For shapes (3,) and (2,3) leading ones give a compatible
    pair, and [binary_op] raises. *)
Lemma C3_counterexample :
  (right_aligned 2 [3] !! 1%nat = Some 3 ∧ right_aligned 2 [3; 2] !! 1%nat = Some 2 ∧
   (binary_op example_ctx code_add (mkBuf [3] 0) (mkBuf [3; 2] 1) example_world).1
   = Ok (mkBuf [3; 2] 2)) ∧
  (broadcastable (right_aligned 2 [3]) (right_aligned 2 [2; 3]) = true ∧
   binary_op example_ctx code_add (mkBuf [3] 0) (mkBuf [2; 3] 1) example_world
   = (Raise ShapeMismatch, example_world)).
Proof.
  split; [split; [|split]|split]; vm_compute; reflexivity.
Qed.

(* ===================================================================== *)
(** * Reductions: the output shape and the axis check *)
(* ===================================================================== *)

Lemma reduce_op_wp ctx code code2 inp axis osize w :
  reduce_osize (shape inp) axis w = (Ok osize, w) →
  wp (reduce_op ctx code code2 inp axis) w (λ r w',
    r = mkBuf (match axis with None => [1] | Some _ => osize end) (length (mem w)) ∧
    ∃ o, length o = Z.to_nat (np_prod osize) ∧
         mem w' = mem w ++ [o; np_array_i32 (shape inp); np_array_i32 osize] ∧
         length (launches w') = S (length (launches w)) ∧
         ((cl inp < length (mem w))%nat →
          o = reduce_result code code2 (shape inp) osize (contents w (cl inp)))).
Proof.
  intros Ho. unfold reduce_op.
  apply wp_bind. unfold wp at 1. rewrite Ho.
  apply wp_bind, wp_buffer_new.
  apply wp_bind, wp_clbuild. intros h w1 Hm1 Hl1.
  apply wp_bind, wp_buffer_np.
  apply wp_bind, wp_buffer_np.
  apply wp_bind, wp_launch. apply wp_ret.
  assert (Hcl : cl (match axis with
                    | None => mkBuf [1] (cl (mkBuf osize (length (mem w))))
                    | Some _ => mkBuf osize (length (mem w))
                    end) = length (mem w)) by (by destruct axis).
  rewrite Hcl. simpl.
  split; [by destruct axis|].
  rewrite !Hm1, Hl1. simpl.
  rewrite !length_app. simpl.
  rewrite <- !(assoc_L (++)). simpl.
  rewrite insert_app_fresh.
  eexists. split; [|split; [done|split; [lia|]]].
  - rewrite length_foldl_store. simpl_mem. by rewrite length_replicate.
  - intros Hinp. unfold reduce_result, deref, contents. by simpl_mem.
Qed.

Lemma reduce_osize_Some sh axis w :
  reduce_osize sh (Some axis) w =
  match np_set_indices sh axis 1 with
  | Some osize => (Ok osize, w)
  | None => (Raise IndexError, w)
  end.
Proof. unfold reduce_osize. by destruct (np_set_indices sh axis 1). Qed.

Lemma np_index_is_Some n a :
  is_Some (np_index n a) ↔ - Z.of_nat n ≤ a < Z.of_nat n.
Proof.
  unfold np_index. repeat case_bool_decide; split; intros Hs;
    try (by eexists); try lia.
Qed.

Lemma np_set_indices_is_Some sh axis v :
  is_Some (np_set_indices sh axis v) ↔
  ∀ a, a ∈ axis → - Z.of_nat (length sh) ≤ a < Z.of_nat (length sh).
Proof.
  unfold np_set_indices.
  destruct (mapM (np_index (length sh)) axis) as [js|] eqn:E; simpl.
  - split; [intros _|by eexists].
    assert (Hs : is_Some (mapM (np_index (length sh)) axis)) by (by eexists).
    rewrite mapM_is_Some, list.Forall_forall in Hs.
    intros a Ha. specialize (Hs a Ha). by apply np_index_is_Some.
  - split; [by intros [? ?]|]. intros H.
    assert (Hs : is_Some (mapM (np_index (length sh)) axis)).
    { rewrite mapM_is_Some, list.Forall_forall. intros a Ha.
      apply np_index_is_Some. by apply H. }
    rewrite E in Hs. by destruct Hs.
Qed.

Lemma reduce_op_raise ctx code code2 inp axis w :
  np_set_indices (shape inp) axis 1 = None →
  reduce_op ctx code code2 inp (Some axis) w = (Raise IndexError, w).
Proof.
  intros H. unfold reduce_op, bind. by rewrite reduce_osize_Some, H.
Qed.

(** C8, as the code has it.  [reduce_op] does not check the axes itself:
    it assigns [osize[list(axis)] = 1] on a numpy array, which accepts every
    index in [-rank, rank) (a negative one counts from the end) and raises
    [IndexError] for any other.  The error is raised before the output
    buffer is allocated and before any kernel is built or launched, both in
    [reduce_op] and in [Sum.forward]; with all axes in [-rank, rank) the
    reduction goes through. *)
Theorem C8_reduce_axis_range ctx code code2 inp axis w :
  let rank := Z.of_nat (length (shape inp)) in
  ((∃ a, a ∈ axis ∧ ¬ (- rank ≤ a < rank)) →
   reduce_op ctx code code2 inp (Some axis) w = (Raise IndexError, w) ∧
   Sum.forward ctx inp (Some axis) w = (Raise IndexError, w)) ∧
  ((∀ a, a ∈ axis → - rank ≤ a < rank) →
   ∃ r w', reduce_op ctx code code2 inp (Some axis) w = (Ok r, w') ∧
           (length (mem w) < length (mem w'))%nat).
Proof.
  intros rank. split.
  - intros (a & Ha & Hr).
    assert (Hn : np_set_indices (shape inp) axis 1 = None).
    { destruct (np_set_indices (shape inp) axis 1) eqn:E; [|done].
      destruct Hr. eapply np_set_indices_is_Some; [by eexists|done]. }
    split; [by apply reduce_op_raise|].
    unfold Sum.forward, bind. by rewrite reduce_op_raise.
  - intros Hr. apply np_set_indices_is_Some with (v := 1) in Hr as [osize Ho].
    assert (H := reduce_op_wp ctx code code2 inp (Some axis) osize w).
    rewrite reduce_osize_Some, Ho in H. specialize (H eq_refl).
    apply wp_elim in H as (r & w' & E & _ & o & _ & Hm & _).
    exists r, w'. split; [done|]. rewrite Hm, length_app. simpl. lia.
Qed.

Lemma C8_reduce_axis_range_witness :
  reduce_op example_ctx code_sum code_out (mkBuf [2; 3] 1) (Some [2]) example_world
  = (Raise IndexError, example_world).
Proof.
  apply (C8_reduce_axis_range example_ctx code_sum code_out (mkBuf [2; 3] 1) [2] example_world).
  exists 2. split; [by apply list_elem_of_singleton|]. simpl. lia.
Defined.

(** The claim C8 as stated fails: the axis -1 is outside [0, rank) for a
    rank-2 input, and the reduction over it succeeds (it sums the last
    axis), in [reduce_op] and in [Sum.forward]. *)
Lemma C8_counterexample :
  ¬ (0 ≤ -1 < Z.of_nat (length [2; 3])) ∧
  (let '(r, w') := reduce_op example_ctx code_sum code_out (mkBuf [2; 3] 1) (Some [-1]) example_world in
   r = Ok (mkBuf [2; 1] 2) ∧ contents w' 2 = [60; 150]) ∧
  (Sum.forward example_ctx (mkBuf [2; 3] 1) (Some [-1]) example_world).1
  = Ok (mkBuf [2; 3] 2).
Proof.
  split; [simpl; lia|]. split.
  - vm_compute. done.
  - vm_compute. done.
Qed.

(* ===================================================================== *)
(** * Reshape *)
(* ===================================================================== *)








Lemma reshape_forward_eq ctx x sh w :
  Reshape.forward ctx x sh w =
  if bool_decide (np_prod_i64 (shape x) = np_prod_i64 (Reshape.infer_shape (shape x) sh))
  then (Ok (mkBuf (Reshape.infer_shape (shape x) sh) (cl x)), w)
  else (Raise AssertionError, w).
Proof.
  unfold Reshape.forward, bind, assert, GPUBuffer_alias. simpl.
  by case_bool_decide.
Qed.



(* ===================================================================== *)
(** * The kernel cache *)
(* ===================================================================== *)

Lemma cache_find_Some k c h : cache_find k c = Some h → (k, h) ∈ c.
Proof.
  induction c as [|[k' h'] c IH]; [done|]. csimpl.
  case_decide as Hk.
  - intros [= ->]. subst. left.
  - intros H. right. by apply IH.
Qed.

Lemma cache_find_None k c : cache_find k c = None ↔ k ∉ c.*1.
Proof.
  induction c as [|[k' h'] c IH]; csimpl.
  - split; [intros _; apply not_elem_of_nil|done].
  - case_decide as Hk.
    + split; [done|]. intros Hn. destruct Hn. subst. left.
    + rewrite IH, not_elem_of_cons.
      split; [intros ?; split; [congruence|done]|by intros [_ ?]].
Qed.

Lemma cache_find_remove_ne k k' c :
  k' ≠ k → cache_find k' (cache_remove k c) = cache_find k' c.
Proof.
  intros Hne. unfold cache_remove.
  induction c as [|[k0 h0] c IH]; [done|].
  destruct (decide (k0 = k)) as [->|Hk0].
  - rewrite filter_cons_False by (csimpl; auto). csimpl.
    by rewrite decide_False by done.
  - rewrite filter_cons_True by done. csimpl. by rewrite IH.
Qed.

Lemma cache_remove_keys k c : (cache_remove k c).*1 = filter (λ k', k' ≠ k) c.*1.
Proof.
  unfold cache_remove.
  induction c as [|[k0 h0] c IH]; [done|].
  destruct (decide (k0 = k)) as [->|Hk0].
  - rewrite filter_cons_False by (csimpl; auto). csimpl.
    by rewrite filter_cons_False by auto.
  - rewrite filter_cons_True by done. csimpl.
    rewrite filter_cons_True by done. by rewrite IH.
Qed.

Lemma key_eta k : mkKey (key_ctx k) (key_name k) (key_prg k) = k.
Proof. by destruct k. Qed.

(** A request for a program that does not build raises and leaves the
    world as it was. *)
Lemma clbuild_fail cc k w :
  cache_sound cc w → cc k = false →
  clbuild cc (key_ctx k) (key_name k) (key_prg k) w = (Raise BuildError, w).
Proof.
  intros Hs Hk. unfold clbuild. rewrite key_eta.
  destruct (cache_find k (kcache w)) as [h|] eqn:E.
  - apply cache_find_Some, Hs in E as [_ E]. congruence.
  - by rewrite Hk.
Qed.

(** The handle returned for a program that builds was built from the key
    asked for. *)
Lemma clbuild_sound cc k w :
  cache_sound cc w → cc k = true →
  ∃ h w', clbuild cc (key_ctx k) (key_name k) (key_prg k) w = (Ok h, w') ∧
          behavior h = k ∧ cache_sound cc w'.
Proof.
  intros Hs Hk. unfold clbuild. rewrite key_eta.
  destruct (cache_find k (kcache w)) as [h|] eqn:E.
  - eexists _, _. split; [done|].
    apply cache_find_Some in E. split; [by apply Hs|].
    intros k0 h0. csimpl. rewrite elem_of_cons. intros [[= -> ->]|Hin]; [by apply Hs|].
    apply list_elem_of_filter in Hin as [_ Hin]. by apply Hs.
  - rewrite Hk. eexists _, _. split; [done|]. split; [by destruct k|].
    intros k0 h0 Hin. cbn [kcache] in Hin.
    apply elem_of_take in Hin as (i & Hin & _).
    apply list_elem_of_lookup_2 in Hin.
    apply elem_of_cons in Hin as [[= -> ->]|Hin]; [by destruct k|by apply Hs].
Qed.

(** With all requests among at most [lru_maxsize] keys, nothing is ever
    evicted: a request for a program that builds returns the handle cached
    for its key when there is one, compiles only when there is none, and
    every other entry stays. *)
Lemma clbuild_step cc keys k w :
  NoDup keys → (length keys ≤ lru_maxsize)%nat → k ∈ keys → cache_inv keys w →
  cc k = true →
  ∃ h w', clbuild cc (key_ctx k) (key_name k) (key_prg k) w = (Ok h, w') ∧
          cache_inv keys w' ∧
          cache_find k (kcache w') = Some h ∧
          (∀ k0 h0, cache_find k0 (kcache w) = Some h0 → cache_find k0 (kcache w') = Some h0) ∧
          (∀ k0, k0 ∈ builds w' ↔ k0 ∈ builds w ∨ k0 = k).
Proof.
  intros Hnd Hlen Hk (Hc1 & Hc2 & Hb1 & Hb2) Hcc.
  unfold clbuild. rewrite key_eta.
  destruct (cache_find k (kcache w)) as [h|] eqn:E.
  - eexists _, _. split; [done|]. csimpl.
    assert (Hin := cache_find_Some _ _ _ E).
    split; [|split; [|split]].
    + split; [|split; [|split]]; csimpl.
      * rewrite cache_remove_keys. apply NoDup_cons. split.
        -- rewrite list_elem_of_filter. naive_solver.
        -- by apply NoDup_filter.
      * intros k0 h0. rewrite elem_of_cons. intros [[= -> ->]|Hin0]; [done|].
        apply list_elem_of_filter in Hin0 as [_ Hin0]. by eapply Hc2.
      * done.
      * intros k0. rewrite Hb2, cache_remove_keys, elem_of_cons, list_elem_of_filter.
        split.
        -- intros Hk0. destruct (decide (k0 = k)); [by left|by right].
        -- intros [->|[_ ?]]; [|done].
           apply list_elem_of_fmap. by exists (k, h).
    + by rewrite decide_True.
    + intros k0 h0 E0. destruct (decide (k = k0)) as [<-|Hne].
      * by rewrite E0 in E.
      * by rewrite cache_find_remove_ne.
    + intros k0. split; [by left|]. intros [?| ->]; [done|].
      apply Hb2, list_elem_of_fmap. by exists (k, h).
  - rewrite Hcc. apply cache_find_None in E.
    assert (Hfit : (length (kcache w) < lru_maxsize)%nat).
    { assert (Hsub : k :: (kcache w).*1 ⊆+ keys).
      { apply NoDup_submseteq; [by apply NoDup_cons|].
        intros k0. rewrite elem_of_cons. intros [->|Hin]; [done|].
        apply list_elem_of_fmap in Hin as ([k1 h1] & -> & Hin). by eapply Hc2. }
      apply submseteq_length in Hsub. csimpl in Hsub.
      rewrite length_fmap in Hsub. lia. }
    assert (Htake : take lru_maxsize
                      ((k, mkKernel (length (builds w)) (key_ctx k) (key_name k) (key_prg k))
                       :: kcache w)
                    = (k, mkKernel (length (builds w)) (key_ctx k) (key_name k) (key_prg k))
                      :: kcache w).
    { apply take_ge. csimpl. lia. }
    eexists _, _. split; [done|]. cbn [mem kcache builds launches]. rewrite Htake.
    split; [|split; [|split]].
    + split; [|split; [|split]]; csimpl.
      * by apply NoDup_cons.
      * intros k0 h0. rewrite elem_of_cons. intros [[= -> ->]|Hin0]; [done|].
        by eapply Hc2.
      * apply NoDup_app. split; [done|]. split; [|apply NoDup_singleton].
        intros k0 Hk0. rewrite list_elem_of_singleton. intros ->.
        by apply E, Hb2.
      * intros k0. rewrite elem_of_app, list_elem_of_singleton, elem_of_cons, Hb2.
        naive_solver.
    + csimpl. by rewrite decide_True.
    + intros k0 h0 E0. csimpl. case_decide as Hk0; [|done].
      subst. apply cache_find_Some in E0. destruct E.
      apply list_elem_of_fmap. by exists (k0, h0).
    + intros k0. rewrite elem_of_app, list_elem_of_singleton. done.
Qed.

(** Every request returns a handle built from its key when the program
    builds, and raises when it does not. *)
Lemma clbuild_all_sound cc reqs w :
  cache_sound cc w →
  ∃ rs w', clbuild_all cc reqs w = (rs, w') ∧ length rs = length reqs ∧
    cache_sound cc w' ∧
    ∀ i k, reqs !! i = Some k →
      if cc k then ∃ h, rs !! i = Some (Ok h) ∧ behavior h = k
      else rs !! i = Some (Raise BuildError).
Proof.
  revert w. induction reqs as [|k reqs IH]; intros w Hs.
  - exists [], w. split; [done|]. split; [done|]. split; [done|].
    intros i k. by rewrite lookup_nil.
  - destruct (cc k) eqn:Hk.
    + destruct (clbuild_sound cc k w Hs Hk) as (h & w1 & E1 & Hh & Hs1).
      destruct (IH w1 Hs1) as (rs & w' & E & Hl & Hs' & Hall).
      exists (Ok h :: rs), w'. csimpl. rewrite E1, E. split; [done|].
      split; [csimpl; by rewrite Hl|]. split; [done|].
      intros [|i] k0; csimpl; [|apply Hall].
      intros [= <-]. rewrite Hk. by exists h.
    + pose proof (clbuild_fail cc k w Hs Hk) as E1.
      destruct (IH w Hs) as (rs & w' & E & Hl & Hs' & Hall).
      exists (Raise BuildError :: rs), w'. csimpl. rewrite E1, E. split; [done|].
      split; [csimpl; by rewrite Hl|]. split; [done|].
      intros [|i] k0; csimpl; [|apply Hall].
      intros [= <-]. by rewrite Hk.
Qed.

Lemma clbuild_all_cached cc keys reqs w :
  NoDup keys → (length keys ≤ lru_maxsize)%nat → (∀ k, k ∈ reqs → k ∈ keys) →
  cache_inv keys w → cache_sound cc w →
  ∃ rs w', clbuild_all cc reqs w = (rs, w') ∧
    cache_inv keys w' ∧
    (∀ i k h, reqs !! i = Some k → rs !! i = Some (Ok h) → cache_find k (kcache w') = Some h) ∧
    (∀ k h, cache_find k (kcache w) = Some h → cache_find k (kcache w') = Some h) ∧
    (∀ k, k ∈ builds w' ↔ k ∈ builds w ∨ (k ∈ reqs ∧ cc k = true)).
Proof.
  intros Hnd Hlen. revert w. induction reqs as [|k reqs IH]; intros w Hin Hinv Hs.
  - exists [], w. split; [done|]. split; [done|].
    split; [intros i k h; by rewrite lookup_nil|]. split; [done|].
    intros k. rewrite elem_of_nil. tauto.
  - destruct (cc k) eqn:Hk.
    + destruct (clbuild_step cc keys k w Hnd Hlen) as (h & w1 & E1 & Hinv1 & Hf1 & Hp1 & Hb1);
        [apply Hin; left|done|done|].
      destruct (clbuild_sound cc k w Hs Hk) as (h' & w1' & E1' & _ & Hs1).
      rewrite E1 in E1'. injection E1' as <- <-.
      destruct (IH w1) as (rs & w' & E & Hinv' & Hall & Hp & Hb);
        [intros k0 ?; apply Hin; by right|done|done|].
      exists (Ok h :: rs), w'. csimpl. rewrite E1, E. split; [done|].
      split; [done|]. split; [|split].
      * intros [|i] k0 h0; csimpl; [|apply Hall].
        intros [= <-] [= <-]. by apply Hp.
      * intros k0 h0 E0. by apply Hp, Hp1.
      * intros k0. rewrite Hb, Hb1, elem_of_cons. naive_solver.
    + pose proof (clbuild_fail cc k w Hs Hk) as E1.
      destruct (IH w) as (rs & w' & E & Hinv' & Hall & Hp & Hb);
        [intros k0 ?; apply Hin; by right|done|done|].
      exists (Raise BuildError :: rs), w'. csimpl. rewrite E1, E. split; [done|].
      split; [done|]. split; [|split].
      * intros [|i] k0 h0; csimpl; [done|apply Hall].
      * done.
      * intros k0. rewrite Hb, elem_of_cons. split.
        -- intros [?|[? ?]]; [by left|right; split; [by right|done]].
        -- intros [?|[[->|?] ?]]; [by left|congruence|by right].
Qed.

Lemma cache_inv_empty keys : cache_inv keys empty_world.
Proof.
  split; [apply NoDup_nil_2|]. split; [intros k h; by rewrite elem_of_nil|].
  split; [apply NoDup_nil_2|]. intros k. csimpl. by rewrite !elem_of_nil.
Qed.

Lemma cache_sound_empty cc : cache_sound cc empty_world.
Proof. intros k h. csimpl. by rewrite elem_of_nil. Qed.

Lemma NoDup_count (k : Key) l :
  NoDup l → (length (filter (λ k', k' = k) l) ≤ 1)%nat ∧
            (k ∈ l → length (filter (λ k', k' = k) l) = 1%nat) ∧
            (k ∉ l → length (filter (λ k', k' = k) l) = 0%nat).
Proof.
  induction 1 as [|k0 l Hk0 Hnd (IH1 & IH2 & IH3)].
  - split; [csimpl; lia|]. split; [by rewrite elem_of_nil|done].
  - destruct (decide (k0 = k)) as [->|Hne].
    + rewrite filter_cons_True by done.
      csimpl. rewrite IH3 by done. split; [lia|]. split; [done|].
      intros Hn. destruct Hn. left.
    + rewrite filter_cons_False by done. split; [done|]. split.
      * rewrite elem_of_cons. intros [->|Hin]; [done|by apply IH2].
      * rewrite not_elem_of_cons. intros [_ Hn]. by apply IH3.
Qed.

(** C4, as the code has it.  From the start of the process, whatever the
    OpenCL compiler accepts: a request to [clbuild] for a program that builds
    returns a handle built from the requested context, name and source text,
    so two requests with the same key return handles that do the same; a
    request for a program that does not build raises.  The cache is an LRU
    cache of [lru_maxsize] = 128 entries: as long as the requests made are
    among at most 128 distinct keys, two requests with the same key return
    the very same handle, every key is compiled at most once, and a
    requested key whose program builds exactly once, on its first
    request. *)
Theorem C4_clbuild_cache (cc : Compiler) (reqs : list Key) :
  ∃ rs w, clbuild_all cc reqs empty_world = (rs, w) ∧ length rs = length reqs ∧
    (∀ i k, reqs !! i = Some k →
       if cc k then ∃ h, rs !! i = Some (Ok h) ∧ behavior h = k
       else rs !! i = Some (Raise BuildError)) ∧
    (∀ keys, NoDup keys → (length keys ≤ lru_maxsize)%nat → (∀ k, k ∈ reqs → k ∈ keys) →
       (∀ i j k hi hj, reqs !! i = Some k → reqs !! j = Some k →
          rs !! i = Some (Ok hi) → rs !! j = Some (Ok hj) → hi = hj) ∧
       (∀ k, compilations k w ≤ 1)%nat ∧
       (∀ k, k ∈ reqs → compilations k w = if cc k then 1%nat else 0%nat)).
Proof.
  destruct (clbuild_all_sound cc reqs empty_world (cache_sound_empty cc))
    as (rs & w & E & Hl & _ & Hs).
  exists rs, w. split; [done|]. split; [done|]. split; [done|].
  intros keys Hnd Hlen Hin.
  destruct (clbuild_all_cached cc keys reqs empty_world Hnd Hlen Hin
              (cache_inv_empty keys) (cache_sound_empty cc))
    as (rs' & w' & E' & (_ & _ & Hb1 & _) & Hall & _ & Hb).
  rewrite E in E'. injection E' as <- <-.
  split; [|split].
  - intros i j k hi hj Hi Hj Hhi Hhj.
    pose proof (Hall i k hi Hi Hhi) as H1. pose proof (Hall j k hj Hj Hhj) as H2.
    rewrite H1 in H2. by injection H2.
  - intros k. unfold compilations. by apply NoDup_count.
  - intros k Hk. unfold compilations. destruct (cc k) eqn:Hc.
    + apply NoDup_count; [done|]. apply Hb. by right.
    + apply NoDup_count; [done|]. rewrite Hb. csimpl. rewrite elem_of_nil.
      intros [[]|[_ ?]]. congruence.
Qed.

Lemma C4_clbuild_cache_witness :
  ∃ rs w,
    clbuild_all example_compiler [example_key 0; example_key 1; example_key 0] empty_world
    = (rs, w) ∧
    (compilations (example_key 0) w ≤ 1)%nat.
Proof.
  destruct (C4_clbuild_cache example_compiler [example_key 0; example_key 1; example_key 0])
    as (rs & w & E & _ & _ & H).
  exists rs, w. split; [exact E|].
  destruct (H [example_key 0; example_key 1]) as (_ & Hc & _).
  - apply NoDup_cons. split.
    + rewrite list_elem_of_singleton. discriminate.
    + apply NoDup_singleton.
  - unfold lru_maxsize. csimpl. lia.
  - intros k. rewrite !elem_of_cons, elem_of_nil. tauto.
  - apply Hc.
Defined.

(** The claim C4 as stated fails: after requests for 129 distinct programs
    that build, the first key has been evicted, and a second request for it
    compiles the program again and returns a handle backed by another
    program. *)
Lemma C4_counterexample :
  let reqs := example_key <$> (seq 0 129 ++ [0%nat]) in
  let '(rs, w) := clbuild_all example_compiler reqs empty_world in
  compilations (example_key 0) w = 2%nat ∧
  ∃ h h', rs !! 0%nat = Some (Ok h) ∧ rs !! 129%nat = Some (Ok h') ∧
          k_program h = 0%nat ∧ k_program h' = 129%nat.
Proof.
  vm_compute. split; [reflexivity|]. eexists _, _.
  split; [reflexivity|]. split; [reflexivity|]. split; reflexivity.
Qed.

(* ===================================================================== *)
(** * Row-major index arithmetic *)
(* ===================================================================== *)

Lemma load_app_middle (pre suf : list Z) s :
  load (pre ++ s :: suf) (Z.of_nat (length pre)) = s.
Proof.
  unfold load. rewrite bool_decide_true by lia.
  by rewrite Nat2Z.id, list_lookup_middle.
Qed.

Lemma seqZ_succ_cons (k n : nat) :
  seqZ (Z.of_nat k) (Z.of_nat (S n)) = Z.of_nat k :: seqZ (Z.of_nat (S k)) (Z.of_nat n).
Proof.
  rewrite seqZ_cons by lia. f_equal. f_equal; lia.
Qed.

Lemma int_div_nonneg a b :
  0 ≤ a < 2^31 → 0 < b → int_div a b = a `div` b.
Proof.
  intros Ha Hb. unfold int_div.
  rewrite Z.quot_div_nonneg by lia.
  apply wrap32_small.
  pose proof (Z.div_pos a b). pose proof (Z.div_le_upper_bound a b a).
  nia.
Qed.

Lemma int_rem_nonneg a b : 0 ≤ a → 0 < b → int_rem a b = a `mod` b.
Proof. intros Ha Hb. unfold int_rem. by apply Z.rem_mod_nonneg. Qed.

(** [idx * size + coordinate] does not wrap while the index stays in an
    array of less than 2^31 elements. *)
Lemma int_horner idx s c :
  0 ≤ idx → 0 < s → 0 ≤ c < s → (idx + 1) * s ≤ 2^31 →
  int_add (int_mul idx s) c = idx * s + c.
Proof.
  intros Hi Hs Hc Hb. unfold int_add, int_mul.
  rewrite (wrap32_small (idx * s)) by nia.
  apply wrap32_small. nia.
Qed.

Lemma unravel_length sh g : length (unravel sh g) = length sh.
Proof. induction sh as [|s sh IH]; simpl; [done|]. by rewrite IH. Qed.

Lemma unravel_bounds sh g i c s :
  Forall (λ d, 0 < d) sh → unravel sh g !! i = Some c → sh !! i = Some s → 0 ≤ c < s.
Proof.
  intros Hsh. revert i. induction Hsh as [|d sh Hd Hsh IH]; intros i; [done|].
  destruct i as [|i]; simpl.
  - intros [= <-] [= <-]. by apply Z.mod_pos_bound.
  - apply IH.
Qed.

(** Accumulating the coordinates of [g] gives [g] back. *)
Lemma ravel_from_unravel acc sh g :
  Forall (λ d, 0 < d) sh →
  ravel_from acc sh (unravel sh g) = acc * np_prod sh + g `mod` np_prod sh.
Proof.
  intros Hsh. revert acc. induction Hsh as [|s sh Hs Hsh IH]; intros acc.
  - unfold ravel_from. simpl. change (np_prod []) with 1. rewrite Z.mod_1_r. lia.
  - unfold ravel_from in *. simpl. rewrite IH, np_prod_cons.
    pose proof (np_prod_pos sh Hsh) as HR.
    rewrite (Z.mul_comm s (np_prod sh)).
    rewrite (Z.rem_mul_r g (np_prod sh) s) by lia. lia.
Qed.

Lemma ravel_unravel sh g :
  Forall (λ d, 0 < d) sh → 0 ≤ g < np_prod sh → ravel sh (unravel sh g) = g.
Proof.
  intros Hsh Hg. unfold ravel. rewrite ravel_from_unravel by done.
  rewrite Z.mod_small by done. lia.
Qed.

Lemma zip_with_mod_unravel sh g :
  Forall (λ d, 0 < d) sh → zip_with Z.modulo (unravel sh g) sh = unravel sh g.
Proof.
  induction 1 as [|s sh Hs Hsh IH]; [done|]. simpl.
  rewrite IH. f_equal. apply Z.mod_small. by apply Z.mod_pos_bound.
Qed.

(** ** The loop of the [binop] kernel *)

Lemma binop_step_ideal gid shape_x shape_y shape_ret dim sx sy sr R ia ib :
  load shape_x dim = sx → load shape_y dim = sy → load shape_ret dim = sr →
  0 < sx → 0 < sy → 0 < sr → 0 < R → sr * R < 2^31 → 0 ≤ gid < 2^31 →
  0 ≤ ia → (ia + 1) * sx ≤ 2^31 → 0 ≤ ib → (ib + 1) * sy ≤ 2^31 →
  binop_step gid shape_x shape_y shape_ret (sr * R, ia, ib) dim
  = (R, ia * sx + ((gid `div` R) `mod` sr) `mod` sx,
        ib * sy + ((gid `div` R) `mod` sr) `mod` sy).
Proof.
  intros Hlx Hly Hlr Hsx Hsy Hsr HR Hp Hg Hia Hba Hib Hbb.
  unfold binop_step. rewrite Hlx, Hly, Hlr.
  assert (Hq : int_div (sr * R) sr = R).
  { rewrite int_div_nonneg by nia. rewrite Z.mul_comm. by apply Z.div_mul; lia. }
  rewrite Hq.
  assert (Hd : 0 ≤ gid `div` R < 2^31).
  { pose proof (Z.div_pos gid R). pose proof (Z.div_le_upper_bound gid R gid). nia. }
  rewrite (int_div_nonneg gid R) by lia.
  rewrite (int_rem_nonneg (gid `div` R) sr) by lia.
  pose proof (Z.mod_pos_bound (gid `div` R) sr Hsr) as Hc.
  rewrite !int_rem_nonneg by lia.
  rewrite !int_horner; try done; by apply Z.mod_pos_bound.
Qed.

Lemma binop_loop_ideal gid suf_x suf_y suf_r : ∀ pre_x pre_y pre_r ia ib,
  length pre_x = length pre_r → length pre_y = length pre_r →
  length suf_x = length suf_r → length suf_y = length suf_r →
  Forall (λ d, 0 < d) suf_x → Forall (λ d, 0 < d) suf_y → Forall (λ d, 0 < d) suf_r →
  np_prod suf_r < 2^31 → 0 ≤ gid < 2^31 →
  0 ≤ ia → (ia + 1) * np_prod suf_x ≤ 2^31 →
  0 ≤ ib → (ib + 1) * np_prod suf_y ≤ 2^31 →
  foldl (binop_step gid (pre_x ++ suf_x) (pre_y ++ suf_y) (pre_r ++ suf_r))
    (np_prod suf_r, ia, ib)
    (seqZ (Z.of_nat (length pre_r)) (Z.of_nat (length suf_r)))
  = (1, ravel_from ia suf_x (zip_with Z.modulo (unravel suf_r gid) suf_x),
        ravel_from ib suf_y (zip_with Z.modulo (unravel suf_r gid) suf_y)).
Proof.
  revert suf_x suf_y.
  induction suf_r as [|sr suf_r IH]; intros suf_x suf_y pre_x pre_y pre_r ia ib
    Hpx Hpy Hlx Hly Hx Hy Hr Hp Hg Hia Hba Hib Hbb.
  { destruct suf_x; [|done]. destruct suf_y; [|done]. done. }
  destruct suf_x as [|sx suf_x]; [done|]. destruct suf_y as [|sy suf_y]; [done|].
  apply Forall_cons in Hx as [Hsx Hx]. apply Forall_cons in Hy as [Hsy Hy].
  apply Forall_cons in Hr as [Hsr Hr].
  rewrite !np_prod_cons in *.
  pose proof (np_prod_pos _ Hx). pose proof (np_prod_pos _ Hy). pose proof (np_prod_pos _ Hr).
  cbn [length]. rewrite seqZ_succ_cons. cbn [foldl].
  rewrite (binop_step_ideal gid _ _ _ _ sx sy sr (np_prod suf_r) ia ib); try done; try lia.
  - replace (pre_x ++ sx :: suf_x) with ((pre_x ++ [sx]) ++ suf_x) by (by rewrite <- app_assoc).
    replace (pre_y ++ sy :: suf_y) with ((pre_y ++ [sy]) ++ suf_y) by (by rewrite <- app_assoc).
    replace (pre_r ++ sr :: suf_r) with ((pre_r ++ [sr]) ++ suf_r) by (by rewrite <- app_assoc).
    replace (S (length pre_r)) with (length (pre_r ++ [sr])) by (rewrite length_app; simpl; lia).
    pose proof (Z.mod_pos_bound ((gid `div` np_prod suf_r) `mod` sr) sx Hsx).
    pose proof (Z.mod_pos_bound ((gid `div` np_prod suf_r) `mod` sr) sy Hsy).
    rewrite IH; try done; try (rewrite !length_app; simpl; lia); try nia.
    all: simpl in Hlx, Hly; lia.
  - rewrite <- Hpx. apply load_app_middle.
  - rewrite <- Hpy. apply load_app_middle.
  - apply load_app_middle.
  - nia.
  - nia.
Qed.

Lemma np_prod_le sa sb :
  Forall2 (λ a b, 0 < a ≤ b) sa sb → 0 < np_prod sa ≤ np_prod sb.
Proof.
  induction 1 as [|a b sa sb Hab _ IH].
  - change (np_prod []) with 1. lia.
  - rewrite !np_prod_cons. nia.
Qed.

Lemma zip_with_max_bounds sa sb :
  length sa = length sb → Forall (λ d, 0 < d) sa → Forall (λ d, 0 < d) sb →
  Forall2 (λ a r, 0 < a ≤ r) sa (zip_with Z.max sa sb) ∧
  Forall2 (λ b r, 0 < b ≤ r) sb (zip_with Z.max sa sb) ∧
  Forall (λ d, 0 < d) (zip_with Z.max sa sb).
Proof.
  intros Hl Ha. revert sb Hl. induction Ha as [|a sa Ha _ IH]; intros [|b sb] Hl Hb; try done.
  apply Forall_cons in Hb as [Hb Hsb]. simpl in Hl.
  destruct (IH sb) as (H1 & H2 & H3); [lia|done|]. simpl.
  split; [|split]; constructor; (done || lia).
Qed.

Lemma binop_index_ideal gid shape_x shape_y shape_ret :
  length shape_x = length shape_ret → length shape_y = length shape_ret →
  Forall (λ d, 0 < d) shape_x → Forall (λ d, 0 < d) shape_y → Forall (λ d, 0 < d) shape_ret →
  np_prod shape_x ≤ 2^31 → np_prod shape_y ≤ 2^31 → np_prod shape_ret ≤ int_max →
  Z.of_nat (length shape_ret) ≤ int_max → 0 ≤ gid < np_prod shape_ret →
  binop_index gid (i32 (Z.of_nat (length shape_ret))) (i32 (np_prod shape_ret))
    shape_x shape_y shape_ret
  = (ravel shape_x (zip_with Z.modulo (unravel shape_ret gid) shape_x),
     ravel shape_y (zip_with Z.modulo (unravel shape_ret gid) shape_y)).
Proof.
  unfold int_max. intros Hlx Hly Hx Hy Hr Hpx Hpy Hpr Hn Hg.
  pose proof (np_prod_pos _ Hr).
  unfold binop_index.
  rewrite !i32_small by (unfold int_range, int_max; lia).
  pose proof (binop_loop_ideal gid shape_x shape_y shape_ret [] [] [] 0 0) as H1.
  simpl in H1. change (Z.of_nat 0) with 0 in H1.
  rewrite H1; try done; lia.
Qed.

(** C2.  For broadcast-compatible operand shapes (of equal rank, as
    [binary_op] passes them to the kernel, with the output shape their
    per-dimension maximum) and every flat output index [gid]: the coordinates
    [idx] that the kernel obtains by dividing the remaining product by each
    output dimension in turn are the row-major coordinates of [gid]; the loop
    leaves in [idx_a] and [idx_b] the accumulation
    [idx * size + (coordinate % size)] over the dimensions of the operand;
    and in each dimension [coordinate % size] is the coordinate itself when
    the operand has the size of the output and 0 when the operand has size 1.
    The same holds for both operands. *)
Theorem C2_binop_broadcast_index (shape_x shape_y : list Z) (gid : Z) :
  let shape_ret := zip_with Z.max shape_x shape_y in
  let idx := unravel shape_ret gid in
  length shape_x = length shape_y →
  Forall (λ d, 0 < d) shape_x → Forall (λ d, 0 < d) shape_y →
  (∀ i a b, shape_x !! i = Some a → shape_y !! i = Some b → compatible a b) →
  np_prod shape_ret ≤ int_max → Z.of_nat (length shape_ret) ≤ int_max →
  0 ≤ gid < np_prod shape_ret →
  ravel shape_ret idx = gid ∧
  (∀ i c r, idx !! i = Some c → shape_ret !! i = Some r → 0 ≤ c < r) ∧
  binop_index gid (i32 (Z.of_nat (length shape_ret))) (i32 (np_prod shape_ret))
    shape_x shape_y shape_ret
  = (ravel shape_x (zip_with Z.modulo idx shape_x),
     ravel shape_y (zip_with Z.modulo idx shape_y)) ∧
  (∀ i c r s, idx !! i = Some c → shape_ret !! i = Some r →
     shape_x !! i = Some s ∨ shape_y !! i = Some s →
     (s = r → c `mod` s = c) ∧ (s = 1 → c `mod` s = 0)).
Proof.
  intros shape_ret idx Hl Hx Hy Hc Hp Hn Hg.
  destruct (zip_with_max_bounds shape_x shape_y Hl Hx Hy) as (Hxr & Hyr & Hr).
  fold shape_ret in Hxr, Hyr, Hr.
  assert (Hlr : length shape_ret = length shape_x).
  { unfold shape_ret. rewrite length_zip_with. lia. }
  split; [by apply ravel_unravel|].
  split; [intros i c r; by apply unravel_bounds|].
  split.
  - apply binop_index_ideal; try done; try lia.
    + pose proof (np_prod_le _ _ Hxr). unfold int_max in Hp. lia.
    + pose proof (np_prod_le _ _ Hyr). unfold int_max in Hp. lia.
  - intros i c r s Hi Hri _.
    pose proof (unravel_bounds _ _ _ _ _ Hr Hi Hri) as Hb.
    split; intros ->; [by apply Z.mod_small|apply Z.mod_1_r].
Qed.

Lemma C2_binop_broadcast_index_witness :
  binop_index 5 (i32 2) (i32 6) [3; 1] [3; 2] [3; 2] = (2, 5).
Proof.
  assert (Hx : Forall (λ d, 0 < d) [3; 1]) by (repeat constructor; lia).
  assert (Hy : Forall (λ d, 0 < d) [3; 2]) by (repeat constructor; lia).
  assert (Hc : ∀ (i : nat) a b, [3; 1] !! i = Some a → [3; 2] !! i = Some b → compatible a b).
  { intros [|[|i]] a b; simpl; intros [= <-] [= <-]; unfold compatible; auto. }
  assert (Hp : np_prod (zip_with Z.max [3; 1] [3; 2]) ≤ int_max) by (vm_compute; discriminate).
  assert (Hn : Z.of_nat (length (zip_with Z.max [3; 1] [3; 2])) ≤ int_max)
    by (vm_compute; discriminate).
  assert (Hg : 0 ≤ 5 < np_prod (zip_with Z.max [3; 1] [3; 2])) by (vm_compute; split; [discriminate|reflexivity]).
  exact (proj1 (proj2 (proj2
    (C2_binop_broadcast_index [3; 1] [3; 2] 5 eq_refl Hx Hy Hc Hp Hn Hg)))).
Defined.

(** * The fast path of [binary_op] *)

(** C10.  For operands of identical shape [sh] (so that both padded shapes
    and the output shape are [sh]) and every flat output index [gid], the
    general per-dimension loop computes [idx_a = idx_b = gid], the indices of
    the specialized mapping, and the work-item stores the same value through
    either path. *)
Theorem C10_binop_fast_path code (a_g b_g sh : list Z) (gid : Z) :
  let n_dims := i32 (Z.of_nat (length sh)) in
  let prod := i32 (np_prod sh) in
  Forall (λ d, 0 < d) sh →
  np_prod sh ≤ int_max → Z.of_nat (length sh) ≤ int_max →
  0 ≤ gid < np_prod sh →
  binop_index gid n_dims prod sh sh sh = binop_index_fast gid ∧
  binop_kernel code true a_g b_g n_dims prod sh sh sh gid
  = binop_kernel code false a_g b_g n_dims prod sh sh sh gid.
Proof.
  intros n_dims prod Hsh Hp Hn Hg.
  assert (E : binop_index gid n_dims prod sh sh sh = binop_index_fast gid).
  { unfold n_dims, prod. rewrite binop_index_ideal; try done.
    - rewrite zip_with_mod_unravel by done.
      by rewrite ravel_unravel.
    - unfold int_max in Hp. lia.
    - unfold int_max in Hp. lia. }
  split; [done|]. unfold binop_kernel. by rewrite E.
Qed.

Lemma C10_binop_fast_path_witness :
  binop_index 4 (i32 2) (i32 6) [2; 3] [2; 3] [2; 3] = binop_index_fast 4.
Proof.
  assert (Hsh : Forall (λ d, 0 < d) [2; 3]) by (repeat constructor; lia).
  assert (Hp : np_prod [2; 3] ≤ int_max) by (vm_compute; discriminate).
  assert (Hn : Z.of_nat (length [2; 3]) ≤ int_max) by (vm_compute; discriminate).
  assert (Hg : 0 ≤ 4 < np_prod [2; 3]) by (vm_compute; split; [discriminate|reflexivity]).
  exact (proj1 (C10_binop_fast_path Z.add [] [] [2; 3] 4 Hsh Hp Hn Hg)).
Defined.

(* ===================================================================== *)
(** * Memory effects of the operations *)
(* ===================================================================== *)

Lemma fresh_output_intro w r w' sh o rest :
  cl r = length (mem w) → mem w' = mem w ++ o :: rest →
  length o = Z.to_nat (np_prod sh) → fresh_output w r w' sh.
Proof.
  intros Hr Hm Ho. unfold fresh_output, contents. rewrite Hr, Hm.
  split; [by apply prefix_app_r|]. split.
  - rewrite length_app. simpl. lia.
  - by rewrite lookup_app_fresh.
Qed.

Lemma fresh_output_trans w w1 r w' sh :
  mem w `prefix_of` mem w1 → fresh_output w1 r w' sh → fresh_output w r w' sh.
Proof.
  intros Hp (Hp1 & Hr & Hl). split; [by etrans|]. split; [|done].
  apply prefix_length in Hp. lia.
Qed.

Lemma binary_op_post ctx code x y w :
  post (binary_op ctx code x y) w (λ r w', fresh_output w r w' (shape r)).
Proof.
  set (n := (length (shape x) `max` length (shape y))%nat).
  destruct (broadcastable (padded_shape n (shape x)) (padded_shape n (shape y))) eqn:Hb.
  - apply wp_post. eapply wp_mono; [by apply binary_op_wp|].
    intros r w' (-> & o & Ho & Hm & _). by eapply fresh_output_intro.
  - unfold post. by rewrite binary_op_raise.
Qed.

Lemma unary_op_wp ctx code x w :
  wp (unary_op ctx code x) w (λ r w',
    r = mkBuf (shape x) (length (mem w)) ∧
    ∃ o, length o = Z.to_nat (np_prod (shape x)) ∧ mem w' = mem w ++ [o]).
Proof.
  unfold unary_op, buffer_like.
  apply wp_bind, wp_buffer_new.
  apply wp_bind, wp_clbuild. intros h w1 Hm1 Hl1.
  apply wp_bind, wp_launch. apply wp_ret. simpl.
  split; [done|]. rewrite !Hm1. simpl.
  rewrite insert_app_fresh.
  eexists. split; [|done].
  rewrite length_foldl_store. simpl_mem. by rewrite length_replicate.
Qed.

Lemma unary_op_post ctx code x w :
  post (unary_op ctx code x) w (λ r w', fresh_output w r w' (shape r)).
Proof.
  apply wp_post. eapply wp_mono; [apply unary_op_wp|].
  intros r w' (-> & o & Ho & Hm). by eapply fresh_output_intro.
Qed.

Lemma reduce_osize_world sh axis w :
  (∃ osize, reduce_osize sh axis w = (Ok osize, w)) ∨
  (∃ e, reduce_osize sh axis w = (Raise e, w)).
Proof.
  destruct axis as [axis|]; [|left; by eexists].
  rewrite reduce_osize_Some.
  destruct (np_set_indices sh axis 1); [left|right]; by eexists.
Qed.

Lemma reduce_op_post ctx code code2 inp axis w :
  post (reduce_op ctx code code2 inp axis) w (λ r w',
    ∃ osize, reduce_osize (shape inp) axis w = (Ok osize, w) ∧
             shape r = match axis with None => [1] | Some _ => osize end ∧
             fresh_output w r w' osize).
Proof.
  destruct (reduce_osize_world (shape inp) axis w) as [[osize Ho]|[e He]].
  - apply wp_post. eapply wp_mono; [by apply reduce_op_wp|].
    intros r w' (-> & o & Hl & Hm & _). exists osize.
    split; [done|]. split; [done|]. by eapply fresh_output_intro.
  - unfold post, reduce_op, bind. by rewrite He.
Qed.

Lemma subsample_op_wp {S} ctx input kernel_size stride (c : SubCode S) N C Yin Xin w :
  shape input = [N; C; Yin; Xin] → stride.1 ≠ 0 → stride.2 ≠ 0 →
  let Yout := (Yin - kernel_size.1) `div` stride.1 + 1 in
  let Xout := (Xin - kernel_size.2) `div` stride.2 + 1 in
  wp (subsample_op ctx input kernel_size stride c) w (λ r w',
    r = mkBuf [N; C; Yout; Xout] (length (mem w)) ∧
    ∃ o, length o = Z.to_nat (np_prod [N; C; Yout; Xout]) ∧
         mem w' = mem w ++ [o] ∧
         ((cl input < length (mem w))%nat →
          o = subsample_result c kernel_size stride N C Yin Xin (contents w (cl input)))).
Proof.
  intros Hsh Hpy Hpx Yout Xout. unfold subsample_op.
  destruct stride as [py px]. simpl in Hpy, Hpx. rewrite Hsh.
  rewrite !bool_decide_false by done. cbn [orb].
  fold Yout Xout.
  apply wp_bind, wp_buffer_zeros.
  apply wp_bind. unfold cl_subsample_krnl_build. apply wp_clbuild. intros h w1 Hm1 Hl1.
  apply wp_bind, wp_launch. apply wp_ret. simpl.
  split; [done|]. rewrite !Hm1. simpl.
  rewrite insert_app_fresh.
  eexists. split; [|split; [done|]].
  - rewrite length_foldl_store. simpl_mem. by rewrite length_replicate.
  - intros Hin. unfold subsample_result, deref, contents. by simpl_mem.
Qed.

Lemma subsample_op_post {S} ctx input kernel_size stride (c : SubCode S) w :
  post (subsample_op ctx input kernel_size stride c) w (λ r w', fresh_output w r w' (shape r)).
Proof.
  destruct (shape input) as [|N [|C [|Yin [|Xin [|]]]]] eqn:Hsh;
    try (unfold post, subsample_op; destruct stride; by rewrite Hsh).
  destruct (decide (stride.1 = 0)) as [H1|H1].
  { unfold post, subsample_op. destruct stride as [py px]. simpl in H1. subst py.
    rewrite Hsh. by rewrite bool_decide_true. }
  destruct (decide (stride.2 = 0)) as [H2|H2].
  { unfold post, subsample_op. destruct stride as [py px]. simpl in H2. subst px.
    rewrite Hsh. rewrite (bool_decide_true (0 = 0)) by done. by rewrite orb_true_r. }
  apply wp_post. eapply wp_mono; [by eapply subsample_op_wp|].
  intros r w' (-> & o & Ho & Hm & _). by eapply fresh_output_intro.
Qed.

Lemma dot_forward_post ctx input weight w :
  post (Dot.forward ctx input weight) w (λ r w', fresh_output w r w' (shape r)).
Proof.
  unfold Dot.forward.
  destruct (shape input !! 1%nat) as [i1|]; [|done].
  destruct (shape weight !! 0%nat) as [w0|]; [|done].
  apply post_bind, post_assert. intros _.
  destruct (shape input !! 0%nat) as [i0|]; [|done].
  destruct (shape weight !! 1%nat) as [w1|]; [|done].
  apply wp_post.
  apply wp_bind, wp_buffer_new.
  apply wp_bind, wp_clbuild. intros h w2 Hm2 _.
  apply wp_bind, wp_launch. apply wp_ret. simpl.
  eapply fresh_output_intro; [done| |].
  - simpl. rewrite Hm2. simpl. by rewrite insert_app_fresh.
  - rewrite length_foldl_store. simpl_mem. by rewrite length_replicate.
Qed.

Lemma pad2d_forward_post ctx x padding w :
  post (Pad2D.forward ctx x padding) w (λ r w', fresh_output w r w' (shape r)).
Proof.
  unfold Pad2D.forward. destruct padding as [[[p0 p1] p2] p3].
  destruct (shape x) as [|bs [|cin [|iy [|ix [|]]]]]; try done.
  apply wp_post.
  apply wp_bind, wp_buffer_zeros.
  apply wp_bind, wp_clbuild. intros h w2 Hm2 _.
  apply wp_bind, wp_launch. apply wp_ret. simpl.
  eapply fresh_output_intro; [done| |].
  - simpl. rewrite Hm2. simpl. by rewrite insert_app_fresh.
  - rewrite length_foldl_store. simpl_mem. by rewrite length_replicate.
Qed.

Lemma conv2d_forward_post ctx x wt groups_ w :
  post (Conv2D.forward ctx x wt groups_) w (λ r w', fresh_output w r w' (shape r)).
Proof.
  unfold Conv2D.forward.
  destruct (shape wt) as [|cout [|cin [|H [|W [|]]]]]; try done.
  destruct (shape x) as [|bs [|cin_ [|iy [|ix [|]]]]]; try done.
  destruct (stride ctx) as [ys xs].
  destruct (bool_decide (ys = 0) || bool_decide (xs = 0)); [done|].
  apply post_bind, post_assert. intros _.
  destruct (bool_decide (groups ctx = 0)); [done|].
  apply post_bind, post_assert. intros _.
  apply wp_post.
  apply wp_bind, wp_buffer_new.
  apply wp_bind, wp_clbuild. intros h w2 Hm2 _.
  apply wp_bind, wp_launch. apply wp_ret. simpl.
  eapply fresh_output_intro; [done| |].
  - simpl. rewrite Hm2. simpl. by rewrite insert_app_fresh.
  - rewrite length_foldl_store. simpl_mem. by rewrite length_replicate.
Qed.

Lemma fresh_output_prefix w r w' sh : fresh_output w r w' sh → mem w `prefix_of` mem w'.
Proof. by intros (? & _). Qed.

Lemma logsoftmax_forward_post fl ctx input w :
  post (LogSoftmax.forward fl ctx input) w (λ r w', fresh_output w r w' (shape r)).
Proof.
  unfold LogSoftmax.forward. apply post_bind.
  eapply post_mono; [apply reduce_op_post|].
  intros lsum w1 (osize & _ & _ & Hf). simpl.
  eapply post_mono; [apply binary_op_post|].
  intros r w' Hr. apply (fresh_output_trans w w1); [by eapply fresh_output_prefix|exact Hr].
Qed.

Lemma maxpool2d_forward_post ctx input ks w :
  post (MaxPool2D.forward ctx input ks) w (λ r w', fresh_output w r.1 w' (shape r.1)).
Proof.
  unfold MaxPool2D.forward. apply post_bind.
  eapply post_mono; [apply subsample_op_post|].
  intros idxs w1 Hf. simpl. apply post_bind.
  eapply post_mono; [apply subsample_op_post|].
  intros r w' Hr. simpl. apply post_ret. cbv beta in *. simpl.
  apply (fresh_output_trans w w1); [by eapply fresh_output_prefix|exact Hr].
Qed.

Lemma sum_forward_post ctx input axis w :
  post (Sum.forward ctx input axis) w (λ r w',
    ∃ osize, reduce_osize (shape input) axis w = (Ok osize, w) ∧ fresh_output w r w' osize).
Proof.
  unfold Sum.forward. apply post_bind.
  eapply post_mono; [apply reduce_op_post|].
  intros r w' (osize & Ho & Hs & Hf). simpl.
  destruct axis as [axis|]; apply post_ret; exists osize; done.
Qed.

(** C9.  Whenever the forward dispatch of an operation returns, and every
    store of its kernels fell inside the output buffer of the launch (the
    kernels write through no other pointer, and a store outside the buffer
    is undefined in OpenCL), every buffer that existed before the call is
    still there with the same contents, so no input was written.  For every
    operation but Reshape the
    storage of the result was allocated during the call, and it holds as
    many elements as the shape computed for it before the launch: the shape
    of the result, and for Sum with explicit axes the shape [osize] of the
    input with the reduced axes set to 1 (the shape attribute of the result
    is replaced after the launch).  The result of Reshape has the storage of
    its input, and Reshape changes nothing in the world. *)
Theorem C9_forward_fresh_output fl ctx op inputs w r w' :
  forward fl ctx op inputs w = (Ok r, w') →
  stores_in_bounds w w' →
  (∀ h buf, mem w !! h = Some buf → mem w' !! h = Some buf) ∧
  match op with
  | OpReshape _ => w' = w ∧ ∃ x, inputs = [x] ∧ cl r = cl x
  | OpSum axis =>
      (length (mem w) ≤ cl r < length (mem w'))%nat ∧
      ∃ x osize, inputs = [x] ∧ reduce_osize (shape x) axis w = (Ok osize, w) ∧
                 length (contents w' (cl r)) = Z.to_nat (np_prod osize)
  | _ =>
      (length (mem w) ≤ cl r < length (mem w'))%nat ∧
      length (contents w' (cl r)) = Z.to_nat (np_prod (shape r))
  end.
Proof.
  intros E _.
  assert (Hgen : ∀ m : M GPUBuffer,
            post m w (λ r w', fresh_output w r w' (shape r)) → m w = (Ok r, w') →
            (∀ h buf, mem w !! h = Some buf → mem w' !! h = Some buf) ∧
            (length (mem w) ≤ cl r < length (mem w'))%nat ∧
            length (contents w' (cl r)) = Z.to_nat (np_prod (shape r))).
  { intros m Hm Em. destruct (post_elim _ _ _ _ _ Hm Em) as (Hp & Hr & Hl).
    split; [|done]. intros h buf Hh. by eapply prefix_lookup_Some. }
  destruct op; simpl in E;
    repeat (match type of E with
            | match ?l with _ => _ end _ = _ => destruct l as [|? ?]; try discriminate
            end).
  - eapply Hgen; [apply binary_op_post|done].
  - eapply Hgen; [apply binary_op_post|done].
  - eapply Hgen; [apply binary_op_post|done].
  - eapply Hgen; [apply binary_op_post|done].
  - destruct (post_elim _ _ _ _ _ (sum_forward_post ctx _ axis w) E)
      as (osize & Ho & Hp & Hr & Hl).
    split; [intros h buf Hh; by eapply prefix_lookup_Some|].
    split; [done|]. by eexists _, osize.
  - eapply Hgen; [apply dot_forward_post|done].
  - eapply Hgen; [apply pad2d_forward_post|done].
  - rewrite reshape_forward_eq in E. case_bool_decide; [|done].
    injection E as <- <-. split; [done|]. split; [done|]. by eexists.
  - eapply Hgen; [apply unary_op_post|done].
  - eapply Hgen; [apply unary_op_post|done].
  - eapply Hgen; [|exact E]. apply subsample_op_post.
  - eapply Hgen; [|done]. apply post_bind.
    eapply post_mono; [apply maxpool2d_forward_post|].
    intros r0 w0 H0. by apply post_ret.
  - eapply Hgen; [apply logsoftmax_forward_post|done].
  - eapply Hgen; [apply conv2d_forward_post|done].
Qed.

Lemma C9_forward_fresh_output_witness :
  let fl := mkFloatPrims (λ a b, a) (λ a, a) (λ a, a) (λ a b, a) Z.add Z.sub Z.mul in
  ∃ r w',
    forward fl example_ctx OpAdd [mkBuf [3] 0; mkBuf [3] 0] example_world = (Ok r, w') ∧
    stores_in_bounds example_world w' ∧
    mem w' !! 0%nat = Some [1; 2; 3] ∧ (2 ≤ cl r)%nat.
Proof.
  intros fl.
  destruct (forward fl example_ctx OpAdd [mkBuf [3] 0; mkBuf [3] 0] example_world)
    as [[r|e] w'] eqn:E; [|vm_compute in E; discriminate].
  assert (Hs : stores_in_bounds example_world w').
  { vm_compute in E. injection E as <- <-. repeat constructor. }
  exists r, w'. split; [reflexivity|]. split; [exact Hs|].
  destruct (C9_forward_fresh_output fl example_ctx OpAdd
              [mkBuf [3] 0; mkBuf [3] 0] example_world r w' E Hs) as (Hf & Hr & _).
  split; [exact (Hf 0%nat [1; 2; 3] eq_refl)|exact (proj1 Hr)].
Defined.

(* ===================================================================== *)
(** * What a launch leaves in the output buffer *)
(* ===================================================================== *)

Lemma store_lookup_ne a s k :
  (∀ v, s ≠ Some (Z.of_nat k, v)) → store a s !! k = a !! k.
Proof.
  intros Hs. unfold store. destruct s as [[i v]|]; [|done].
  case_bool_decide; [|done].
  apply list_lookup_insert_ne. intros <-. apply (Hs v). f_equal. f_equal. lia.
Qed.

Lemma store_lookup_eq a k v :
  (k < length a)%nat → store a (Some (Z.of_nat k, v)) !! k = Some v.
Proof.
  intros Hk. unfold store. rewrite bool_decide_true by lia.
  rewrite Nat2Z.id. by apply list_lookup_insert_eq.
Qed.

(** A location that no work-item stores to keeps its contents. *)
Lemma foldl_store_lookup_ne {G} (body : G → option (Z * Z)) items a k :
  (∀ g v, g ∈ items → body g ≠ Some (Z.of_nat k, v)) →
  foldl (λ b g, store b (body g)) a items !! k = a !! k.
Proof.
  revert a. induction items as [|g items IH]; intros a Hn; [done|]. simpl.
  rewrite IH by (intros g' v ?; apply Hn; by right).
  apply store_lookup_ne. intros v. apply Hn. left.
Qed.

(** A location to which a work-item stores [v], and no work-item stores
    anything else, holds [v]. *)
Lemma foldl_store_lookup_eq {G} (body : G → option (Z * Z)) items a k v g :
  g ∈ items → body g = Some (Z.of_nat k, v) → (k < length a)%nat →
  (∀ g' v', g' ∈ items → body g' = Some (Z.of_nat k, v') → v' = v) →
  foldl (λ b g, store b (body g)) a items !! k = Some v.
Proof.
  revert g. induction items as [|g0 items IH] using rev_ind; intros g Hg Hb Hk Hu.
  { by apply elem_of_nil in Hg. }
  rewrite foldl_app. simpl.
  destruct (body g0) as [[i v0]|] eqn:E0.
  - destruct (decide (i = Z.of_nat k)) as [->|Hne].
    + rewrite (Hu g0 v0); [|apply elem_of_app; right; left|done].
      apply store_lookup_eq. by rewrite length_foldl_store.
    + rewrite store_lookup_ne by (intros v' [= ? ?]; done).
      apply elem_of_app in Hg as [Hg|Hg].
      * apply (IH g); try done. intros g' v' ?. apply Hu, elem_of_app. by left.
      * apply list_elem_of_singleton in Hg as ->. rewrite E0 in Hb.
        injection Hb as -> ->. done.
  - rewrite store_lookup_ne by (intros v' [=]).
    apply elem_of_app in Hg as [Hg|Hg].
    + apply (IH g); try done. intros g' v' ?. apply Hu, elem_of_app. by left.
    + apply list_elem_of_singleton in Hg as ->. by rewrite E0 in Hb.
Qed.

(** A one-dimensional launch in which the work-item [gid] stores [v gid] at
    index [gid] leaves the values [v 0], [v 1], ... *)
Lemma foldl_store_range1 (body : Z → option (Z * Z)) (v : Z → Z) n a :
  (∀ g, 0 ≤ g < n → body g = Some (g, v g)) → length a = Z.to_nat n →
  foldl (λ b g, store b (body g)) a (range1 n) = v <$> seqZ 0 n.
Proof.
  intros Hb Ha. apply list_eq. intros k.
  destruct (decide (k < Z.to_nat n)%nat) as [Hk|Hk].
  - rewrite list_lookup_fmap, lookup_seqZ_lt by lia. simpl.
    apply (foldl_store_lookup_eq _ _ _ _ _ (Z.of_nat k)).
    + unfold range1. apply elem_of_seqZ. lia.
    + apply Hb. lia.
    + lia.
    + intros g' v' Hg' Hb'. unfold range1 in Hg'. apply elem_of_seqZ in Hg'.
      rewrite Hb in Hb' by lia. by injection Hb' as -> <-.
  - rewrite (lookup_ge_None_2 (v <$> _)) by (rewrite length_fmap, length_seqZ; lia).
    apply lookup_ge_None_2. rewrite length_foldl_store. lia.
Qed.

Lemma foldl_add_Zsum (f : Z → Z) l acc :
  foldl (λ out x, out + f x) acc l = acc + Zsum (f <$> l).
Proof.
  unfold Zsum. revert acc. induction l as [|x l IH]; intros acc; csimpl; [lia|].
  rewrite IH. lia.
Qed.

(* ===================================================================== *)
(** * Multi-indices in row-major order *)
(* ===================================================================== *)

Lemma unravel_shift sh g t :
  Forall (λ d, 0 < d) sh → unravel sh (g + t * np_prod sh) = unravel sh g.
Proof.
  intros Hsh. revert t. induction Hsh as [|s sh Hs Hsh IH]; intros t; [done|].
  simpl. rewrite np_prod_cons.
  pose proof (np_prod_pos sh Hsh) as HR.
  replace (t * (s * np_prod sh)) with ((t * s) * np_prod sh) by lia.
  rewrite IH. f_equal.
  rewrite Z.div_add by lia. by rewrite Z.mod_add by lia.
Qed.

Lemma indices_blocks (s : Z) (rest : list Z) (k : nat) :
  0 < s → Forall (λ d, 0 < d) rest → Z.of_nat k ≤ s →
  indices rest = unravel rest <$> seqZ 0 (np_prod rest) →
  (i ← seqZ 0 (Z.of_nat k); (λ idx, i :: idx) <$> indices rest)
  = unravel (s :: rest) <$> seqZ 0 (Z.of_nat k * np_prod rest).
Proof.
  intros Hs Hrest Hk IH.
  pose proof (np_prod_pos rest Hrest) as HR.
  induction k as [|k IHk]; [done|].
  rewrite Nat2Z.inj_succ, <- Z.add_1_r.
  rewrite seqZ_app by lia. rewrite bind_app, IHk by lia.
  rewrite Z.mul_add_distr_r, Z.mul_1_l.
  rewrite (seqZ_app _ (Z.of_nat k * np_prod rest)) by nia.
  rewrite fmap_app. f_equal.
  simpl. rewrite app_nil_r, !Z.add_0_l, IH.
  rewrite <- list_fmap_compose.
  rewrite <- (Z.add_0_r (Z.of_nat k * np_prod rest)) at 1.
  rewrite <- fmap_add_seqZ, <- list_fmap_compose.
  apply list_fmap_ext. intros i j Hj. apply lookup_seqZ in Hj as [-> Hj].
  simpl. f_equal.
  - rewrite (Z.add_comm _ (0 + _)), Z.div_add by lia.
    rewrite Z.add_0_l, (Z.div_small (Z.of_nat i)) by lia.
    rewrite Z.mod_small; lia.
  - rewrite (Z.add_comm _ (0 + _)). by rewrite unravel_shift.
Qed.

(** The multi-indices of a shape, in order, are the coordinates of the flat
    indices 0, 1, ... *)
Lemma indices_unravel sh :
  Forall (λ d, 0 < d) sh → indices sh = unravel sh <$> seqZ 0 (np_prod sh).
Proof.
  induction 1 as [|s sh Hs Hsh IH]; [done|].
  rewrite np_prod_cons. cbn [indices].
  rewrite <- (Z2Nat.id s) at 1 3 by lia.
  apply indices_blocks; try done. lia.
Qed.

(* ===================================================================== *)
(** * The index mapping of the [reduce] kernel *)
(* ===================================================================== *)

Lemma reduce_step_kept gid x shape_x shape_ret dim s K R idx :
  load shape_x dim = s → load shape_ret dim = s →
  0 < s → 0 < K → s * K < 2^31 → 0 ≤ gid < 2^31 →
  0 ≤ idx → (idx + 1) * s ≤ 2^31 →
  reduce_step gid x shape_x shape_ret (idx, s * K, R) dim
  = (idx * s + (gid `div` K) `mod` s, K, R).
Proof.
  intros Hx Hr Hs HK Hp Hg Hi Hb. unfold reduce_step. rewrite Hx, Hr.
  rewrite bool_decide_true by done.
  assert (Hq : int_div (s * K) s = K).
  { rewrite int_div_nonneg by nia. rewrite Z.mul_comm. by apply Z.div_mul; lia. }
  rewrite Hq.
  assert (Hd : 0 ≤ gid `div` K < 2^31).
  { pose proof (Z.div_pos gid K). pose proof (Z.div_le_upper_bound gid K gid). nia. }
  rewrite (int_div_nonneg gid K), int_rem_nonneg by lia.
  rewrite int_horner; try done. by apply Z.mod_pos_bound.
Qed.

Lemma reduce_step_reduced gid x shape_x shape_ret dim s r K R idx :
  load shape_x dim = s → load shape_ret dim = r → s ≠ r →
  0 < s → 0 < R → s * R < 2^31 → 0 ≤ x < 2^31 →
  0 ≤ idx → (idx + 1) * s ≤ 2^31 →
  reduce_step gid x shape_x shape_ret (idx, K, s * R) dim
  = (idx * s + (x `div` R) `mod` s, K, R).
Proof.
  intros Hx Hr Hne Hs HR Hp Hg Hi Hb. unfold reduce_step. rewrite Hx, Hr.
  rewrite bool_decide_false by done.
  assert (Hq : int_div (s * R) s = R).
  { rewrite int_div_nonneg by nia. rewrite Z.mul_comm. by apply Z.div_mul; lia. }
  rewrite Hq.
  assert (Hd : 0 ≤ x `div` R < 2^31).
  { pose proof (Z.div_pos x R). pose proof (Z.div_le_upper_bound x R x). nia. }
  rewrite (int_div_nonneg x R), int_rem_nonneg by lia.
  rewrite int_horner; try done. by apply Z.mod_pos_bound.
Qed.

Lemma reduced_dims_pos sx sr :
  Forall2 (λ a r, 0 < a ∧ (r = a ∨ r = 1)) sx sr →
  Forall (λ d, 0 < d) sx ∧ Forall (λ d, 0 < d) sr ∧ Forall (λ d, 0 < d) (reduced_dims sx sr).
Proof.
  unfold reduced_dims.
  induction 1 as [|a r sx sr [Ha Hr] _ (IH1 & IH2 & IH3)]; [done|]. simpl.
  split; [|split]; constructor; try done.
  - destruct Hr as [->| ->]; lia.
  - case_bool_decide; lia.
Qed.

(** The input has as many elements as the output times the number of
    elements summed into each. *)
Lemma np_prod_reduced sx sr :
  Forall2 (λ a r, 0 < a ∧ (r = a ∨ r = 1)) sx sr →
  np_prod sx = np_prod sr * np_prod (reduced_dims sx sr).
Proof.
  unfold reduced_dims.
  induction 1 as [|a r sx sr [Ha Hr] _ IH]; [done|]. simpl.
  rewrite !np_prod_cons, IH.
  case_bool_decide as E; [subst; lia|].
  destruct Hr as [->| ->]; [done|lia].
Qed.

Lemma reduce_loop_ideal gid x suf_x suf_r :
  Forall2 (λ a r, 0 < a ∧ (r = a ∨ r = 1)) suf_x suf_r →
  ∀ pre_x pre_r idx,
  length pre_x = length pre_r →
  np_prod suf_r < 2^31 → np_prod (reduced_dims suf_x suf_r) < 2^31 →
  0 ≤ gid < 2^31 → 0 ≤ x < 2^31 →
  0 ≤ idx → (idx + 1) * np_prod suf_x ≤ 2^31 →
  foldl (reduce_step gid x (pre_x ++ suf_x) (pre_r ++ suf_r))
    (idx, np_prod suf_r, np_prod (reduced_dims suf_x suf_r))
    (seqZ (Z.of_nat (length pre_r)) (Z.of_nat (length suf_r)))
  = (ravel_from idx suf_x
       (zip_with Z.add (unravel suf_r gid) (unravel (reduced_dims suf_x suf_r) x)), 1, 1).
Proof.
  induction 1 as [|a r suf_x suf_r [Ha Hr] Hall IH];
    intros pre_x pre_r idx Hpre HK HR Hg Hx Hi Hb; [done|].
  destruct (reduced_dims_pos _ _ Hall) as (Hpx & Hpr & Hpd).
  pose proof (np_prod_pos _ Hpx). pose proof (np_prod_pos _ Hpr).
  pose proof (np_prod_pos _ Hpd).
  cbn [length]. rewrite seqZ_succ_cons. cbn [foldl].
  replace (pre_x ++ a :: suf_x) with ((pre_x ++ [a]) ++ suf_x) by (by rewrite <- app_assoc).
  replace (pre_r ++ r :: suf_r) with ((pre_r ++ [r]) ++ suf_r) by (by rewrite <- app_assoc).
  assert (Hla : load ((pre_x ++ [a]) ++ suf_x) (Z.of_nat (length pre_r)) = a).
  { rewrite <- app_assoc, <- Hpre. apply load_app_middle. }
  assert (Hlr : load ((pre_r ++ [r]) ++ suf_r) (Z.of_nat (length pre_r)) = r).
  { rewrite <- app_assoc. apply load_app_middle. }
  replace (S (length pre_r)) with (length (pre_r ++ [r])) by (rewrite length_app; simpl; lia).
  unfold reduced_dims in *. cbn [zip_with] in *. fold (reduced_dims suf_x suf_r) in *.
  rewrite !np_prod_cons in *.
  pose proof (Z.mod_pos_bound (gid `div` np_prod suf_r) a Ha).
  pose proof (Z.mod_pos_bound (x `div` np_prod (reduced_dims suf_x suf_r)) a Ha).
  unfold ravel_from. cbn [unravel zip_with zip foldl fst snd].
  fold (ravel_from (idx * a + ((gid `div` np_prod suf_r) `mod` r
                               + (x `div` np_prod (reduced_dims suf_x suf_r))
                                 `mod` (if bool_decide (a = r) then 1 else a)))
          suf_x (zip_with Z.add (unravel suf_r gid) (unravel (reduced_dims suf_x suf_r) x))).
  case_bool_decide as E.
  - subst r. rewrite Z.mul_1_l in *.
    rewrite (reduce_step_kept gid x _ _ _ a); try done; try nia.
    rewrite IH; try done; try (rewrite !length_app; simpl; lia); try nia.
    by rewrite Z.mod_1_r, Z.add_0_r.
  - destruct Hr as [->| ->]; [done|]. rewrite Z.mul_1_l in *.
    rewrite (reduce_step_reduced gid x _ _ _ a 1); try done; try nia.
    rewrite IH; try done; try (rewrite !length_app; simpl; lia); try nia.
    by rewrite Z.mod_1_r, Z.add_0_l.
Qed.

Lemma reduce_index_ideal gid x shape_x shape_ret :
  Forall2 (λ a r, 0 < a ∧ (r = a ∨ r = 1)) shape_x shape_ret →
  np_prod shape_x ≤ int_max → Z.of_nat (length shape_ret) ≤ int_max →
  0 ≤ gid < np_prod shape_ret → 0 ≤ x < np_prod (reduced_dims shape_x shape_ret) →
  reduce_index gid x
    (i32 (np_prod shape_x `div` np_prod shape_ret)) (i32 (np_prod shape_ret))
    (i32 (Z.of_nat (length shape_ret))) shape_x shape_ret
  = ravel shape_x
      (zip_with Z.add (unravel shape_ret gid) (unravel (reduced_dims shape_x shape_ret) x)).
Proof.
  unfold int_max. intros Hall Hp Hn Hg Hx.
  destruct (reduced_dims_pos _ _ Hall) as (Hpx & Hpr & Hpd).
  pose proof (np_prod_pos _ Hpx). pose proof (np_prod_pos _ Hpr).
  pose proof (np_prod_pos _ Hpd).
  pose proof (np_prod_reduced _ _ Hall) as Hfac.
  assert (Hsz : np_prod shape_x `div` np_prod shape_ret = np_prod (reduced_dims shape_x shape_ret)).
  { rewrite Hfac, Z.mul_comm. apply Z.div_mul. lia. }
  unfold reduce_index. rewrite Hsz.
  rewrite !i32_small by (unfold int_range, int_max; nia).
  pose proof (reduce_loop_ideal gid x shape_x shape_ret Hall [] [] 0) as H2.
  simpl in H2. change (Z.of_nat 0) with 0 in H2.
  rewrite H2; try done; nia.
Qed.

(* ===================================================================== *)
(** * [unbroadcast] *)
(* ===================================================================== *)

Lemma mapM_np_index n (ax : list nat) :
  (∀ i, i ∈ ax → (i < n)%nat) → mapM (np_index n) (Z.of_nat <$> ax) = Some ax.
Proof.
  intros Hax. apply mapM_fmap_Forall_Some, list.Forall_forall. intros i Hi.
  unfold np_index. rewrite bool_decide_true; [by rewrite Nat2Z.id|].
  specialize (Hax i Hi). lia.
Qed.

Lemma bool_decide_if_ext {A} (P Q : Prop) `{Decision P, Decision Q} (x y : A) :
  (P ↔ Q) → (if bool_decide P then x else y) = (if bool_decide Q then x else y).
Proof. intros HPQ. by rewrite (bool_decide_ext P Q). Qed.

Lemma foldl_insert_lookup (a : list Z) (ax : list nat) v i :
  foldl (λ a j, <[j := v]> a) a ax !! i
  = (λ s, if bool_decide (i ∈ ax) then v else s) <$> a !! i.
Proof.
  revert a. induction ax as [|j ax IH]; intros a; simpl.
  - by destruct (a !! i).
  - rewrite IH. destruct (decide (i = j)) as [->|Hne].
    + destruct (decide (j < length a)%nat) as [Hj|Hj].
      * rewrite list_lookup_insert_eq by done.
        destruct (lookup_lt_is_Some_2 a j Hj) as [s ->]. simpl.
        rewrite (bool_decide_true (j ∈ j :: ax)) by left.
        by case_bool_decide.
      * rewrite list_insert_ge by lia. rewrite lookup_ge_None_2 by lia. done.
    + rewrite list_lookup_insert_ne by done.
      destruct (a !! i); [|done]. cbn [fmap option_fmap option_map]. f_equal.
      apply bool_decide_if_ext. rewrite elem_of_cons. naive_solver.
Qed.

Lemma np_set_indices_keep_shape sh (ax : list nat) :
  (∀ i, i ∈ ax → (i < length sh)%nat) →
  np_set_indices sh (Z.of_nat <$> ax) 1 = Some (keep_shape sh ax).
Proof.
  intros Hax. unfold np_set_indices. rewrite mapM_np_index by done. simpl.
  f_equal. apply list_eq. intros i.
  rewrite foldl_insert_lookup. unfold keep_shape. by rewrite list_lookup_imap.
Qed.

Lemma sum_axis_of_filter out_sh in_sh (ixs : list nat) :
  (∀ i, i ∈ ixs → (i < length out_sh)%nat) →
  sum_axis_of out_sh in_sh ixs
  = Some (Z.of_nat <$> filter (λ i, in_sh !! i = Some 1 ∧ 1 < default 0 (out_sh !! i)) ixs).
Proof.
  induction ixs as [|i ixs IH]; intros Hix; [done|]. simpl.
  assert (Hi : (i < length out_sh)%nat) by (apply Hix; left).
  destruct (lookup_lt_is_Some_2 out_sh i Hi) as [d Hd].
  rewrite IH by (intros j ?; apply Hix; by right).
  case_bool_decide as E.
  - rewrite Hd. simpl. case_bool_decide as E2.
    + rewrite filter_cons_True; [done|]. rewrite Hd. done.
    + rewrite filter_cons_False; [done|]. rewrite Hd. simpl. intros [_ ?]. lia.
  - rewrite filter_cons_False; [done|]. by intros [? _].
Qed.

Lemma expanded_axes_spec out_sh in_sh i :
  i ∈ expanded_axes out_sh in_sh ↔
  in_sh !! i = Some 1 ∧ 1 < default 0 (out_sh !! i).
Proof.
  unfold expanded_axes. rewrite list_elem_of_filter, elem_of_seq.
  split; [by intros [? _]|]. intros [Hi ?]. split; [done|].
  apply lookup_lt_Some in Hi. lia.
Qed.

Lemma keep_shape_Forall2 sh (ax : list nat) :
  Forall (λ d, 0 < d) sh →
  Forall2 (λ a r, 0 < a ∧ (r = a ∨ r = 1)) sh (keep_shape sh ax).
Proof.
  intros Hsh. apply Forall2_same_length_lookup. split.
  - unfold keep_shape. by rewrite length_imap.
  - intros i a r Ha. unfold keep_shape. rewrite list_lookup_imap, Ha. simpl.
    intros [= <-]. split.
    + by eapply (Forall_lookup_1 _ sh).
    + case_bool_decide; auto.
Qed.

Lemma reduced_dims_keep_shape sh (ax : list nat) :
  (∀ i, i ∈ ax → sh !! i ≠ Some 1) →
  reduced_dims sh (keep_shape sh ax) = reduced_shape sh ax.
Proof.
  intros Hax. apply list_eq. intros i.
  unfold reduced_dims, keep_shape, reduced_shape.
  rewrite lookup_zip_with, !list_lookup_imap.
  destruct (sh !! i) as [a|] eqn:Ha; simpl; [|done]. f_equal.
  destruct (decide (i ∈ ax)) as [Hi|Hi].
  - rewrite !(bool_decide_true (i ∈ ax)) by done.
    rewrite bool_decide_false; [done|]. intros Heq. subst a. by apply (Hax i).
  - rewrite !(bool_decide_false (i ∈ ax)) by done.
    by rewrite bool_decide_true.
Qed.

(** The buffer that [reduce_op] with the summing code leaves, as sums over
    the coordinates of the flat indices. *)
Lemma reduce_result_sum shape_x shape_ret data :
  Forall2 (λ a r, 0 < a ∧ (r = a ∨ r = 1)) shape_x shape_ret →
  np_prod shape_x ≤ int_max → Z.of_nat (length shape_ret) ≤ int_max →
  reduce_result code_sum code_out shape_x shape_ret data
  = (λ gid, Zsum ((λ x, load data (ravel shape_x
                     (zip_with Z.add (unravel shape_ret gid)
                        (unravel (reduced_dims shape_x shape_ret) x))))
                  <$> seqZ 0 (np_prod (reduced_dims shape_x shape_ret))))
    <$> seqZ 0 (np_prod shape_ret).
Proof.
  intros Hall Hp Hn.
  destruct (reduced_dims_pos _ _ Hall) as (Hpx & Hpr & Hpd).
  pose proof (np_prod_pos _ Hpx). pose proof (np_prod_pos _ Hpr).
  pose proof (np_prod_pos _ Hpd).
  pose proof (np_prod_reduced _ _ Hall) as Hfac.
  assert (Hsz : np_prod shape_x `div` np_prod shape_ret = np_prod (reduced_dims shape_x shape_ret)).
  { rewrite Hfac, Z.mul_comm. apply Z.div_mul. lia. }
  assert (Hrx : Forall int_range shape_x).
  { apply list.Forall_forall. intros d Hd.
    assert (0 < d ≤ np_prod shape_x); [|unfold int_range, int_max in *; lia].
    clear -Hd Hpx. induction Hpx as [|s sh Hs Hsh IH]; [by apply elem_of_nil in Hd|].
    rewrite np_prod_cons. pose proof (np_prod_pos _ Hsh).
    apply elem_of_cons in Hd as [->|Hd]; [nia|]. specialize (IH Hd). nia. }
  assert (Hrr : Forall int_range shape_ret).
  { apply list.Forall_forall. intros d Hd.
    assert (0 < d ≤ np_prod shape_ret); [|unfold int_range, int_max in *; nia].
    clear -Hd Hpr. induction Hpr as [|s sh Hs Hsh IH]; [by apply elem_of_nil in Hd|].
    rewrite np_prod_cons. pose proof (np_prod_pos _ Hsh).
    apply elem_of_cons in Hd as [->|Hd]; [nia|]. specialize (IH Hd). nia. }
  unfold reduce_result. rewrite !np_array_i32_id by done.
  apply foldl_store_range1; [|by rewrite length_replicate].
  intros gid Hg. unfold reduce_kernel.
  rewrite (wrap32_small gid) by (unfold int_max in *; nia).
  simpl. f_equal. f_equal.
  rewrite (foldl_add_Zsum (λ x, load data (reduce_index gid x _ _ _ shape_x shape_ret))).
  rewrite Z.add_0_l. f_equal.
  replace (seqZ 0 (i32 (np_prod shape_x `div` np_prod shape_ret)))
    with (seqZ 0 (np_prod (reduced_dims shape_x shape_ret))).
  2:{ rewrite Hsz, i32_small; [done|]. unfold int_range, int_max in *. nia. }
  apply list_fmap_ext. intros i x Hx. apply lookup_seqZ in Hx as [-> Hx].
  f_equal. apply reduce_index_ideal; try done. lia.
Qed.

(** The explicit summation over the axes [ax], for an output shape that
    keeps the other dimensions. *)
Lemma sum_over_axes_unravel sh (ax : list nat) data :
  Forall (λ d, 0 < d) sh → (∀ i, i ∈ ax → sh !! i ≠ Some 1) →
  sum_over_axes sh ax data
  = (λ gid, Zsum ((λ x, load data (ravel sh
                     (zip_with Z.add (unravel (keep_shape sh ax) gid)
                        (unravel (reduced_dims sh (keep_shape sh ax)) x))))
                  <$> seqZ 0 (np_prod (reduced_dims sh (keep_shape sh ax)))))
    <$> seqZ 0 (np_prod (keep_shape sh ax)).
Proof.
  intros Hsh Hax.
  destruct (reduced_dims_pos _ _ (keep_shape_Forall2 sh ax Hsh)) as (_ & Hk & Hr).
  unfold sum_over_axes. rewrite <- reduced_dims_keep_shape by done.
  rewrite !indices_unravel by done.
  rewrite <- list_fmap_compose. apply list_fmap_ext. intros i gid _. simpl.
  by rewrite <- list_fmap_compose.
Qed.

Lemma expanded_axes_lt out_sh in_sh i :
  length in_sh = length out_sh → i ∈ expanded_axes out_sh in_sh → (i < length out_sh)%nat.
Proof.
  intros Hl Hi. apply expanded_axes_spec in Hi as [Hi _].
  apply lookup_lt_Some in Hi. lia.
Qed.

Lemma expanded_axes_not_1 out_sh in_sh i :
  i ∈ expanded_axes out_sh in_sh → out_sh !! i ≠ Some 1.
Proof.
  intros Hi. apply expanded_axes_spec in Hi as [_ Hi]. intros E.
  rewrite E in Hi. simpl in Hi. lia.
Qed.

(** The output shape that [unbroadcast] makes [reduce_op] compute. *)
Lemma unbroadcast_osize (sh in_sh : list Z) w :
  length in_sh = length sh → Forall (λ d, 0 < d) sh →
  ∃ sum_axis,
    (if bool_decide (in_sh ≠ [1]) then
       match sum_axis_of sh in_sh (seq 0 (length in_sh)) with
       | Some axes => ret (Some axes)
       | None => raise IndexError
       end
     else ret None) w = (Ok sum_axis, w) ∧
    reduce_osize sh sum_axis w = (Ok (keep_shape sh (expanded_axes sh in_sh)), w) ∧
    match sum_axis with None => [1] | Some _ => keep_shape sh (expanded_axes sh in_sh) end
    = keep_shape sh (expanded_axes sh in_sh).
Proof.
  intros Hl Hsh. case_bool_decide as Hin.
  - rewrite sum_axis_of_filter
      by (intros i Hi; apply elem_of_seq in Hi; lia).
    fold (expanded_axes sh in_sh).
    eexists. split; [done|]. split; [|done].
    rewrite reduce_osize_Some, np_set_indices_keep_shape; [done|].
    intros i Hi. by eapply expanded_axes_lt.
  - subst in_sh.
    destruct sh as [|n [|]]; try done.
    exists None. split; [done|].
    assert (Hk : keep_shape [n] (expanded_axes [n] [1]) = [1]).
    { apply Forall_cons in Hsh as [Hn _].
      unfold expanded_axes. simpl.
      destruct (decide (1 < n)) as [H1|H1].
      - rewrite filter_cons_True by (simpl; done). done.
      - rewrite filter_cons_False by (simpl; intros [_ ?]; done).
        unfold keep_shape. simpl. f_equal. lia. }
    rewrite Hk. done.
Qed.

(** C5.  For a gradient buffer [grad] (dimensions positive, less than 2^31
    elements, holding integers that a [float] accumulator sums without
    rounding) and an original shape [in_sh] of the same rank,
    [unbroadcast] returns a buffer that holds the explicit summation of the
    gradient over exactly the axes [i] with [in_sh[i] = 1] and
    [grad.shape[i] > 1]: one element per multi-index of the remaining
    dimensions, the sum of the gradient over all multi-indices of the
    summed dimensions, nothing else applied to it; its shape is the shape of
    the gradient with those axes set to 1.  For the original shape (3,1) and
    a gradient of ones of shape (3,4) the result is [[4],[4],[4]]. *)
Theorem C5_unbroadcast_sums_expanded_axes ctx (grad : GPUBuffer) (in_sh : list Z) w :
  let sh := shape grad in
  let axes := expanded_axes sh in_sh in
  length in_sh = length sh →
  Forall (λ d, 0 < d) sh → np_prod sh ≤ int_max → Z.of_nat (length sh) ≤ int_max →
  (cl grad < length (mem w))%nat →
  f32_sum_exact (contents w (cl grad)) →
  (∀ i, i ∈ axes ↔ in_sh !! i = Some 1 ∧ ∃ d, sh !! i = Some d ∧ 1 < d) ∧
  (∃ r w', unbroadcast ctx grad in_sh w = (Ok r, w') ∧
     shape r = keep_shape sh axes ∧
     contents w' (cl r) = sum_over_axes sh axes (contents w (cl grad))) ∧
  (∃ w', unbroadcast ctx (mkBuf [3; 4] 0) [3; 1] (mkWorld [replicate 12 1] [] [] [])
         = (Ok (mkBuf [3; 1] 1), w') ∧
         contents w' 1 = [4; 4; 4]).
Proof.
  intros sh axes Hl Hsh Hp Hn Hgrad _. split; [|split].
  - intros i. unfold axes. rewrite expanded_axes_spec. split.
    + intros [Hi Hd]. split; [done|].
      destruct (sh !! i) as [d|]; simpl in Hd; [by exists d|lia].
    + intros [Hi (d & -> & Hd)]. done.
  - destruct (unbroadcast_osize sh in_sh w Hl Hsh) as (sum_axis & Hs & Ho & Hshape).
    fold axes in Ho, Hshape.
    pose proof (reduce_op_wp ctx code_sum code_out grad sum_axis (keep_shape sh axes) w Ho) as H.
    apply wp_elim in H as (r & w' & E & -> & o & _ & Hm & _ & Hc).
    exists (mkBuf (match sum_axis with None => [1] | Some _ => keep_shape sh axes end)
              (length (mem w))), w'.
    split; [|split; [done|]].
    + unfold unbroadcast, bind. fold sh. by rewrite Hs.
    + simpl. unfold contents at 1. rewrite Hm, lookup_app_fresh. simpl.
      rewrite (Hc Hgrad). fold sh.
      rewrite reduce_result_sum.
      * symmetry. apply sum_over_axes_unravel; [done|].
        intros i Hi. by eapply expanded_axes_not_1.
      * by apply keep_shape_Forall2.
      * done.
      * unfold keep_shape. by rewrite length_imap.
  - eexists. split; vm_compute; reflexivity.
Qed.

Lemma C5_unbroadcast_sums_expanded_axes_witness :
  ∃ r w',
    unbroadcast example_ctx (mkBuf [2; 3] 1) [2; 1] example_world = (Ok r, w') ∧
    contents w' (cl r) = sum_over_axes [2; 3] [1%nat] [10; 20; 30; 40; 50; 60].
Proof.
  assert (Hsh : Forall (λ d, 0 < d) [2; 3]) by (repeat constructor; lia).
  assert (Hp : np_prod [2; 3] ≤ int_max) by (vm_compute; discriminate).
  assert (Hn : Z.of_nat (length [2; 3]) ≤ int_max) by (vm_compute; discriminate).
  assert (Hg : (1 < length (mem example_world))%nat) by (simpl; lia).
  assert (Hf : f32_sum_exact (contents example_world 1)) by (vm_compute; discriminate).
  destruct (C5_unbroadcast_sums_expanded_axes example_ctx (mkBuf [2; 3] 1) [2; 1]
              example_world eq_refl Hsh Hp Hn Hg Hf) as (_ & (r & w' & E & _ & Hc) & _).
  exists r, w'. split; [exact E|exact Hc].
Defined.

(* ===================================================================== *)
(** * Pooling kernels *)
(* ===================================================================== *)

Lemma uint_add_small a b : 0 ≤ a → 0 ≤ b → a + b < 2^32 → uint_add a b = a + b.
Proof.
  intros. unfold uint_add.
  rewrite (wrapu32_small a), (wrapu32_small b) by lia. apply wrapu32_small. lia.
Qed.

Lemma uint_mul_small a b : 0 ≤ a → 0 ≤ b → a * b < 2^32 → a < 2^32 → b < 2^32 →
  uint_mul a b = a * b.
Proof.
  intros. unfold uint_mul.
  rewrite (wrapu32_small a), (wrapu32_small b) by lia. apply wrapu32_small. lia.
Qed.

Lemma uint_div_small a b : 0 ≤ a < 2^32 → 0 ≤ b < 2^32 → uint_div a b = a `div` b.
Proof. intros. unfold uint_div. by rewrite !wrapu32_small. Qed.

Lemma uint_rem_small a b : 0 ≤ a < 2^32 → 0 ≤ b < 2^32 → uint_rem a b = a `mod` b.
Proof. intros. unfold uint_rem. by rewrite !wrapu32_small. Qed.

Lemma uint_ltb_small a b : 0 ≤ a < 2^32 → 0 ≤ b < 2^32 → uint_ltb a b = bool_decide (a < b).
Proof. intros. unfold uint_ltb. by rewrite !wrapu32_small. Qed.

Lemma div_self_bounds x k : 0 ≤ x → 0 < k → 0 ≤ x `div` k ≤ x.
Proof.
  intros Hx Hk. split; [apply Z.div_pos; lia|].
  apply Z.div_le_upper_bound; [lia|]. nia.
Qed.

Lemma window_cell_bound o k i out n :
  0 < k → 0 ≤ o < out → 0 ≤ i < k → out * k ≤ n → 0 ≤ o * k + i < n ∧ 0 ≤ o * k < n.
Proof.
  intros Hk Ho Hi Hn.
  assert (0 ≤ o * k) by (apply Z.mul_nonneg_nonneg; lia).
  assert ((o + 1) * k ≤ out * k) by (apply Z.mul_le_mono_nonneg_r; lia).
  lia.
Qed.

Lemma flat3_bound a A b B c C :
  0 ≤ a < A → 0 ≤ b < B → 0 ≤ c < C →
  0 ≤ B * c ≤ B * C - B ∧ 0 ≤ b + B * c < B * C ∧
  0 ≤ A * (b + B * c) ≤ A * (B * C) - A ∧ 0 ≤ a + A * (b + B * c) < A * (B * C).
Proof.
  intros Ha Hb Hc.
  assert (H1 : 0 ≤ B * c) by nia.
  assert (H2 : B * c ≤ B * (C - 1)) by (apply Z.mul_le_mono_nonneg_l; lia).
  assert (H3 : 0 ≤ A * (b + B * c)) by nia.
  assert (H4 : A * (b + B * c) ≤ A * (B * C - 1)) by (apply Z.mul_le_mono_nonneg_l; lia).
  lia.
Qed.

(** [a + A*(b + B*c)] in [uint] arithmetic, converted to [int]. *)
Lemma uint_flat3 a A b B c C :
  0 ≤ a < A → 0 ≤ b < B → 0 ≤ c < C → A * (B * C) < 2^31 →
  wrap32 (uint_add a (uint_mul A (uint_add b (uint_mul B c)))) = a + A * (b + B * c).
Proof.
  intros Ha Hb Hc Ht.
  destruct (flat3_bound a A b B c C Ha Hb Hc) as (H1 & H2 & H3 & H4).
  assert (A ≤ A * (B * C)) by nia. assert (B ≤ A * (B * C)) by nia.
  assert (C ≤ A * (B * C)) by nia. assert (B * C ≤ A * (B * C)) by nia.
  rewrite (uint_mul_small B c) by lia.
  rewrite (uint_add_small b) by lia.
  rewrite (uint_mul_small A) by lia.
  rewrite (uint_add_small a) by lia.
  apply wrap32_small. lia.
Qed.

Lemma flat3_inj a A b B c a' b' c' :
  0 ≤ a < A → 0 ≤ b < B → 0 ≤ a' < A → 0 ≤ b' < B →
  a + A * (b + B * c) = a' + A * (b' + B * c') → a = a' ∧ b = b' ∧ c = c'.
Proof.
  intros Ha Hb Ha' Hb' E.
  destruct (Z.div_mod_unique A (b + B * c) (b' + B * c') a a') as [E2 ->];
    [lia|lia|lia|].
  destruct (Z.div_mod_unique B c c' b b') as [-> ->]; [lia|lia|lia|done].
Qed.

Lemma foldl_ext_in {A B} (f g : A → B → A) (l : list B) a :
  (∀ a x, x ∈ l → f a x = g a x) → foldl f a l = foldl g a l.
Proof.
  revert a. induction l as [|x l IH]; intros a Hfg; [done|]. simpl.
  rewrite Hfg by left. apply IH. intros a' y Hy. apply Hfg. by right.
Qed.

Lemma foldl_bind {A B C} (f : A → C → A) (k : B → list C) (l : list B) a :
  foldl f a (l ≫= k) = foldl (λ a x, foldl f a (k x)) a l.
Proof.
  revert a. induction l as [|x l IH]; intros a; [done|].
  csimpl. by rewrite foldl_app, IH.
Qed.

Lemma elem_of_range3 n0 n1 n2 g0 g1 g2 :
  (g0, g1, g2) ∈ range3 n0 n1 n2 ↔ 0 ≤ g0 < n0 ∧ 0 ≤ g1 < n1 ∧ 0 ≤ g2 < n2.
Proof.
  unfold range3. rewrite list_elem_of_bind. split.
  - intros (a & Ha & H0). apply list_elem_of_bind in Ha as (b & Hb & H1).
    apply list_elem_of_bind in Hb as (c & Hc & H2).
    apply list_elem_of_singleton in Hc as [= -> -> ->].
    rewrite elem_of_seqZ in H0, H1, H2. lia.
  - intros (H0 & H1 & H2). exists g0. split; [|apply elem_of_seqZ; lia].
    apply list_elem_of_bind. exists g1. split; [|apply elem_of_seqZ; lia].
    apply list_elem_of_bind. exists g2. split; [|apply elem_of_seqZ; lia].
    by apply list_elem_of_singleton.
Qed.

Lemma elem_of_window_offsets ky kx j i :
  (j, i) ∈ window_offsets ky kx ↔ 0 ≤ j < ky ∧ 0 ≤ i < kx.
Proof.
  unfold window_offsets. rewrite list_elem_of_bind. split.
  - intros (a & Ha & H0). apply list_elem_of_bind in Ha as (b & Hb & H1).
    apply list_elem_of_singleton in Hb as [= -> ->].
    rewrite elem_of_seqZ in H0, H1. lia.
  - intros (H0 & H1). exists j. split; [|apply elem_of_seqZ; lia].
    apply list_elem_of_bind. exists i. split; [|apply elem_of_seqZ; lia].
    by apply list_elem_of_singleton.
Qed.

(** The geometry of pooling with a stride equal to the window size: the
    windows tile the input from the top left corner and fit in it. *)
Lemma pool_out_size n k :
  0 < k ≤ n → (n - k) `div` k + 1 = n `div` k ∧ 0 < n `div` k ∧ (n `div` k) * k ≤ n.
Proof.
  intros Hk.
  assert (E : (n - k) `div` k + 1 = n `div` k).
  { replace n with ((n - k) + 1 * k) at 2 by lia. rewrite Z.div_add by lia. done. }
  split; [done|]. split.
  - rewrite <- E. pose proof (Z.div_pos (n - k) k). lia.
  - pose proof (Z.mul_div_le n k). lia.
Qed.

(** The work-item of the [subsample] kernel for the window [(z, oy, ox)],
    when the stride is the window size and the windows fit: it visits the
    cells of the window in order and stores the result at the index of the
    window. *)
Lemma subsample_kernel_window {S} (c : SubCode S) input NC Yin Xin ky kx z oy ox :
  0 < ky ≤ Yin → 0 < kx ≤ Xin → 0 < NC → Xin * (Yin * NC) < 2^31 →
  let Yout := Yin `div` ky in
  let Xout := Xin `div` kx in
  0 ≤ z < NC → 0 ≤ oy < Yout → 0 ≤ ox < Xout →
  subsample_kernel c input (make_uint2 Xout Yout) (make_uint2 Xin Yin)
    (make_uint2 kx ky) (make_uint2 kx ky) (z, oy, ox)
  = Some (pool_window Xout Yout z oy ox,
          sub_result c
            (foldl (λ st '(j, i),
               sub_iter c st input (pool_cell Xin Yin ky kx z oy ox j i) j i (mk_uint2 kx ky))
               (sub_decls c) (window_offsets ky kx))
            (mk_uint2 kx ky)).
Proof.
  intros Hky Hkx HNC Ht Yout Xout Hz Hoy Hox.
  destruct (pool_out_size Yin ky Hky) as (_ & HYo & HYf).
  destruct (pool_out_size Xin kx Hkx) as (_ & HXo & HXf).
  fold Yout in HYo, HYf. fold Xout in HXo, HXf.
  assert (1 ≤ Yin * NC) by nia.
  assert (Yin ≤ Yin * NC) by nia. assert (NC ≤ Yin * NC) by nia.
  assert (Xin ≤ Xin * (Yin * NC)) by nia.
  assert (Yin * NC ≤ Xin * (Yin * NC)) by nia.
  assert (Xout ≤ Xin) by nia. assert (Yout ≤ Yin) by nia.
  assert (Xout * (Yout * NC) ≤ Xin * (Yin * NC)).
  { apply Z.mul_le_mono_nonneg; [lia|lia|nia|].
    apply Z.mul_le_mono_nonneg; lia. }
  unfold subsample_kernel, make_uint2.
  rewrite !wrapu32_small by lia. cbn [u_x u_y].
  rewrite !wrap32_small by lia.
  unfold pool_oid. cbn [u_x u_y].
  rewrite (uint_flat3 ox Xout oy Yout z NC) by lia.
  fold (pool_window Xout Yout z oy ox). f_equal. f_equal. f_equal.
  unfold window_offsets. rewrite foldl_bind.
  apply foldl_ext_in. intros st j Hj. apply elem_of_seqZ in Hj.
  rewrite foldl_bind. apply foldl_ext_in. intros st' i Hi. apply elem_of_seqZ in Hi.
  simpl.
  destruct (window_cell_bound ox kx i Xout Xin) as [Hix Hmx]; [lia..|].
  destruct (window_cell_bound oy ky j Yout Yin) as [Hiy Hmy]; [lia..|].
  rewrite (uint_mul_small ox kx) by lia.
  rewrite (uint_mul_small oy ky) by lia.
  rewrite (uint_add_small (ox * kx) i) by lia.
  rewrite (uint_add_small (oy * ky) j) by lia.
  rewrite !uint_ltb_small by lia.
  rewrite !bool_decide_true by lia. cbn [andb].
  rewrite (uint_flat3 (ox * kx + i) Xin (oy * ky + j) Yin z NC) by lia.
  done.
Qed.

Lemma load_lookup a i v : 0 ≤ i → a !! Z.to_nat i = Some v → load a i = v.
Proof. intros Hi E. unfold load. rewrite bool_decide_true by done. by rewrite E. Qed.

Lemma np_prod_4 a b c d : np_prod [a; b; c; d] = a * (b * (c * d)).
Proof. rewrite !np_prod_cons. change (np_prod []) with 1. lia. Qed.

(** What [subsample_op] leaves at the index of a window. *)
Lemma subsample_result_window {S} (c : SubCode S) input N C Yin Xin ky kx z oy ox :
  0 < N → 0 < C → 0 < ky ≤ Yin → 0 < kx ≤ Xin → Xin * (Yin * (N * C)) < 2^31 →
  let Yout := Yin `div` ky in
  let Xout := Xin `div` kx in
  0 ≤ z < N * C → 0 ≤ oy < Yout → 0 ≤ ox < Xout →
  load (subsample_result c (ky, kx) (ky, kx) N C Yin Xin input) (pool_window Xout Yout z oy ox)
  = sub_result c
      (foldl (λ st '(j, i),
         sub_iter c st input (pool_cell Xin Yin ky kx z oy ox j i) j i (mk_uint2 kx ky))
         (sub_decls c) (window_offsets ky kx))
      (mk_uint2 kx ky).
Proof.
  intros HN HC Hky Hkx Ht Yout Xout Hz Hoy Hox.
  assert (HNC : 0 < N * C) by nia.
  destruct (pool_out_size Yin ky Hky) as (EY & HYo & HYf).
  destruct (pool_out_size Xin kx Hkx) as (EX & HXo & HXf).
  fold Yout in EY, HYo, HYf. fold Xout in EX, HXo, HXf.
  destruct (flat3_bound ox Xout oy Yout z (N * C)) as (_ & _ & _ & Hw); try done.
  fold (pool_window Xout Yout z oy ox) in Hw.
  unfold subsample_result. cbn [fst snd]. rewrite EY, EX.
  apply load_lookup; [lia|].
  apply (foldl_store_lookup_eq _ _ _ _ _ (z, oy, ox)).
  - by apply elem_of_range3.
  - rewrite Z2Nat.id by lia. by apply (subsample_kernel_window c input (N * C)).
  - rewrite length_replicate, np_prod_4.
    replace (N * (C * (Yout * Xout))) with (Xout * (Yout * (N * C))) by lia. lia.
  - intros [[z' oy'] ox'] v' Hg' Hb'. apply elem_of_range3 in Hg' as (Hz' & Hoy' & Hox').
    rewrite Z2Nat.id in Hb' by lia.
    pose proof (subsample_kernel_window c input (N * C) Yin Xin ky kx z' oy' ox'
                  Hky Hkx HNC Ht Hz' Hoy' Hox') as Hk.
    cbv zeta in Hk. fold Yout Xout in Hk. rewrite Hk in Hb'.
    injection Hb' as Hw' <-. unfold pool_window in Hw'.
    apply flat3_inj in Hw' as (-> & -> & ->); [done|lia..].
Qed.

(** ** The scan for the maximum *)

Lemma foldl_max_ge a l : a ≤ foldl Z.max a l ∧ ∀ v, v ∈ l → v ≤ foldl Z.max a l.
Proof.
  revert a. induction l as [|x l IH]; intros a; simpl.
  - split; [lia|]. intros v Hv. by apply elem_of_nil in Hv.
  - destruct (IH (a `max` x)) as [H1 H2]. split; [lia|].
    intros v Hv. apply elem_of_cons in Hv as [->|Hv]; [lia|by apply H2].
Qed.

Lemma argmax_scan_max l st :
  (foldl argmax_step st l).1 = foldl Z.max st.1 l.*2.
Proof.
  revert st. induction l as [|[o v] l IH]; intros [mv mi]; [done|]. csimpl.
  rewrite IH. unfold argmax_step. simpl. f_equal.
  case_bool_decide; simpl; lia.
Qed.

Lemma argmax_scan_offset l st :
  foldl argmax_step st l = st ∨
  (((foldl argmax_step st l).2, (foldl argmax_step st l).1) ∈ l ∧
   st.1 < (foldl argmax_step st l).1).
Proof.
  revert st. induction l as [|[o v] l IH]; intros [mv mi]; [by left|]. simpl.
  assert (Hstep : argmax_step (mv, mi) (o, v)
                  = if bool_decide (v > mv) then (v, o) else (mv, mi)) by done.
  destruct (decide (v > mv)) as [Hv|Hv].
  - rewrite bool_decide_true in Hstep by done. rewrite Hstep.
    destruct (IH (v, o)) as [E|[Hin Hlt]].
    + rewrite E. right. simpl. split; [left|lia].
    + right. split; [by right|]. simpl in *. lia.
  - rewrite bool_decide_false in Hstep by done. rewrite Hstep.
    destruct (IH (mv, mi)) as [E|[Hin Hlt]]; [by left|].
    right. split; [by right|done].
Qed.

(** The scan of the kernel that records the offset of the maximum, as a
    scan of the (offset, value) pairs of the window. *)
Lemma maxpool_idxs_scan input Xin Yin ky kx z oy ox :
  0 < ky → 0 < kx → ky * kx < 2^31 →
  foldl (λ st '(j, i),
     sub_iter MaxPool2D.code_idxs st input (pool_cell Xin Yin ky kx z oy ox j i) j i
       (mk_uint2 kx ky))
    (sub_decls MaxPool2D.code_idxs) (window_offsets ky kx)
  = foldl argmax_step (- FLT_MAX, 0)
      ((λ '(j, i), (j * kx + i, load input (pool_cell Xin Yin ky kx z oy ox j i)))
       <$> window_offsets ky kx).
Proof.
  intros Hky Hkx Hk. rewrite foldl_fmap.
  apply foldl_ext_in. intros [mv mi] [j i] Hji.
  apply elem_of_window_offsets in Hji as [Hj Hi].
  unfold argmax_step. simpl.
  assert (0 ≤ j * kx + i < ky * kx) by nia.
  assert (kx ≤ ky * kx) by nia.
  rewrite uint_mul_small, uint_add_small, wrap32_small by nia.
  done.
Qed.

Lemma maxpool_max_scan input Xin Yin ky kx z oy ox :
  foldl (λ st '(j, i),
     sub_iter MaxPool2D.code_max st input (pool_cell Xin Yin ky kx z oy ox j i) j i
       (mk_uint2 kx ky))
    (sub_decls MaxPool2D.code_max) (window_offsets ky kx)
  = foldl Z.max (- FLT_MAX)
      ((λ '(j, i), (j * kx + i, load input (pool_cell Xin Yin ky kx z oy ox j i)))
       <$> window_offsets ky kx).*2.
Proof.
  rewrite <- list_fmap_compose, foldl_fmap.
  apply foldl_ext_in. by intros mv [j i] _.
Qed.

Lemma div_mod_block o k i :
  0 ≤ i < k → (o * k + i) `div` k = o ∧ (o * k + i) `mod` k = i.
Proof.
  intros Hi. rewrite (Z.add_comm (o * k) i).
  rewrite Z.div_add, Z.mod_add by lia.
  rewrite Z.div_small, Z.mod_small by lia. lia.
Qed.

Lemma supersample_op_wp ctx input out_shape a b Yout Xout py px c input2 N C Yin Xin w :
  shape input = [N; C; Yin; Xin] → out_shape = [a; b; Yout; Xout] →
  wp (supersample_op ctx input out_shape (py, px) c input2) w (λ r w',
    r = mkBuf out_shape (length (mem w)) ∧
    ∃ o, mem w' = mem w ++ [o] ∧
         ((cl input < length (mem w))%nat →
          (∀ i2, input2 = Some i2 → (cl i2 < length (mem w))%nat) →
          o = supersample_result c (py, px) N C Yin Xin out_shape Yout Xout
                (contents w (cl input))
                (match input2 with Some i2 => contents w (cl i2) | None => [] end))).
Proof.
  intros Hsh ->. unfold supersample_op. rewrite Hsh. cbn [drop].
  apply wp_bind, wp_buffer_zeros.
  apply wp_bind. unfold cl_supsample_krnl_build. apply wp_clbuild. intros h w1 Hm1 Hl1.
  apply wp_bind, wp_launch. apply wp_ret. simpl.
  split; [done|]. rewrite !Hm1. simpl.
  rewrite insert_app_fresh.
  eexists. split; [done|].
  intros Hin Hin2. unfold supersample_result, deref, contents. simpl_mem.
  destruct input2 as [i2|]; [|done].
  specialize (Hin2 i2 eq_refl). by simpl_mem.
Qed.

(** The work-item of the [supsample] kernel for the cell [(z, y, x)] of an
    output of shape [[NC; Yout; Xout]] fed from an input of shape
    [[NC; Yin; Xin]]. *)
Lemma supsample_kernel_cell c input input2 NC Yin Xin Yout Xout ky kx z y x :
  0 < ky → 0 < kx → ky < 2^31 → kx < 2^31 → 0 < NC →
  Xout * (Yout * NC) < 2^31 → Xin * (Yin * NC) < 2^31 → 0 < Yin → 0 < Xin →
  0 ≤ z < NC → 0 ≤ y < Yout → 0 ≤ x < Xout →
  supsample_kernel c input input2 (make_uint2 Xout Yout) (make_uint2 Xin Yin)
    (make_uint2 kx ky) (z, y, x)
  = if bool_decide (x `div` kx < Xin) && bool_decide (y `div` ky < Yin)
    then Some (x + Xout * (y + Yout * z),
               sup_result c input input2 x y (mk_uint2 kx ky)
                 (x `div` kx + Xin * (y `div` ky + Yin * z)))
    else None.
Proof.
  intros Hky Hkx Hky2 Hkx2 HNC Hto Hti HYin HXin Hz Hy Hx.
  assert (1 ≤ Yout * NC) by nia. assert (1 ≤ Yin * NC) by nia.
  assert (Yout ≤ Yout * NC) by nia. assert (NC ≤ Yout * NC) by nia.
  assert (Yin ≤ Yin * NC) by nia.
  assert (Xout ≤ Xout * (Yout * NC)) by nia.
  assert (Yout * NC ≤ Xout * (Yout * NC)) by nia.
  assert (Xin ≤ Xin * (Yin * NC)) by nia.
  assert (Yin * NC ≤ Xin * (Yin * NC)) by nia.
  unfold supsample_kernel, make_uint2.
  rewrite !wrapu32_small by lia. cbn [u_x u_y].
  rewrite !wrap32_small by lia.
  unfold pool_oid. cbn [u_x u_y].
  rewrite (uint_flat3 x Xout y Yout z NC) by lia.
  rewrite !uint_div_small by lia.
  pose proof (div_self_bounds x kx ltac:(lia) Hkx).
  pose proof (div_self_bounds y ky ltac:(lia) Hky).
  rewrite !uint_ltb_small by lia.
  destruct (decide (x `div` kx < Xin)) as [Hgx|Hgx]; [|by rewrite bool_decide_false].
  rewrite (bool_decide_true (x `div` kx < Xin)) by done.
  destruct (decide (y `div` ky < Yin)) as [Hgy|Hgy]; [|by rewrite bool_decide_false].
  rewrite (bool_decide_true (y `div` ky < Yin)) by done. cbn [andb].
  by rewrite (uint_flat3 (x `div` kx) Xin (y `div` ky) Yin z NC) by lia.
Qed.

(** The routing of [MaxPool2D.backward] for one cell of a window. *)
Lemma maxpool_backward_value gs idata kx ky ox oy j i wid :
  0 < ky → 0 < kx → ky * kx < 2^31 → 0 ≤ ox → 0 ≤ oy →
  ox * kx + i < 2^31 → oy * ky + j < 2^31 →
  0 ≤ j < ky → 0 ≤ i < kx → 0 ≤ load idata wid < ky * kx →
  sup_result MaxPool2D.code_backward gs idata (ox * kx + i) (oy * ky + j) (mk_uint2 kx ky) wid
  = if bool_decide (j * kx + i = load idata wid) then load gs wid else 0.
Proof.
  intros Hky Hkx Hk Hox Hoy Hx Hy Hj Hi Hr. simpl.
  assert (kx ≤ ky * kx) by nia. assert (ky ≤ ky * kx) by nia.
  destruct (div_mod_block ox kx i Hi) as [_ Emx].
  destruct (div_mod_block oy ky j Hj) as [_ Emy].
  rewrite !uint_rem_small by nia. rewrite Emx, Emy.
  assert (0 ≤ kx * j ≤ ky * kx - kx).
  { split; [nia|]. replace (ky * kx - kx) with (kx * (ky - 1)) by lia.
    apply Z.mul_le_mono_nonneg_l; lia. }
  rewrite uint_mul_small, uint_add_small by lia.
  rewrite !wrap32_small by lia.
  destruct (decide (j * kx + i = load idata wid)) as [E|E].
  - rewrite !bool_decide_true by lia. lia.
  - rewrite !bool_decide_false by lia. lia.
Qed.

(** What [supersample_op] leaves in a cell of its output. *)
Lemma supersample_result_cell c input input2 N C Yin Xin Yout Xout ky kx z y x :
  0 < N → 0 < C → 0 < ky → 0 < kx → ky < 2^31 → kx < 2^31 →
  Xout * (Yout * (N * C)) < 2^31 → Xin * (Yin * (N * C)) < 2^31 → 0 < Yin → 0 < Xin →
  0 ≤ z < N * C → 0 ≤ y < Yout → 0 ≤ x < Xout →
  load (supersample_result c (ky, kx) N C Yin Xin [N; C; Yout; Xout] Yout Xout input input2)
    (x + Xout * (y + Yout * z))
  = if bool_decide (x `div` kx < Xin) && bool_decide (y `div` ky < Yin)
    then sup_result c input input2 x y (mk_uint2 kx ky)
           (x `div` kx + Xin * (y `div` ky + Yin * z))
    else 0.
Proof.
  intros HN HC Hky Hkx Hky2 Hkx2 Hto Hti HYin HXin Hz Hy Hx.
  assert (HNC : 0 < N * C) by nia.
  destruct (flat3_bound x Xout y Yout z (N * C)) as (_ & _ & _ & Hc); try done.
  set (cell := x + Xout * (y + Yout * z)) in *.
  unfold supersample_result. cbn [fst snd].
  assert (Hlen : (Z.to_nat cell
                  < length (replicate (Z.to_nat (np_prod [N; C; Yout; Xout])) 0%Z))%nat).
  { rewrite length_replicate, np_prod_4.
    replace (N * (C * (Yout * Xout))) with (Xout * (Yout * (N * C))) by lia. lia. }
  pose proof (supsample_kernel_cell c input input2 (N * C) Yin Xin Yout Xout ky kx z y x
                Hky Hkx Hky2 Hkx2 HNC Hto Hti HYin HXin Hz Hy Hx) as Hk.
  fold cell in Hk.
  destruct (bool_decide (x `div` kx < Xin) && bool_decide (y `div` ky < Yin)) eqn:Hguard.
  - apply load_lookup; [lia|].
    apply (foldl_store_lookup_eq _ _ _ _ _ (z, y, x)).
    + by apply elem_of_range3.
    + rewrite Z2Nat.id by lia. exact Hk.
    + exact Hlen.
    + intros [[z' y'] x'] v' Hg' Hb'. apply elem_of_range3 in Hg' as (Hz' & Hy' & Hx').
      rewrite Z2Nat.id in Hb' by lia.
      rewrite (supsample_kernel_cell c input input2 (N * C) Yin Xin Yout Xout ky kx z' y' x')
        in Hb' by done.
      destruct (bool_decide (x' `div` kx < Xin) && bool_decide (y' `div` ky < Yin));
        [|done].
      injection Hb' as Hc' <-. unfold cell in Hc'.
      apply flat3_inj in Hc' as (-> & -> & ->); [done|lia..].
  - unfold load. rewrite bool_decide_true by lia.
    rewrite foldl_store_lookup_ne.
    + by rewrite lookup_replicate_2 by (by rewrite length_replicate in Hlen).
    + intros [[z' y'] x'] v' Hg' Hb'. apply elem_of_range3 in Hg' as (Hz' & Hy' & Hx').
      rewrite Z2Nat.id in Hb' by lia.
      rewrite (supsample_kernel_cell c input input2 (N * C) Yin Xin Yout Xout ky kx z' y' x')
        in Hb' by done.
      destruct (bool_decide (x' `div` kx < Xin) && bool_decide (y' `div` ky < Yin)) eqn:Hguard';
        [|done].
      injection Hb' as Hc' _. unfold cell in Hc'.
      apply flat3_inj in Hc' as (-> & -> & ->); [|lia..].
      rewrite Hguard in Hguard'. done.
Qed.

Lemma maxpool_forward_wp ctx x N C Yin Xin ky kx w :
  shape x = [N; C; Yin; Xin] → ky ≠ 0 → kx ≠ 0 → (cl x < length (mem w))%nat →
  let sh' := [N; C; (Yin - ky) `div` ky + 1; (Xin - kx) `div` kx + 1] in
  wp (MaxPool2D.forward ctx x (ky, kx)) w (λ r w1,
    r = (mkBuf sh' (S (length (mem w))), (mkBuf sh' (length (mem w)), shape x)) ∧
    mem w1 = mem w ++
      [subsample_result MaxPool2D.code_idxs (ky, kx) (ky, kx) N C Yin Xin (contents w (cl x));
       subsample_result MaxPool2D.code_max (ky, kx) (ky, kx) N C Yin Xin (contents w (cl x))]).
Proof.
  intros Hsh Hky Hkx Hx sh'. unfold MaxPool2D.forward.
  apply wp_bind.
  eapply wp_mono; [by apply (subsample_op_wp ctx x (ky, kx) (ky, kx) _ N C Yin Xin)|].
  intros idxs w1 (-> & o1 & _ & Hm1 & Ho1). cbv beta.
  apply wp_bind.
  eapply wp_mono; [by apply (subsample_op_wp ctx x (ky, kx) (ky, kx) _ N C Yin Xin)|].
  intros out w2 (-> & o2 & _ & Hm2 & Ho2). cbv beta.
  apply wp_ret.
  specialize (Ho1 Hx).
  assert (Hx1 : (cl x < length (mem w1))%nat).
  { rewrite Hm1, length_app. cbn [length]. lia. }
  specialize (Ho2 Hx1).
  assert (Hc : contents w1 (cl x) = contents w (cl x)).
  { unfold contents. rewrite Hm1. by rewrite lookup_app_l by done. }
  rewrite Hc in Ho2. subst o1 o2.
  split.
  - rewrite Hm1, length_app. cbn [length fst snd]. fold sh'.
    replace (length (mem w) + 1)%nat with (S (length (mem w))) by lia. done.
  - rewrite Hm2, Hm1, <- app_assoc. done.
Qed.

(** What [MaxPool2D.forward] records for one window: the offset is inside
    the window, the maximum bounds every cell, and when every cell exceeds
    the initial [-FLT_MAX] the cell at the recorded offset holds the
    maximum. *)
Lemma maxpool_forward_window xs N C Yin Xin ky kx z oy ox :
  0 < N → 0 < C → 0 < ky ≤ Yin → 0 < kx ≤ Xin → Xin * (Yin * (N * C)) < 2^31 →
  let Yout := Yin `div` ky in
  let Xout := Xin `div` kx in
  0 ≤ z < N * C → 0 ≤ oy < Yout → 0 ≤ ox < Xout →
  let wid := pool_window Xout Yout z oy ox in
  let recorded :=
    load (subsample_result MaxPool2D.code_idxs (ky, kx) (ky, kx) N C Yin Xin xs) wid in
  let maxval :=
    load (subsample_result MaxPool2D.code_max (ky, kx) (ky, kx) N C Yin Xin xs) wid in
  0 ≤ recorded < ky * kx ∧
  (∀ j i, 0 ≤ j < ky → 0 ≤ i < kx →
     load xs (pool_cell Xin Yin ky kx z oy ox j i) ≤ maxval) ∧
  ((∀ j i, 0 ≤ j < ky → 0 ≤ i < kx →
      - FLT_MAX < load xs (pool_cell Xin Yin ky kx z oy ox j i)) →
   ∃ j i, 0 ≤ j < ky ∧ 0 ≤ i < kx ∧ recorded = j * kx + i ∧
          load xs (pool_cell Xin Yin ky kx z oy ox j i) = maxval).
Proof.
  intros HN HC Hky Hkx Ht Yout Xout Hz Hoy Hox wid recorded maxval.
  assert (Hk : ky * kx < 2^31).
  { assert (1 ≤ N * C) by nia. assert (ky * kx ≤ Yin * Xin) by (apply Z.mul_le_mono_nonneg; lia).
    assert (Yin * Xin ≤ Xin * (Yin * (N * C))) by nia. lia. }
  set (pairs := (λ '(j, i), (j * kx + i, load xs (pool_cell Xin Yin ky kx z oy ox j i)))
                <$> window_offsets ky kx).
  assert (Hrec : recorded = (foldl argmax_step (- FLT_MAX, 0) pairs).2).
  { pose proof (subsample_result_window MaxPool2D.code_idxs xs N C Yin Xin ky kx z oy ox
                  HN HC Hky Hkx Ht Hz Hoy Hox) as Hw.
    cbv zeta in Hw. fold Yout Xout in Hw. fold wid in Hw. fold recorded in Hw.
    rewrite Hw, maxpool_idxs_scan by lia. fold pairs.
    by destruct (foldl argmax_step (- FLT_MAX, 0) pairs). }
  assert (Hmax : maxval = (foldl argmax_step (- FLT_MAX, 0) pairs).1).
  { pose proof (subsample_result_window MaxPool2D.code_max xs N C Yin Xin ky kx z oy ox
                  HN HC Hky Hkx Ht Hz Hoy Hox) as Hw.
    cbv zeta in Hw. fold Yout Xout in Hw. fold wid in Hw. fold maxval in Hw.
    rewrite Hw, maxpool_max_scan. fold pairs. by rewrite argmax_scan_max. }
  assert (Hpairs : ∀ o v, (o, v) ∈ pairs →
            ∃ j i, 0 ≤ j < ky ∧ 0 ≤ i < kx ∧ o = j * kx + i ∧
                   v = load xs (pool_cell Xin Yin ky kx z oy ox j i)).
  { intros o v Hin. apply list_elem_of_fmap in Hin as ([j i] & [= -> ->] & Hji).
    apply elem_of_window_offsets in Hji as [Hj Hi]. by exists j, i. }
  assert (Hvals : ∀ j i, 0 ≤ j < ky → 0 ≤ i < kx →
            load xs (pool_cell Xin Yin ky kx z oy ox j i) ≤ maxval).
  { intros j i Hj Hi. rewrite Hmax, argmax_scan_max.
    apply foldl_max_ge. apply list_elem_of_fmap.
    exists (j * kx + i, load xs (pool_cell Xin Yin ky kx z oy ox j i)). split; [done|].
    apply list_elem_of_fmap. exists (j, i). split; [done|].
    by apply elem_of_window_offsets. }
  destruct (argmax_scan_offset pairs (- FLT_MAX, 0)) as [E|[Hin Hlt]].
  - rewrite E in Hrec, Hmax. simpl in Hrec, Hmax.
    split; [rewrite Hrec; nia|]. split; [done|].
    intros Hfin. specialize (Hvals 0 0 ltac:(lia) ltac:(lia)).
    specialize (Hfin 0 0 ltac:(lia) ltac:(lia)). lia.
  - rewrite <- Hrec, <- Hmax in Hin.
    destruct (Hpairs _ _ Hin) as (j & i & Hj & Hi & Eo & Ev).
    split; [rewrite Eo; nia|]. split; [done|].
    intros _. by exists j, i.
Qed.

(** The example of the specification: input [[1,5],[3,2]], kernel (2,2),
    gradient [1]. *)
Lemma maxpool2d_example :
  let w0 := mkWorld [[1; 5; 3; 2]; [1]] [] [] [] in
  ∃ out idxs w1 gi w',
    MaxPool2D.forward example_ctx (mkBuf [1; 1; 2; 2] 0) (2, 2) w0
    = (Ok (out, (idxs, [1; 1; 2; 2])), w1) ∧
    contents w1 (cl out) = [5] ∧
    MaxPool2D.backward example_ctx (idxs, [1; 1; 2; 2]) (mkBuf [1; 1; 1; 1] 1) w1
    = (Ok gi, w') ∧
    contents w' (cl gi) = [0; 1; 0; 0].
Proof.
  intros w0. subst w0. eexists _, _, _, _, _.
  split.
  { match goal with |- ?l = _ => set (lhs := l) end.
    vm_compute in lhs. subst lhs. reflexivity. }
  split.
  { match goal with |- ?l = _ => set (lhs := l) end.
    vm_compute in lhs. subst lhs. reflexivity. }
  split.
  { match goal with |- ?l = _ => set (lhs := l) end.
    vm_compute in lhs. subst lhs. reflexivity. }
  match goal with |- ?l = _ => set (lhs := l) end.
  vm_compute in lhs. subst lhs. reflexivity.
Qed.

(** X18.  For a 4D input of shape (N, C, Yin, Xin) and a window (ky, kx)
    that fits (the stride is the window) and has at most 2^24 cells, so that
    the offsets, which [forward] stores as [float], are stored exactly:
    [MaxPool2D.forward] followed by
    [MaxPool2D.backward] on a gradient of the output's shape gives an
    input-gradient of the input's shape in which, for every window, the cell
    whose offset [j*kx + i] equals the offset recorded by [forward] holds the
    element of [grad_output] of that window and every other cell of the
    window holds 0; the cells outside all windows hold 0 too.  The recorded
    offset is inside the window, the forward output bounds every cell of the
    window, and when all cells exceed [-FLT_MAX] the cell at the recorded
    offset holds the forward output, the maximum of the window. *)
Theorem maxpool2d_backward_routes_to_recorded_offset ctx (x g : GPUBuffer) N C Yin Xin ky kx w :
  let Yout := Yin `div` ky in
  let Xout := Xin `div` kx in
  let xs := contents w (cl x) in
  let gs := contents w (cl g) in
  shape x = [N; C; Yin; Xin] → shape g = [N; C; Yout; Xout] → kernel_size ctx = (ky, kx) →
  0 < N → 0 < C → 0 < ky ≤ Yin → 0 < kx ≤ Xin → Xin * (Yin * (N * C)) ≤ int_max →
  ky * kx ≤ 2^24 →
  (cl x < length (mem w))%nat → (cl g < length (mem w))%nat →
  ∃ out idxs w1 gi w',
     MaxPool2D.forward ctx x (ky, kx) w = (Ok (out, (idxs, shape x)), w1) ∧
     MaxPool2D.backward ctx (idxs, shape x) g w1 = (Ok gi, w') ∧
     shape out = [N; C; Yout; Xout] ∧ shape gi = shape x ∧
     (∀ z oy ox, 0 ≤ z < N * C → 0 ≤ oy < Yout → 0 ≤ ox < Xout →
        let wid := pool_window Xout Yout z oy ox in
        let recorded := load (contents w1 (cl idxs)) wid in
        let maxval := load (contents w1 (cl out)) wid in
        0 ≤ recorded < ky * kx ∧
        (∀ j i, 0 ≤ j < ky → 0 ≤ i < kx →
           load xs (pool_cell Xin Yin ky kx z oy ox j i) ≤ maxval ∧
           load (contents w' (cl gi)) (pool_cell Xin Yin ky kx z oy ox j i)
           = if bool_decide (j * kx + i = recorded) then load gs wid else 0) ∧
        ((∀ j i, 0 ≤ j < ky → 0 ≤ i < kx →
            - FLT_MAX < load xs (pool_cell Xin Yin ky kx z oy ox j i)) →
         ∃ j i, 0 ≤ j < ky ∧ 0 ≤ i < kx ∧ recorded = j * kx + i ∧
                load xs (pool_cell Xin Yin ky kx z oy ox j i) = maxval)) ∧
     (∀ z y x', 0 ≤ z < N * C → 0 ≤ y < Yin → 0 ≤ x' < Xin →
        Yout ≤ y `div` ky ∨ Xout ≤ x' `div` kx →
        load (contents w' (cl gi)) (x' + Xin * (y + Yin * z)) = 0).
Proof.
  intros Yout Xout xs gs Hsh Hg Hks HN HC Hky Hkx Ht _ Hx Hgv.
  unfold int_max in Ht.
  destruct (pool_out_size Yin ky Hky) as (EY & HYo & HYf).
  destruct (pool_out_size Xin kx Hkx) as (EX & HXo & HXf).
  fold Yout in EY, HYo, HYf. fold Xout in EX, HXo, HXf.
  assert (HNC : 0 < N * C) by nia.
  assert (Hto : Xout * (Yout * (N * C)) < 2^31).
  { assert (Xout ≤ Xin) by nia. assert (Yout ≤ Yin) by nia.
    assert (Xout * (Yout * (N * C)) ≤ Xin * (Yin * (N * C))); [|lia].
    apply Z.mul_le_mono_nonneg; [lia|lia|nia|].
    apply Z.mul_le_mono_nonneg; lia. }
  assert (Hbk : ky < 2^31 ∧ kx < 2^31 ∧ ky * kx < 2^31).
  { assert (1 ≤ N * C) by lia.
    assert (ky * kx ≤ Yin * Xin) by (apply Z.mul_le_mono_nonneg; lia).
    assert (Yin * Xin ≤ Xin * (Yin * (N * C))) by nia.
    assert (kx ≤ ky * kx) by nia. assert (ky ≤ ky * kx) by nia. lia. }
  destruct Hbk as (Hky2 & Hkx2 & Hk2).
  (* forward *)
  pose proof (maxpool_forward_wp ctx x N C Yin Xin ky kx w Hsh) as Hf.
  specialize (Hf ltac:(lia) ltac:(lia) Hx). cbv zeta in Hf. rewrite EY, EX in Hf.
  apply wp_elim in Hf as (r & w1 & Ef & -> & Hm1).
  fold xs in Hm1.
  set (idata := subsample_result MaxPool2D.code_idxs (ky, kx) (ky, kx) N C Yin Xin xs) in *.
  set (odata := subsample_result MaxPool2D.code_max (ky, kx) (ky, kx) N C Yin Xin xs) in *.
  set (out := mkBuf [N; C; Yout; Xout] (S (length (mem w)))) in *.
  set (idxs := mkBuf [N; C; Yout; Xout] (length (mem w))) in *.
  (* backward *)
  pose proof (supersample_op_wp ctx g (shape x) N C Yin Xin ky kx MaxPool2D.code_backward
                (Some idxs) N C Yout Xout w1 Hg Hsh) as Hb.
  apply wp_elim in Hb as (gi & w' & Eb & -> & o & Hm' & Ho).
  assert (Hlen1 : length (mem w1) = (length (mem w) + 2)%nat).
  { rewrite Hm1, length_app. simpl. lia. }
  assert (Hgs1 : contents w1 (cl g) = gs).
  { unfold contents, gs. rewrite Hm1. by rewrite lookup_app_l by done. }
  assert (Hid1 : contents w1 (cl idxs) = idata).
  { unfold contents. rewrite Hm1. simpl. by rewrite lookup_app_fresh. }
  assert (Hod1 : contents w1 (cl out) = odata).
  { unfold contents. rewrite Hm1. simpl.
    replace (S (length (mem w))) with (length (mem w) + 1)%nat by lia.
    by rewrite lookup_app_plus. }
  rewrite Hgs1, Hid1 in Ho. rewrite Ho in Hm'.
  2:{ lia. }
  2:{ intros i2 [= <-]. simpl. lia. }
  assert (Hgi : contents w' (length (mem w1))
                = supersample_result MaxPool2D.code_backward (ky, kx) N C Yout Xout
                    (shape x) Yin Xin gs idata).
  { unfold contents. rewrite Hm'. by rewrite lookup_app_fresh. }
  exists out, idxs, w1, (mkBuf (shape x) (length (mem w1))), w'.
  split; [exact Ef|]. split.
  { unfold MaxPool2D.backward. by rewrite Hks. }
  split; [done|]. split; [done|].
  change (cl (mkBuf (shape x) (length (mem w1)))) with (length (mem w1)).
  rewrite Hgi, Hsh. split.
  - intros z oy ox Hz Hoy Hox wid recorded maxval.
    unfold recorded, maxval. rewrite Hid1, Hod1.
    destruct (maxpool_forward_window xs N C Yin Xin ky kx z oy ox)
      as (Hrec & Hle & Harg); try done; try lia.
    fold Yout Xout in Hrec, Hle, Harg. fold wid in Hrec, Hle, Harg.
    fold idata odata in Hrec, Hle, Harg.
    split; [exact Hrec|]. split; [|exact Harg].
    intros j i Hj Hi. split; [by apply Hle|].
    assert (Hcy : 0 ≤ oy * ky + j < Yin) by nia.
    assert (Hcx : 0 ≤ ox * kx + i < Xin) by nia.
    destruct (div_mod_block ox kx i Hi) as [Edx _].
    destruct (div_mod_block oy ky j Hj) as [Edy _].
    unfold pool_cell.
    rewrite (supersample_result_cell MaxPool2D.code_backward gs idata N C Yout Xout Yin Xin
               ky kx z (oy * ky + j) (ox * kx + i)); try done; try lia.
    rewrite Edx, Edy. rewrite !bool_decide_true by lia. cbn [andb].
    fold (pool_window Xout Yout z oy ox). fold wid.
    assert (1 ≤ Yin * (N * C)) by nia.
    apply maxpool_backward_value; try done; try lia; nia.
  - intros z y x' Hz Hy Hx' Hout.
    rewrite (supersample_result_cell MaxPool2D.code_backward gs idata N C Yout Xout Yin Xin
               ky kx z y x'); try done; try lia.
    destruct Hout as [Hout|Hout].
    + rewrite (bool_decide_false (y `div` ky < Yout)) by lia. by rewrite andb_false_r.
    + by rewrite (bool_decide_false (x' `div` kx < Xout)) by lia.
Qed.

Lemma maxpool2d_backward_routes_to_recorded_offset_witness :
  let w0 := mkWorld [[7; 2; 9; 4]; [3]] [] [] [] in
  ∃ out idxs w1 gi w',
    MaxPool2D.forward example_ctx (mkBuf [1; 1; 2; 2] 0) (2, 2) w0
    = (Ok (out, (idxs, [1; 1; 2; 2])), w1) ∧
    MaxPool2D.backward example_ctx (idxs, [1; 1; 2; 2]) (mkBuf [1; 1; 1; 1] 1) w1
    = (Ok gi, w') ∧
    shape gi = [1; 1; 2; 2].
Proof.
  intros w0.
  assert (Ht : 2 * (2 * (1 * 1)) ≤ int_max) by (vm_compute; discriminate).
  assert (Hk : 2 * 2 ≤ 2^24) by (vm_compute; discriminate).
  destruct (maxpool2d_backward_routes_to_recorded_offset example_ctx
              (mkBuf [1; 1; 2; 2] 0) (mkBuf [1; 1; 1; 1] 1) 1 1 2 2 2 2 w0
              eq_refl eq_refl eq_refl ltac:(lia) ltac:(lia) ltac:(lia) ltac:(lia) Ht Hk
              ltac:(simpl; lia) ltac:(simpl; lia))
    as (out & idxs & w1 & gi & w' & Ef & Eb & _ & Hs & _).
  exists out, idxs, w1, gi, w'. split; [exact Ef|]. split; [exact Eb|exact Hs].
Defined.

(* ===================================================================== *)
(** * The contents of elementwise results *)
(* ===================================================================== *)

Lemma load_of_nat (xs : list Z) (i : nat) : load xs (Z.of_nat i) = default 0 (xs !! i).
Proof.
  unfold load. rewrite bool_decide_true by lia. by rewrite Nat2Z.id.
Qed.

Lemma fmap_load_seqZ (f : Z → Z) (xs : list Z) n :
  length xs = Z.to_nat n → (λ g, f (load xs g)) <$> seqZ 0 n = f <$> xs.
Proof.
  intros Hn. apply list_eq. intros i. rewrite !list_lookup_fmap.
  destruct (decide (i < length xs)%nat) as [Hi|Hi].
  - rewrite lookup_seqZ_lt by lia. simpl.
    destruct (lookup_lt_is_Some_2 xs i Hi) as [v Hv].
    rewrite Z.add_0_l, load_of_nat, Hv. done.
  - rewrite lookup_seqZ_ge by lia. by rewrite lookup_ge_None_2 by lia.
Qed.

Lemma fmap_load2_seqZ (f : Z → Z → Z) (xs ys : list Z) n :
  length xs = Z.to_nat n → length ys = Z.to_nat n →
  (λ g, f (load xs g) (load ys g)) <$> seqZ 0 n = zip_with f xs ys.
Proof.
  intros Hx Hy. apply list_eq. intros i. rewrite list_lookup_fmap, lookup_zip_with.
  destruct (decide (i < length xs)%nat) as [Hi|Hi].
  - rewrite lookup_seqZ_lt by lia. simpl.
    destruct (lookup_lt_is_Some_2 xs i Hi) as [v Hv].
    destruct (lookup_lt_is_Some_2 ys i ltac:(lia)) as [v' Hv'].
    rewrite Z.add_0_l, !load_of_nat, Hv, Hv'. done.
  - rewrite lookup_seqZ_ge by lia. by rewrite (lookup_ge_None_2 xs) by lia.
Qed.

(** The frame of a computation that only appends buffers. *)
Lemma contents_app_l w w' h rest :
  mem w' = mem w ++ rest → (h < length (mem w))%nat → contents w' h = contents w h.
Proof. intros Hm Hh. unfold contents. rewrite Hm. by rewrite lookup_app_l. Qed.

Lemma contents_app_fresh w w' o rest :
  mem w' = mem w ++ o :: rest → contents w' (length (mem w)) = o.
Proof. intros Hm. unfold contents. rewrite Hm. by rewrite lookup_app_fresh. Qed.

(** ** [unary_op] *)

Lemma unary_op_wp_contents ctx code x w :
  (cl x < length (mem w))%nat → np_prod (shape x) ≤ int_max →
  wp (unary_op ctx code x) w (λ r w',
    r = mkBuf (shape x) (length (mem w)) ∧
    mem w' = mem w ++ [(λ g, c1_fn code (load (contents w (cl x)) g))
                         <$> seqZ 0 (np_prod (shape x))]).
Proof.
  intros Hx Hp. unfold unary_op, buffer_like.
  apply wp_bind, wp_buffer_new.
  apply wp_bind, wp_clbuild. intros h w1 Hm1 Hl1.
  apply wp_bind, wp_launch. apply wp_ret. simpl.
  split; [done|]. rewrite !Hm1. simpl.
  rewrite insert_app_fresh. f_equal. f_equal.
  unfold deref, contents. simpl_mem.
  apply foldl_store_range1; [|by rewrite length_replicate].
  intros g Hg. unfold unop_kernel.
  by rewrite wrap32_small by (unfold int_max in Hp; lia).
Qed.

(** X1.  [unary_op] applies the scalar expression to every element of an
    input of less than 2^31 elements (the kernel indexes with an [int]): the
    result is a fresh buffer of the shape of the input whose elements are
    the images of the input's elements, and every buffer that existed before
    keeps its contents. *)
Theorem unary_op_maps_elements ctx code (x : GPUBuffer) w :
  (cl x < length (mem w))%nat →
  length (contents w (cl x)) = Z.to_nat (np_prod (shape x)) →
  np_prod (shape x) ≤ int_max →
  ∃ r w', unary_op ctx code x w = (Ok r, w') ∧
    shape r = shape x ∧ cl r = length (mem w) ∧
    contents w' (cl r) = c1_fn code <$> contents w (cl x) ∧
    (∀ h, (h < length (mem w))%nat → contents w' h = contents w h).
Proof.
  intros Hx Hlen Hp.
  destruct (wp_elim _ _ _ (unary_op_wp_contents ctx code x w Hx Hp)) as (r & w' & E & -> & Hm).
  exists (mkBuf (shape x) (length (mem w))), w'. split; [done|].
  split; [done|]. split; [done|]. split.
  - cbn [cl]. rewrite (contents_app_fresh _ _ _ _ Hm). by apply fmap_load_seqZ.
  - intros h Hh. by apply (contents_app_l _ _ _ _ Hm).
Qed.

Lemma unary_op_maps_elements_witness :
  ∃ r w', unary_op example_ctx (mkCode1 "-a" (λ a, - a)) (mkBuf [3] 0) example_world = (Ok r, w') ∧
    contents w' (cl r) = [-1; -2; -3].
Proof.
  destruct (unary_op_maps_elements example_ctx (mkCode1 "-a" (λ a, - a)) (mkBuf [3] 0)
              example_world ltac:(simpl; lia) eq_refl ltac:(vm_compute; discriminate))
    as (r & w' & E & _ & _ & Hc & _).
  exists r, w'. split; [exact E|exact Hc].
Defined.

(** X2.  [ReLU.forward] replaces every negative element by 0 and keeps the
    others, on an input of less than 2^31 elements: no element of the result
    is negative, and applying it to its own result changes nothing. *)
Theorem relu_forward_clamps ctx (x : GPUBuffer) w :
  (cl x < length (mem w))%nat →
  length (contents w (cl x)) = Z.to_nat (np_prod (shape x)) →
  np_prod (shape x) ≤ int_max →
  ∃ r w', ReLU.forward ctx x w = (Ok r, w') ∧ shape r = shape x ∧
    contents w' (cl r) = (λ a, a `max` 0) <$> contents w (cl x) ∧
    Forall (λ v, 0 ≤ v) (contents w' (cl r)) ∧
    ∃ r2 w2, ReLU.forward ctx r w' = (Ok r2, w2) ∧
      contents w2 (cl r2) = contents w' (cl r).
Proof.
  intros Hx Hlen Hp. unfold ReLU.forward.
  set (code := mkCode1 "max(a, (float)0.)" (λ a, a `max` 0)).
  destruct (wp_elim _ _ _ (unary_op_wp_contents ctx code x w Hx Hp)) as (r & w' & E & -> & Hm).
  assert (Hc : contents w' (length (mem w)) = (λ a, a `max` 0) <$> contents w (cl x)).
  { rewrite (contents_app_fresh _ _ _ _ Hm). by apply (fmap_load_seqZ (c1_fn code)). }
  exists (mkBuf (shape x) (length (mem w))), w'. split; [done|]. split; [done|].
  cbn [cl]. split; [exact Hc|]. split.
  { rewrite Hc. apply Forall_fmap, Forall_true. intros v. simpl. lia. }
  assert (Hr : (cl (mkBuf (shape x) (length (mem w))) < length (mem w'))%nat).
  { rewrite Hm, length_app. simpl. lia. }
  destruct (wp_elim _ _ _ (unary_op_wp_contents ctx code _ w' Hr Hp))
    as (r2 & w2 & E2 & -> & Hm2).
  eexists _, w2. split; [exact E2|]. cbn [cl shape].
  rewrite (contents_app_fresh _ _ _ _ Hm2). cbn [cl shape]. rewrite Hc.
  rewrite (fmap_load_seqZ (c1_fn code)).
  - rewrite <- list_fmap_compose. apply list_fmap_ext. intros _ v _. simpl. lia.
  - by rewrite length_fmap.
Qed.

Lemma relu_forward_clamps_witness :
  ∃ r w', ReLU.forward example_ctx (mkBuf [3] 0) (mkWorld [[-4; 0; 7]] [] [] []) = (Ok r, w') ∧
    contents w' (cl r) = [0; 0; 7].
Proof.
  destruct (relu_forward_clamps example_ctx (mkBuf [3] 0) (mkWorld [[-4; 0; 7]] [] [] [])
              ltac:(simpl; lia) eq_refl ltac:(vm_compute; discriminate))
    as (r & w' & E & _ & Hc & _).
  exists r, w'. split; [exact E|exact Hc].
Defined.

(** ** [binary_op] *)

Lemma elem_le_np_prod sh d : Forall (λ d, 0 < d) sh → d ∈ sh → d ≤ np_prod sh.
Proof.
  induction 1 as [|a l Ha Hl IH]; intros Hin; [by apply elem_of_nil in Hin|].
  rewrite np_prod_cons. pose proof (np_prod_pos l Hl).
  apply elem_of_cons in Hin as [->|Hin]; [nia|]. specialize (IH Hin). nia.
Qed.

Lemma Forall_pos_int_range sh :
  Forall (λ d, 0 < d) sh → np_prod sh ≤ int_max → Forall int_range sh.
Proof.
  intros Hp Hb. apply list.Forall_forall. intros d Hd.
  pose proof (elem_le_np_prod sh d Hp Hd). rewrite list.Forall_forall in Hp.
  specialize (Hp d Hd). unfold int_range, int_max in *. lia.
Qed.

Lemma Forall_pos_left_aligned n sh :
  Forall (λ d, 0 < d) sh → Forall (λ d, 0 < d) (left_aligned n sh).
Proof. intros H. apply Forall_app. split; [done|]. apply Forall_replicate. lia. Qed.

Lemma length_left_aligned n sh : (length sh ≤ n)%nat → length (left_aligned n sh) = n.
Proof. intros H. unfold left_aligned. rewrite length_app, length_replicate. lia. Qed.

Lemma np_prod_left_aligned n sh : np_prod (left_aligned n sh) = np_prod sh.
Proof. unfold left_aligned. rewrite np_prod_app, np_prod_replicate_1. lia. Qed.

Lemma zip_with_max_id sh : zip_with Z.max sh sh = sh.
Proof. induction sh as [|a sh IH]; [done|]. simpl. by rewrite IH, Z.max_id. Qed.

Lemma broadcast_index_id sh gid :
  Forall (λ d, 0 < d) sh → 0 ≤ gid < np_prod sh → broadcast_index sh sh gid = gid.
Proof.
  intros Hp Hg. unfold broadcast_index.
  rewrite zip_with_mod_unravel by done. by apply ravel_unravel.
Qed.

Lemma binary_op_wp_contents ctx code x y w :
  let n_dims := (length (shape x) `max` length (shape y))%nat in
  let shape_x := padded_shape n_dims (shape x) in
  let shape_y := padded_shape n_dims (shape y) in
  let shape_ret := zip_with Z.max shape_x shape_y in
  broadcastable shape_x shape_y = true →
  (cl x < length (mem w))%nat → (cl y < length (mem w))%nat →
  wp (binary_op ctx code x y) w (λ r w',
    r = mkBuf shape_ret (length (mem w)) ∧
    mem w' = mem w ++ [binop_result code (bool_decide (shape x ≠ shape y))
                         shape_x shape_y shape_ret (contents w (cl x)) (contents w (cl y));
                       shape_x; shape_y; shape_ret]).
Proof.
  intros n_dims shape_x shape_y shape_ret Hb Hx Hy.
  assert (Hn : length shape_ret = n_dims).
  { unfold shape_ret. rewrite length_zip_with.
    destruct (length_padded_pair x y) as [E1 E2]. fold n_dims shape_x shape_y in E1, E2. lia. }
  unfold binary_op. fold n_dims. fold shape_x shape_y. rewrite Hb. simpl.
  fold shape_ret.
  apply wp_bind, wp_buffer_new.
  apply wp_bind, wp_clbuild. intros h w1 Hm1 Hl1.
  apply wp_bind, wp_buffer_np.
  apply wp_bind, wp_buffer_np.
  apply wp_bind, wp_buffer_np.
  apply wp_bind, wp_launch. apply wp_ret. simpl.
  split; [done|].
  rewrite !Hm1. simpl.
  rewrite !length_app. simpl.
  rewrite <- !(assoc_L (++)). simpl.
  rewrite insert_app_fresh. f_equal. f_equal.
  unfold binop_result, deref, contents. rewrite Hn. by simpl_mem.
Qed.

Lemma binop_result_ideal code general sx sy a_g b_g :
  let sr := zip_with Z.max sx sy in
  length sx = length sy →
  Forall (λ d, 0 < d) sx → Forall (λ d, 0 < d) sy →
  np_prod sr ≤ int_max → Z.of_nat (length sr) ≤ int_max →
  (general = false → sx = sy) →
  binop_result code general sx sy sr a_g b_g
  = (λ gid, c2_fn code (load a_g (broadcast_index sx sr gid))
                        (load b_g (broadcast_index sy sr gid)))
    <$> seqZ 0 (np_prod sr).
Proof.
  intros sr Hlen Hpx Hpy Hb Hn Hfast.
  destruct (zip_with_max_bounds sx sy Hlen Hpx Hpy) as (Hbx & Hby & Hpr).
  fold sr in Hbx, Hby, Hpr.
  pose proof (np_prod_le _ _ Hbx) as Hx. pose proof (np_prod_le _ _ Hby) as Hy.
  assert (Hi : i32 (np_prod sr) = np_prod sr).
  { apply i32_small. unfold int_range, int_max in *. lia. }
  unfold binop_result.
  replace (range1 (i32 (np_prod sr))) with (range1 (np_prod sr)) by (by rewrite Hi).
  apply foldl_store_range1; [|by rewrite length_replicate].
  intros g Hg. unfold binop_kernel. destruct general.
  - rewrite binop_index_ideal; try done.
    + by rewrite (Forall2_length _ _ _ Hbx).
    + by rewrite (Forall2_length _ _ _ Hby).
    + unfold int_max in *. lia.
    + unfold int_max in *. lia.
  - specialize (Hfast eq_refl). subst sy.
    assert (Esr : sr = sx) by apply zip_with_max_id.
    rewrite Esr in *. unfold binop_index_fast.
    by rewrite !broadcast_index_id.
Qed.

(** [binary_op] on operands whose shapes, completed by ones at the end, are
    compatible: the result is a fresh buffer that holds, at every flat index
    of the result shape, the scalar expression applied to the elements that
    broadcasting pairs with that index. *)
Lemma binary_op_spec ctx code x y w :
  let n := (length (shape x) `max` length (shape y))%nat in
  let sa := left_aligned n (shape x) in
  let sb := left_aligned n (shape y) in
  let sr := zip_with Z.max sa sb in
  Forall (λ d, 0 < d) (shape x) → Forall (λ d, 0 < d) (shape y) →
  (∀ i a b, sa !! i = Some a → sb !! i = Some b → compatible a b) →
  np_prod sr ≤ int_max → Z.of_nat n ≤ int_max →
  (cl x < length (mem w))%nat → (cl y < length (mem w))%nat →
  wp (binary_op ctx code x y) w (λ r w',
    r = mkBuf sr (length (mem w)) ∧
    mem w' = mem w ++
      [(λ gid, c2_fn code (load (contents w (cl x)) (broadcast_index sa sr gid))
                           (load (contents w (cl y)) (broadcast_index sb sr gid)))
         <$> seqZ 0 (np_prod sr); sa; sb; sr]).
Proof.
  intros n sa sb sr Hpx Hpy Hc Hb Hn Hx Hy.
  assert (Hla : length sa = n) by (apply length_left_aligned; lia).
  assert (Hlb : length sb = n) by (apply length_left_aligned; lia).
  pose proof (Forall_pos_left_aligned n _ Hpx) as Hpa.
  pose proof (Forall_pos_left_aligned n _ Hpy) as Hpb.
  fold sa in Hpa. fold sb in Hpb.
  destruct (zip_with_max_bounds sa sb ltac:(lia) Hpa Hpb) as (Hbx & Hby & Hpr).
  fold sr in Hbx, Hby, Hpr.
  pose proof (np_prod_le _ _ Hbx) as Hx'. pose proof (np_prod_le _ _ Hby) as Hy'.
  assert (Hix : Forall int_range (shape x)).
  { apply Forall_pos_int_range; [done|].
    rewrite <- (np_prod_left_aligned n). fold sa. lia. }
  assert (Hiy : Forall int_range (shape y)).
  { apply Forall_pos_int_range; [done|].
    rewrite <- (np_prod_left_aligned n). fold sb. lia. }
  pose proof (binary_op_wp_contents ctx code x y w) as Hwp. cbv zeta in Hwp.
  fold n in Hwp.
  rewrite !(padded_shape_left_aligned n) in Hwp by done.
  fold sa sb in Hwp. fold sr in Hwp.
  specialize (Hwp ltac:(by apply broadcastable_spec) Hx Hy).
  eapply wp_mono; [exact Hwp|]. cbv beta. intros r w' [-> Hm].
  split; [done|]. rewrite Hm. f_equal. f_equal.
  apply binop_result_ideal; try done; try lia.
  - rewrite length_zip_with. fold sa sb. lia.
  - intros Hg. apply bool_decide_eq_false in Hg.
    assert (E : shape x = shape y) by (by destruct (decide (shape x = shape y))).
    unfold sa, sb. by rewrite E.
Qed.

(** X3.  [binary_op] with broadcasting.  For operands of positive dimensions
    whose shapes, completed by ones at the end, are compatible, the result
    has the elementwise maximum of the two completed shapes and holds at
    every flat index the scalar expression applied to the element of each
    operand found by reducing the coordinates of the index modulo the
    operand's dimensions; the operands keep their contents. *)
Theorem binary_op_broadcast_contents ctx code (x y : GPUBuffer) w :
  let n := (length (shape x) `max` length (shape y))%nat in
  let sa := left_aligned n (shape x) in
  let sb := left_aligned n (shape y) in
  let sr := zip_with Z.max sa sb in
  Forall (λ d, 0 < d) (shape x) → Forall (λ d, 0 < d) (shape y) →
  (∀ i a b, sa !! i = Some a → sb !! i = Some b → compatible a b) →
  np_prod sr ≤ int_max → Z.of_nat n ≤ int_max →
  (cl x < length (mem w))%nat → (cl y < length (mem w))%nat →
  ∃ r w', binary_op ctx code x y w = (Ok r, w') ∧ shape r = sr ∧
    length (contents w' (cl r)) = Z.to_nat (np_prod sr) ∧
    (∀ gid, 0 ≤ gid < np_prod sr →
       load (contents w' (cl r)) gid
       = c2_fn code
           (load (contents w (cl x)) (ravel sa (zip_with Z.modulo (unravel sr gid) sa)))
           (load (contents w (cl y)) (ravel sb (zip_with Z.modulo (unravel sr gid) sb)))) ∧
    contents w' (cl x) = contents w (cl x) ∧ contents w' (cl y) = contents w (cl y).
Proof.
  intros n sa sb sr Hpx Hpy Hc Hb Hn Hx Hy.
  destruct (wp_elim _ _ _ (binary_op_spec ctx code x y w Hpx Hpy Hc Hb Hn Hx Hy))
    as (r & w' & E & -> & Hm).
  fold n sa sb sr in Hm.
  exists (mkBuf sr (length (mem w))), w'. split; [done|]. split; [done|].
  cbn [cl]. rewrite (contents_app_fresh _ _ _ _ Hm).
  split; [by rewrite length_fmap, length_seqZ|]. split.
  - intros gid Hg. replace gid with (Z.of_nat (Z.to_nat gid)) at 1 by lia.
    rewrite load_of_nat, list_lookup_fmap, lookup_seqZ_lt by lia. simpl.
    by rewrite Z2Nat.id by lia.
  - split; by apply (contents_app_l _ _ _ _ Hm).
Qed.

Lemma binary_op_broadcast_contents_witness :
  ∃ r w', binary_op example_ctx code_add (mkBuf [3] 0) (mkBuf [3; 2] 1) example_world
          = (Ok r, w') ∧ shape r = [3; 2] ∧
    load (contents w' (cl r)) 3
    = load [1; 2; 3] (ravel [3; 1] (zip_with Z.modulo (unravel [3; 2] 3) [3; 1]))
      + load [10; 20; 30; 40; 50; 60]
          (ravel [3; 2] (zip_with Z.modulo (unravel [3; 2] 3) [3; 2])).
Proof.
  assert (Hc : ∀ (i : nat) a b, left_aligned 2 [3] !! i = Some a →
                 left_aligned 2 [3; 2] !! i = Some b → compatible a b).
  { intros [|[|i]] a b; simpl; intros [= <-] [= <-]; unfold compatible; lia. }
  assert (Hb : np_prod (zip_with Z.max (left_aligned 2 [3]) (left_aligned 2 [3; 2])) ≤ int_max)
    by (vm_compute; discriminate).
  assert (Hn : Z.of_nat 2 ≤ int_max) by (vm_compute; discriminate).
  destruct (binary_op_broadcast_contents example_ctx code_add (mkBuf [3] 0) (mkBuf [3; 2] 1)
              example_world
              ltac:(repeat constructor) ltac:(repeat constructor) Hc Hb Hn
              ltac:(simpl; lia) ltac:(simpl; lia))
    as (r & w' & E & Hs & _ & Hv & _).
  exists r, w'. split; [exact E|]. split; [exact Hs|].
  apply (Hv 3). vm_compute. split; [discriminate|reflexivity].
Defined.

(** X4.  [binary_op] on two operands of the same shape pairs the elements by
    position: the result is the elementwise combination of the two
    contents. *)
Theorem binary_op_same_shape_zips ctx code (x y : GPUBuffer) w :
  shape x = shape y →
  Forall (λ d, 0 < d) (shape x) →
  np_prod (shape x) ≤ int_max → Z.of_nat (length (shape x)) ≤ int_max →
  (cl x < length (mem w))%nat → (cl y < length (mem w))%nat →
  length (contents w (cl x)) = Z.to_nat (np_prod (shape x)) →
  length (contents w (cl y)) = Z.to_nat (np_prod (shape x)) →
  ∃ r w', binary_op ctx code x y w = (Ok r, w') ∧ shape r = shape x ∧
    contents w' (cl r) = zip_with (c2_fn code) (contents w (cl x)) (contents w (cl y)).
Proof.
  intros Hs Hp Hb Hn Hx Hy Hlx Hly.
  pose proof (binary_op_spec ctx code x y w) as Hwp. cbv zeta in Hwp.
  rewrite <- Hs, Nat.max_id in Hwp.
  assert (Ela : left_aligned (length (shape x)) (shape x) = shape x).
  { unfold left_aligned. by rewrite Nat.sub_diag, app_nil_r. }
  rewrite Ela, zip_with_max_id in Hwp.
  specialize (Hwp Hp Hp ltac:(intros i a b Ha Hb'; left; congruence) Hb Hn Hx Hy).
  destruct (wp_elim _ _ _ Hwp) as (r & w' & E & -> & Hm).
  exists (mkBuf (shape x) (length (mem w))), w'. split; [done|]. split; [done|].
  cbn [cl]. rewrite (contents_app_fresh _ _ _ _ Hm).
  rewrite <- (fmap_load2_seqZ (c2_fn code) _ _ (np_prod (shape x))) by done.
  apply list.Forall_fmap_ext_1. apply list.Forall_forall. intros g Hg.
  apply elem_of_seqZ in Hg.
  by rewrite !broadcast_index_id by (done || lia).
Qed.

Lemma binary_op_same_shape_zips_witness :
  ∃ r w', binary_op example_ctx code_add (mkBuf [3] 0) (mkBuf [3] 0) example_world = (Ok r, w') ∧
    contents w' (cl r) = [2; 4; 6].
Proof.
  assert (Hb : np_prod [3] ≤ int_max) by (vm_compute; discriminate).
  assert (Hn : Z.of_nat 1 ≤ int_max) by (vm_compute; discriminate).
  destruct (binary_op_same_shape_zips example_ctx code_add (mkBuf [3] 0) (mkBuf [3] 0)
              example_world eq_refl ltac:(repeat constructor) Hb Hn
              ltac:(simpl; lia) ltac:(simpl; lia) eq_refl eq_refl)
    as (r & w' & E & _ & Hc).
  exists r, w'. split; [exact E|exact Hc].
Defined.

(* ===================================================================== *)
(** * The contents of reductions *)
(* ===================================================================== *)

Lemma mapM_np_index_norm n (axis : list Z) :
  (∀ a, a ∈ axis → - Z.of_nat n ≤ a < Z.of_nat n) →
  mapM (np_index n) axis = Some (normalize_axis n <$> axis).
Proof.
  intros Hax. apply mapM_Some_2, Forall2_fmap_r, Forall_Forall2_diag, list.Forall_forall.
  intros a Ha. specialize (Hax a Ha).
  unfold np_index, normalize_axis, compose.
  destruct (decide (0 ≤ a)).
  - rewrite (bool_decide_true (0 ≤ a < _)) by lia.
    by rewrite (bool_decide_true (0 ≤ a)) by lia.
  - rewrite (bool_decide_false (0 ≤ a < _)) by lia.
    rewrite (bool_decide_true (_ ≤ a < 0)) by lia.
    by rewrite (bool_decide_false (0 ≤ a)) by lia.
Qed.

Lemma normalize_axis_lt n a :
  - Z.of_nat n ≤ a < Z.of_nat n → (normalize_axis n a < n)%nat.
Proof. intros H. unfold normalize_axis. case_bool_decide; lia. Qed.

Lemma normalize_axis_of_nat n (ax : list nat) :
  normalize_axis n <$> (Z.of_nat <$> ax) = ax.
Proof.
  rewrite <- list_fmap_compose. rewrite <- (list_fmap_id ax) at 2.
  apply list_fmap_ext. intros _ i _. simpl. unfold normalize_axis.
  rewrite bool_decide_true by lia. lia.
Qed.

Lemma np_set_indices_norm sh (axis : list Z) :
  (∀ a, a ∈ axis → - Z.of_nat (length sh) ≤ a < Z.of_nat (length sh)) →
  np_set_indices sh axis 1 = Some (keep_shape sh (normalize_axis (length sh) <$> axis)).
Proof.
  intros Hax. unfold np_set_indices. rewrite mapM_np_index_norm by done. simpl.
  f_equal. apply list_eq. intros i.
  rewrite foldl_insert_lookup. unfold keep_shape. by rewrite list_lookup_imap.
Qed.

Lemma reduced_dims_keep_shape_all sh (ax : list nat) :
  reduced_dims sh (keep_shape sh ax) = reduced_shape sh ax.
Proof.
  apply list_eq. intros i.
  unfold reduced_dims, keep_shape, reduced_shape.
  rewrite lookup_zip_with, !list_lookup_imap.
  destruct (sh !! i) as [a|] eqn:Ha; simpl; [|done]. f_equal.
  destruct (decide (i ∈ ax)) as [Hi|Hi].
  - rewrite !(bool_decide_true (i ∈ ax)) by done.
    case_bool_decide; congruence.
  - rewrite !(bool_decide_false (i ∈ ax)) by done.
    by rewrite bool_decide_true.
Qed.

Lemma sum_over_axes_unravel_all sh (ax : list nat) data :
  Forall (λ d, 0 < d) sh →
  sum_over_axes sh ax data
  = (λ gid, Zsum ((λ x, load data (ravel sh
                     (zip_with Z.add (unravel (keep_shape sh ax) gid)
                        (unravel (reduced_dims sh (keep_shape sh ax)) x))))
                  <$> seqZ 0 (np_prod (reduced_dims sh (keep_shape sh ax)))))
    <$> seqZ 0 (np_prod (keep_shape sh ax)).
Proof.
  intros Hsh.
  destruct (reduced_dims_pos _ _ (keep_shape_Forall2 sh ax Hsh)) as (_ & Hk & Hr).
  unfold sum_over_axes. rewrite <- reduced_dims_keep_shape_all.
  rewrite !indices_unravel by done.
  rewrite <- list_fmap_compose. apply list_fmap_ext. intros i gid _. simpl.
  by rewrite <- list_fmap_compose.
Qed.

Lemma length_keep_shape sh ax : length (keep_shape sh ax) = length sh.
Proof. unfold keep_shape. by rewrite length_imap. Qed.

(** [reduce_op] with the summing code over the axes [axis], which may be
    given from the end. *)
Lemma reduce_sum_spec ctx (x : GPUBuffer) (axis : list Z) w :
  let sh := shape x in
  let ax := normalize_axis (length sh) <$> axis in
  (∀ a, a ∈ axis → - Z.of_nat (length sh) ≤ a < Z.of_nat (length sh)) →
  Forall (λ d, 0 < d) sh → np_prod sh ≤ int_max → Z.of_nat (length sh) ≤ int_max →
  (cl x < length (mem w))%nat →
  wp (reduce_op ctx code_sum code_out x (Some axis)) w (λ r w',
    r = mkBuf (keep_shape sh ax) (length (mem w)) ∧
    mem w' = mem w ++ [sum_over_axes sh ax (contents w (cl x));
                       np_array_i32 sh; np_array_i32 (keep_shape sh ax)]).
Proof.
  intros sh ax Hax Hsh Hp Hn Hx.
  assert (Ho : reduce_osize sh (Some axis) w = (Ok (keep_shape sh ax), w)).
  { rewrite reduce_osize_Some. unfold ax. by rewrite np_set_indices_norm. }
  pose proof (reduce_op_wp ctx code_sum code_out x (Some axis) (keep_shape sh ax) w Ho) as H.
  eapply wp_mono; [exact H|]. cbv beta.
  intros r w' (-> & o & _ & Hm & _ & Hc). split; [done|].
  rewrite Hm, (Hc Hx). fold sh. f_equal. f_equal.
  rewrite reduce_result_sum.
  - symmetry. by apply sum_over_axes_unravel_all.
  - by apply keep_shape_Forall2.
  - done.
  - by rewrite length_keep_shape.
Qed.

Lemma unravel_ones n g : unravel (replicate n 1) g = replicate n 0.
Proof.
  induction n as [|n IH]; [done|]. simpl. rewrite IH. f_equal. apply Z.mod_1_r.
Qed.

Lemma zip_with_add_zeros_l (l : list Z) : zip_with Z.add (replicate (length l) 0) l = l.
Proof. induction l as [|a l IH]; [done|]. simpl. by rewrite IH. Qed.

Lemma zip_with_add_zeros_r (l : list Z) : zip_with Z.add l (replicate (length l) 0) = l.
Proof. induction l as [|a l IH]; [done|]. simpl. rewrite IH. f_equal. lia. Qed.

Lemma reduced_dims_ones sh : reduced_dims sh (replicate (length sh) 1) = sh.
Proof.
  induction sh as [|a sh IH]; [done|]. unfold reduced_dims in *. simpl. rewrite IH.
  f_equal. case_bool_decide; congruence.
Qed.

Lemma reduced_dims_self sh : reduced_dims sh sh = replicate (length sh) 1.
Proof.
  induction sh as [|a sh IH]; [done|]. unfold reduced_dims in *. simpl. rewrite IH.
  by rewrite bool_decide_true.
Qed.

Lemma Forall2_ones sh :
  Forall (λ d, 0 < d) sh →
  Forall2 (λ a r, 0 < a ∧ (r = a ∨ r = 1)) sh (replicate (length sh) 1).
Proof. induction 1; simpl; constructor; auto. Qed.

Lemma Zsum_fmap_load (xs : list Z) n :
  length xs = Z.to_nat n → Zsum (load xs <$> seqZ 0 n) = Zsum xs.
Proof.
  intros Hn. f_equal. rewrite <- (list_fmap_id xs) at 2.
  by apply (fmap_load_seqZ id).
Qed.

(** The full reduction, [axis=None]. *)
Lemma reduce_full_spec ctx (x : GPUBuffer) w :
  let sh := shape x in
  Forall (λ d, 0 < d) sh → np_prod sh ≤ int_max → Z.of_nat (length sh) ≤ int_max →
  (cl x < length (mem w))%nat →
  length (contents w (cl x)) = Z.to_nat (np_prod sh) →
  wp (reduce_op ctx code_sum code_out x None) w (λ r w',
    r = mkBuf [1] (length (mem w)) ∧
    mem w' = mem w ++ [[Zsum (contents w (cl x))]; np_array_i32 sh;
                       np_array_i32 (replicate (length sh) 1)]).
Proof.
  intros sh Hsh Hp Hn Hx Hlen.
  pose proof (reduce_op_wp ctx code_sum code_out x None (replicate (length sh) 1) w eq_refl) as H.
  eapply wp_mono; [exact H|]. cbv beta.
  intros r w' (-> & o & _ & Hm & _ & Hc). split; [done|].
  rewrite Hm, (Hc Hx). fold sh. f_equal. f_equal.
  rewrite reduce_result_sum; [|by apply Forall2_ones|done|by rewrite length_replicate].
  rewrite reduced_dims_ones, np_prod_replicate_1.
  change (seqZ 0 1) with [0]. simpl. f_equal.
  rewrite <- (Zsum_fmap_load (contents w (cl x)) (np_prod sh)) by done. f_equal.
  apply list.Forall_fmap_ext_1, list.Forall_forall. intros g Hg.
  apply elem_of_seqZ in Hg. f_equal.
  rewrite unravel_ones, <- (unravel_length sh g), zip_with_add_zeros_l.
  apply ravel_unravel; [done|lia].
Qed.

(** ** [Sum.forward] *)

Lemma kept_shape_drop_axes_gen (ax : list nat) (suf : list Z) : ∀ pre,
  omap (λ i, if bool_decide (Z.of_nat i ∈ Z.of_nat <$> ax) then None else (pre ++ suf) !! i)
    (seq (length pre) (length suf))
  = (filter (λ p, p.1 ∉ ax) (zip (seq (length pre) (length suf)) suf)).*2.
Proof.
  induction suf as [|a suf IH]; intros pre; [done|].
  cbn [length seq zip zip_with omap list_omap].
  rewrite lookup_app_fresh.
  specialize (IH (pre ++ [a])). rewrite <- (assoc_L (++)) in IH. simpl in IH.
  rewrite length_app in IH. simpl in IH. rewrite Nat.add_1_r in IH.
  destruct (decide (length pre ∈ ax)) as [Hi|Hi].
  - rewrite bool_decide_true by (by apply list_elem_of_fmap_2).
    rewrite filter_cons_False by (simpl; tauto). exact IH.
  - rewrite bool_decide_false.
    2:{ intros Hin. apply list_elem_of_fmap in Hin as (j & Ej & Hj).
        apply Nat2Z.inj in Ej. by subst j. }
    rewrite filter_cons_True by done. simpl. by rewrite IH.
Qed.

Lemma kept_shape_drop_axes sh (ax : list nat) :
  Sum.kept_shape sh (Z.of_nat <$> ax) = drop_axes sh ax.
Proof. apply (kept_shape_drop_axes_gen ax sh []). Qed.

Lemma np_prod_drop_axes_gen (ax : list nat) (sh : list Z) : ∀ k,
  np_prod (filter (λ p, p.1 ∉ ax) (zip (seq k (length sh)) sh)).*2
  = np_prod (imap (λ i s, if bool_decide ((k + i)%nat ∈ ax) then 1 else s) sh).
Proof.
  induction sh as [|a sh IH]; intros k; [done|].
  cbn [length seq zip zip_with]. rewrite imap_cons, np_prod_cons, Nat.add_0_r.
  specialize (IH (S k)).
  assert (E : imap ((λ i s, if bool_decide ((k + i)%nat ∈ ax) then 1 else s) ∘ S) sh
              = imap (λ i s, if bool_decide ((S k + i)%nat ∈ ax) then 1 else s) sh).
  { apply imap_ext. intros i s _. simpl. by rewrite Nat.add_succ_r. }
  rewrite E, <- IH.
  destruct (decide (k ∈ ax)) as [Hi|Hi].
  - rewrite bool_decide_true by done.
    rewrite filter_cons_False by (simpl; tauto). lia.
  - rewrite bool_decide_false by done.
    rewrite filter_cons_True by done. csimpl. by rewrite np_prod_cons.
Qed.

Lemma np_prod_drop_axes sh (ax : list nat) :
  np_prod (drop_axes sh ax) = np_prod (keep_shape sh ax).
Proof. apply (np_prod_drop_axes_gen ax sh 0). Qed.

Lemma kept_shape_negative sh (axis : list Z) :
  (∀ a, a ∈ axis → a < 0) → Sum.kept_shape sh axis = sh.
Proof.
  intros Hneg. unfold Sum.kept_shape.
  assert (G : ∀ suf pre : list Z,
    omap (λ i, if bool_decide (Z.of_nat i ∈ axis) then None else (pre ++ suf) !! i)
      (seq (length pre) (length suf)) = suf).
  { induction suf as [|a suf IH]; intros pre; [done|].
    cbn [length seq omap list_omap]. rewrite lookup_app_fresh.
    rewrite bool_decide_false by (intros Hin; apply Hneg in Hin; lia).
    specialize (IH (pre ++ [a])). rewrite <- (assoc_L (++)) in IH. simpl in IH.
    rewrite length_app in IH. simpl in IH. rewrite Nat.add_1_r in IH.
    by rewrite IH. }
  apply (G sh []).
Qed.

(** X5.  [Sum.forward] without an axis sums all the elements: for an input
    of integers that a [float] accumulator sums without rounding, the result
    has shape (1,) and holds the sum of the contents of the input. *)
Theorem sum_forward_full ctx (x : GPUBuffer) w :
  Forall (λ d, 0 < d) (shape x) →
  np_prod (shape x) ≤ int_max → Z.of_nat (length (shape x)) ≤ int_max →
  (cl x < length (mem w))%nat →
  length (contents w (cl x)) = Z.to_nat (np_prod (shape x)) →
  f32_sum_exact (contents w (cl x)) →
  ∃ r w', Sum.forward ctx x None w = (Ok r, w') ∧ shape r = [1] ∧
    contents w' (cl r) = [Zsum (contents w (cl x))] ∧
    contents w' (cl x) = contents w (cl x).
Proof.
  intros Hsh Hp Hn Hx Hlen _.
  destruct (wp_elim _ _ _ (reduce_full_spec ctx x w Hsh Hp Hn Hx Hlen))
    as (r & w' & E & -> & Hm).
  exists (mkBuf [1] (length (mem w))), w'. split.
  { unfold Sum.forward, bind. by rewrite E. }
  split; [done|]. cbn [cl]. split.
  - by rewrite (contents_app_fresh _ _ _ _ Hm).
  - by apply (contents_app_l _ _ _ _ Hm).
Qed.

Lemma sum_forward_full_witness :
  ∃ r w', Sum.forward example_ctx (mkBuf [2; 3] 1) None example_world = (Ok r, w') ∧
    shape r = [1] ∧ contents w' (cl r) = [210].
Proof.
  assert (Hb : np_prod [2; 3] ≤ int_max) by (vm_compute; discriminate).
  assert (Hn : Z.of_nat 2 ≤ int_max) by (vm_compute; discriminate).
  assert (Hf : f32_sum_exact (contents example_world 1)) by (vm_compute; discriminate).
  destruct (sum_forward_full example_ctx (mkBuf [2; 3] 1) example_world
              ltac:(repeat constructor) Hb Hn ltac:(simpl; lia) eq_refl Hf)
    as (r & w' & E & Hs & Hc & _).
  exists r, w'. split; [exact E|]. split; [exact Hs|exact Hc].
Defined.

(** X6.  [Sum.forward] over axes given by their positions, for an input of
    integers that a [float] accumulator sums without rounding: the result
    holds, for every multi-index of the kept dimensions, the sum of the
    input over the reduced dimensions, and its shape is the input's shape
    without the reduced dimensions, which has as many elements as the buffer
    holds. *)
Theorem sum_forward_axes ctx (x : GPUBuffer) (ax : list nat) w :
  let sh := shape x in
  (∀ i, i ∈ ax → (i < length sh)%nat) →
  Forall (λ d, 0 < d) sh → np_prod sh ≤ int_max → Z.of_nat (length sh) ≤ int_max →
  (cl x < length (mem w))%nat →
  length (contents w (cl x)) = Z.to_nat (np_prod sh) →
  f32_sum_exact (contents w (cl x)) →
  ∃ r w', Sum.forward ctx x (Some (Z.of_nat <$> ax)) w = (Ok r, w') ∧
    shape r = drop_axes sh ax ∧
    contents w' (cl r) = sum_over_axes sh ax (contents w (cl x)) ∧
    length (contents w' (cl r)) = Z.to_nat (np_prod (shape r)).
Proof.
  intros sh Hax Hsh Hp Hn Hx _ _.
  pose proof (reduce_sum_spec ctx x (Z.of_nat <$> ax) w) as H. cbv zeta in H.
  fold sh in H. rewrite normalize_axis_of_nat in H.
  specialize (H ltac:(intros a Ha; apply list_elem_of_fmap in Ha as (i & -> & Hi);
                      specialize (Hax i Hi); lia) Hsh Hp Hn Hx).
  destruct (wp_elim _ _ _ H) as (r & w' & E & -> & Hm).
  eexists _, w'. split.
  { unfold Sum.forward, bind. rewrite E. reflexivity. }
  cbn [shape cl]. fold sh. split; [apply kept_shape_drop_axes|].
  rewrite (contents_app_fresh _ _ _ _ Hm). split; [done|].
  rewrite kept_shape_drop_axes, np_prod_drop_axes.
  unfold sum_over_axes. rewrite length_fmap.
  destruct (reduced_dims_pos _ _ (keep_shape_Forall2 sh ax Hsh)) as (_ & Hk & _).
  rewrite indices_unravel by done. by rewrite length_fmap, length_seqZ.
Qed.

Lemma sum_forward_axes_witness :
  ∃ r w', Sum.forward example_ctx (mkBuf [2; 3] 1) (Some [1]) example_world = (Ok r, w') ∧
    shape r = [2] ∧ contents w' (cl r) = sum_over_axes [2; 3] [1%nat] [10; 20; 30; 40; 50; 60].
Proof.
  assert (Hb : np_prod [2; 3] ≤ int_max) by (vm_compute; discriminate).
  assert (Hn : Z.of_nat 2 ≤ int_max) by (vm_compute; discriminate).
  assert (Hf : f32_sum_exact (contents example_world 1)) by (vm_compute; discriminate).
  destruct (sum_forward_axes example_ctx (mkBuf [2; 3] 1) [1%nat] example_world
              ltac:(intros i Hi; apply list_elem_of_singleton in Hi; subst i; simpl; lia)
              ltac:(repeat constructor) Hb Hn ltac:(simpl; lia) eq_refl Hf)
    as (r & w' & E & Hs & Hc & _).
  exists r, w'. split; [exact E|]. split; [exact Hs|exact Hc].
Defined.

(** X7.  [Sum.forward] over axes given from the end (negative), for an input
    of integers that a [float] accumulator sums without rounding: the buffer
    is reduced over those axes and holds one element per multi-index of the
    kept dimensions, but the shape given to the result is the whole shape of
    the input, because [i not in axis] compares the positions with the
    negative values. *)
Theorem sum_forward_negative_axes_keep_shape ctx (x : GPUBuffer) (axis : list Z) w :
  let sh := shape x in
  let ax := normalize_axis (length sh) <$> axis in
  (∀ a, a ∈ axis → - Z.of_nat (length sh) ≤ a < 0) →
  Forall (λ d, 0 < d) sh → np_prod sh ≤ int_max → Z.of_nat (length sh) ≤ int_max →
  (cl x < length (mem w))%nat →
  length (contents w (cl x)) = Z.to_nat (np_prod sh) →
  f32_sum_exact (contents w (cl x)) →
  ∃ r w', Sum.forward ctx x (Some axis) w = (Ok r, w') ∧
    shape r = sh ∧
    contents w' (cl r) = sum_over_axes sh ax (contents w (cl x)) ∧
    length (contents w' (cl r)) = Z.to_nat (np_prod (keep_shape sh ax)).
Proof.
  intros sh ax Hax Hsh Hp Hn Hx _ _.
  pose proof (reduce_sum_spec ctx x axis w) as H. cbv zeta in H.
  fold sh in H. fold ax in H.
  specialize (H ltac:(intros a Ha; specialize (Hax a Ha); lia) Hsh Hp Hn Hx).
  destruct (wp_elim _ _ _ H) as (r & w' & E & -> & Hm).
  eexists _, w'. split.
  { unfold Sum.forward, bind. rewrite E. reflexivity. }
  cbn [shape cl]. fold sh. split.
  { apply kept_shape_negative. intros a Ha. specialize (Hax a Ha). lia. }
  rewrite (contents_app_fresh _ _ _ _ Hm). split; [done|].
  unfold sum_over_axes. rewrite length_fmap.
  destruct (reduced_dims_pos _ _ (keep_shape_Forall2 sh ax Hsh)) as (_ & Hk & _).
  rewrite indices_unravel by done. by rewrite length_fmap, length_seqZ.
Qed.

Lemma sum_forward_negative_axes_keep_shape_witness :
  ∃ r w', Sum.forward example_ctx (mkBuf [2; 3] 1) (Some [-1]) example_world = (Ok r, w') ∧
    shape r = [2; 3] ∧ length (contents w' (cl r)) = 2%nat.
Proof.
  assert (Hb : np_prod [2; 3] ≤ int_max) by (vm_compute; discriminate).
  assert (Hn : Z.of_nat 2 ≤ int_max) by (vm_compute; discriminate).
  assert (Hf : f32_sum_exact (contents example_world 1)) by (vm_compute; discriminate).
  destruct (sum_forward_negative_axes_keep_shape example_ctx (mkBuf [2; 3] 1) [-1] example_world
              ltac:(intros a Ha; apply list_elem_of_singleton in Ha; subst a; simpl; lia)
              ltac:(repeat constructor) Hb Hn ltac:(simpl; lia) eq_refl Hf)
    as (r & w' & E & Hs & _ & Hl).
  exists r, w'. split; [exact E|]. split; [exact Hs|exact Hl].
Defined.

(* ===================================================================== *)
(** * [unbroadcast] and the gradients of the broadcasting operations *)
(* ===================================================================== *)

Lemma expanded_axes_lt_in out_sh in_sh i :
  i ∈ expanded_axes out_sh in_sh → (i < length in_sh)%nat.
Proof.
  intros Hi. apply expanded_axes_spec in Hi as [Hi _]. by eapply lookup_lt_Some.
Qed.

(** [unbroadcast] sums the gradient over the axes that broadcasting
    expanded; [in_sh] may be shorter than the shape of the gradient. *)
Lemma unbroadcast_spec ctx (grad : GPUBuffer) (in_sh : list Z) w :
  let sh := shape grad in
  let axes := expanded_axes sh in_sh in
  (length in_sh ≤ length sh)%nat → (in_sh = [1] → length sh = 1%nat) →
  Forall (λ d, 0 < d) sh → np_prod sh ≤ int_max → Z.of_nat (length sh) ≤ int_max →
  (cl grad < length (mem w))%nat →
  wp (unbroadcast ctx grad in_sh) w (λ r w',
    r = mkBuf (keep_shape sh axes) (length (mem w)) ∧
    mem w' = mem w ++ [sum_over_axes sh axes (contents w (cl grad));
                       np_array_i32 sh; np_array_i32 (keep_shape sh axes)]).
Proof.
  intros sh axes Hl Hone Hsh Hp Hn Hx.
  assert (Hs : ∃ sum_axis,
    unbroadcast ctx grad in_sh w = reduce_op ctx code_sum code_out grad sum_axis w ∧
    reduce_osize sh sum_axis w = (Ok (keep_shape sh axes), w) ∧
    match sum_axis with None => [1] | Some _ => keep_shape sh axes end = keep_shape sh axes).
  { unfold unbroadcast, bind. fold sh. case_bool_decide as Hin.
    - rewrite sum_axis_of_filter by (intros i Hi; apply elem_of_seq in Hi; lia).
      fold (expanded_axes sh in_sh). fold axes.
      eexists. split; [done|]. split; [|done].
      rewrite reduce_osize_Some, np_set_indices_keep_shape; [done|].
      intros i Hi. apply expanded_axes_lt_in in Hi. lia.
    - assert (E : in_sh = [1]) by (by destruct (decide (in_sh = [1]))).
      specialize (Hone E). exists None. split; [done|].
      destruct sh as [|n [|]] eqn:Esh; try done.
      assert (Hk : keep_shape [n] axes = [1]).
      { apply Forall_cons in Hsh as [Hn' _]. unfold axes, expanded_axes. rewrite E. simpl.
        destruct (decide (1 < n)) as [H1|H1].
        - rewrite filter_cons_True by (simpl; done). done.
        - rewrite filter_cons_False by (simpl; intros [_ ?]; done).
          unfold keep_shape. simpl. f_equal. lia. }
      rewrite Hk. done. }
  destruct Hs as (sum_axis & E & Ho & Hshape).
  pose proof (reduce_op_wp ctx code_sum code_out grad sum_axis (keep_shape sh axes) w Ho) as H.
  unfold wp in H |- *. rewrite E.
  destruct (reduce_op ctx code_sum code_out grad sum_axis w) as [[r|e] w']; [|done].
  destruct H as (-> & o & _ & Hm & _ & Hc). split; [by rewrite Hshape|].
  rewrite Hm, (Hc Hx). fold sh. f_equal. f_equal.
  rewrite reduce_result_sum.
  - symmetry. by apply sum_over_axes_unravel_all.
  - by apply keep_shape_Forall2.
  - done.
  - by rewrite length_keep_shape.
Qed.

Lemma expanded_axes_same sh : expanded_axes sh sh = [].
Proof.
  apply elem_of_nil_inv. intros i Hi. apply expanded_axes_spec in Hi as [Hi Hd].
  rewrite Hi in Hd. simpl in Hd. lia.
Qed.

Lemma keep_shape_nil sh : keep_shape sh [] = sh.
Proof.
  apply list_eq. intros i. unfold keep_shape. rewrite list_lookup_imap.
  by destruct (sh !! i).
Qed.

Lemma sum_over_axes_nil sh xs :
  Forall (λ d, 0 < d) sh → length xs = Z.to_nat (np_prod sh) → sum_over_axes sh [] xs = xs.
Proof.
  intros Hsh Hlen. rewrite sum_over_axes_unravel_all by done.
  rewrite keep_shape_nil, reduced_dims_self, np_prod_replicate_1.
  change (seqZ 0 1) with [0].
  etrans; [|apply (list_fmap_id xs)].
  rewrite <- (fmap_load_seqZ id xs (np_prod sh)) by done.
  apply list.Forall_fmap_ext_1, list.Forall_forall. intros g Hg.
  apply elem_of_seqZ in Hg. simpl.
  rewrite unravel_ones, <- (unravel_length sh g), zip_with_add_zeros_r.
  rewrite ravel_unravel by (done || lia). lia.
Qed.

(** X8.  [unbroadcast] to the shape that the gradient already has sums over no
    axis: the result is a fresh copy of the gradient. *)
Theorem unbroadcast_same_shape_copies ctx (grad : GPUBuffer) w :
  let sh := shape grad in
  Forall (λ d, 0 < d) sh → np_prod sh ≤ int_max → Z.of_nat (length sh) ≤ int_max →
  (cl grad < length (mem w))%nat →
  length (contents w (cl grad)) = Z.to_nat (np_prod sh) →
  ∃ r w', unbroadcast ctx grad sh w = (Ok r, w') ∧
    shape r = sh ∧ cl r = length (mem w) ∧
    contents w' (cl r) = contents w (cl grad).
Proof.
  intros sh Hsh Hp Hn Hx Hlen.
  pose proof (unbroadcast_spec ctx grad sh w) as H. cbv zeta in H. fold sh in H.
  specialize (H ltac:(lia) ltac:(by intros ->) Hsh Hp Hn Hx).
  rewrite expanded_axes_same, keep_shape_nil in H.
  destruct (wp_elim _ _ _ H) as (r & w' & E & -> & Hm).
  eexists _, w'. split; [exact E|]. split; [done|]. split; [done|].
  cbn [cl]. rewrite (contents_app_fresh _ _ _ _ Hm). by apply sum_over_axes_nil.
Qed.

Lemma unbroadcast_same_shape_copies_witness :
  ∃ r w', unbroadcast example_ctx (mkBuf [2; 3] 1) [2; 3] example_world = (Ok r, w') ∧
    contents w' (cl r) = [10; 20; 30; 40; 50; 60].
Proof.
  assert (Hb : np_prod [2; 3] ≤ int_max) by (vm_compute; discriminate).
  assert (Hn : Z.of_nat 2 ≤ int_max) by (vm_compute; discriminate).
  destruct (unbroadcast_same_shape_copies example_ctx (mkBuf [2; 3] 1) example_world
              ltac:(repeat constructor) Hb Hn ltac:(simpl; lia) eq_refl)
    as (r & w' & E & _ & _ & Hc).
  exists r, w'. split; [exact E|exact Hc].
Defined.

(** X9.  [unbroadcast] to a shape of lower rank leaves the axes beyond that
    rank alone: the result has the rank of the gradient, not the rank of
    the shape asked for, and its trailing dimensions are those of the
    gradient. *)
Theorem unbroadcast_keeps_trailing_axes ctx (grad : GPUBuffer) (in_sh : list Z) w :
  let sh := shape grad in
  (length in_sh < length sh)%nat → in_sh ≠ [1] →
  Forall (λ d, 0 < d) sh → np_prod sh ≤ int_max → Z.of_nat (length sh) ≤ int_max →
  (cl grad < length (mem w))%nat →
  ∃ r w', unbroadcast ctx grad in_sh w = (Ok r, w') ∧
    length (shape r) = length sh ∧
    drop (length in_sh) (shape r) = drop (length in_sh) sh ∧
    shape r ≠ in_sh.
Proof.
  intros sh Hl Hne Hsh Hp Hn Hx.
  pose proof (unbroadcast_spec ctx grad in_sh w) as H. cbv zeta in H. fold sh in H.
  specialize (H ltac:(lia) ltac:(done) Hsh Hp Hn Hx).
  destruct (wp_elim _ _ _ H) as (r & w' & E & -> & Hm).
  eexists _, w'. split; [exact E|]. cbn [shape].
  split; [apply length_keep_shape|]. split.
  - apply list_eq. intros i. rewrite !lookup_drop. unfold keep_shape.
    rewrite list_lookup_imap. destruct (sh !! (length in_sh + i)%nat); [|done]. simpl.
    rewrite bool_decide_false; [done|].
    intros Hi. apply expanded_axes_lt_in in Hi. lia.
  - intros Heq. apply (f_equal length) in Heq. rewrite length_keep_shape in Heq. lia.
Qed.

Lemma unbroadcast_keeps_trailing_axes_witness :
  ∃ r w', unbroadcast example_ctx (mkBuf [2; 3] 1) [2] example_world = (Ok r, w') ∧
    length (shape r) = 2%nat.
Proof.
  assert (Hb : np_prod [2; 3] ≤ int_max) by (vm_compute; discriminate).
  assert (Hn : Z.of_nat 2 ≤ int_max) by (vm_compute; discriminate).
  destruct (unbroadcast_keeps_trailing_axes example_ctx (mkBuf [2; 3] 1) [2] example_world
              ltac:(simpl; lia) ltac:(discriminate) ltac:(repeat constructor) Hb Hn
              ltac:(simpl; lia))
    as (r & w' & E & Hl & _).
  exists r, w'. split; [exact E|exact Hl].
Defined.

Lemma sum_axis_of_None out_sh in_sh (ixs : list nat) i :
  i ∈ ixs → in_sh !! i = Some 1 → out_sh !! i = None →
  sum_axis_of out_sh in_sh ixs = None.
Proof.
  intros Hin H1 Hout. induction ixs as [|a ixs IH]; [by apply elem_of_nil in Hin|].
  simpl. apply elem_of_cons in Hin as [<-|Hin].
  - rewrite bool_decide_true by done. by rewrite Hout.
  - rewrite (IH Hin). case_bool_decide; [|done]. by destruct (out_sh !! a).
Qed.

(** X10.  [unbroadcast] to a shape that has a dimension 1 at a position beyond
    the rank of the gradient raises [IndexError] before anything is
    allocated or launched. *)
Theorem unbroadcast_index_error ctx (grad : GPUBuffer) (in_sh : list Z) (i : nat) w :
  in_sh ≠ [1] → in_sh !! i = Some 1 → (length (shape grad) ≤ i)%nat →
  unbroadcast ctx grad in_sh w = (Raise IndexError, w).
Proof.
  intros Hne H1 Hi. unfold unbroadcast, bind. rewrite bool_decide_true by done.
  rewrite (sum_axis_of_None _ _ _ i); [done| |done|by apply lookup_ge_None_2].
  apply elem_of_seq. apply lookup_lt_Some in H1. lia.
Qed.

Lemma unbroadcast_index_error_witness :
  unbroadcast example_ctx (mkBuf [3] 0) [3; 1] example_world = (Raise IndexError, example_world).
Proof.
  apply (unbroadcast_index_error example_ctx (mkBuf [3] 0) [3; 1] 1 example_world);
    [discriminate|reflexivity|simpl; lia].
Defined.

(** X11.  [Add.backward], for saved operand shapes of the rank of the
    gradient and a gradient of integers that a [float] accumulator sums
    without rounding, gives each operand the gradient summed over the axes
    along which that operand was broadcast, in two distinct fresh
    buffers. *)
Theorem add_backward_sums_expanded_axes ctx (shape_x shape_y : list Z) (g : GPUBuffer) w :
  let sh := shape g in
  let ax := expanded_axes sh shape_x in
  let ay := expanded_axes sh shape_y in
  length shape_x = length sh → length shape_y = length sh →
  Forall (λ d, 0 < d) sh → np_prod sh ≤ int_max → Z.of_nat (length sh) ≤ int_max →
  (cl g < length (mem w))%nat →
  length (contents w (cl g)) = Z.to_nat (np_prod sh) →
  f32_sum_exact (contents w (cl g)) →
  ∃ gx gy w', Add.backward ctx shape_x shape_y g w = (Ok (gx, gy), w') ∧
    shape gx = keep_shape sh ax ∧ shape gy = keep_shape sh ay ∧
    contents w' (cl gx) = sum_over_axes sh ax (contents w (cl g)) ∧
    contents w' (cl gy) = sum_over_axes sh ay (contents w (cl g)) ∧
    cl gx ≠ cl gy ∧ contents w' (cl g) = contents w (cl g).
Proof.
  intros sh ax ay Hlx Hly Hsh Hp Hn Hx _ _.
  pose proof (unbroadcast_spec ctx g shape_x w) as H1. cbv zeta in H1. fold sh ax in H1.
  specialize (H1 ltac:(lia) ltac:(intros ->; simpl in Hlx; lia) Hsh Hp Hn Hx).
  destruct (wp_elim _ _ _ H1) as (gx & w1 & E1 & -> & Hm1).
  assert (Hx1 : (cl g < length (mem w1))%nat) by (rewrite Hm1, length_app; lia).
  pose proof (unbroadcast_spec ctx g shape_y w1) as H2. cbv zeta in H2. fold sh ay in H2.
  specialize (H2 ltac:(lia) ltac:(intros ->; simpl in Hly; lia) Hsh Hp Hn Hx1).
  destruct (wp_elim _ _ _ H2) as (gy & w2 & E2 & -> & Hm2).
  rewrite (contents_app_l _ _ _ _ Hm1 Hx) in Hm2.
  eexists _, _, w2. split.
  { unfold Add.backward, bind. rewrite E1, E2. reflexivity. }
  cbn [shape cl]. split; [done|]. split; [done|]. split.
  { rewrite (contents_app_l _ _ _ _ Hm2) by (rewrite Hm1, length_app; simpl; lia).
    by rewrite (contents_app_fresh _ _ _ _ Hm1). }
  split; [by rewrite (contents_app_fresh _ _ _ _ Hm2)|]. split.
  { rewrite Hm1, length_app. simpl. lia. }
  rewrite (contents_app_l _ _ _ _ Hm2 Hx1). by apply (contents_app_l _ _ _ _ Hm1).
Qed.

Lemma add_backward_sums_expanded_axes_witness :
  ∃ gx gy w', Add.backward example_ctx [2; 1] [2; 3] (mkBuf [2; 3] 1) example_world
              = (Ok (gx, gy), w') ∧
    shape gx = keep_shape [2; 3] (expanded_axes [2; 3] [2; 1]) ∧
    contents w' (cl gy)
    = sum_over_axes [2; 3] (expanded_axes [2; 3] [2; 3]) [10; 20; 30; 40; 50; 60].
Proof.
  assert (Hb : np_prod [2; 3] ≤ int_max) by (vm_compute; discriminate).
  assert (Hn : Z.of_nat 2 ≤ int_max) by (vm_compute; discriminate).
  assert (Hf : f32_sum_exact (contents example_world 1)) by (vm_compute; discriminate).
  destruct (add_backward_sums_expanded_axes example_ctx [2; 1] [2; 3] (mkBuf [2; 3] 1)
              example_world eq_refl eq_refl ltac:(repeat constructor) Hb Hn ltac:(simpl; lia)
              eq_refl Hf)
    as (gx & gy & w' & E & Hsx & _ & _ & Hcy & _).
  exists gx, gy, w'. split; [exact E|]. split; [exact Hsx|exact Hcy].
Defined.

(* ===================================================================== *)
(** * Matrix product *)
(* ===================================================================== *)

Lemma elem_of_range2 n0 n1 g0 g1 :
  (g0, g1) ∈ Dot.range2 n0 n1 ↔ 0 ≤ g0 < n0 ∧ 0 ≤ g1 < n1.
Proof.
  unfold Dot.range2. rewrite list_elem_of_bind. split.
  - intros (a & Ha & H0). apply list_elem_of_bind in Ha as (b & Hb & H1).
    apply list_elem_of_singleton in Hb as [= -> ->].
    rewrite elem_of_seqZ in H0, H1. lia.
  - intros (H0 & H1). exists g0. split; [|apply elem_of_seqZ; lia].
    apply list_elem_of_bind. exists g1. split; [|apply elem_of_seqZ; lia].
    by apply list_elem_of_singleton.
Qed.

Lemma int_mul_small a b : - 2^31 ≤ a * b < 2^31 → a ⊗ b = a * b.
Proof. apply wrap32_small. Qed.

Lemma int_add_small a b : - 2^31 ≤ a + b < 2^31 → a ⊕ b = a + b.
Proof. apply wrap32_small. Qed.

(** An index [X * s0 + x * s1] computed in [int] arithmetic. *)
Lemma int_strided X s0 x s1 n0 n :
  0 ≤ X < n0 → 0 ≤ x < n → 0 ≤ s0 → 0 ≤ s1 →
  (n0 - 1) * s0 + (n - 1) * s1 < 2^31 →
  X ⊗ s0 ⊕ x ⊗ s1 = X * s0 + x * s1.
Proof.
  intros HX Hx H0 H1 Hb.
  assert (0 ≤ X * s0 ≤ (n0 - 1) * s0) by nia.
  assert (0 ≤ x * s1 ≤ (n - 1) * s1) by nia.
  rewrite (int_mul_small X), (int_mul_small x) by lia.
  apply int_add_small. lia.
Qed.

(** The work-item [(X, Y)] of the [matmul] kernel. *)
Lemma matmul_kernel_ideal input weight is0 is1 msize ws0 ws1 osize n0 X Y :
  0 ≤ X < n0 → 0 ≤ Y < osize →
  0 ≤ is0 → 0 ≤ is1 → 0 ≤ ws0 → 0 ≤ ws1 →
  (n0 - 1) * is0 + (msize - 1) * is1 < 2^31 →
  (osize - 1) * ws0 + (msize - 1) * ws1 < 2^31 →
  n0 * osize < 2^31 →
  Dot.matmul_kernel input weight is0 is1 msize ws0 ws1 osize (X, Y)
  = Some (X * osize + Y, strided_dot input weight (X * is0) is1 (Y * ws0) ws1 msize).
Proof.
  intros HX HY H0 H1 H2 H3 Hi Hw Ho.
  assert (Hn0 : n0 < 2^31) by nia.
  assert (Hos : osize < 2^31) by nia.
  assert (HXo : 0 ≤ X * osize ≤ (n0 - 1) * osize) by nia.
  unfold Dot.matmul_kernel. cbn [fst snd].
  rewrite (wrap32_small X), (wrap32_small Y) by lia.
  rewrite (int_mul_small X osize), int_add_small by lia.
  f_equal. f_equal. unfold strided_dot.
  rewrite <- (Z.add_0_l (Zsum _)), <- foldl_add_Zsum.
  apply foldl_ext_in. intros acc x Hx. apply elem_of_seqZ in Hx.
  by rewrite (int_strided X is0 x is1 n0 msize), (int_strided Y ws0 x ws1 osize msize) by lia.
Qed.

Lemma flat2_inj a A b a' b' :
  0 ≤ a < A → 0 ≤ a' < A → b * A + a = b' * A + a' → a = a' ∧ b = b'.
Proof.
  intros Ha Ha' E.
  destruct (Z.div_mod_unique A b b' a a') as [-> ->]; [lia|lia|lia|done].
Qed.

(** What a launch of [matmul] leaves at the index of [(X, Y)]. *)
Lemma matmul_result_load input weight is0 is1 msize ws0 ws1 osize n0 out X Y :
  0 ≤ X < n0 → 0 ≤ Y < osize →
  0 ≤ is0 → 0 ≤ is1 → 0 ≤ ws0 → 0 ≤ ws1 →
  (n0 - 1) * is0 + (msize - 1) * is1 < 2^31 →
  (osize - 1) * ws0 + (msize - 1) * ws1 < 2^31 →
  n0 * osize < 2^31 → length out = Z.to_nat (n0 * osize) →
  load (matmul_result input weight is0 is1 msize ws0 ws1 osize n0 osize out) (X * osize + Y)
  = strided_dot input weight (X * is0) is1 (Y * ws0) ws1 msize.
Proof.
  intros HX HY H0 H1 H2 H3 Hi Hw Ho Hlen.
  assert (HXo : 0 ≤ X * osize ≤ (n0 - 1) * osize) by nia.
  unfold matmul_result. apply load_lookup; [lia|].
  apply (foldl_store_lookup_eq _ _ _ _ _ (X, Y)).
  - by apply elem_of_range2.
  - rewrite Z2Nat.id by lia. by apply (matmul_kernel_ideal _ _ _ _ _ _ _ _ n0).
  - rewrite Hlen. nia.
  - intros [X' Y'] v' Hg' Hb'. apply elem_of_range2 in Hg' as (HX' & HY').
    rewrite Z2Nat.id in Hb' by lia.
    rewrite (matmul_kernel_ideal _ _ _ _ _ _ _ _ n0) in Hb' by done.
    injection Hb' as E <-.
    apply flat2_inj in E as [-> ->]; [done|lia..].
Qed.

Lemma length_matmul_result input weight is0 is1 msize ws0 ws1 osize n0 n1 out :
  length (matmul_result input weight is0 is1 msize ws0 ws1 osize n0 n1 out) = length out.
Proof. unfold matmul_result. apply length_foldl_store. Qed.

Lemma dot_forward_wp ctx (input weight : GPUBuffer) I M O w :
  shape input = [I; M] → shape weight = [M; O] →
  int_range I → int_range M → int_range O →
  (cl input < length (mem w))%nat → (cl weight < length (mem w))%nat →
  wp (Dot.forward ctx input weight) w (λ r w',
    r = mkBuf [I; O] (length (mem w)) ∧
    mem w' = mem w ++ [matmul_result (contents w (cl input)) (contents w (cl weight))
                         M 1 M 1 O O I O (replicate (Z.to_nat (np_prod [I; O])) 0)]).
Proof.
  intros Hi Hw HI HM HO Hx Hy. unfold Dot.forward. rewrite Hi, Hw. cbn [lookup list_lookup].
  rewrite !i32_small by (done || (unfold int_range, int_max; lia)).
  apply wp_bind, wp_assert; [by apply bool_decide_eq_true|].
  apply wp_bind, wp_buffer_new.
  apply wp_bind, wp_clbuild. intros h w2 Hm2 _.
  apply wp_bind, wp_launch. apply wp_ret. simpl.
  split; [done|]. rewrite !Hm2. simpl.
  rewrite insert_app_fresh. f_equal. f_equal.
  unfold matmul_result, deref, contents. by simpl_mem.
Qed.

(** X12.  [Dot.forward] on an (I, M) input and an (M, O) weight computes the
    matrix product, for operands of integers whose inner products a [float]
    accumulator computes without rounding: the result has shape (I, O) and
    its element (X, Y) is the sum over x of input[X, x] * weight[x, Y]. *)
Theorem dot_forward_matmul ctx (input weight : GPUBuffer) I M O w :
  shape input = [I; M] → shape weight = [M; O] →
  0 < I → 0 < M → 0 < O →
  I * M ≤ int_max → M * O ≤ int_max → I * O ≤ int_max →
  (cl input < length (mem w))%nat → (cl weight < length (mem w))%nat →
  length (contents w (cl input)) = Z.to_nat (I * M) →
  length (contents w (cl weight)) = Z.to_nat (M * O) →
  f32_dot_exact M (contents w (cl input)) (contents w (cl weight)) →
  ∃ r w', Dot.forward ctx input weight w = (Ok r, w') ∧ shape r = [I; O] ∧
    length (contents w' (cl r)) = Z.to_nat (I * O) ∧
    (∀ X Y, 0 ≤ X < I → 0 ≤ Y < O →
       load (contents w' (cl r)) (X * O + Y)
       = Zsum ((λ x, load (contents w (cl input)) (X * M + x)
                     * load (contents w (cl weight)) (x * O + Y)) <$> seqZ 0 M)) ∧
    contents w' (cl input) = contents w (cl input) ∧
    contents w' (cl weight) = contents w (cl weight).
Proof.
  intros Hi Hw HI HM HO Him Hmo Hio Hx Hy _ _ _. unfold int_max in *.
  assert (I ≤ I * M ∧ M ≤ I * M ∧ O ≤ M * O) as (? & ? & ?) by nia.
  destruct (wp_elim _ _ _ (dot_forward_wp ctx input weight I M O w Hi Hw
              ltac:(unfold int_range, int_max; lia) ltac:(unfold int_range, int_max; lia)
              ltac:(unfold int_range, int_max; lia) Hx Hy)) as (r & w' & E & -> & Hm).
  exists (mkBuf [I; O] (length (mem w))), w'. split; [done|]. split; [done|].
  cbn [cl]. rewrite (contents_app_fresh _ _ _ _ Hm).
  assert (Hnp : np_prod [I; O] = I * O).
  { rewrite !np_prod_cons. change (np_prod []) with 1. lia. }
  split; [by rewrite length_matmul_result, length_replicate, Hnp|]. split.
  - intros X Y HX HY.
    rewrite (matmul_result_load _ _ _ _ _ _ _ _ I); try done; try lia.
    + unfold strided_dot. f_equal. apply list_fmap_ext. intros _ x _. simpl.
      f_equal; f_equal; lia.
    + by rewrite length_replicate, Hnp.
  - split; by apply (contents_app_l _ _ _ _ Hm).
Qed.

Lemma dot_forward_matmul_witness :
  ∃ r w', Dot.forward example_ctx (mkBuf [1; 3] 0) (mkBuf [3; 2] 1) example_world = (Ok r, w') ∧
    shape r = [1; 2] ∧
    load (contents w' (cl r)) (0 * 2 + 1)
    = Zsum ((λ x, load [1; 2; 3] (0 * 3 + x) * load [10; 20; 30; 40; 50; 60] (x * 2 + 1))
            <$> seqZ 0 3).
Proof.
  assert (H1 : 1 * 3 ≤ int_max) by (vm_compute; discriminate).
  assert (H2 : 3 * 2 ≤ int_max) by (vm_compute; discriminate).
  assert (H3 : 1 * 2 ≤ int_max) by (vm_compute; discriminate).
  assert (Hf : f32_dot_exact 3 (contents example_world 0) (contents example_world 1)).
  { exists 3, 60. split; [|split]; [solve_bounded..|vm_compute; discriminate]. }
  destruct (dot_forward_matmul example_ctx (mkBuf [1; 3] 0) (mkBuf [3; 2] 1) 1 3 2 example_world
              eq_refl eq_refl ltac:(lia) ltac:(lia) ltac:(lia) H1 H2 H3
              ltac:(simpl; lia) ltac:(simpl; lia) eq_refl eq_refl Hf)
    as (r & w' & E & Hs & _ & Hv & _).
  exists r, w'. split; [exact E|]. split; [exact Hs|].
  apply (Hv 0 1); lia.
Defined.

(** X13.  [Dot.forward] refuses operands whose inner dimensions differ with an
    [AssertionError], and an input of rank below 2 with an [IndexError];
    in both cases nothing is allocated, compiled or launched. *)
Theorem dot_forward_rejects ctx (input weight : GPUBuffer) w :
  (∀ i0 i1 w0 w1 rest_i rest_w,
     shape input = i0 :: i1 :: rest_i → shape weight = w0 :: w1 :: rest_w → i1 ≠ w0 →
     Dot.forward ctx input weight w = (Raise AssertionError, w)) ∧
  ((length (shape input) < 2)%nat →
     Dot.forward ctx input weight w = (Raise IndexError, w)).
Proof.
  split.
  - intros i0 i1 w0 w1 rest_i rest_w Hi Hw Hne. unfold Dot.forward. rewrite Hi, Hw.
    cbn [lookup list_lookup]. unfold bind, assert. by rewrite bool_decide_false.
  - intros Hl. unfold Dot.forward.
    destruct (shape input) as [|i0 [|i1 rest]]; simpl in Hl; try lia; try done.
Qed.

(** X14.  [Dot.backward], for operands and a gradient of integers whose
    inner products a [float] accumulator computes without rounding: the
    gradient of the input is grad_output times the transposed weight, the
    gradient of the weight is the transposed input times grad_output, each
    in a fresh buffer of the operand's shape. *)
Theorem dot_backward_matmul ctx (input weight g : GPUBuffer) (matmul : Kernel) I M O w :
  shape input = [I; M] → shape weight = [M; O] →
  0 < I → 0 < M → 0 < O →
  I * M ≤ int_max → M * O ≤ int_max → I * O ≤ int_max →
  (cl input < length (mem w))%nat → (cl weight < length (mem w))%nat →
  (cl g < length (mem w))%nat →
  length (contents w (cl input)) = Z.to_nat (I * M) →
  length (contents w (cl weight)) = Z.to_nat (M * O) →
  length (contents w (cl g)) = Z.to_nat (I * O) →
  f32_dot_exact O (contents w (cl g)) (contents w (cl weight)) →
  f32_dot_exact I (contents w (cl input)) (contents w (cl g)) →
  ∃ gi gw w', Dot.backward ctx input weight matmul g w = (Ok (gi, gw), w') ∧
    shape gi = [I; M] ∧ shape gw = [M; O] ∧ cl gi ≠ cl gw ∧
    (∀ X Y, 0 ≤ X < I → 0 ≤ Y < M →
       load (contents w' (cl gi)) (X * M + Y)
       = Zsum ((λ x, load (contents w (cl g)) (X * O + x)
                     * load (contents w (cl weight)) (Y * O + x)) <$> seqZ 0 O)) ∧
    (∀ X Y, 0 ≤ X < M → 0 ≤ Y < O →
       load (contents w' (cl gw)) (X * O + Y)
       = Zsum ((λ x, load (contents w (cl input)) (x * M + X)
                     * load (contents w (cl g)) (x * O + Y)) <$> seqZ 0 I)).
Proof.
  intros Hi Hw HI HM HO Him Hmo Hio Hx Hy Hg _ _ _ _ _. unfold int_max in *.
  assert (I ≤ I * M ∧ M ≤ I * M ∧ O ≤ M * O) as (? & ? & ?) by nia.
  assert (Hnp : ∀ a b, np_prod [a; b] = a * b).
  { intros a b. rewrite !np_prod_cons. change (np_prod []) with 1. lia. }
  set (gi0 := replicate (Z.to_nat (np_prod [I; M])) 0).
  set (gw0 := replicate (Z.to_nat (np_prod [M; O])) 0).
  set (gi1 := matmul_result (contents w (cl g)) (contents w (cl weight)) O 1 O O 1 M I M gi0).
  set (gw1 := matmul_result (contents w (cl input)) (contents w (cl g)) 1 M I 1 O O M O gw0).
  assert (E : wp (Dot.backward ctx input weight matmul g) w (λ r w',
              r = (mkBuf [I; M] (length (mem w)), mkBuf [M; O] (S (length (mem w)))) ∧
              mem w' = mem w ++ [gi1; gw1])).
  { unfold Dot.backward. rewrite Hi, Hw. cbn [lookup list_lookup].
    rewrite !i32_small by (unfold int_range, int_max; lia).
    unfold buffer_like. rewrite Hi, Hw.
    apply wp_bind, wp_buffer_new. apply wp_bind, wp_buffer_new.
    apply wp_bind, wp_launch. apply wp_bind, wp_launch. apply wp_ret.
    cbn [mem kcache builds launches cl shape]. fold gi0 gw0.
    rewrite <- !(assoc_L (++)). cbn [app].
    replace (length (mem w ++ [gi0])) with (length (mem w) + 1)%nat
      by (rewrite length_app; simpl; lia).
    split; [do 2 f_equal; lia|].
    unfold deref.
    rewrite insert_app_fresh, lookup_app_fresh.
    rewrite !(lookup_app_l (mem w)) by done.
    rewrite insert_app_r, lookup_app_plus. cbn [default lookup list_lookup list_insert insert].
    rewrite !(lookup_app_l (mem w)) by done. done. }
  apply wp_elim in E as ([gi gw] & w' & E & [= -> ->] & Hm).
  eexists _, _, w'. split; [exact E|]. cbn [shape cl].
  split; [done|]. split; [done|]. split; [lia|].
  unfold contents. rewrite Hm, lookup_app_fresh.
  replace (S (length (mem w))) with (length (mem w) + 1)%nat by lia.
  rewrite lookup_app_plus. simpl. fold (contents w (cl g)). split.
  - intros X Y HX HY. unfold gi1.
    rewrite (matmul_result_load _ _ _ _ _ _ _ _ I); try done; try lia.
    + unfold strided_dot. f_equal. apply list_fmap_ext. intros _ x _. simpl.
      f_equal; f_equal; lia.
    + unfold gi0. by rewrite length_replicate, Hnp.
  - intros X Y HX HY. unfold gw1.
    rewrite (matmul_result_load _ _ _ _ _ _ _ _ M); try done; try lia.
    + unfold strided_dot. f_equal. apply list_fmap_ext. intros _ x _. simpl.
      f_equal; f_equal; lia.
    + unfold gw0. by rewrite length_replicate, Hnp.
Qed.

Lemma dot_backward_matmul_witness :
  ∃ gi gw w', Dot.backward example_ctx (mkBuf [1; 3] 0) (mkBuf [3; 2] 1)
                (mkKernel 0 0 "matmul" Dot.matmul_prg) (mkBuf [1; 2] 2)
                (mkWorld [[1; 2; 3]; [10; 20; 30; 40; 50; 60]; [1; 1]] [] [] [])
              = (Ok (gi, gw), w') ∧
    shape gi = [1; 3] ∧ shape gw = [3; 2].
Proof.
  assert (H1 : 1 * 3 ≤ int_max) by (vm_compute; discriminate).
  assert (H2 : 3 * 2 ≤ int_max) by (vm_compute; discriminate).
  assert (H3 : 1 * 2 ≤ int_max) by (vm_compute; discriminate).
  assert (Hf1 : f32_dot_exact 2 [1; 1] [10; 20; 30; 40; 50; 60]).
  { exists 1, 60. split; [|split]; [solve_bounded..|vm_compute; discriminate]. }
  assert (Hf2 : f32_dot_exact 1 [1; 2; 3] [1; 1]).
  { exists 3, 1. split; [|split]; [solve_bounded..|vm_compute; discriminate]. }
  destruct (dot_backward_matmul example_ctx (mkBuf [1; 3] 0) (mkBuf [3; 2] 1) (mkBuf [1; 2] 2)
              (mkKernel 0 0 "matmul" Dot.matmul_prg) 1 3 2
              (mkWorld [[1; 2; 3]; [10; 20; 30; 40; 50; 60]; [1; 1]] [] [] [])
              eq_refl eq_refl ltac:(lia) ltac:(lia) ltac:(lia) H1 H2 H3
              ltac:(simpl; lia) ltac:(simpl; lia) ltac:(simpl; lia)
              eq_refl eq_refl eq_refl Hf1 Hf2)
    as (gi & gw & w' & E & Hsi & Hsw & _).
  exists gi, gw, w'. split; [exact E|]. split; [exact Hsi|exact Hsw].
Defined.

(* ===================================================================== *)
(** * Padding *)
(* ===================================================================== *)

Lemma pad_index_bounds BC n0 Y n1 p d1 d2 :
  0 ≤ BC < n0 → 0 ≤ Y < n1 → 0 ≤ p → 0 < d1 → 0 < d2 →
  0 ≤ BC * d1 ≤ (n0 - 1) * d1 ∧ 0 ≤ BC * d1 * d2 ≤ (n0 - 1) * d1 * d2 ∧
  (n0 - 1) * d1 ≤ (n0 - 1) * d1 * d2 ∧
  0 ≤ (Y + p) * d2 ≤ (n1 - 1 + p) * d2 ∧ Y + p ≤ (Y + p) * d2.
Proof.
  intros HBC HY Hp Hd1 Hd2.
  assert (E1 : 0 ≤ BC * d1) by (apply Z.mul_nonneg_nonneg; lia).
  assert (E2 : BC * d1 ≤ (n0 - 1) * d1) by (apply Z.mul_le_mono_nonneg_r; lia).
  assert (E3 : 0 ≤ BC * d1 * d2) by (apply Z.mul_nonneg_nonneg; lia).
  assert (E4 : BC * d1 * d2 ≤ (n0 - 1) * d1 * d2) by (apply Z.mul_le_mono_nonneg_r; lia).
  assert (E5 : (n0 - 1) * d1 * 1 ≤ (n0 - 1) * d1 * d2) by (apply Z.mul_le_mono_nonneg_l; lia).
  assert (E6 : 0 ≤ (Y + p) * d2) by (apply Z.mul_nonneg_nonneg; lia).
  assert (E7 : (Y + p) * d2 ≤ (n1 - 1 + p) * d2) by (apply Z.mul_le_mono_nonneg_r; lia).
  assert (E8 : (Y + p) * 1 ≤ (Y + p) * d2) by (apply Z.mul_le_mono_nonneg_l; lia).
  lia.
Qed.

(** The work-item [(BC, Y, X)] of the [pad2d] kernel, when no index
    computation overflows. *)
Lemma pad2d_kernel_ideal input ipx ipy py px oy ox iy ix n0 n1 n2 BC Y X :
  0 ≤ BC < n0 → 0 ≤ Y < n1 → 0 ≤ X < n2 →
  0 ≤ ipx → 0 ≤ ipy → 0 ≤ py → 0 ≤ px → 0 < iy → 0 < ix → 0 < oy → 0 < ox →
  (n0 - 1) * iy * ix + (n1 - 1 + ipy) * ix + ipx + (n2 - 1) < 2^31 →
  (n0 - 1) * oy * ox + (n1 - 1 + py) * ox + px + (n2 - 1) < 2^31 →
  Pad2D.pad2d_kernel input ipx ipy py px oy ox iy ix (BC, Y, X)
  = Some (BC * oy * ox + (Y + py) * ox + px + X,
          load input (BC * iy * ix + (Y + ipy) * ix + ipx + X)).
Proof.
  intros HBC HY HX Hipx Hipy Hpy Hpx Hiy Hix Hoy Hox Hi Ho.
  destruct (pad_index_bounds BC n0 Y n1 ipy iy ix) as (A1 & A2 & A3 & A4 & A5); [lia..|].
  destruct (pad_index_bounds BC n0 Y n1 py oy ox) as (B1 & B2 & B3 & B4 & B5); [lia..|].
  unfold Pad2D.pad2d_kernel.
  rewrite (wrap32_small BC), (wrap32_small Y), (wrap32_small X) by lia.
  rewrite (int_mul_small BC iy), (int_mul_small (BC * iy) ix) by lia.
  rewrite (int_add_small Y ipy), (int_mul_small (Y + ipy) ix) by lia.
  rewrite (int_add_small (BC * iy * ix)) by lia.
  rewrite (int_add_small (BC * iy * ix + (Y + ipy) * ix) ipx) by lia.
  rewrite (int_add_small (BC * iy * ix + (Y + ipy) * ix + ipx) X) by lia.
  rewrite (int_mul_small BC oy), (int_mul_small (BC * oy) ox) by lia.
  rewrite (int_add_small Y py), (int_mul_small (Y + py) ox) by lia.
  rewrite (int_add_small (BC * oy * ox)) by lia.
  rewrite (int_add_small (BC * oy * ox + (Y + py) * ox) px) by lia.
  rewrite (int_add_small (BC * oy * ox + (Y + py) * ox + px) X) by lia.
  done.
Qed.

Section pad2d_launch.
Context (input out : list Z) (ipx ipy py px oy ox iy ix n0 n1 n2 : Z).
Context (Hipx : 0 ≤ ipx) (Hipy : 0 ≤ ipy) (Hpy : 0 ≤ py) (Hpx : 0 ≤ px).
Context (Hiy : 0 < iy) (Hix : 0 < ix) (Hoy : 0 < oy) (Hox : 0 < ox).
Context (Hi : (n0 - 1) * iy * ix + (n1 - 1 + ipy) * ix + ipx + (n2 - 1) < 2^31).
Context (Ho : (n0 - 1) * oy * ox + (n1 - 1 + py) * ox + px + (n2 - 1) < 2^31).
Context (Hfy : n1 + py ≤ oy) (Hfx : n2 + px ≤ ox).
Context (Hlen : length out = Z.to_nat (n0 * oy * ox)).

(** The cell that the work-item [(BC, Y, X)] writes. *)
Lemma pad2d_result_load BC Y X :
  0 ≤ BC < n0 → 0 ≤ Y < n1 → 0 ≤ X < n2 →
  load (pad2d_result input ipx ipy py px oy ox iy ix n0 n1 n2 out)
    (BC * oy * ox + (Y + py) * ox + px + X)
  = load input (BC * iy * ix + (Y + ipy) * ix + ipx + X).
Proof.
  intros HBC HY HX.
  assert (Hk : 0 ≤ BC * oy * ox + (Y + py) * ox + px + X < n0 * oy * ox).
  { destruct (flat3_bound (X + px) ox (Y + py) oy BC n0) as (_ & _ & _ & Hb); lia. }
  unfold pad2d_result. apply load_lookup; [lia|].
  apply (foldl_store_lookup_eq _ _ _ _ _ (BC, Y, X)).
  - by apply elem_of_range3.
  - rewrite Z2Nat.id by lia. by apply (pad2d_kernel_ideal _ _ _ _ _ _ _ _ _ n0 n1 n2).
  - rewrite Hlen. lia.
  - intros [[BC' Y'] X'] v' Hg' Hb'. apply elem_of_range3 in Hg' as (HBC' & HY' & HX').
    rewrite Z2Nat.id in Hb' by lia.
    rewrite (pad2d_kernel_ideal _ _ _ _ _ _ _ _ _ n0 n1 n2) in Hb' by done.
    injection Hb' as E <-.
    destruct (flat3_inj (X' + px) ox (Y' + py) oy BC' (X + px) (Y + py) BC)
      as (EX & EY & ->); [lia..|].
    by replace X' with X by lia; replace Y' with Y by lia.
Qed.

(** A cell that no work-item writes keeps its value. *)
Lemma pad2d_result_other BC Y' X' :
  0 ≤ BC < n0 → 0 ≤ Y' < oy → 0 ≤ X' < ox →
  ¬ (py ≤ Y' < py + n1 ∧ px ≤ X' < px + n2) →
  load (pad2d_result input ipx ipy py px oy ox iy ix n0 n1 n2 out)
    (BC * oy * ox + Y' * ox + X')
  = load out (BC * oy * ox + Y' * ox + X').
Proof.
  intros HBC HY HX Hout.
  assert (Hk : 0 ≤ BC * oy * ox + Y' * ox + X' < n0 * oy * ox).
  { destruct (flat3_bound X' ox Y' oy BC n0) as (_ & _ & _ & Hb); lia. }
  unfold pad2d_result, load. rewrite bool_decide_true by lia. f_equal.
  apply foldl_store_lookup_ne.
  intros [[BC2 Y2] X2] v Hg Hb. apply elem_of_range3 in Hg as (HBC2 & HY2 & HX2).
  rewrite Z2Nat.id in Hb by lia.
  rewrite (pad2d_kernel_ideal _ _ _ _ _ _ _ _ _ n0 n1 n2) in Hb by done.
  injection Hb as E _.
  destruct (flat3_inj (X2 + px) ox (Y2 + py) oy BC2 X' Y' BC) as (EX & EY & _); [lia..|].
  lia.
Qed.
End pad2d_launch.

Lemma length_pad2d_result input ipx ipy py px oy ox iy ix n0 n1 n2 out :
  length (pad2d_result input ipx ipy py px oy ox iy ix n0 n1 n2 out) = length out.
Proof. unfold pad2d_result. apply length_foldl_store. Qed.

Lemma load_replicate_0 n k : load (replicate n 0) k = 0.
Proof.
  unfold load. case_bool_decide; [|done].
  destruct (replicate n 0 !! Z.to_nat k) as [v|] eqn:E; [|done].
  by apply lookup_replicate in E as [-> _].
Qed.

Lemma prod4_bounds a b c d :
  0 < a → 0 < b → 0 < c → 0 < d →
  0 < a * b ∧ 0 < c * d ∧ c ≤ a * b * c * d ∧ d ≤ a * b * c * d.
Proof.
  intros Ha Hb Hc Hd.
  assert (0 < a * b) by nia. assert (0 < c * d) by nia.
  assert (c * d ≤ a * b * c * d) by nia. nia.
Qed.

Lemma pad2d_forward_wp ctx (x : GPUBuffer) bs cin iy ix p0 p1 p2 p3 w :
  shape x = [bs; cin; iy; ix] →
  let oy := iy + p2 + p3 in
  let ox := ix + p0 + p1 in
  int_range p0 → int_range p2 → int_range oy → int_range ox → int_range iy → int_range ix →
  (cl x < length (mem w))%nat →
  wp (Pad2D.forward ctx x (p0, p1, p2, p3)) w (λ r w',
    r = mkBuf [bs; cin; oy; ox] (length (mem w)) ∧
    mem w' = mem w ++ [pad2d_result (contents w (cl x)) 0 0 p2 p0 oy ox iy ix (bs * cin) iy ix
                         (replicate (Z.to_nat (np_prod [bs; cin; oy; ox])) 0)]).
Proof.
  intros Hs oy ox H0 H2 Hoy Hox Hiy Hix Hx. unfold Pad2D.forward. rewrite Hs.
  fold oy ox.
  rewrite !i32_small by (done || (unfold int_range, int_max; lia)).
  apply wp_bind, wp_buffer_zeros.
  apply wp_bind, wp_clbuild. intros h w2 Hm2 _.
  apply wp_bind, wp_launch. apply wp_ret. simpl.
  split; [done|]. rewrite !Hm2. simpl.
  rewrite insert_app_fresh. f_equal. f_equal.
  unfold pad2d_result, deref, contents. by simpl_mem.
Qed.

Lemma pad2d_backward_wp ctx (g : GPUBuffer) (k : Kernel) bs cin iy ix p0 p1 p2 p3 w :
  shape g = [bs; cin; iy; ix] →
  let oy := iy - p2 - p3 in
  let ox := ix - p0 - p1 in
  int_range p0 → int_range p2 → int_range oy → int_range ox → int_range iy → int_range ix →
  (cl g < length (mem w))%nat →
  wp (Pad2D.backward ctx ((p0, p1, p2, p3), k) g) w (λ r w',
    r = mkBuf [bs; cin; oy; ox] (length (mem w)) ∧
    mem w' = mem w ++ [pad2d_result (contents w (cl g)) p2 p0 0 0 oy ox iy ix (bs * cin) oy ox
                         (replicate (Z.to_nat (np_prod [bs; cin; oy; ox])) 0)]).
Proof.
  intros Hs oy ox H0 H2 Hoy Hox Hiy Hix Hx. unfold Pad2D.backward. rewrite Hs.
  fold oy ox.
  rewrite !i32_small by (done || (unfold int_range, int_max; lia)).
  apply wp_bind, wp_buffer_new.
  apply wp_bind, wp_launch. apply wp_ret. simpl.
  split; [done|].
  rewrite insert_app_fresh. f_equal. f_equal.
  unfold pad2d_result, deref, contents. by simpl_mem.
Qed.

(** X15.  [Pad2D.forward] with non-negative padding (left, right, top, bottom):
    the result has [top + bottom] more rows and [left + right] more columns,
    the input sits [top] rows down and [left] columns in, and every other
    cell is 0. *)
Theorem pad2d_forward_contents ctx (x : GPUBuffer) bs cin iy ix p0 p1 p2 p3 w :
  let oy := iy + p2 + p3 in
  let ox := ix + p0 + p1 in
  shape x = [bs; cin; iy; ix] →
  0 < bs → 0 < cin → 0 < iy → 0 < ix → 0 ≤ p0 → 0 ≤ p1 → 0 ≤ p2 → 0 ≤ p3 →
  bs * cin * oy * ox ≤ int_max →
  (cl x < length (mem w))%nat →
  ∃ r w', Pad2D.forward ctx x (p0, p1, p2, p3) w = (Ok r, w') ∧
    shape r = [bs; cin; oy; ox] ∧
    length (contents w' (cl r)) = Z.to_nat (bs * cin * oy * ox) ∧
    (∀ BC Y X, 0 ≤ BC < bs * cin → 0 ≤ Y < oy → 0 ≤ X < ox →
       load (contents w' (cl r)) (BC * oy * ox + Y * ox + X)
       = if bool_decide (p2 ≤ Y < p2 + iy ∧ p0 ≤ X < p0 + ix)
         then load (contents w (cl x)) (BC * iy * ix + (Y - p2) * ix + (X - p0))
         else 0) ∧
    contents w' (cl x) = contents w (cl x).
Proof.
  intros oy ox Hs Hbs Hcin Hiy Hix H0 H1 H2 H3 Hb Hx. unfold int_max in Hb.
  assert (Eoy : iy + p2 + p3 = oy) by reflexivity.
  assert (Eox : ix + p0 + p1 = ox) by reflexivity.
  clearbody oy ox.
  assert (Hoy : 0 < oy) by lia. assert (Hox : 0 < ox) by lia.
  destruct (prod4_bounds bs cin oy ox) as (Hn0 & Hoo1 & Hoo2 & Hoo3); [done..|].
  assert (Hii : iy * ix ≤ oy * ox).
  { apply Z.mul_le_mono_nonneg; lia. }
  assert (Hbi : bs * cin * iy * ix ≤ bs * cin * oy * ox) by nia.
  pose proof (pad2d_forward_wp ctx x bs cin iy ix p0 p1 p2 p3 w Hs) as H. cbv zeta in H.
  rewrite Eoy, Eox in H.
  specialize (H ltac:(unfold int_range, int_max; lia) ltac:(unfold int_range, int_max; lia)
                ltac:(unfold int_range, int_max; lia) ltac:(unfold int_range, int_max; lia)
                ltac:(unfold int_range, int_max; lia) ltac:(unfold int_range, int_max; lia) Hx).
  destruct (wp_elim _ _ _ H) as (r & w' & E & -> & Hm).
  eexists _, w'. split; [exact E|]. split; [done|]. cbn [cl].
  rewrite (contents_app_fresh _ _ _ _ Hm).
  assert (Hnp : np_prod [bs; cin; oy; ox] = bs * cin * oy * ox).
  { rewrite np_prod_4. lia. }
  rewrite Hnp.
  split; [by rewrite length_pad2d_result, length_replicate|]. split.
  - intros BC Y X HBC HY HX.
    assert (Hin : (bs * cin - 1) * iy * ix + (iy - 1 + 0) * ix + 0 + (ix - 1) < 2^31) by nia.
    assert (Hout : (bs * cin - 1) * oy * ox + (iy - 1 + p2) * ox + p0 + (ix - 1) < 2^31).
    { assert ((iy - 1 + p2) * ox ≤ (oy - 1) * ox) by (apply Z.mul_le_mono_nonneg_r; lia).
      assert (p0 + (ix - 1) ≤ ox - 1) by lia. lia. }
    case_bool_decide as Hwin.
    + replace (BC * oy * ox + Y * ox + X)
        with (BC * oy * ox + ((Y - p2) + p2) * ox + p0 + (X - p0)) by lia.
      rewrite pad2d_result_load; try done; try lia.
      * f_equal. lia.
      * by rewrite length_replicate.
    + rewrite pad2d_result_other; try done; try lia.
      * apply load_replicate_0.
      * by rewrite length_replicate.
  - by apply (contents_app_l _ _ _ _ Hm).
Qed.

Lemma pad2d_forward_contents_witness :
  ∃ r w', Pad2D.forward example_ctx (mkBuf [1; 1; 1; 3] 0) (1, 0, 0, 0) example_world
          = (Ok r, w') ∧
    shape r = [1; 1; 1; 4] ∧ load (contents w' (cl r)) (0 * 1 * 4 + 0 * 4 + 2) = 2.
Proof.
  assert (Hb : 1 * 1 * (1 + 0 + 0) * (3 + 1 + 0) ≤ int_max) by (vm_compute; discriminate).
  destruct (pad2d_forward_contents example_ctx (mkBuf [1; 1; 1; 3] 0) 1 1 1 3 1 0 0 0
              example_world eq_refl ltac:(lia) ltac:(lia) ltac:(lia) ltac:(lia)
              ltac:(lia) ltac:(lia) ltac:(lia) ltac:(lia) Hb ltac:(simpl; lia))
    as (r & w' & E & Hs & _ & Hv & _).
  exists r, w'. split; [exact E|]. split; [exact Hs|].
  exact (Hv 0 0 2 ltac:(lia) ltac:(lia) ltac:(lia)).
Defined.

(** X16.  [Pad2D.backward] crops the gradient to the shape of the input of
    [forward], but reads it [padding[0]] rows down and [padding[2]] columns
    in: the two offsets are exchanged with respect to [forward], which puts
    the input [padding[2]] rows down and [padding[0]] columns in.  Stated
    for the paddings with which every cell read this way is inside the
    gradient: [padding[0] <= padding[2] + padding[3]] and
    [padding[2] <= padding[0] + padding[1]]. *)
Theorem pad2d_backward_crop_offsets ctx (g : GPUBuffer) (k : Kernel)
    bs cin iy ix p0 p1 p2 p3 w :
  let oy := iy - p2 - p3 in
  let ox := ix - p0 - p1 in
  shape g = [bs; cin; iy; ix] →
  0 < bs → 0 < cin → 0 < oy → 0 < ox → 0 ≤ p0 → 0 ≤ p1 → 0 ≤ p2 → 0 ≤ p3 →
  p0 ≤ p2 + p3 → p2 ≤ p0 + p1 →
  bs * cin * iy * ix + p0 * ix + p2 ≤ int_max →
  (cl g < length (mem w))%nat →
  length (contents w (cl g)) = Z.to_nat (bs * cin * iy * ix) →
  ∃ r w', Pad2D.backward ctx ((p0, p1, p2, p3), k) g w = (Ok r, w') ∧
    shape r = [bs; cin; oy; ox] ∧
    length (contents w' (cl r)) = Z.to_nat (bs * cin * oy * ox) ∧
    (∀ BC Y X, 0 ≤ BC < bs * cin → 0 ≤ Y < oy → 0 ≤ X < ox →
       load (contents w' (cl r)) (BC * oy * ox + Y * ox + X)
       = load (contents w (cl g)) (BC * iy * ix + (Y + p0) * ix + (X + p2))).
Proof.
  intros oy ox Hs Hbs Hcin Hoy Hox H0 H1 H2 H3 _ _ Hb Hx _. unfold int_max in Hb.
  assert (Eoy : iy - p2 - p3 = oy) by reflexivity.
  assert (Eox : ix - p0 - p1 = ox) by reflexivity.
  clearbody oy ox.
  assert (Hiy : 0 < iy) by lia.
  assert (Hix : 0 < ix) by lia.
  assert (Hp : 0 ≤ p0 * ix) by nia.
  destruct (prod4_bounds bs cin iy ix) as (Hn0 & Hii1 & Hii2 & Hii3); [done..|].
  assert (Hoi : oy * ox ≤ iy * ix).
  { apply Z.mul_le_mono_nonneg; lia. }
  assert (Hbo : bs * cin * oy * ox ≤ bs * cin * iy * ix) by nia.
  pose proof (pad2d_backward_wp ctx g k bs cin iy ix p0 p1 p2 p3 w Hs) as H. cbv zeta in H.
  rewrite Eoy, Eox in H.
  specialize (H ltac:(unfold int_range, int_max; lia) ltac:(unfold int_range, int_max; lia)
                ltac:(unfold int_range, int_max; lia) ltac:(unfold int_range, int_max; lia)
                ltac:(unfold int_range, int_max; lia) ltac:(unfold int_range, int_max; lia) Hx).
  destruct (wp_elim _ _ _ H) as (r & w' & E & -> & Hm).
  eexists _, w'. split; [exact E|]. split; [done|]. cbn [cl].
  rewrite (contents_app_fresh _ _ _ _ Hm).
  assert (Hnp : np_prod [bs; cin; oy; ox] = bs * cin * oy * ox).
  { rewrite np_prod_4. lia. }
  rewrite Hnp.
  split; [by rewrite length_pad2d_result, length_replicate|].
  intros BC Y X HBC HY HX.
  replace (BC * oy * ox + Y * ox + X) with (BC * oy * ox + (Y + 0) * ox + 0 + X) by lia.
  assert (Hi : (bs * cin - 1) * iy * ix + (oy - 1 + p0) * ix + p2 + (ox - 1) < 2^31).
  { assert ((oy - 1 + p0) * ix ≤ (iy - 1) * ix + p0 * ix) by nia.
    assert ((bs * cin - 1) * iy * ix = bs * cin * iy * ix - iy * ix) by ring.
    assert ((iy - 1) * ix = iy * ix - ix) by ring. lia. }
  assert (Ho : (bs * cin - 1) * oy * ox + (oy - 1 + 0) * ox + 0 + (ox - 1) < 2^31).
  { assert ((bs * cin - 1) * oy * ox + (oy - 1 + 0) * ox + 0 + (ox - 1)
            = bs * cin * oy * ox - 1) by ring. lia. }
  rewrite pad2d_result_load; try done; try lia.
  - f_equal. lia.
  - by rewrite length_replicate.
Qed.

Lemma pad2d_backward_crop_offsets_witness :
  ∃ r w', Pad2D.backward example_ctx ((1, 0, 0, 1), mkKernel 0 0 "pad2d" Pad2D.pad2d_prg)
            (mkBuf [1; 1; 2; 3] 1) example_world = (Ok r, w') ∧
    shape r = [1; 1; 1; 2] ∧
    load (contents w' (cl r)) (0 * 1 * 2 + 0 * 2 + 0) = 40.
Proof.
  assert (Hb : 1 * 1 * 2 * 3 + 1 * 3 + 0 ≤ int_max) by (vm_compute; discriminate).
  destruct (pad2d_backward_crop_offsets example_ctx (mkBuf [1; 1; 2; 3] 1)
              (mkKernel 0 0 "pad2d" Pad2D.pad2d_prg) 1 1 2 3 1 0 0 1
              example_world eq_refl ltac:(lia) ltac:(lia) ltac:(lia) ltac:(lia)
              ltac:(lia) ltac:(lia) ltac:(lia) ltac:(lia) ltac:(lia) ltac:(lia)
              Hb ltac:(simpl; lia) eq_refl)
    as (r & w' & E & Hs & _ & Hv).
  exists r, w'. split; [exact E|]. split; [exact Hs|].
  exact (Hv 0 0 0 ltac:(lia) ltac:(lia) ltac:(lia)).
Defined.

Lemma list_eq_load (l1 l2 : list Z) n :
  length l1 = Z.to_nat n → length l2 = Z.to_nat n →
  (∀ k, 0 ≤ k < n → load l1 k = load l2 k) → l1 = l2.
Proof.
  intros H1 H2 Hk. apply list_eq. intros i.
  destruct (decide (i < length l1)%nat) as [Hi|Hi].
  - destruct (lookup_lt_is_Some_2 l1 i Hi) as [v1 E1].
    destruct (lookup_lt_is_Some_2 l2 i ltac:(lia)) as [v2 E2].
    specialize (Hk (Z.of_nat i) ltac:(lia)). rewrite !load_of_nat, E1, E2 in Hk.
    simpl in Hk. by rewrite E1, E2, Hk.
  - by rewrite !lookup_ge_None_2 by lia.
Qed.

Lemma flat3_decompose k n0 iy ix :
  0 < iy → 0 < ix → 0 ≤ k < n0 * iy * ix →
  ∃ BC Y X, 0 ≤ BC < n0 ∧ 0 ≤ Y < iy ∧ 0 ≤ X < ix ∧ k = BC * iy * ix + Y * ix + X.
Proof.
  intros Hiy Hix Hk.
  exists (k `div` ix `div` iy), ((k `div` ix) `mod` iy), (k `mod` ix).
  pose proof (Z.div_mod k ix ltac:(lia)) as E1.
  pose proof (Z.div_mod (k `div` ix) iy ltac:(lia)) as E2.
  pose proof (Z.mod_pos_bound k ix Hix). pose proof (Z.mod_pos_bound (k `div` ix) iy Hiy).
  assert (0 ≤ k `div` ix) by (apply Z.div_le_lower_bound; lia).
  assert (k `div` ix < n0 * iy) by (apply Z.div_lt_upper_bound; lia).
  assert (0 ≤ k `div` ix `div` iy) by (apply Z.div_le_lower_bound; lia).
  assert (k `div` ix `div` iy < n0) by (apply Z.div_lt_upper_bound; lia).
  repeat split; lia.
Qed.

(** X17.  With the same padding on the left and at the top, [Pad2D.backward]
    undoes [Pad2D.forward]: cropping the padded tensor gives back the shape
    and the contents of the input. *)
Theorem pad2d_round_trip ctx (x : GPUBuffer) (k : Kernel) bs cin iy ix p p1 p3 w :
  shape x = [bs; cin; iy; ix] →
  0 < bs → 0 < cin → 0 < iy → 0 < ix → 0 ≤ p → 0 ≤ p1 → 0 ≤ p3 →
  bs * cin * (iy + p + p3) * (ix + p + p1) ≤ int_max →
  (cl x < length (mem w))%nat →
  length (contents w (cl x)) = Z.to_nat (bs * cin * iy * ix) →
  ∃ r w1 r' w', Pad2D.forward ctx x (p, p1, p, p3) w = (Ok r, w1) ∧
    Pad2D.backward ctx ((p, p1, p, p3), k) r w1 = (Ok r', w') ∧
    shape r' = shape x ∧ contents w' (cl r') = contents w (cl x).
Proof.
  intros Hs Hbs Hcin Hiy Hix Hp Hp1 Hp3 Hb Hx Hlen. unfold int_max in Hb.
  set (oy := iy + p + p3) in *. set (ox := ix + p + p1) in *.
  assert (Eoy : iy + p + p3 = oy) by reflexivity.
  assert (Eox : ix + p + p1 = ox) by reflexivity.
  clearbody oy ox.
  assert (Hoy : 0 < oy) by lia. assert (Hox : 0 < ox) by lia.
  destruct (prod4_bounds bs cin oy ox) as (Hn0 & Hoo1 & Hoo2 & Hoo3); [done..|].
  assert (Hii : iy * ix ≤ oy * ox) by (apply Z.mul_le_mono_nonneg; lia).
  assert (Hbi : bs * cin * iy * ix ≤ bs * cin * oy * ox) by nia.
  assert (Hnp : ∀ a b, np_prod [bs; cin; a; b] = bs * cin * a * b).
  { intros a b. rewrite np_prod_4. lia. }
  pose proof (pad2d_forward_wp ctx x bs cin iy ix p p1 p p3 w Hs) as H. cbv zeta in H.
  rewrite Eoy, Eox in H.
  specialize (H ltac:(unfold int_range, int_max; lia) ltac:(unfold int_range, int_max; lia)
                ltac:(unfold int_range, int_max; lia) ltac:(unfold int_range, int_max; lia)
                ltac:(unfold int_range, int_max; lia) ltac:(unfold int_range, int_max; lia) Hx).
  destruct (wp_elim _ _ _ H) as (r & w1 & E1 & -> & Hm1). clear H.
  set (r := mkBuf [bs; cin; oy; ox] (length (mem w))) in *.
  assert (Hr : (cl r < length (mem w1))%nat) by (rewrite Hm1, length_app; simpl; lia).
  pose proof (pad2d_backward_wp ctx r k bs cin oy ox p p1 p p3 w1 eq_refl) as H. cbv zeta in H.
  replace (oy - p - p3) with iy in H by lia. replace (ox - p - p1) with ix in H by lia.
  specialize (H ltac:(unfold int_range, int_max; lia) ltac:(unfold int_range, int_max; lia)
                ltac:(unfold int_range, int_max; lia) ltac:(unfold int_range, int_max; lia)
                ltac:(unfold int_range, int_max; lia) ltac:(unfold int_range, int_max; lia) Hr).
  destruct (wp_elim _ _ _ H) as (r' & w' & E2 & -> & Hm2). clear H.
  eexists r, w1, _, w'. split; [exact E1|]. split; [exact E2|]. split; [done|].
  cbn [cl]. rewrite (contents_app_fresh _ _ _ _ Hm2).
  unfold r at 1. cbn [cl]. rewrite (contents_app_fresh _ _ _ _ Hm1).
  assert (Hin : (bs * cin - 1) * iy * ix + (iy - 1 + 0) * ix + 0 + (ix - 1) < 2^31) by nia.
  assert (Hout : (bs * cin - 1) * oy * ox + (iy - 1 + p) * ox + p + (ix - 1) < 2^31).
  { assert ((iy - 1 + p) * ox ≤ (oy - 1) * ox) by (apply Z.mul_le_mono_nonneg_r; lia).
    assert (p + (ix - 1) ≤ ox - 1) by lia. lia. }
  apply (list_eq_load _ _ (bs * cin * iy * ix)); [|done|].
  { by rewrite length_pad2d_result, length_replicate, Hnp. }
  intros j Hj.
  destruct (flat3_decompose j (bs * cin) iy ix Hiy Hix Hj) as (BC & Y & X & HBC & HY & HX & ->).
  replace (BC * iy * ix + Y * ix + X) with (BC * iy * ix + (Y + 0) * ix + 0 + X) by lia.
  rewrite pad2d_result_load; try done; try lia.
  2:{ by rewrite length_replicate, Hnp. }
  rewrite pad2d_result_load; try done; try lia.
  by rewrite length_replicate, Hnp.
Qed.

Lemma pad2d_round_trip_witness :
  ∃ r w1 r' w', Pad2D.forward example_ctx (mkBuf [1; 1; 1; 3] 0) (1, 0, 1, 0) example_world
                = (Ok r, w1) ∧
    Pad2D.backward example_ctx ((1, 0, 1, 0), mkKernel 0 0 "pad2d" Pad2D.pad2d_prg) r w1
    = (Ok r', w') ∧
    contents w' (cl r') = [1; 2; 3].
Proof.
  assert (Hb : 1 * 1 * (1 + 1 + 0) * (3 + 1 + 0) ≤ int_max) by (vm_compute; discriminate).
  destruct (pad2d_round_trip example_ctx (mkBuf [1; 1; 1; 3] 0)
              (mkKernel 0 0 "pad2d" Pad2D.pad2d_prg) 1 1 1 3 1 0 0 example_world
              eq_refl ltac:(lia) ltac:(lia) ltac:(lia) ltac:(lia) ltac:(lia) ltac:(lia)
              ltac:(lia) Hb ltac:(simpl; lia) eq_refl)
    as (r & w1 & r' & w' & E1 & E2 & _ & Hc).
  exists r, w1, r', w'. split; [exact E1|]. split; [exact E2|exact Hc].
Defined.

(* ===================================================================== *)
(** * Average pooling, and what the pooling operations refuse *)
(* ===================================================================== *)

Lemma foldl_add_Zsum_gen {B} (f : B → Z) (l : list B) acc :
  foldl (λ out x, out + f x) acc l = acc + Zsum (f <$> l).
Proof.
  unfold Zsum. revert acc. induction l as [|x l IH]; intros acc; csimpl; [lia|].
  rewrite IH. lia.
Qed.

Lemma avgpool_sum_scan fl input Xin Yin ky kx z oy ox :
  foldl (λ st '(j, i),
     sub_iter (AvgPool2D.code fl) st input (pool_cell Xin Yin ky kx z oy ox j i) j i
       (mk_uint2 kx ky))
    (sub_decls (AvgPool2D.code fl)) (window_offsets ky kx)
  = Zsum ((λ '(j, i), load input (pool_cell Xin Yin ky kx z oy ox j i))
          <$> window_offsets ky kx).
Proof.
  rewrite <- (Z.add_0_l (Zsum _)), <- foldl_add_Zsum_gen.
  apply foldl_ext_in. by intros st [j i] _.
Qed.

(** X19.  [AvgPool2D.forward] with a window that fits, on an input of
    integers that a [float] accumulator sums without rounding: the result
    has one element per window, the quotient, by the float division, of the
    sum of the cells of the window and the number of cells. *)
Theorem avgpool2d_forward_window_mean fl ctx (x : GPUBuffer) N C Yin Xin ky kx w :
  let Yout := Yin `div` ky in
  let Xout := Xin `div` kx in
  shape x = [N; C; Yin; Xin] →
  0 < N → 0 < C → 0 < ky ≤ Yin → 0 < kx ≤ Xin → Xin * (Yin * (N * C)) ≤ int_max →
  (cl x < length (mem w))%nat →
  f32_sum_exact (contents w (cl x)) → ky * kx ≤ 2^24 →
  ∃ r w', AvgPool2D.forward fl ctx x (ky, kx) w = (Ok r, w') ∧
    shape r = [N; C; Yout; Xout] ∧
    (∀ z oy ox, 0 ≤ z < N * C → 0 ≤ oy < Yout → 0 ≤ ox < Xout →
       load (contents w' (cl r)) (pool_window Xout Yout z oy ox)
       = f_div fl
           (Zsum ((λ '(j, i), load (contents w (cl x)) (pool_cell Xin Yin ky kx z oy ox j i))
                  <$> window_offsets ky kx))
           (kx * ky)) ∧
    contents w' (cl x) = contents w (cl x).
Proof.
  intros Yout Xout Hsh HN HC Hky Hkx Ht Hx _ _. unfold int_max in Ht.
  destruct (pool_out_size Yin ky Hky) as (EY & HYo & HYf).
  destruct (pool_out_size Xin kx Hkx) as (EX & HXo & HXf).
  fold Yout in EY, HYo, HYf. fold Xout in EX, HXo, HXf.
  assert (Hk : ky * kx < 2^31 ∧ ky < 2^31 ∧ kx < 2^31).
  { assert (1 ≤ N * C) by nia.
    assert (ky * kx ≤ Yin * Xin) by (apply Z.mul_le_mono_nonneg; lia).
    assert (Yin * Xin ≤ Xin * (Yin * (N * C))) by nia.
    assert (kx ≤ ky * kx) by nia. assert (ky ≤ ky * kx) by nia. lia. }
  destruct Hk as (Hk & Hky2 & Hkx2).
  pose proof (subsample_op_wp ctx x (ky, kx) (ky, kx) (AvgPool2D.code fl) N C Yin Xin w Hsh)
    as H.
  cbn [fst snd] in H. specialize (H ltac:(lia) ltac:(lia)). cbv zeta in H.
  rewrite EY, EX in H.
  destruct (wp_elim _ _ _ H) as (r & w' & E & -> & o & _ & Hm & Ho).
  specialize (Ho Hx). subst o.
  eexists _, w'. split; [exact E|]. split; [done|]. cbn [cl]. split.
  - intros z oy ox Hz Hoy Hox.
    rewrite (contents_app_fresh _ _ _ _ Hm).
    pose proof (subsample_result_window (AvgPool2D.code fl) (contents w (cl x))
                  N C Yin Xin ky kx z oy ox HN HC Hky Hkx ltac:(lia)) as Hw.
    cbv zeta in Hw. fold Yout Xout in Hw. rewrite (Hw Hz Hoy Hox).
    rewrite avgpool_sum_scan. cbn [AvgPool2D.code sub_result u_x u_y].
    by rewrite uint_mul_small by lia.
  - by apply (contents_app_l _ _ _ _ Hm).
Qed.

Lemma avgpool2d_forward_window_mean_witness :
  let fl := mkFloatPrims (λ a b, a) (λ a, a) (λ a, a) Z.div Z.add Z.sub Z.mul in
  ∃ r w', AvgPool2D.forward fl example_ctx (mkBuf [1; 1; 2; 3] 1) (2, 3) example_world
          = (Ok r, w') ∧
    shape r = [1; 1; 1; 1] ∧
    load (contents w' (cl r)) (pool_window 1 1 0 0 0) = 35.
Proof.
  intros fl.
  assert (Ht : 3 * (2 * (1 * 1)) ≤ int_max) by (vm_compute; discriminate).
  assert (Hf : f32_sum_exact (contents example_world 1)) by (vm_compute; discriminate).
  assert (Hk : 2 * 3 ≤ 2^24) by (vm_compute; discriminate).
  destruct (avgpool2d_forward_window_mean fl example_ctx (mkBuf [1; 1; 2; 3] 1) 1 1 2 3 2 3
              example_world eq_refl ltac:(lia) ltac:(lia) ltac:(lia) ltac:(lia) Ht
              ltac:(simpl; lia) Hf Hk)
    as (r & w' & E & Hs & Hv & _).
  exists r, w'. split; [exact E|]. split; [exact Hs|].
  exact (Hv 0 0 0 ltac:(lia) ltac:(split; [done|reflexivity]) ltac:(split; [done|reflexivity])).
Defined.

(** X20.  [AvgPool2D.backward] gives every cell of a window the gradient of the
    window divided, by the float division, by the number of cells of the
    window; the cells outside all windows get 0. *)
Theorem avgpool2d_backward_spreads fl ctx (g : GPUBuffer) N C Yg Xg Yo Xo ky kx w :
  shape g = [N; C; Yg; Xg] → kernel_size ctx = (ky, kx) →
  0 < N → 0 < C → 0 < ky → 0 < kx → ky * kx ≤ int_max → 0 < Yg → 0 < Xg →
  Xo * (Yo * (N * C)) ≤ int_max → Xg * (Yg * (N * C)) ≤ int_max →
  (cl g < length (mem w))%nat →
  ∃ r w', AvgPool2D.backward fl ctx [N; C; Yo; Xo] g w = (Ok r, w') ∧
    shape r = [N; C; Yo; Xo] ∧
    (∀ z y x, 0 ≤ z < N * C → 0 ≤ y < Yo → 0 ≤ x < Xo →
       load (contents w' (cl r)) (x + Xo * (y + Yo * z))
       = if bool_decide (x `div` kx < Xg) && bool_decide (y `div` ky < Yg)
         then f_div fl (load (contents w (cl g)) (x `div` kx + Xg * (y `div` ky + Yg * z)))
                (kx * ky)
         else 0).
Proof.
  intros Hsh Hks HN HC Hky Hkx Hk HYg HXg Hto Htg Hx. unfold int_max in *.
  assert (kx ≤ ky * kx ∧ ky ≤ ky * kx) as [? ?] by nia.
  pose proof (supersample_op_wp ctx g [N; C; Yo; Xo] N C Yo Xo ky kx (AvgPool2D.code_backward fl)
                None N C Yg Xg w Hsh eq_refl) as Hwp.
  destruct (wp_elim _ _ _ Hwp) as (r & w' & E & -> & o & Hm & Ho).
  specialize (Ho Hx ltac:(done)). subst o.
  eexists _, w'. split.
  { unfold AvgPool2D.backward. rewrite Hks. exact E. }
  split; [done|]. cbn [cl].
  intros z y x Hz Hy Hx'. rewrite (contents_app_fresh _ _ _ _ Hm).
  rewrite supersample_result_cell; try done; try lia.
  destruct (bool_decide (x `div` kx < Xg) && bool_decide (y `div` ky < Yg)); [|done].
  cbn [AvgPool2D.code_backward sup_result u_x u_y].
  by rewrite uint_mul_small by lia.
Qed.

Lemma avgpool2d_backward_spreads_witness :
  let fl := mkFloatPrims (λ a b, a) (λ a, a) (λ a, a) Z.div Z.add Z.sub Z.mul in
  ∃ r w', AvgPool2D.backward fl example_ctx [1; 1; 2; 2] (mkBuf [1; 1; 1; 1] 0)
            (mkWorld [[8]] [] [] []) = (Ok r, w') ∧
    shape r = [1; 1; 2; 2] ∧ load (contents w' (cl r)) (1 + 2 * (1 + 2 * 0)) = 2.
Proof.
  intros fl.
  assert (Hk : 2 * 2 ≤ int_max) by (vm_compute; discriminate).
  assert (Ho : 2 * (2 * (1 * 1)) ≤ int_max) by (vm_compute; discriminate).
  assert (Hg : 1 * (1 * (1 * 1)) ≤ int_max) by (vm_compute; discriminate).
  destruct (avgpool2d_backward_spreads fl example_ctx (mkBuf [1; 1; 1; 1] 0) 1 1 1 1 2 2 2 2
              (mkWorld [[8]] [] [] []) eq_refl eq_refl ltac:(lia) ltac:(lia) ltac:(lia)
              ltac:(lia) Hk ltac:(lia) ltac:(lia) Ho Hg ltac:(simpl; lia))
    as (r & w' & E & Hs & Hv).
  exists r, w'. split; [exact E|]. split; [exact Hs|].
  exact (Hv 0 1 1 ltac:(lia) ltac:(lia) ltac:(lia)).
Defined.

(** X21.  The pooling operations refuse an input that is not 4-dimensional with
    a [ValueError] and a window with a zero side with a
    [ZeroDivisionError] (the window is also the stride), before anything is
    allocated, compiled or launched. *)
Theorem pooling_forward_rejects fl ctx (x : GPUBuffer) (ks : Z * Z) w :
  (length (shape x) ≠ 4%nat →
     AvgPool2D.forward fl ctx x ks w = (Raise ValueError, w) ∧
     MaxPool2D.forward ctx x ks w = (Raise ValueError, w)) ∧
  (length (shape x) = 4%nat → ks.1 = 0 ∨ ks.2 = 0 →
     AvgPool2D.forward fl ctx x ks w = (Raise ZeroDivisionError, w) ∧
     MaxPool2D.forward ctx x ks w = (Raise ZeroDivisionError, w)).
Proof.
  destruct ks as [ky kx]. split.
  - intros Hl.
    assert (E : ∀ S (c : SubCode S),
              subsample_op ctx x (ky, kx) (ky, kx) c w = (Raise ValueError, w)).
    { intros S c. unfold subsample_op.
      destruct (shape x) as [|a [|b [|c' [|d [|e l]]]]]; simpl in Hl; try done. }
    unfold AvgPool2D.forward, MaxPool2D.forward, bind. by rewrite !E.
  - intros Hl Hz. cbn [fst snd] in Hz.
    assert (E : ∀ S (c : SubCode S),
              subsample_op ctx x (ky, kx) (ky, kx) c w = (Raise ZeroDivisionError, w)).
    { intros S c. unfold subsample_op.
      destruct (shape x) as [|a [|b [|c' [|d [|e l]]]]]; simpl in Hl; try done.
      destruct Hz as [-> | ->].
      - by rewrite bool_decide_true by done.
      - rewrite (bool_decide_true (0 = 0)) by done. by rewrite orb_true_r. }
    unfold AvgPool2D.forward, MaxPool2D.forward, bind. by rewrite !E.
Qed.

Lemma pooling_forward_rejects_witness :
  MaxPool2D.forward example_ctx (mkBuf [2; 3] 1) (2, 2) example_world
  = (Raise ValueError, example_world).
Proof.
  apply (pooling_forward_rejects (mkFloatPrims (λ a b, a) (λ a, a) (λ a, a) Z.div Z.add Z.sub Z.mul)
           example_ctx (mkBuf [2; 3] 1) (2, 2) example_world).
  simpl. lia.
Defined.


(* ===================================================================== *)
(** * Gradients of the elementwise operations and of the sum *)
(* ===================================================================== *)

Lemma left_aligned_full n sh : length sh = n → left_aligned n sh = sh.
Proof. intros <-. unfold left_aligned. by rewrite Nat.sub_diag, app_nil_r. Qed.

(** [binary_op] on operands of the same shape, as a step of a longer
    computation. *)
Lemma binary_op_zip_spec ctx code (x y : GPUBuffer) sh xs ys w :
  shape x = sh → shape y = sh →
  Forall (λ d, 0 < d) sh → np_prod sh ≤ int_max → Z.of_nat (length sh) ≤ int_max →
  (cl x < length (mem w))%nat → (cl y < length (mem w))%nat →
  contents w (cl x) = xs → contents w (cl y) = ys →
  length xs = Z.to_nat (np_prod sh) → length ys = Z.to_nat (np_prod sh) →
  wp (binary_op ctx code x y) w (λ r w',
    r = mkBuf sh (length (mem w)) ∧
    mem w' = mem w ++ [zip_with (c2_fn code) xs ys; sh; sh; sh]).
Proof.
  intros Hsx Hsy Hp Hb Hn Hx Hy Hcx Hcy Hlx Hly.
  pose proof (binary_op_spec ctx code x y w) as Hwp. cbv zeta in Hwp.
  rewrite Hsx, Hsy, Nat.max_id in Hwp.
  rewrite left_aligned_full, zip_with_max_id in Hwp by done.
  specialize (Hwp Hp Hp ltac:(intros i a b Ha Hb'; left; congruence) Hb Hn Hx Hy).
  eapply wp_mono; [exact Hwp|]. cbv beta. intros r w' [-> Hm]. split; [done|].
  rewrite Hm, Hcx, Hcy. f_equal. f_equal.
  rewrite <- (fmap_load2_seqZ (c2_fn code) _ _ (np_prod sh)) by done.
  apply list.Forall_fmap_ext_1. apply list.Forall_forall. intros g Hg.
  apply elem_of_seqZ in Hg.
  by rewrite !broadcast_index_id by (done || lia).
Qed.

(** [unbroadcast] to the shape of the gradient, as a step of a longer
    computation. *)
Lemma unbroadcast_copy_spec ctx (g : GPUBuffer) sh gs w :
  shape g = sh →
  Forall (λ d, 0 < d) sh → np_prod sh ≤ int_max → Z.of_nat (length sh) ≤ int_max →
  (cl g < length (mem w))%nat → contents w (cl g) = gs →
  length gs = Z.to_nat (np_prod sh) →
  wp (unbroadcast ctx g sh) w (λ r w',
    r = mkBuf sh (length (mem w)) ∧
    mem w' = mem w ++ [gs; np_array_i32 sh; np_array_i32 sh]).
Proof.
  intros Hs Hp Hb Hn Hx Hc Hlen. subst sh gs.
  pose proof (unbroadcast_spec ctx g (shape g) w) as H. cbv zeta in H.
  specialize (H ltac:(lia) ltac:(by intros ->) Hp Hb Hn Hx).
  rewrite expanded_axes_same, keep_shape_nil in H.
  eapply wp_mono; [exact H|]. cbv beta. intros r w' [-> Hm]. split; [done|].
  rewrite Hm. by rewrite sum_over_axes_nil.
Qed.

(** X23.  [ReLU.backward] lets the gradient through where the input of
    [forward] is not negative (0 included) and gives 0 elsewhere. *)
Theorem relu_backward_masks ctx (x g : GPUBuffer) w :
  shape g = shape x →
  Forall (λ d, 0 < d) (shape x) →
  np_prod (shape x) ≤ int_max → Z.of_nat (length (shape x)) ≤ int_max →
  (cl x < length (mem w))%nat → (cl g < length (mem w))%nat →
  length (contents w (cl x)) = Z.to_nat (np_prod (shape x)) →
  length (contents w (cl g)) = Z.to_nat (np_prod (shape x)) →
  ∃ r w', ReLU.backward ctx x g w = (Ok r, w') ∧ shape r = shape x ∧
    contents w' (cl r)
    = zip_with (λ gv xv, if bool_decide (0 ≤ xv) then gv else 0)
        (contents w (cl g)) (contents w (cl x)).
Proof.
  intros Hs Hp Hb Hn Hx Hg Hlx Hlg. unfold ReLU.backward.
  set (code := mkCode2 _ _).
  destruct (wp_elim _ _ _
              (binary_op_zip_spec ctx code g x (shape x) _ _ w Hs eq_refl Hp Hb Hn Hg Hx
                 eq_refl eq_refl Hlg Hlx)) as (r & w' & E & -> & Hm).
  eexists _, w'. split; [exact E|]. split; [done|]. cbn [cl].
  rewrite (contents_app_fresh _ _ _ _ Hm). apply zip_with_ext; [|done|done].
  intros gv xv. unfold code. cbn [c2_fn]. repeat case_bool_decide; lia.
Qed.

Lemma relu_backward_masks_witness :
  ∃ r w', ReLU.backward example_ctx (mkBuf [3] 0) (mkBuf [3] 1)
            (mkWorld [[-4; 0; 7]; [10; 20; 30]] [] [] []) = (Ok r, w') ∧
    contents w' (cl r) = [0; 20; 30].
Proof.
  assert (Hb : np_prod [3] ≤ int_max) by (vm_compute; discriminate).
  assert (Hn : Z.of_nat 1 ≤ int_max) by (vm_compute; discriminate).
  destruct (relu_backward_masks example_ctx (mkBuf [3] 0) (mkBuf [3] 1)
              (mkWorld [[-4; 0; 7]; [10; 20; 30]] [] [] [])
              eq_refl ltac:(repeat constructor) Hb Hn ltac:(simpl; lia) ltac:(simpl; lia)
              eq_refl eq_refl)
    as (r & w' & E & _ & Hc).
  exists r, w'. split; [exact E|exact Hc].
Defined.

(** X24.  [Mul.backward] on operands and a gradient of one shape, holding
    integers whose products a [float] holds exactly: the gradient of each
    operand is the elementwise product of the other operand and
    grad_output. *)
Theorem mul_backward_same_shape ctx (x y g : GPUBuffer) w :
  let sh := shape x in
  shape y = sh → shape g = sh →
  Forall (λ d, 0 < d) sh → np_prod sh ≤ int_max → Z.of_nat (length sh) ≤ int_max →
  (cl x < length (mem w))%nat → (cl y < length (mem w))%nat → (cl g < length (mem w))%nat →
  length (contents w (cl x)) = Z.to_nat (np_prod sh) →
  length (contents w (cl y)) = Z.to_nat (np_prod sh) →
  length (contents w (cl g)) = Z.to_nat (np_prod sh) →
  f32_dot_exact 1 (contents w (cl y)) (contents w (cl g)) →
  f32_dot_exact 1 (contents w (cl x)) (contents w (cl g)) →
  ∃ gx gy w', Mul.backward ctx x y g w = (Ok (gx, gy), w') ∧
    shape gx = sh ∧ shape gy = sh ∧
    contents w' (cl gx) = zip_with Z.mul (contents w (cl y)) (contents w (cl g)) ∧
    contents w' (cl gy) = zip_with Z.mul (contents w (cl x)) (contents w (cl g)).
Proof.
  intros sh Hsy Hsg Hp Hb Hn Hx Hy Hg Hlx Hly Hlg _ _.
  set (xs := contents w (cl x)) in *. set (ys := contents w (cl y)) in *.
  set (gs := contents w (cl g)) in *.
  assert (Hwp : wp (Mul.backward ctx x y g) w (λ r w',
            shape r.1 = sh ∧ shape r.2 = sh ∧
            contents w' (cl r.1) = zip_with Z.mul ys gs ∧
            contents w' (cl r.2) = zip_with Z.mul xs gs)).
  { unfold Mul.backward.
    apply wp_bind.
    eapply wp_mono;
      [exact (binary_op_zip_spec ctx _ y g sh ys gs w Hsy Hsg Hp Hb Hn Hy Hg
                eq_refl eq_refl Hly Hlg)|].
    cbv beta. intros r1 w1 [-> Hm1].
    assert (Hl1 : length (mem w1) = (length (mem w) + 4)%nat)
      by (rewrite Hm1, length_app; simpl; lia).
    apply wp_bind.
    eapply wp_mono;
      [apply (binary_op_zip_spec ctx _ x g sh xs gs w1); try done; try lia;
       by apply (contents_app_l _ _ _ _ Hm1)|].
    cbv beta. intros r2 w2 [-> Hm2].
    assert (Hl2 : length (mem w2) = (length (mem w1) + 4)%nat)
      by (rewrite Hm2, length_app; simpl; lia).
    assert (Hc1 : contents w2 (length (mem w)) = zip_with Z.mul ys gs).
    { rewrite (contents_app_l _ _ _ _ Hm2) by lia. by apply (contents_app_fresh _ _ _ _ Hm1). }
    assert (Hc2 : contents w2 (length (mem w1)) = zip_with Z.mul xs gs)
      by apply (contents_app_fresh _ _ _ _ Hm2).
    apply wp_bind.
    eapply wp_mono;
      [apply (unbroadcast_copy_spec ctx (mkBuf sh (length (mem w))) sh (zip_with Z.mul ys gs)
                w2 eq_refl Hp Hb Hn);
       [simpl; lia|exact Hc1|rewrite length_zip_with; lia]|].
    cbv beta. intros r3 w3 [-> Hm3].
    assert (Hl3 : length (mem w3) = (length (mem w2) + 3)%nat)
      by (rewrite Hm3, length_app; simpl; lia).
    apply wp_bind. rewrite Hsy.
    eapply wp_mono;
      [apply (unbroadcast_copy_spec ctx (mkBuf sh (length (mem w1))) sh (zip_with Z.mul xs gs)
                w3 eq_refl Hp Hb Hn);
       [simpl; lia
       |cbn [cl]; rewrite (contents_app_l _ _ _ _ Hm3) by lia; exact Hc2
       |rewrite length_zip_with; lia]|].
    cbv beta. intros r4 w4 [-> Hm4].
    apply wp_ret. cbn [fst snd shape cl]. split; [done|]. split; [done|]. split.
    - rewrite (contents_app_l _ _ _ _ Hm4) by lia. apply (contents_app_fresh _ _ _ _ Hm3).
    - apply (contents_app_fresh _ _ _ _ Hm4). }
  destruct (wp_elim _ _ _ Hwp) as ([gx gy] & w' & E & H1 & H2 & H3 & H4).
  by exists gx, gy, w'.
Qed.

Lemma mul_backward_same_shape_witness :
  ∃ gx gy w', Mul.backward example_ctx (mkBuf [3] 0) (mkBuf [3] 1) (mkBuf [3] 2)
                (mkWorld [[1; 2; 3]; [4; 5; 6]; [1; 10; 100]] [] [] []) = (Ok (gx, gy), w') ∧
    contents w' (cl gx) = [4; 50; 600] ∧ contents w' (cl gy) = [1; 20; 300].
Proof.
  assert (Hb : np_prod [3] ≤ int_max) by (vm_compute; discriminate).
  assert (Hn : Z.of_nat 1 ≤ int_max) by (vm_compute; discriminate).
  assert (Hf1 : f32_dot_exact 1 [4; 5; 6] [1; 10; 100]).
  { exists 6, 100. split; [|split]; [solve_bounded..|vm_compute; discriminate]. }
  assert (Hf2 : f32_dot_exact 1 [1; 2; 3] [1; 10; 100]).
  { exists 3, 100. split; [|split]; [solve_bounded..|vm_compute; discriminate]. }
  destruct (mul_backward_same_shape example_ctx (mkBuf [3] 0) (mkBuf [3] 1) (mkBuf [3] 2)
              (mkWorld [[1; 2; 3]; [4; 5; 6]; [1; 10; 100]] [] [] [])
              eq_refl eq_refl ltac:(repeat constructor) Hb Hn
              ltac:(simpl; lia) ltac:(simpl; lia) ltac:(simpl; lia) eq_refl eq_refl eq_refl
              Hf1 Hf2)
    as (gx & gy & w' & E & _ & _ & Hx & Hy).
  exists gx, gy, w'. split; [exact E|]. split; [exact Hx|exact Hy].
Defined.

(** X25.  [Sub.backward] on a gradient of the shape of both operands: the first
    operand gets a copy of grad_output, the second its negation. *)
Theorem sub_backward_same_shape ctx (g : GPUBuffer) w :
  let sh := shape g in
  Forall (λ d, 0 < d) sh → np_prod sh ≤ int_max → Z.of_nat (length sh) ≤ int_max →
  (cl g < length (mem w))%nat →
  length (contents w (cl g)) = Z.to_nat (np_prod sh) →
  ∃ gx gy w', Sub.backward ctx sh sh g w = (Ok (gx, gy), w') ∧
    shape gx = sh ∧ shape gy = sh ∧
    contents w' (cl gx) = contents w (cl g) ∧
    contents w' (cl gy) = Z.opp <$> contents w (cl g).
Proof.
  intros sh Hp Hb Hn Hg Hlg.
  set (gs := contents w (cl g)) in *.
  assert (Hwp : wp (Sub.backward ctx sh sh g) w (λ r w',
            shape r.1 = sh ∧ shape r.2 = sh ∧
            contents w' (cl r.1) = gs ∧ contents w' (cl r.2) = Z.opp <$> gs)).
  { unfold Sub.backward.
    apply wp_bind.
    eapply wp_mono; [exact (unary_op_wp_contents ctx _ g w Hg Hb)|].
    cbv beta. intros r1 w1 [-> Hm1]. cbn [c1_fn] in Hm1. fold gs sh in Hm1.
    rewrite (fmap_load_seqZ Z.opp gs (np_prod sh) Hlg) in Hm1.
    assert (Hl1 : length (mem w1) = (length (mem w) + 1)%nat)
      by (rewrite Hm1, length_app; simpl; lia).
    apply wp_bind.
    eapply wp_mono;
      [apply (unbroadcast_copy_spec ctx g sh gs w1 eq_refl Hp Hb Hn);
       [lia|by apply (contents_app_l _ _ _ _ Hm1)|done]|].
    cbv beta. intros r2 w2 [-> Hm2].
    assert (Hl2 : length (mem w2) = (length (mem w1) + 3)%nat)
      by (rewrite Hm2, length_app; simpl; lia).
    apply wp_bind. fold sh.
    eapply wp_mono;
      [apply (unbroadcast_copy_spec ctx (mkBuf sh (length (mem w))) sh (Z.opp <$> gs) w2
                eq_refl Hp Hb Hn);
       [simpl; lia
       |cbn [cl]; rewrite (contents_app_l _ _ _ _ Hm2) by lia;
        apply (contents_app_fresh _ _ _ _ Hm1)
       |by rewrite length_fmap]|].
    cbv beta. intros r3 w3 [-> Hm3].
    apply wp_ret. cbn [fst snd shape cl]. split; [done|]. split; [done|]. split.
    - rewrite (contents_app_l _ _ _ _ Hm3) by lia. apply (contents_app_fresh _ _ _ _ Hm2).
    - apply (contents_app_fresh _ _ _ _ Hm3). }
  destruct (wp_elim _ _ _ Hwp) as ([gx gy] & w' & E & H1 & H2 & H3 & H4).
  by exists gx, gy, w'.
Qed.

Lemma sub_backward_same_shape_witness :
  ∃ gx gy w', Sub.backward example_ctx [3] [3] (mkBuf [3] 0) example_world = (Ok (gx, gy), w') ∧
    contents w' (cl gx) = [1; 2; 3] ∧ contents w' (cl gy) = [-1; -2; -3].
Proof.
  assert (Hb : np_prod [3] ≤ int_max) by (vm_compute; discriminate).
  assert (Hn : Z.of_nat 1 ≤ int_max) by (vm_compute; discriminate).
  destruct (sub_backward_same_shape example_ctx (mkBuf [3] 0) example_world
              ltac:(repeat constructor) Hb Hn ltac:(simpl; lia) eq_refl)
    as (gx & gy & w' & E & _ & _ & Hx & Hy).
  exists gx, gy, w'. split; [exact E|]. split; [exact Hx|exact Hy].
Defined.

(** ** [Sum.backward] *)

Lemma zip_with_max_kept sh gsh :
  Forall2 (λ a r, 0 < a ∧ (r = a ∨ r = 1)) sh gsh → zip_with Z.max gsh sh = sh.
Proof.
  induction 1 as [|a r sh gsh [Ha Hr] _ IH]; [done|]. simpl. rewrite IH. f_equal. lia.
Qed.

Lemma grad_shape_axes sh (ax : list nat) :
  Sum.grad_shape sh (Some (Z.of_nat <$> ax)) = keep_shape sh ax.
Proof.
  unfold Sum.grad_shape, keep_shape. apply imap_ext. intros i s _. simpl.
  apply bool_decide_if_ext. apply (list_elem_of_fmap_inj Z.of_nat).
Qed.

Lemma grad_shape_full sh : Sum.grad_shape sh None = replicate (length sh) 1.
Proof.
  apply list_eq. intros i. unfold Sum.grad_shape. rewrite list_lookup_imap.
  destruct (sh !! i) as [s|] eqn:E; simpl.
  - symmetry. apply lookup_replicate_2. by eapply lookup_lt_Some.
  - symmetry. apply lookup_ge_None_2. rewrite length_replicate. by apply lookup_ge_None.
Qed.

Lemma ravel_ones n : ∀ (l : list Z),
  ravel (replicate n 1) (zip_with Z.modulo l (replicate n 1)) = 0.
Proof.
  unfold ravel, ravel_from.
  induction n as [|n IH]; intros [|c l]; try done.
  cbn [replicate zip_with zip foldl fst snd]. rewrite Z.mod_1_r. apply IH.
Qed.

Lemma load_fmap_seqZ (f : Z → Z) n k :
  0 ≤ k < n → load (f <$> seqZ 0 n) k = f k.
Proof.
  intros Hk. replace k with (Z.of_nat (Z.to_nat k)) at 1 by lia.
  rewrite load_of_nat, list_lookup_fmap, lookup_seqZ_lt by lia. simpl. f_equal. lia.
Qed.

(** [Sum.backward]: grad_output, seen under the shape [gsh] that has 1 on
    the reduced axes, is broadcast against zeros of the shape of the
    input. *)
Lemma sum_backward_spec ctx (x g : GPUBuffer) axis gsh w :
  let sh := shape x in
  Sum.grad_shape sh axis = gsh →
  Forall2 (λ a r, 0 < a ∧ (r = a ∨ r = 1)) sh gsh →
  np_prod sh ≤ int_max → Z.of_nat (length sh) ≤ int_max →
  (cl g < length (mem w))%nat →
  wp (Sum.backward ctx x axis g) w (λ r w',
    r = mkBuf sh (S (length (mem w))) ∧
    mem w' = mem w ++
      [replicate (Z.to_nat (np_prod sh)) 0;
       (λ gid, load (contents w (cl g)) (broadcast_index gsh sh gid)) <$> seqZ 0 (np_prod sh);
       gsh; sh; sh]).
Proof.
  intros sh Hgs Hall Hb Hn Hg.
  destruct (reduced_dims_pos _ _ Hall) as (Hp & Hpg & _).
  pose proof (Forall2_length _ _ _ Hall) as Hlen.
  unfold Sum.backward. fold sh. rewrite Hgs.
  apply wp_bind, wp_buffer_zeros.
  set (w1 := mkWorld _ _ _ _).
  set (out := GPUBuffer_alias gsh g). set (z := mkBuf sh (length (mem w))).
  pose proof (binary_op_spec ctx (mkCode2 "a+b" (λ a b, a + b)) out z w1) as H.
  cbv zeta in H. cbn [shape out z GPUBuffer_alias] in H.
  rewrite <- Hlen, Nat.max_id in H.
  rewrite !left_aligned_full, (zip_with_max_kept sh gsh Hall) in H by done.
  specialize (H Hpg Hp).
  assert (Hc : ∀ i a b, gsh !! i = Some a → sh !! i = Some b → compatible a b).
  { intros i a b Ha Hb'. destruct (Forall2_lookup_lr _ _ _ _ _ _ Hall Hb' Ha) as [_ [->| ->]].
    - by left.
    - right. by left. }
  specialize (H Hc Hb Hn).
  assert (Hl1 : length (mem w1) = (length (mem w) + 1)%nat)
    by (unfold w1; cbn [mem]; rewrite length_app; simpl; lia).
  specialize (H ltac:(unfold out, GPUBuffer_alias; cbn [cl]; lia)
                ltac:(unfold z; cbn [cl]; lia)).
  eapply wp_mono; [exact H|]. cbv beta. intros r w' [-> Hm].
  split; [f_equal; lia|].
  rewrite Hm. unfold w1 at 1. cbn [mem]. rewrite <- (assoc_L (++)). cbn [app].
  f_equal. f_equal. f_equal.
  apply list_fmap_ext. intros _ gid _. cbn [c2_fn cl].
  assert (E1 : contents w1 (cl g) = contents w (cl g)).
  { unfold contents, w1. cbn [mem]. by rewrite lookup_app_l. }
  assert (E2 : contents w1 (length (mem w)) = replicate (Z.to_nat (np_prod sh)) 0).
  { unfold contents, w1. cbn [mem]. by rewrite lookup_app_fresh. }
  change (cl out) with (cl g). change (cl z) with (length (mem w)).
  rewrite E1, E2, load_replicate_0. lia.
Qed.

(** X26.  [Sum.backward] after a sum over axes given by their positions: every
    element of the result, which has the shape of the input, is the element
    of grad_output at the same coordinates on the kept axes. *)
Theorem sum_backward_broadcasts ctx (x g : GPUBuffer) (ax : list nat) w :
  let sh := shape x in
  let gsh := keep_shape sh ax in
  Forall (λ d, 0 < d) sh → np_prod sh ≤ int_max → Z.of_nat (length sh) ≤ int_max →
  (cl g < length (mem w))%nat →
  ∃ r w', Sum.backward ctx x (Some (Z.of_nat <$> ax)) g w = (Ok r, w') ∧
    shape r = sh ∧
    length (contents w' (cl r)) = Z.to_nat (np_prod sh) ∧
    (∀ gid, 0 ≤ gid < np_prod sh →
       load (contents w' (cl r)) gid
       = load (contents w (cl g)) (ravel gsh (zip_with Z.modulo (unravel sh gid) gsh))) ∧
    contents w' (cl g) = contents w (cl g).
Proof.
  intros sh gsh Hp Hb Hn Hg.
  destruct (wp_elim _ _ _
              (sum_backward_spec ctx x g (Some (Z.of_nat <$> ax)) gsh w
                 (grad_shape_axes sh ax) (keep_shape_Forall2 sh ax Hp) Hb Hn Hg))
    as (r & w' & E & -> & Hm).
  eexists _, w'. split; [exact E|]. split; [done|]. cbn [cl].
  assert (Hc : contents w' (S (length (mem w)))
               = (λ gid, load (contents w (cl g)) (broadcast_index gsh sh gid))
                 <$> seqZ 0 (np_prod sh)).
  { unfold contents. rewrite Hm. replace (S (length (mem w))) with (length (mem w) + 1)%nat by lia.
    by rewrite lookup_app_plus. }
  rewrite Hc. split; [by rewrite length_fmap, length_seqZ|]. split.
  - intros gid Hgid. by rewrite load_fmap_seqZ.
  - by apply (contents_app_l _ _ _ _ Hm).
Qed.

Lemma sum_backward_broadcasts_witness :
  ∃ r w', Sum.backward example_ctx (mkBuf [2; 3] 1) (Some [1]) (mkBuf [2; 1] 0)
            (mkWorld [[7; 9]; [10; 20; 30; 40; 50; 60]] [] [] []) = (Ok r, w') ∧
    shape r = [2; 3] ∧
    load (contents w' (cl r)) 4
    = load [7; 9] (ravel (keep_shape [2; 3] [1%nat])
                     (zip_with Z.modulo (unravel [2; 3] 4) (keep_shape [2; 3] [1%nat]))).
Proof.
  assert (Hb : np_prod [2; 3] ≤ int_max) by (vm_compute; discriminate).
  assert (Hn : Z.of_nat 2 ≤ int_max) by (vm_compute; discriminate).
  destruct (sum_backward_broadcasts example_ctx (mkBuf [2; 3] 1) (mkBuf [2; 1] 0) [1%nat]
              (mkWorld [[7; 9]; [10; 20; 30; 40; 50; 60]] [] [] [])
              ltac:(repeat constructor) Hb Hn ltac:(simpl; lia))
    as (r & w' & E & Hs & _ & Hv & _).
  exists r, w'. split; [exact E|]. split; [exact Hs|].
  apply (Hv 4). vm_compute. split; [discriminate|reflexivity].
Defined.

(** X27.  [Sum.backward] after a sum over all the elements: every element of the
    result, which has the shape of the input, is the one element of
    grad_output. *)
Theorem sum_backward_full_fills ctx (x g : GPUBuffer) w :
  let sh := shape x in
  Forall (λ d, 0 < d) sh → np_prod sh ≤ int_max → Z.of_nat (length sh) ≤ int_max →
  (cl g < length (mem w))%nat →
  ∃ r w', Sum.backward ctx x None g w = (Ok r, w') ∧
    shape r = sh ∧
    contents w' (cl r) = replicate (Z.to_nat (np_prod sh)) (load (contents w (cl g)) 0).
Proof.
  intros sh Hp Hb Hn Hg.
  destruct (wp_elim _ _ _
              (sum_backward_spec ctx x g None (replicate (length sh) 1) w
                 (grad_shape_full sh) (Forall2_ones sh Hp) Hb Hn Hg))
    as (r & w' & E & -> & Hm).
  eexists _, w'. split; [exact E|]. split; [done|]. cbn [cl].
  unfold contents at 1. rewrite Hm.
  replace (S (length (mem w))) with (length (mem w) + 1)%nat by lia.
  rewrite lookup_app_plus. simpl.
  apply list_eq. intros i. rewrite list_lookup_fmap. unfold sh in *.
  destruct (decide (i < Z.to_nat (np_prod (shape x)))%nat) as [Hi|Hi].
  - rewrite lookup_seqZ_lt, lookup_replicate_2 by lia. simpl.
    unfold broadcast_index. by rewrite ravel_ones.
  - rewrite lookup_seqZ_ge by lia. symmetry. apply lookup_ge_None_2.
    rewrite length_replicate. lia.
Qed.

Lemma sum_backward_full_fills_witness :
  ∃ r w', Sum.backward example_ctx (mkBuf [2; 3] 1) None (mkBuf [1] 0)
            (mkWorld [[7]; [10; 20; 30; 40; 50; 60]] [] [] []) = (Ok r, w') ∧
    contents w' (cl r) = [7; 7; 7; 7; 7; 7].
Proof.
  assert (Hb : np_prod [2; 3] ≤ int_max) by (vm_compute; discriminate).
  assert (Hn : Z.of_nat 2 ≤ int_max) by (vm_compute; discriminate).
  destruct (sum_backward_full_fills example_ctx (mkBuf [2; 3] 1) (mkBuf [1] 0)
              (mkWorld [[7]; [10; 20; 30; 40; 50; 60]] [] [] [])
              ltac:(repeat constructor) Hb Hn ltac:(simpl; lia))
    as (r & w' & E & _ & Hc).
  exists r, w'. split; [exact E|exact Hc].
Defined.

(* ===================================================================== *)
(** * LogSoftmax *)
(* ===================================================================== *)

(** What the [reduce] kernel computes, for any accumulating code. *)
Lemma reduce_result_fold code code2 shape_x shape_ret data :
  Forall2 (λ a r, 0 < a ∧ (r = a ∨ r = 1)) shape_x shape_ret →
  np_prod shape_x ≤ int_max → Z.of_nat (length shape_ret) ≤ int_max →
  reduce_result code code2 shape_x shape_ret data
  = (λ gid, c1_fn code2
       (foldl (λ out x, c2_fn code out
                 (load data (ravel shape_x
                    (zip_with Z.add (unravel shape_ret gid)
                       (unravel (reduced_dims shape_x shape_ret) x)))))
          0 (seqZ 0 (np_prod (reduced_dims shape_x shape_ret)))))
    <$> seqZ 0 (np_prod shape_ret).
Proof.
  intros Hall Hp Hn.
  destruct (reduced_dims_pos _ _ Hall) as (Hpx & Hpr & Hpd).
  pose proof (np_prod_pos _ Hpx). pose proof (np_prod_pos _ Hpr).
  pose proof (np_prod_pos _ Hpd).
  pose proof (np_prod_reduced _ _ Hall) as Hfac.
  assert (Hsz : np_prod shape_x `div` np_prod shape_ret = np_prod (reduced_dims shape_x shape_ret)).
  { rewrite Hfac, Z.mul_comm. apply Z.div_mul. lia. }
  assert (Hle : np_prod shape_ret ≤ np_prod shape_x) by nia.
  assert (Hrx : Forall int_range shape_x) by (by apply Forall_pos_int_range).
  assert (Hrr : Forall int_range shape_ret) by (apply Forall_pos_int_range; [done|lia]).
  unfold reduce_result. rewrite !np_array_i32_id by done.
  apply foldl_store_range1; [|by rewrite length_replicate].
  intros gid Hg. unfold reduce_kernel.
  rewrite (wrap32_small gid) by (unfold int_max in *; lia).
  simpl. f_equal. f_equal.
  replace (seqZ 0 (i32 (np_prod shape_x `div` np_prod shape_ret)))
    with (seqZ 0 (np_prod (reduced_dims shape_x shape_ret))).
  2:{ rewrite Hsz, i32_small; [done|]. unfold int_range, int_max in *. nia. }
  f_equal. apply foldl_ext_in. intros out x Hx. apply elem_of_seqZ in Hx.
  f_equal. f_equal. by apply reduce_index_ideal.
Qed.

Lemma np_prod_2 a b : np_prod [a; b] = a * b.
Proof. rewrite !np_prod_cons. change (np_prod []) with 1. lia. Qed.

Lemma reduced_dims_rows N C : reduced_dims [N; C] [N; 1] = [1; C].
Proof.
  unfold reduced_dims. simpl. rewrite bool_decide_true by done.
  case_bool_decide; congruence.
Qed.

Lemma unravel_2 a b g : unravel [a; b] g = [(g `div` b) `mod` a; g `mod` b].
Proof.
  cbn [unravel]. rewrite np_prod_cons. change (np_prod []) with 1.
  by rewrite Z.mul_1_r, Z.div_1_r.
Qed.

Lemma ravel_2 a b i j : ravel [a; b] [i; j] = i * b + j.
Proof. unfold ravel, ravel_from. simpl. lia. Qed.

(** The element of row [n] and column [c] that the [reduce] kernel reads
    when it reduces the columns of an (N, C) array. *)
Lemma row_index N C n c :
  0 ≤ n < N → 0 ≤ c < C →
  ravel [N; C] (zip_with Z.add (unravel [N; 1] n) (unravel [1; C] c)) = n * C + c.
Proof.
  intros Hn Hc. rewrite !unravel_2. cbn [zip_with]. rewrite ravel_2.
  rewrite !Z.mod_1_r, Z.div_1_r, (Z.mod_small n), (Z.mod_small c) by lia.
  lia.
Qed.

(** The row that broadcasting an (N, 1) operand pairs with the flat index
    [gid] of an (N, C) result. *)
Lemma broadcast_index_rows N C gid :
  0 < N → 0 < C → 0 ≤ gid < N * C →
  broadcast_index [N; 1] [N; C] gid = gid `div` C.
Proof.
  intros HN HC Hg. unfold broadcast_index. rewrite unravel_2. cbn [zip_with].
  rewrite ravel_2, Z.mod_1_r.
  assert (0 ≤ gid `div` C < N).
  { split; [apply Z.div_le_lower_bound; lia|apply Z.div_lt_upper_bound; lia]. }
  rewrite !(Z.mod_small (gid `div` C)) by lia. lia.
Qed.

(** [reduce_op] over axis 1 of an (N, C) array. *)
Lemma reduce_rows_spec ctx code code2 (x : GPUBuffer) N C w :
  shape x = [N; C] → 0 < N → 0 < C → N * C ≤ int_max →
  (cl x < length (mem w))%nat →
  wp (reduce_op ctx code code2 x (Some [1])) w (λ r w',
    r = mkBuf [N; 1] (length (mem w)) ∧
    mem w' = mem w ++
      [(λ n, c1_fn code2
               (foldl (λ out c, c2_fn code out (load (contents w (cl x)) (n * C + c)))
                  0 (seqZ 0 C))) <$> seqZ 0 N;
       np_array_i32 [N; C]; np_array_i32 [N; 1]]).
Proof.
  intros Hs HN HC Hb Hx.
  assert (Ho : reduce_osize (shape x) (Some [1]) w = (Ok [N; 1], w)) by (by rewrite Hs).
  pose proof (reduce_op_wp ctx code code2 x (Some [1]) [N; 1] w Ho) as H.
  eapply wp_mono; [exact H|]. cbv beta.
  intros r w' (-> & o & _ & Hm & _ & Hc). split; [done|].
  rewrite Hm, (Hc Hx), Hs. f_equal. f_equal.
  rewrite reduce_result_fold.
  - rewrite reduced_dims_rows, !np_prod_2, Z.mul_1_r, Z.mul_1_l.
    apply list.Forall_fmap_ext_1, list.Forall_forall. intros n Hn.
    apply elem_of_seqZ in Hn. f_equal.
    apply foldl_ext_in. intros out c Hc'. apply elem_of_seqZ in Hc'.
    by rewrite row_index by lia.
  - constructor; [split; [done|by left]|].
    constructor; [split; [done|by right]|]. constructor.
  - by rewrite np_prod_2.
  - simpl. unfold int_max. lia.
Qed.

(** [binary_op] of an (N, C) operand with an (N, 1) operand. *)
Lemma binary_op_rows_spec ctx code (x y : GPUBuffer) N C w :
  shape x = [N; C] → shape y = [N; 1] → 0 < N → 0 < C → N * C ≤ int_max →
  (cl x < length (mem w))%nat → (cl y < length (mem w))%nat →
  wp (binary_op ctx code x y) w (λ r w',
    r = mkBuf [N; C] (length (mem w)) ∧
    mem w' = mem w ++
      [(λ gid, c2_fn code (load (contents w (cl x)) gid)
                           (load (contents w (cl y)) (gid `div` C))) <$> seqZ 0 (N * C);
       [N; C]; [N; 1]; [N; C]]).
Proof.
  intros Hsx Hsy HN HC Hb Hx Hy.
  pose proof (binary_op_spec ctx code x y w) as H. cbv zeta in H.
  rewrite Hsx, Hsy in H. cbn [length Nat.max] in H.
  rewrite !left_aligned_full in H by done. cbn [zip_with] in H.
  rewrite Z.max_id, (Z.max_l C 1) in H by lia.
  rewrite np_prod_2 in H.
  specialize (H ltac:(repeat constructor; lia) ltac:(repeat constructor; lia)).
  assert (Hc : ∀ (i : nat) a b, [N; C] !! i = Some a → [N; 1] !! i = Some b → compatible a b).
  { intros [|[|i]] a b; simpl; intros [= <-] [= <-]; unfold compatible; auto. }
  specialize (H Hc Hb ltac:(simpl; unfold int_max; lia) Hx Hy).
  eapply wp_mono; [exact H|]. cbv beta. intros r w' [-> Hm]. split; [done|].
  rewrite Hm. f_equal. f_equal.
  apply list.Forall_fmap_ext_1, list.Forall_forall. intros gid Hg.
  apply elem_of_seqZ in Hg.
  rewrite broadcast_index_id, broadcast_index_rows; try done; try lia.
  - repeat constructor; lia.
  - rewrite np_prod_2. lia.
Qed.

(** X28.  [LogSoftmax.forward] on an (N, C) input, for any interpretation
    of the float operations: every element has the logarithm of the sum of
    the exponentials of its row, accumulated from 0.0 in the order of the
    columns, subtracted. *)
Theorem logsoftmax_forward_rows fl ctx (x : GPUBuffer) N C w :
  shape x = [N; C] → 0 < N → 0 < C → N * C ≤ int_max →
  (cl x < length (mem w))%nat →
  length (contents w (cl x)) = Z.to_nat (N * C) →
  ∃ r w', LogSoftmax.forward fl ctx x w = (Ok r, w') ∧ shape r = [N; C] ∧
    length (contents w' (cl r)) = Z.to_nat (N * C) ∧
    (∀ n c, 0 ≤ n < N → 0 ≤ c < C →
       load (contents w' (cl r)) (n * C + c)
       = f_sub fl (load (contents w (cl x)) (n * C + c))
           (f_log fl
              (foldl (λ out c', f_add fl out (f_exp fl (load (contents w (cl x)) (n * C + c'))))
                 0 (seqZ 0 C)))) ∧
    contents w' (cl x) = contents w (cl x).
Proof.
  intros Hs HN HC Hb Hx _.
  set (xs := contents w (cl x)).
  set (lsum := (λ n, f_log fl (foldl (λ out c, f_add fl out (f_exp fl (load xs (n * C + c))))
                                 0 (seqZ 0 C))) <$> seqZ 0 N).
  assert (Hwp : wp (LogSoftmax.forward fl ctx x) w (λ r w',
            r = mkBuf [N; C] (length (mem w) + 3) ∧
            contents w' (cl r)
            = (λ gid, f_sub fl (load xs gid) (load lsum (gid `div` C))) <$> seqZ 0 (N * C) ∧
            contents w' (cl x) = xs)).
  { unfold LogSoftmax.forward. apply wp_bind.
    eapply wp_mono; [exact (reduce_rows_spec ctx _ _ x N C w Hs HN HC Hb Hx)|].
    cbv beta. intros r1 w1 [-> Hm1]. cbn [c1_fn c2_fn] in Hm1. fold xs lsum in Hm1.
    assert (Hl1 : length (mem w1) = (length (mem w) + 3)%nat)
      by (rewrite Hm1, length_app; simpl; lia).
    eapply wp_mono;
      [apply (binary_op_rows_spec ctx _ x (mkBuf [N; 1] (length (mem w))) N C w1);
       try done; simpl; lia|].
    cbv beta. intros r2 w2 [-> Hm2]. cbn [c2_fn cl] in Hm2.
    rewrite (contents_app_l _ _ _ _ Hm1 Hx) in Hm2. fold xs in Hm2.
    rewrite (contents_app_fresh _ _ _ _ Hm1) in Hm2.
    split; [f_equal; lia|]. cbn [cl]. split.
    - by rewrite (contents_app_fresh _ _ _ _ Hm2).
    - rewrite (contents_app_l _ _ _ _ Hm2) by lia. by apply (contents_app_l _ _ _ _ Hm1). }
  destruct (wp_elim _ _ _ Hwp) as (r & w' & E & -> & Hc & Hxs).
  eexists _, w'. split; [exact E|]. split; [done|]. rewrite Hc.
  split; [by rewrite length_fmap, length_seqZ|]. split; [|done].
  intros n c Hn Hc'.
  assert (0 ≤ n * C + c < N * C) by nia.
  rewrite load_fmap_seqZ by done.
  destruct (div_mod_block n C c Hc') as [-> _].
  unfold lsum. by rewrite load_fmap_seqZ.
Qed.

Lemma logsoftmax_forward_rows_witness :
  let fl := mkFloatPrims (λ a b, a) (λ a, 2 * a) (λ a, a + 1) Z.div Z.add Z.sub Z.mul in
  ∃ r w', LogSoftmax.forward fl example_ctx (mkBuf [2; 3] 1) example_world = (Ok r, w') ∧
    shape r = [2; 3] ∧ load (contents w' (cl r)) (1 * 3 + 0) = 40 - 301.
Proof.
  intros fl.
  assert (Hb : 2 * 3 ≤ int_max) by (vm_compute; discriminate).
  destruct (logsoftmax_forward_rows fl example_ctx (mkBuf [2; 3] 1) 2 3 example_world
              eq_refl ltac:(lia) ltac:(lia) Hb ltac:(simpl; lia) eq_refl)
    as (r & w' & E & Hs & _ & Hv & _).
  exists r, w'. split; [exact E|]. split; [exact Hs|].
  exact (Hv 1 0 ltac:(lia) ltac:(lia)).
Defined.

(** [LogSoftmax.forward] on an input of rank below 2 raises [IndexError]:
    axis 1 does not exist; nothing is allocated or launched. *)
Theorem logsoftmax_forward_low_rank fl ctx (x : GPUBuffer) w :
  (length (shape x) ≤ 1)%nat →
  LogSoftmax.forward fl ctx x w = (Raise IndexError, w).
Proof.
  intros Hl. unfold LogSoftmax.forward, bind.
  rewrite reduce_op_raise; [done|].
  destruct (np_set_indices (shape x) [1] 1) eqn:E; [|done].
  assert (Hs : is_Some (np_set_indices (shape x) [1] 1)) by (by rewrite E).
  pose proof (proj1 (np_set_indices_is_Some _ _ _) Hs 1 ltac:(by left)). lia.
Qed.

Lemma logsoftmax_forward_low_rank_witness :
  LogSoftmax.forward (mkFloatPrims (λ a b, a) (λ a, a) (λ a, a) Z.div Z.add Z.sub Z.mul) example_ctx
    (mkBuf [3] 0) example_world = (Raise IndexError, example_world).
Proof.
  apply logsoftmax_forward_low_rank. simpl. lia.
Defined.

(** X29.  [LogSoftmax.backward] on (N, C) tensors, for any interpretation of
    the float operations: every element of grad_output has the product of
    the exponential of the saved output and the sum of its row of
    grad_output, accumulated from 0.0 in the order of the columns,
    subtracted. *)
Theorem logsoftmax_backward_rows fl ctx (out g : GPUBuffer) N C w :
  shape out = [N; C] → shape g = [N; C] → 0 < N → 0 < C → N * C ≤ int_max →
  (cl out < length (mem w))%nat → (cl g < length (mem w))%nat →
  length (contents w (cl out)) = Z.to_nat (N * C) →
  length (contents w (cl g)) = Z.to_nat (N * C) →
  ∃ r w', LogSoftmax.backward fl ctx out g w = (Ok r, w') ∧ shape r = [N; C] ∧
    length (contents w' (cl r)) = Z.to_nat (N * C) ∧
    (∀ n c, 0 ≤ n < N → 0 ≤ c < C →
       load (contents w' (cl r)) (n * C + c)
       = f_sub fl (load (contents w (cl g)) (n * C + c))
           (f_mul fl (f_exp fl (load (contents w (cl out)) (n * C + c)))
              (foldl (λ acc c', f_add fl acc (load (contents w (cl g)) (n * C + c')))
                 0 (seqZ 0 C)))).
Proof.
  intros Hso Hsg HN HC Hb Ho Hg _ _.
  set (os := contents w (cl out)). set (gs := contents w (cl g)).
  set (lsum := (λ n, foldl (λ acc c, f_add fl acc (load gs (n * C + c))) 0 (seqZ 0 C))
               <$> seqZ 0 N).
  set (texp := (λ gid, f_mul fl (f_exp fl (load os gid)) (load lsum (gid `div` C)))
               <$> seqZ 0 (N * C)).
  assert (Hnp : np_prod [N; C] = N * C) by apply np_prod_2.
  assert (Hwp : wp (LogSoftmax.backward fl ctx out g) w (λ r w',
            r = mkBuf [N; C] (length (mem w) + 7) ∧
            contents w' (cl r)
            = (λ gid, f_sub fl (load gs gid) (load texp gid)) <$> seqZ 0 (N * C))).
  { unfold LogSoftmax.backward. apply wp_bind.
    eapply wp_mono; [exact (reduce_rows_spec ctx _ _ g N C w Hsg HN HC Hb Hg)|].
    cbv beta. intros r1 w1 [-> Hm1]. cbn [c1_fn c2_fn code_out] in Hm1. fold gs lsum in Hm1.
    assert (Hl1 : length (mem w1) = (length (mem w) + 3)%nat)
      by (rewrite Hm1, length_app; simpl; lia).
    apply wp_bind.
    eapply wp_mono;
      [apply (binary_op_rows_spec ctx _ out (mkBuf [N; 1] (length (mem w))) N C w1);
       try done; simpl; lia|].
    cbv beta. intros r2 w2 [-> Hm2]. cbn [c2_fn cl] in Hm2.
    rewrite (contents_app_l _ _ _ _ Hm1 Ho) in Hm2. fold os in Hm2.
    rewrite (contents_app_fresh _ _ _ _ Hm1) in Hm2. fold texp in Hm2.
    assert (Hl2 : length (mem w2) = (length (mem w1) + 4)%nat)
      by (rewrite Hm2, length_app; simpl; lia).
    pose proof (binary_op_spec ctx (mkCode2 "a - b" (f_sub fl)) g
                  (mkBuf [N; C] (length (mem w1))) w2) as H.
    cbv zeta in H. rewrite Hsg in H. cbn [shape length Nat.max] in H.
    rewrite !left_aligned_full, zip_with_max_id, Hnp in H by done.
    specialize (H ltac:(repeat constructor; lia) ltac:(repeat constructor; lia)
                  ltac:(intros i a b Ha Hb'; left; congruence) Hb
                  ltac:(simpl; unfold int_max; lia) ltac:(lia) ltac:(simpl; lia)).
    eapply wp_mono; [exact H|]. cbv beta. intros r3 w3 [-> Hm3]. cbn [c2_fn cl] in Hm3.
    split; [f_equal; lia|]. cbn [cl].
    rewrite (contents_app_fresh _ _ _ _ Hm3).
    rewrite (contents_app_l _ _ _ _ Hm2) by lia.
    rewrite (contents_app_l _ _ _ _ Hm1 Hg). fold gs.
    rewrite (contents_app_fresh _ _ _ _ Hm2).
    apply list.Forall_fmap_ext_1, list.Forall_forall. intros gid Hgid.
    apply elem_of_seqZ in Hgid.
    by rewrite !broadcast_index_id by (rewrite ?Hnp; (repeat constructor; lia) || lia). }
  destruct (wp_elim _ _ _ Hwp) as (r & w' & E & -> & Hc).
  eexists _, w'. split; [exact E|]. split; [done|]. rewrite Hc.
  split; [by rewrite length_fmap, length_seqZ|].
  intros n c Hn Hc'.
  assert (0 ≤ n * C + c < N * C) by nia.
  rewrite load_fmap_seqZ by done. unfold texp. rewrite load_fmap_seqZ by done.
  destruct (div_mod_block n C c Hc') as [-> _].
  unfold lsum. by rewrite load_fmap_seqZ.
Qed.

Lemma logsoftmax_backward_rows_witness :
  let fl := mkFloatPrims (λ a b, a) (λ a, 2 * a) (λ a, a + 1) Z.div Z.add Z.sub Z.mul in
  ∃ r w', LogSoftmax.backward fl example_ctx (mkBuf [1; 3] 0) (mkBuf [1; 3] 0) example_world
          = (Ok r, w') ∧
    shape r = [1; 3] ∧ load (contents w' (cl r)) (0 * 3 + 1) = 2 - 4 * 6.
Proof.
  intros fl.
  assert (Hb : 1 * 3 ≤ int_max) by (vm_compute; discriminate).
  destruct (logsoftmax_backward_rows fl example_ctx (mkBuf [1; 3] 0) (mkBuf [1; 3] 0) 1 3
              example_world eq_refl eq_refl ltac:(lia) ltac:(lia) Hb
              ltac:(simpl; lia) ltac:(simpl; lia) eq_refl eq_refl)
    as (r & w' & E & Hs & _ & Hv).
  exists r, w'. split; [exact E|]. split; [exact Hs|].
  exact (Hv 0 1 ltac:(lia) ltac:(lia)).
Defined.

(* ===================================================================== *)
(** * Convolution *)
(* ===================================================================== *)

Lemma mul_pos_bound p q : 0 ≤ p → 1 ≤ q → 0 ≤ p * q ∧ p ≤ p * q.
Proof. intros. nia. Qed.

(** A row-major index of five coordinates computed in [int] arithmetic,
    as the kernels write it. *)
Lemma int_flat5 a A b B c C d D e E :
  0 ≤ a < A → 0 ≤ b < B → 0 ≤ c < C → 0 ≤ d < D → 0 ≤ e < E →
  A * B * C * D * E < 2^31 →
  a ⊗ B ⊗ C ⊗ D ⊗ E ⊕ b ⊗ C ⊗ D ⊗ E ⊕ c ⊗ D ⊗ E ⊕ d ⊗ E ⊕ e
  = (((a * B + b) * C + c) * D + d) * E + e
  ∧ 0 ≤ (((a * B + b) * C + c) * D + d) * E + e < A * B * C * D * E.
Proof.
  intros Ha Hb Hc Hd He Ht.
  destruct (mul_pos_bound a B) as [p1 _]; [lia..|].
  destruct (mul_pos_bound (a * B) C) as [p2 q2]; [lia..|].
  destruct (mul_pos_bound (a * B * C) D) as [p3 q3]; [lia..|].
  destruct (mul_pos_bound (a * B * C * D) E) as [p4 q4]; [lia..|].
  destruct (mul_pos_bound b C) as [r2 s2]; [lia..|].
  destruct (mul_pos_bound (b * C) D) as [r3 s3]; [lia..|].
  destruct (mul_pos_bound (b * C * D) E) as [r4 s4]; [lia..|].
  destruct (mul_pos_bound c D) as [t3 u3]; [lia..|].
  destruct (mul_pos_bound (c * D) E) as [t4 u4]; [lia..|].
  destruct (mul_pos_bound d E) as [v4 x4]; [lia..|].
  assert (E1 : (((a * B + b) * C + c) * D + d) * E + e
               = a * B * C * D * E + b * C * D * E + c * D * E + d * E + e) by ring.
  assert (B1 : a * B + b + 1 ≤ A * B) by nia.
  assert (B2 : (a * B + b) * C + c + 1 ≤ A * B * C).
  { assert ((a * B + b + 1) * C ≤ A * B * C) by (apply Z.mul_le_mono_nonneg_r; lia). lia. }
  assert (B3 : ((a * B + b) * C + c) * D + d + 1 ≤ A * B * C * D).
  { assert (((a * B + b) * C + c + 1) * D ≤ A * B * C * D)
      by (apply Z.mul_le_mono_nonneg_r; lia). lia. }
  assert (B4 : (((a * B + b) * C + c) * D + d) * E + e + 1 ≤ A * B * C * D * E).
  { assert ((((a * B + b) * C + c) * D + d + 1) * E ≤ A * B * C * D * E)
      by (apply Z.mul_le_mono_nonneg_r; lia). lia. }
  split; [|lia].
  rewrite (int_mul_small a B), (int_mul_small (a * B) C), (int_mul_small (a * B * C) D),
    (int_mul_small (a * B * C * D) E) by lia.
  rewrite (int_mul_small b C), (int_mul_small (b * C) D), (int_mul_small (b * C * D) E) by lia.
  rewrite (int_mul_small c D), (int_mul_small (c * D) E), (int_mul_small d E) by lia.
  rewrite (int_add_small (a * B * C * D * E)) by lia.
  rewrite (int_add_small (a * B * C * D * E + b * C * D * E)) by lia.
  rewrite (int_add_small (a * B * C * D * E + b * C * D * E + c * D * E)) by lia.
  rewrite (int_add_small (a * B * C * D * E + b * C * D * E + c * D * E + d * E)) by lia.
  lia.
Qed.

Lemma foldl_range3 {A} (f : A → Z → Z → Z → A) a n0 n1 n2 :
  foldl (λ a '(i, j, k), f a i j k) a (range3 n0 n1 n2)
  = foldl (λ a i, foldl (λ a j, foldl (λ a k, f a i j k) a (seqZ 0 n2)) a (seqZ 0 n1))
      a (seqZ 0 n0).
Proof.
  unfold range3. rewrite foldl_bind. apply foldl_ext_in. intros a1 i _.
  rewrite foldl_bind. apply foldl_ext_in. intros a2 j _.
  rewrite foldl_bind. by apply foldl_ext_in.
Qed.

Lemma foldl_seqZ_shift {A} (f : A → Z → A) a m n :
  foldl f a (seqZ m n) = foldl (λ a d, f a (m + d)) a (seqZ 0 n).
Proof.
  rewrite <- (Z.add_0_r m) at 1. rewrite <- fmap_add_seqZ.
  by rewrite foldl_fmap.
Qed.

Lemma size_t_small z : 0 ≤ z < 2^31 → Conv2D.size_t z = z.
Proof.
  intros Hz. unfold Conv2D.size_t. apply Z.mod_small.
  assert (2^31 < 2^64) by (vm_compute; reflexivity). lia.
Qed.

(** The batch, the group and the channel that the [conv] kernel decodes
    from [get_global_id(0)]. *)
Lemma conv_decode B g c bs G rcout :
  0 ≤ B < bs → 0 ≤ g < G → 0 ≤ c < rcout → bs * G * rcout < 2^31 →
  let g0 := (B * G + g) * rcout + c in
  0 ≤ g0 < bs * G * rcout ∧
  wrap32 (Conv2D.size_t g0 `div` Conv2D.size_t (G ⊗ rcout)) = B ∧
  wrap32 ((Conv2D.size_t g0 `div` Conv2D.size_t rcout) `mod` Conv2D.size_t G) = g ∧
  wrap32 (Conv2D.size_t g0 `mod` Conv2D.size_t rcout) = c.
Proof.
  intros HB Hg Hc Ht g0.
  assert (H1 : 0 ≤ B * G + g ∧ B * G + g + 1 ≤ bs * G) by nia.
  assert (H2 : 0 ≤ g0 ∧ g0 + 1 ≤ bs * G * rcout).
  { unfold g0. split; [nia|].
    assert ((B * G + g + 1) * rcout ≤ bs * G * rcout)
      by (apply Z.mul_le_mono_nonneg_r; lia). lia. }
  assert (H3 : 0 < G * rcout ∧ G * rcout ≤ bs * G * rcout ∧ G ≤ G * rcout
               ∧ rcout ≤ G * rcout) by nia.
  assert (H4 : 0 ≤ g * rcout + c < G * rcout) by nia.
  split; [lia|].
  rewrite (int_mul_small G rcout) by lia.
  rewrite !size_t_small by lia.
  assert (E0 : g0 = B * (G * rcout) + (g * rcout + c)) by (unfold g0; ring).
  destruct (div_mod_block B (G * rcout) (g * rcout + c) H4) as [D1 _].
  destruct (div_mod_block (B * G + g) rcout c Hc) as [D2 M2].
  destruct (div_mod_block B G g Hg) as [_ M3].
  fold g0 in D2, M2. rewrite <- E0 in D1.
  rewrite D1, D2, M2, M3. by rewrite !wrap32_small by lia.
Qed.

Section conv_kernel.
Context (input weight : list Z) (bs G rcout cin H W oy ox iy ix ys xs : Z).
Context (Hbs : 0 < bs) (HG : 0 < G) (Hrc : 0 < rcout) (Hcin : 0 < cin).
Context (HH : 0 < H) (HW : 0 < W) (Hys : 0 < ys) (Hxs : 0 < xs).
Context (Hoy : 0 < oy) (Hox : 0 < ox).
Context (Hfy : (oy - 1) * ys + H ≤ iy) (Hfx : (ox - 1) * xs + W ≤ ix).
Context (Hti : bs * G * cin * iy * ix < 2^31).
Context (Htw : G * rcout * cin * H * W < 2^31).
Context (Hto : bs * G * rcout * oy * ox < 2^31).

(** The work-item of the [conv] kernel for batch [B], group [g], channel
    [c] and position [(Y, X)]. *)
Lemma conv_kernel_ideal B g c Y X :
  0 ≤ B < bs → 0 ≤ g < G → 0 ≤ c < rcout → 0 ≤ Y < oy → 0 ≤ X < ox →
  Conv2D.conv_kernel input weight H W G rcout cin oy ox iy ix ys xs
    ((B * G + g) * rcout + c, Y, X)
  = Some ((((B * G + g) * rcout + c) * oy + Y) * ox + X,
          conv_cell input weight G rcout cin H W iy ix ys xs B g c Y X).
Proof.
  intros HB Hg Hc HY HX.
  assert (Hiy : 0 < iy) by nia. assert (Hix : 0 < ix) by nia.
  assert (Hbgr : bs * G * rcout < 2^31).
  { assert (0 < bs * G * rcout) by nia.
    assert (bs * G * rcout ≤ bs * G * rcout * oy) by nia.
    assert (bs * G * rcout * oy ≤ bs * G * rcout * oy * ox) by nia. lia. }
  assert (Hiyb : iy < 2^31 ∧ ix < 2^31).
  { assert (0 < bs * G * cin) by nia.
    assert (iy ≤ bs * G * cin * iy) by nia.
    assert (bs * G * cin * iy ≤ bs * G * cin * iy * ix) by nia.
    assert (0 < bs * G * cin * iy) by nia.
    assert (ix ≤ bs * G * cin * iy * ix) by nia. lia. }
  assert (HYs : 0 ≤ Y * ys ∧ Y * ys + H ≤ iy).
  { assert (Y * ys ≤ (oy - 1) * ys) by (apply Z.mul_le_mono_nonneg_r; lia). nia. }
  assert (HXs : 0 ≤ X * xs ∧ X * xs + W ≤ ix).
  { assert (X * xs ≤ (ox - 1) * xs) by (apply Z.mul_le_mono_nonneg_r; lia). nia. }
  destruct (conv_decode B g c bs G rcout HB Hg Hc Hbgr) as (Hg0 & DB & Dg & Dc).
  cbv zeta in Hg0, DB, Dg, Dc.
  unfold Conv2D.conv_kernel. rewrite DB, Dg, Dc.
  rewrite (wrap32_small Y), (wrap32_small X) by lia.
  rewrite (int_mul_small Y ys), (int_mul_small X xs) by lia.
  rewrite (int_add_small (Y * ys) H), (int_add_small (X * xs) W) by lia.
  replace (Y * ys + H - Y * ys) with H by lia.
  replace (X * xs + W - X * xs) with W by lia.
  destruct (int_flat5 B bs g G c rcout Y oy X ox HB Hg Hc HY HX Hto) as [-> _].
  f_equal. f_equal. unfold conv_cell.
  rewrite <- (Z.add_0_l (Zsum _)), <- foldl_add_Zsum_gen.
  etrans; [|symmetry;
    apply (foldl_ext_in _
             (λ a '(ci, dy, dx),
                a + load input ((((B * G + g) * cin + ci) * iy + (Y * ys + dy)) * ix
                                + (X * xs + dx))
                    * load weight ((((g * rcout + c) * cin + ci) * H + dy) * W + dx)));
    by intros a [[ci dy] dx] _].
  rewrite (foldl_range3
             (λ a ci dy dx,
                a + load input ((((B * G + g) * cin + ci) * iy + (Y * ys + dy)) * ix
                                + (X * xs + dx))
                    * load weight ((((g * rcout + c) * cin + ci) * H + dy) * W + dx))).
  apply foldl_ext_in. intros a1 ci Hci. apply elem_of_seqZ in Hci.
  rewrite foldl_seqZ_shift. apply foldl_ext_in. intros a2 dy Hdy. apply elem_of_seqZ in Hdy.
  rewrite foldl_seqZ_shift. apply foldl_ext_in. intros a3 dx Hdx. apply elem_of_seqZ in Hdx.
  destruct (int_flat5 B bs g G ci cin (Y * ys + dy) iy (X * xs + dx) ix) as [-> _];
    [lia..|done|].
  replace (Y * ys + dy - Y * ys) with dy by lia.
  replace (X * xs + dx - X * xs) with dx by lia.
  rewrite (wrap32_small dy), (wrap32_small dx) by lia.
  destruct (int_flat5 g G c rcout ci cin dy H dx W) as [-> _]; [lia..|done|].
  done.
Qed.

(** What a launch of [conv] leaves at the index of an output element. *)
Lemma conv_result_load out B g c Y X :
  length out = Z.to_nat (bs * G * rcout * oy * ox) →
  0 ≤ B < bs → 0 ≤ g < G → 0 ≤ c < rcout → 0 ≤ Y < oy → 0 ≤ X < ox →
  load (conv_result input weight H W G rcout cin oy ox iy ix ys xs (bs * G * rcout) out)
    ((((B * G + g) * rcout + c) * oy + Y) * ox + X)
  = conv_cell input weight G rcout cin H W iy ix ys xs B g c Y X.
Proof.
  intros Hlen HB Hg Hc HY HX.
  destruct (int_flat5 B bs g G c rcout Y oy X ox HB Hg Hc HY HX Hto) as [_ Hk].
  assert (Hbgr : bs * G * rcout < 2^31).
  { assert (0 < bs * G * rcout) by nia.
    assert (bs * G * rcout ≤ bs * G * rcout * oy) by nia.
    assert (bs * G * rcout * oy ≤ bs * G * rcout * oy * ox) by nia. lia. }
  destruct (conv_decode B g c bs G rcout HB Hg Hc Hbgr) as (Hg0 & _). cbv zeta in Hg0.
  unfold conv_result. apply load_lookup; [lia|].
  apply (foldl_store_lookup_eq _ _ _ _ _ ((B * G + g) * rcout + c, Y, X)).
  - by apply elem_of_range3.
  - rewrite Z2Nat.id by lia. by apply conv_kernel_ideal.
  - rewrite Hlen. lia.
  - intros [[g0' Y'] X'] v' Hg' Hb'. apply elem_of_range3 in Hg' as (Hg0' & HY' & HX').
    rewrite Z2Nat.id in Hb' by lia.
    destruct (flat3_decompose g0' bs G rcout HG Hrc Hg0')
      as (B' & g' & c' & HB' & Hg2 & Hc' & ->).
    replace (B' * G * rcout + g' * rcout + c') with ((B' * G + g') * rcout + c') in Hb' by ring.
    rewrite conv_kernel_ideal in Hb' by done.
    injection Hb' as E <-.
    destruct (flat3_inj X' ox Y' oy ((B' * G + g') * rcout + c') X Y ((B * G + g) * rcout + c))
      as (-> & -> & E3); [lia..|].
    assert (E4 : c' + rcout * (g' + G * B') = c + rcout * (g + G * B)) by lia.
    apply flat3_inj in E4 as (-> & -> & ->); [done|lia..].
Qed.
End conv_kernel.

Lemma prod5_bounds a b c d e :
  0 < a → 0 < b → 0 < c → 0 < d → 0 < e →
  a ≤ a * b * c * d * e ∧ b ≤ a * b * c * d * e ∧ c ≤ a * b * c * d * e ∧
  d ≤ a * b * c * d * e ∧ e ≤ a * b * c * d * e.
Proof.
  intros Ha Hb Hc Hd He.
  assert (0 < a * b) by nia. assert (0 < a * b * c) by nia.
  assert (0 < a * b * c * d) by nia.
  assert (a ≤ a * b ∧ b ≤ a * b) as [? ?] by nia.
  assert (a * b ≤ a * b * c ∧ c ≤ a * b * c) as [? ?] by nia.
  assert (a * b * c ≤ a * b * c * d ∧ d ≤ a * b * c * d) as [? ?] by nia.
  assert (a * b * c * d ≤ a * b * c * d * e ∧ e ≤ a * b * c * d * e) as [? ?] by nia.
  lia.
Qed.

Lemma conv_out_size n k s :
  0 < k ≤ n → 0 < s →
  0 < (n - (k - s)) `div` s ∧ ((n - (k - s)) `div` s - 1) * s + k ≤ n.
Proof.
  intros Hk Hs.
  pose proof (Z.div_mod (n - (k - s)) s ltac:(lia)) as E.
  pose proof (Z.mod_pos_bound (n - (k - s)) s Hs) as Hm.
  assert (1 ≤ (n - (k - s)) `div` s) by (apply Z.div_le_lower_bound; lia).
  split; [lia|]. nia.
Qed.

Lemma conv2d_forward_wp ctx (x wt : GPUBuffer) bs G rcout cin H W iy ix ys xs w :
  let oy := (iy - (H - ys)) `div` ys in
  let ox := (ix - (W - xs)) `div` xs in
  shape wt = [G * rcout; cin; H; W] → shape x = [bs; cin * G; iy; ix] →
  stride ctx = (ys, xs) → groups ctx = G →
  0 < G → ys ≠ 0 → xs ≠ 0 →
  int_range H → int_range W → int_range G → int_range rcout → int_range cin →
  int_range oy → int_range ox → int_range iy → int_range ix → int_range ys → int_range xs →
  (cl x < length (mem w))%nat → (cl wt < length (mem w))%nat →
  wp (Conv2D.forward ctx x wt G) w (λ r w',
    r = mkBuf [bs; G * rcout; oy; ox] (length (mem w)) ∧
    mem w' = mem w ++
      [conv_result (contents w (cl x)) (contents w (cl wt))
         H W G rcout cin oy ox iy ix ys xs (bs * G * rcout)
         (replicate (Z.to_nat (np_prod [bs; G * rcout; oy; ox])) 0)]).
Proof.
  intros oy ox Hsw Hsx Hst Hgr HG Hys Hxs.
  intros rH rW rG rrc rcin roy rox riy rix rys rxs Hx Hw.
  unfold Conv2D.forward. rewrite Hsw, Hsx, Hst, Hgr.
  rewrite !(bool_decide_false (_ = 0)) by lia. cbn [orb].
  fold oy ox.
  assert (Hd : (G * rcout) `div` G = rcout).
  { rewrite Z.mul_comm. apply Z.div_mul. lia. }
  assert (Hm : (G * rcout) `mod` G = 0).
  { rewrite Z.mul_comm. apply Z.mod_mul. lia. }
  rewrite Hd, Hm.
  apply wp_bind, wp_assert; [by apply bool_decide_eq_true|].
  apply wp_bind, wp_assert; [by apply bool_decide_eq_true|].
  rewrite !i32_small by done.
  apply wp_bind, wp_buffer_new.
  apply wp_bind, wp_clbuild. intros h w2 Hm2 _.
  apply wp_bind, wp_launch. apply wp_ret. simpl.
  split; [done|]. rewrite !Hm2. simpl.
  rewrite insert_app_fresh. f_equal. f_equal.
  unfold conv_result, deref, contents. by simpl_mem.
Qed.

(** X30.  [Conv2D.forward] computes the grouped, strided convolution, for
    operands of integers whose inner products a [float] accumulator computes
    without rounding.  For an input of shape (bs, G*cin, iy, ix) and a weight
    of shape (G*rcout, cin, H, W) with filters that fit, the result has shape
    (bs, G*rcout, oy, ox) with oy = (iy - (H - ys)) // ys and
    ox = (ix - (W - xs)) // xs, and its element for batch B, group g, channel
    c of the group and position (Y, X) is the sum, over the input channels
    of the group and the taps of the filter, of
    input[B, g*cin + ci, Y*ys + dy, X*xs + dx] * weight[g*rcout + c, ci, dy, dx]. *)
Theorem conv2d_forward_convolves ctx (x wt : GPUBuffer) bs G rcout cin H W iy ix ys xs w :
  let oy := (iy - (H - ys)) `div` ys in
  let ox := (ix - (W - xs)) `div` xs in
  shape wt = [G * rcout; cin; H; W] → shape x = [bs; cin * G; iy; ix] →
  stride ctx = (ys, xs) → groups ctx = G →
  0 < bs → 0 < G → 0 < rcout → 0 < cin → 0 < H ≤ iy → 0 < W ≤ ix →
  0 < ys ≤ int_max → 0 < xs ≤ int_max →
  bs * G * cin * iy * ix ≤ int_max → G * rcout * cin * H * W ≤ int_max →
  bs * G * rcout * oy * ox ≤ int_max →
  (cl x < length (mem w))%nat → (cl wt < length (mem w))%nat →
  length (contents w (cl x)) = Z.to_nat (bs * G * cin * iy * ix) →
  length (contents w (cl wt)) = Z.to_nat (G * rcout * cin * H * W) →
  f32_dot_exact (cin * H * W) (contents w (cl x)) (contents w (cl wt)) →
  ∃ r w', Conv2D.forward ctx x wt G w = (Ok r, w') ∧
    shape r = [bs; G * rcout; oy; ox] ∧
    length (contents w' (cl r)) = Z.to_nat (bs * G * rcout * oy * ox) ∧
    (∀ B g c Y X, 0 ≤ B < bs → 0 ≤ g < G → 0 ≤ c < rcout → 0 ≤ Y < oy → 0 ≤ X < ox →
       load (contents w' (cl r)) ((((B * G + g) * rcout + c) * oy + Y) * ox + X)
       = conv_cell (contents w (cl x)) (contents w (cl wt)) G rcout cin H W iy ix ys xs
           B g c Y X) ∧
    contents w' (cl x) = contents w (cl x) ∧ contents w' (cl wt) = contents w (cl wt).
Proof.
  intros oy ox Hsw Hsx Hst Hgr Hbs HG Hrc Hcin HH HW Hys Hxs Hti Htw Hto Hx Hw _ _ _.
  unfold int_max in *.
  destruct (conv_out_size iy H ys HH ltac:(lia)) as [Hoy Hfy].
  destruct (conv_out_size ix W xs HW ltac:(lia)) as [Hox Hfx].
  fold oy in Hoy, Hfy. fold ox in Hox, Hfx.
  assert (Eoy : (iy - (H - ys)) `div` ys = oy) by reflexivity.
  assert (Eox : (ix - (W - xs)) `div` xs = ox) by reflexivity.
  clearbody oy ox.
  destruct (prod5_bounds bs G cin iy ix) as (_ & b1 & b2 & b3 & b4); [lia..|].
  destruct (prod5_bounds G rcout cin H W) as (_ & c1 & _ & c3 & c4); [lia..|].
  destruct (prod5_bounds bs G rcout oy ox) as (_ & _ & _ & d3 & d4); [lia..|].
  pose proof (conv2d_forward_wp ctx x wt bs G rcout cin H W iy ix ys xs w) as Hwp.
  cbv zeta in Hwp. rewrite Eoy, Eox in Hwp.
  specialize (Hwp Hsw Hsx Hst Hgr HG ltac:(lia) ltac:(lia)).
  specialize (Hwp ltac:(unfold int_range, int_max; lia) ltac:(unfold int_range, int_max; lia)
                  ltac:(unfold int_range, int_max; lia) ltac:(unfold int_range, int_max; lia)
                  ltac:(unfold int_range, int_max; lia) ltac:(unfold int_range, int_max; lia)
                  ltac:(unfold int_range, int_max; lia) ltac:(unfold int_range, int_max; lia)
                  ltac:(unfold int_range, int_max; lia) ltac:(unfold int_range, int_max; lia)
                  ltac:(unfold int_range, int_max; lia) Hx Hw).
  destruct (wp_elim _ _ _ Hwp) as (r & w' & E & -> & Hm).
  eexists _, w'. split; [exact E|]. split; [done|]. cbn [cl].
  rewrite (contents_app_fresh _ _ _ _ Hm).
  assert (Hnp : np_prod [bs; G * rcout; oy; ox] = bs * G * rcout * oy * ox).
  { rewrite np_prod_4. ring. }
  split.
  { unfold conv_result. by rewrite length_foldl_store, length_replicate, Hnp. }
  split.
  - intros B g c Y X HB Hg Hc HY HX.
    apply (conv_result_load _ _ bs); try done; try lia.
    by rewrite length_replicate, Hnp.
  - split; by apply (contents_app_l _ _ _ _ Hm).
Qed.

Lemma conv2d_forward_convolves_witness :
  ∃ r w', Conv2D.forward (mkCtx 0 (2, 2) (1, 1) 1) (mkBuf [1; 1; 1; 3] 0) (mkBuf [1; 1; 1; 2] 1) 1
            (mkWorld [[1; 2; 3]; [10; 100]] [] [] []) = (Ok r, w') ∧
    shape r = [1; 1 * 1; 1; 2] ∧
    load (contents w' (cl r)) ((((0 * 1 + 0) * 1 + 0) * 1 + 0) * 2 + 1)
    = conv_cell [1; 2; 3] [10; 100] 1 1 1 1 2 1 3 1 1 0 0 0 0 1.
Proof.
  assert (H1 : 1 * 1 * 1 * 1 * 3 ≤ int_max) by (vm_compute; discriminate).
  assert (H2 : 1 * 1 * 1 * 1 * 2 ≤ int_max) by (vm_compute; discriminate).
  assert (H3 : 1 * 1 * 1 * ((1 - (1 - 1)) `div` 1) * ((3 - (2 - 1)) `div` 1) ≤ int_max)
    by (vm_compute; discriminate).
  assert (H4 : 0 < 1 ≤ int_max) by (vm_compute; split; [reflexivity|discriminate]).
  assert (Hf : f32_dot_exact (1 * 1 * 2) [1; 2; 3] [10; 100]).
  { exists 3, 100. split; [|split]; [solve_bounded..|vm_compute; discriminate]. }
  destruct (conv2d_forward_convolves (mkCtx 0 (2, 2) (1, 1) 1) (mkBuf [1; 1; 1; 3] 0)
              (mkBuf [1; 1; 1; 2] 1) 1 1 1 1 1 2 1 3 1 1
              (mkWorld [[1; 2; 3]; [10; 100]] [] [] [])
              eq_refl eq_refl eq_refl eq_refl ltac:(lia) ltac:(lia) ltac:(lia) ltac:(lia)
              ltac:(lia) ltac:(lia) H4 H4 H1 H2 H3 ltac:(simpl; lia) ltac:(simpl; lia)
              eq_refl eq_refl Hf)
    as (r & w' & E & Hs & _ & Hv & _).
  exists r, w'. split; [exact E|]. split; [exact Hs|].
  exact (Hv 0 0 0 0 1 ltac:(lia) ltac:(lia) ltac:(lia)
           ltac:(split; [done|reflexivity]) ltac:(split; [done|reflexivity])).
Defined.
